(** * pyPPC: a shallow embedding of the configuration pipeline

    The development follows the Python sources of the library
    ([lexer.py], [parser.py], [types.py], [secrets.py], [evaluator.py],
    [config.py] and the serializer of [__init__.py]).

    Conventions of the embedding.
    - A Python [str] is a [list ascii]; the character predicates of the
      interpreter ([isalnum], [isspace], [lower], the regular-expression
      classes [\w] and [\s]) are given on the 7-bit range, where they do not
      depend on the Unicode tables.
    - A Python [dict] is an association list in insertion order, its keys
      pairwise distinct ([wf_dict]).
    - The lexer and the parser keep the text and the token list through the
      part that is still to be read (the suffix at [pos]).
    - A computation that may raise returns an [outcome]; loops and recursive
      calls whose termination is not structural take a fuel argument and
      return [Diverge] when it runs out.
    - Floating-point arithmetic and the text of [repr] belong to the
      interpreter: they are the operations of the class [PyRuntime]. *)

From Stdlib Require Import List Ascii String ZArith Lia Bool Arith.
From Stdlib Require Decimal DecimalString DecimalNat DecimalZ DecimalPos DecimalFacts.
Import ListNotations.

Set Implicit Arguments.
#[global] Set Warnings "-register-all".

(** ** Python strings *)

Module PyStr.

Definition str : Type := list ascii.

Definition lit (x : string) : str := list_ascii_of_string x.

Definition dquote : ascii := "034"%char.
Definition squote : ascii := "'"%char.
Definition backslash : ascii := "\"%char.
Definition newline : ascii := "010"%char.
Definition tab : ascii := "009"%char.
Definition space : ascii := " "%char.

Definition str_eqb (a b : str) : bool :=
  if list_eq_dec ascii_dec a b then true else false.

Definition code (c : ascii) : nat := nat_of_ascii c.

Definition in_range (lo hi : nat) (c : ascii) : bool :=
  (lo <=? code c) && (code c <=? hi).

Definition is_digit (c : ascii) : bool := in_range 48 57 c.
Definition is_upper (c : ascii) : bool := in_range 65 90 c.
Definition is_lower (c : ascii) : bool := in_range 97 122 c.
Definition is_alpha (c : ascii) : bool := is_upper c || is_lower c.

(** [str.isalnum] on one character. *)
Definition isalnum (c : ascii) : bool := is_alpha c || is_digit c.

(** [str.isspace] on one character: TAB, LF, VT, FF, CR, FS, GS, RS, US and
    the space; it is also the class [\s] of the [re] module. *)
Definition isspace (c : ascii) : bool :=
  in_range 9 13 c || in_range 28 31 c || Ascii.eqb c space.

(** The class [\w] of the [re] module. *)
Definition is_word (c : ascii) : bool := isalnum c || Ascii.eqb c "_"%char.

Definition lower_char (c : ascii) : ascii :=
  if is_upper c then ascii_of_nat (code c + 32) else c.

(** [str.lower]. *)
Definition lower (s : str) : str := map lower_char s.

Fixpoint drop_while (p : ascii -> bool) (s : str) : str :=
  match s with
  | [] => []
  | c :: s' => if p c then drop_while p s' else s
  end.

Fixpoint take_while (p : ascii -> bool) (s : str) : str :=
  match s with
  | [] => []
  | c :: s' => if p c then c :: take_while p s' else []
  end.

(** [str.strip]. *)
Definition strip (s : str) : str :=
  rev (drop_while isspace (rev (drop_while isspace s))).

(** [s.split(sep)] for a separator of one character. *)
Fixpoint split (sep : ascii) (s : str) : list str :=
  match s with
  | [] => [[]]
  | c :: s' =>
      if Ascii.eqb c sep then [] :: split sep s'
      else match split sep s' with
           | w :: ws => (c :: w) :: ws
           | [] => [[c]]
           end
  end.

(** [sep.join(parts)]. *)
Fixpoint join (sep : str) (parts : list str) : str :=
  match parts with
  | [] => []
  | [p] => p
  | p :: ps => p ++ sep ++ join sep ps
  end.

(** [c in s] for a character [c]. *)
Definition contains (c : ascii) (s : str) : bool := existsb (Ascii.eqb c) s.

(** [text[pos:pos+len(p)] == p], on the suffix at [pos]. *)
Fixpoint starts_with (p s : str) : bool :=
  match p, s with
  | [], _ => true
  | _ :: _, [] => false
  | a :: p', b :: s' => Ascii.eqb a b && starts_with p' s'
  end.

(** [x in (a, b, ...)] for strings. *)
Definition str_in (x : str) (l : list str) : bool := existsb (str_eqb x) l.

Definition digit_val (c : ascii) : Z := Z.of_nat (code c) - 48.

(** The digits of [int(s)]: decimal digits, a single underscore allowed
    between two digits. [prev] tells whether the previous character was a
    digit. *)
Fixpoint int_digits (s : str) (acc : Z) (prev : bool) : option Z :=
  match s with
  | [] => if prev then Some acc else None
  | c :: s' =>
      if is_digit c then int_digits s' (acc * 10 + digit_val c) true
      else if Ascii.eqb c "_"%char then
        if prev then int_digits s' acc false else None
      else None
  end.

(** The white space that [int] and [float] skip around the text of a
    number: TAB, LF, VT, FF, CR and the space. *)
Definition is_number_space (c : ascii) : bool :=
  in_range 9 13 c || Ascii.eqb c space.

Definition number_text (s : str) : str :=
  rev (drop_while is_number_space (rev (drop_while is_number_space s))).

(** [int(s)] for a string [s]: surrounding white space is dropped, a sign may
    come first; [None] is the [ValueError]. *)
Definition py_int (s : str) : option Z :=
  match number_text s with
  | "+"%char :: r => int_digits r 0 false
  | "-"%char :: r => option_map Z.opp (int_digits r 0 false)
  | r => int_digits r 0 false
  end.

(** [str(n)] for integers. *)
Definition str_of_nat (n : nat) : str :=
  lit (DecimalString.NilZero.string_of_uint (Nat.to_uint n)).

Definition str_of_Z (z : Z) : str :=
  lit (DecimalString.NilZero.string_of_int (Z.to_int z)).

End PyStr.

Import PyStr.

(** ** The interpreter's floating point and [repr] *)

(** The kinds of the built-in exceptions that this code can meet. *)
Inductive builtin_kind : Type :=
| PyValueError
| PyTypeError
| PyOverflowError
| PyAttributeError
| PyKeyError
| PyOSError.

Class PyRuntime : Type := {
  pyfloat : Type;
  (** [float(s)] for a string; [None] is the [ValueError]. *)
  float_of_str : str -> option pyfloat;
  (** [float(n)] for an integer; [None] is the [OverflowError]. *)
  float_of_int : Z -> option pyfloat;
  (** [int(x)] for a float: [ValueError] on a NaN, [OverflowError] on an
      infinity. *)
  int_of_float : pyfloat -> builtin_kind + Z;
  (** [str(x)] for a float. *)
  str_of_float : pyfloat -> str;
  (** [repr(s)] for a string. *)
  repr_of_str : str -> str
}.

(** ** Exceptions ([exceptions.py]) *)

Inductive exn_class : Type :=
| LexerError
| ParseError
| TypeError
| EvaluationError
| IncludeError
| SecretError
| Builtin (k : builtin_kind).

(** [PPCError(message, line, column)]; a built-in exception is kept with its
    class and text only. *)
Record exn : Type := mk_exn {
  exn_class_of : exn_class;
  exn_message : str;
  exn_line : option nat;
  exn_column : option nat
}.

(** [PPCError._format_message]. *)
Definition format_message (message : str) (line column : option nat) : str :=
  match line with
  | Some l =>
      let location := lit " (line " ++ str_of_nat l in
      let location :=
        match column with
        | Some c => location ++ lit ", column " ++ str_of_nat c
        | None => location
        end in
      message ++ location ++ lit ")"
  | None => message
  end.

(** [str(e)]: a [PPCError] passes the formatted message to [Exception]. *)
Definition exn_str (e : exn) : str :=
  match exn_class_of e with
  | Builtin _ => exn_message e
  | _ => format_message (exn_message e) (exn_line e) (exn_column e)
  end.

Definition builtin_exn (k : builtin_kind) (message : str) : exn :=
  mk_exn (Builtin k) message None None.

(** ** Computations that may raise or fail to return *)

Inductive outcome (A : Type) : Type :=
| Done (a : A)
| Raise (e : exn)
| Diverge.

Arguments Done {A} a.
Arguments Raise {A} e.
Arguments Diverge {A}.

Definition bind {A B : Type} (c : outcome A) (k : A -> outcome B) : outcome B :=
  match c with
  | Done a => k a
  | Raise e => Raise e
  | Diverge => Diverge
  end.

Notation "x <- c ;; k" := (bind c (fun x => k))
  (at level 61, c at next level, right associativity).
Notation "' p <- c ;; k" := (bind c (fun x => let 'p := x in k))
  (at level 61, p pattern, c at next level, right associativity).

(** ** Python values and dictionaries *)

Section Values.
Context {RT : PyRuntime}.

Inductive value : Type :=
| VNone
| VBool (b : bool)
| VInt (z : Z)
| VFloat (x : pyfloat)
| VStr (s : str)
| VList (items : list value)
| VDict (entries : list (str * value)).

Definition dict : Type := list (str * value).

(** [d.get(key)]. *)
Fixpoint dict_get (key : str) (d : dict) : option value :=
  match d with
  | [] => None
  | (k, v) :: d' => if str_eqb key k then Some v else dict_get key d'
  end.

(** [key in d]. *)
Definition dict_mem (key : str) (d : dict) : bool :=
  match dict_get key d with Some _ => true | None => false end.

(** [d[key] = v]: the entry of an existing key is replaced where it stands,
    a new key is appended. *)
Fixpoint dict_set (key : str) (v : value) (d : dict) : dict :=
  match d with
  | [] => [(key, v)]
  | (k, w) :: d' =>
      if str_eqb key k then (k, v) :: d' else (k, w) :: dict_set key v d'
  end.

Definition keys (d : dict) : list str := map fst d.

(** [type(v).__name__]. *)
Definition type_name (v : value) : str :=
  match v with
  | VNone => lit "NoneType"
  | VBool _ => lit "bool"
  | VInt _ => lit "int"
  | VFloat _ => lit "float"
  | VStr _ => lit "str"
  | VList _ => lit "list"
  | VDict _ => lit "dict"
  end.

(** [repr(v)]. *)
Fixpoint py_repr (v : value) : str :=
  match v with
  | VNone => lit "None"
  | VBool true => lit "True"
  | VBool false => lit "False"
  | VInt z => str_of_Z z
  | VFloat x => str_of_float x
  | VStr s => repr_of_str s
  | VList items =>
      lit "[" ++ join (lit ", ") (map py_repr items) ++ lit "]"
  | VDict entries =>
      lit "{" ++
      join (lit ", ")
        (map (fun kv => repr_of_str (fst kv) ++ lit ": " ++ py_repr (snd kv))
             entries) ++
      lit "}"
  end.

(** [str(v)]. *)
Definition py_str (v : value) : str :=
  match v with
  | VStr s => s
  | _ => py_repr v
  end.

End Values.

Arguments value {RT}.
Arguments dict {RT}.

(** ** Lexer ([lexer.py]) *)

Module Lexer.

Inductive TokenType : Type :=
| SECTION | SECTION_WHEN | INCLUDE
| KEY | TYPE_HINT | EQUALS | VALUE
| STRING | NUMBER | BOOLEAN | NULL | ENV_VAR | SECRET | DEFAULT_OP
| LBRACKET | RBRACKET | COMMA
| COMMENT | NEWLINE | INDENT | EOF.

Definition TokenType_eqb (a b : TokenType) : bool :=
  match a, b with
  | SECTION, SECTION | SECTION_WHEN, SECTION_WHEN | INCLUDE, INCLUDE
  | KEY, KEY | TYPE_HINT, TYPE_HINT | EQUALS, EQUALS | VALUE, VALUE
  | STRING, STRING | NUMBER, NUMBER | BOOLEAN, BOOLEAN | NULL, NULL
  | ENV_VAR, ENV_VAR | SECRET, SECRET | DEFAULT_OP, DEFAULT_OP
  | LBRACKET, LBRACKET | RBRACKET, RBRACKET | COMMA, COMMA
  | COMMENT, COMMENT | NEWLINE, NEWLINE | INDENT, INDENT | EOF, EOF => true
  | _, _ => false
  end.

(** [TokenType.name]. *)
Definition TokenType_name (t : TokenType) : str :=
  match t with
  | SECTION => lit "SECTION" | SECTION_WHEN => lit "SECTION_WHEN"
  | INCLUDE => lit "INCLUDE" | KEY => lit "KEY"
  | TYPE_HINT => lit "TYPE_HINT" | EQUALS => lit "EQUALS"
  | VALUE => lit "VALUE" | STRING => lit "STRING" | NUMBER => lit "NUMBER"
  | BOOLEAN => lit "BOOLEAN" | NULL => lit "NULL" | ENV_VAR => lit "ENV_VAR"
  | SECRET => lit "SECRET" | DEFAULT_OP => lit "DEFAULT_OP"
  | LBRACKET => lit "LBRACKET" | RBRACKET => lit "RBRACKET"
  | COMMA => lit "COMMA" | COMMENT => lit "COMMENT"
  | NEWLINE => lit "NEWLINE" | INDENT => lit "INDENT" | EOF => lit "EOF"
  end.

Record Token : Type := mkToken {
  tk_type : TokenType;
  tk_value : str;
  tk_line : nat;
  tk_column : nat
}.

(** The lexer's fields: [rest] is [text[pos:]]. *)
Record state : Type := mkState {
  rest : str;
  line : nat;
  column : nat
}.

Definition init (text : str) : state := mkState text 1 1.

Definition current_char (st : state) : option ascii := hd_error (rest st).

Definition peek (st : state) : option ascii := nth_error (rest st) 1.

Definition current_is (c : ascii) (st : state) : bool :=
  match current_char st with Some d => Ascii.eqb d c | None => false end.

Definition peek_is (c : ascii) (st : state) : bool :=
  match peek st with Some d => Ascii.eqb d c | None => false end.

(** One round of the loop of [_advance]. *)
Definition advance1 (st : state) : str * state :=
  match rest st with
  | [] => ([], st)
  | c :: r =>
      ([c], if Ascii.eqb c newline then mkState r (S (line st)) 1
            else mkState r (line st) (S (column st)))
  end.

Fixpoint advance (count : nat) (st : state) : str * state :=
  match count with
  | O => ([], st)
  | S n =>
      let (a, st1) := advance1 st in
      let (b, st2) := advance n st1 in
      (a ++ b, st2)
  end.

(** [while self._current_char() <satisfies p>: result += self._advance()]. *)
Fixpoint read_while_from (p : ascii -> bool) (s : str) (ln col : nat)
  : str * state :=
  match s with
  | [] => ([], mkState [] ln col)
  | c :: s' =>
      if p c then
        let (r, st) :=
          if Ascii.eqb c newline then read_while_from p s' (S ln) 1
          else read_while_from p s' ln (S col) in
        (c :: r, st)
      else ([], mkState s ln col)
  end.

Definition read_while (p : ascii -> bool) (st : state) : str * state :=
  read_while_from p (rest st) (line st) (column st).

Definition is_blank (c : ascii) : bool := Ascii.eqb c space || Ascii.eqb c tab.

(** [_skip_whitespace_on_line]: the count and the state reached. *)
Definition skip_whitespace_on_line (st : state) : nat * state :=
  let (r, st') := read_while is_blank st in (List.length r, st').

(** [_read_until(end_chars)]; [include_end] is never set by the callers. *)
Definition read_until (end_chars : str) (st : state) : str * state :=
  read_while (fun c => negb (contains c end_chars)) st.

(** The character that an escape sequence stands for in [_read_string]. *)
Definition unescape (quote_char next_char : ascii) : ascii :=
  if Ascii.eqb next_char "n"%char then newline
  else if Ascii.eqb next_char "t"%char then tab
  else if Ascii.eqb next_char backslash then backslash
  else if Ascii.eqb next_char quote_char then quote_char
  else next_char.

Definition next_line (c : ascii) (ln : nat) : nat :=
  if Ascii.eqb c newline then S ln else ln.

Definition next_column (c : ascii) (col : nat) : nat :=
  if Ascii.eqb c newline then 1 else S col.

(** The loop of [_read_string], after the opening quote. *)
Fixpoint read_string_from (quote_char : ascii) (s : str) (ln col : nat)
  : str * state :=
  match s with
  | [] => ([], mkState [] ln col)
  | c :: s1 =>
      let ln1 := next_line c ln in
      let col1 := next_column c col in
      if Ascii.eqb c backslash then
        match s1 with
        | [] => ([], mkState [] ln1 col1)
        | d :: s2 =>
            let (r, st) :=
              read_string_from quote_char s2 (next_line d ln1) (next_column d col1) in
            (unescape quote_char d :: r, st)
        end
      else if Ascii.eqb c quote_char then ([], mkState s1 ln1 col1)
      else
        let (r, st) := read_string_from quote_char s1 ln1 col1 in
        (c :: r, st)
  end.

Definition read_string (quote_char : ascii) (st : state) : str * state :=
  let (_, st1) := advance1 st in
  read_string_from quote_char (rest st1) (line st1) (column st1).

(** The loop [while self._current_char() == "\n": self._advance();
    self._skip_whitespace_on_line()] of [_read_array]; [in_ws] holds inside
    the inner skip of blanks. *)
Fixpoint skip_newlines_from (in_ws : bool) (s : str) (ln col : nat) : state :=
  match s with
  | [] => mkState [] ln col
  | c :: s' =>
      if Ascii.eqb c newline then skip_newlines_from true s' (S ln) 1
      else if in_ws && is_blank c then skip_newlines_from true s' ln (S col)
      else mkState s ln col
  end.

Definition skip_newlines (st : state) : state :=
  skip_newlines_from false (rest st) (line st) (column st).

Definition is_name_char (c : ascii) : bool := isalnum c || Ascii.eqb c "_"%char.

Definition is_key_char (c : ascii) : bool :=
  isalnum c || Ascii.eqb c "_"%char || Ascii.eqb c "-"%char.

(** The characters that end a bare value. *)
Definition is_value_end (c : ascii) : bool :=
  Ascii.eqb c space || Ascii.eqb c tab || Ascii.eqb c newline ||
  Ascii.eqb c "#"%char || Ascii.eqb c ","%char || Ascii.eqb c "]"%char ||
  Ascii.eqb c "?"%char.

Definition lexer_error (message : str) (ln col : nat) : exn :=
  mk_exn LexerError message (Some ln) (Some col).

Section WithRuntime.
Context {RT : PyRuntime}.

(** The classification of a bare value in [_read_value_token]. *)
Definition classify (v : str) (ln col : nat) : Token :=
  if str_in (lower v) [lit "true"; lit "yes"; lit "on"] then
    mkToken BOOLEAN (lit "true") ln col
  else if str_in (lower v) [lit "false"; lit "no"; lit "off"] then
    mkToken BOOLEAN (lit "false") ln col
  else if str_in (lower v) [lit "null"; lit "none"; lit "nil"] then
    mkToken NULL (lit "null") ln col
  else
    let numeric :=
      if contains "."%char v
      then match float_of_str v with Some _ => true | None => false end
      else match py_int v with Some _ => true | None => false end in
    if numeric then mkToken NUMBER v ln col else mkToken STRING v ln col.

(** The tail of [_read_value_token]: the default operator. *)
Definition read_default
    (read_value : state -> outcome (list Token * state))
    (tokens : list Token) (st : state) : outcome (list Token * state) :=
  let (_, st1) := skip_whitespace_on_line st in
  if current_is "?"%char st1 && peek_is "?"%char st1 then
    let tokens := tokens ++ [mkToken DEFAULT_OP (lit "??") (line st1) (column st1)] in
    let (_, st2) := advance 2 st1 in
    let (_, st3) := skip_whitespace_on_line st2 in
    '(more, st4) <- read_value st3 ;;
    Done (tokens ++ more, st4)
  else Done (tokens, st1).

(** [_read_value_token], [_read_array] and the loop of [_read_array]. *)
Fixpoint read_value_token (fuel : nat) (st : state)
  : outcome (list Token * state) :=
  match fuel with
  | O => Diverge
  | S fuel' =>
      let start_line := line st in
      let start_col := column st in
      if current_is dquote st || current_is squote st then
        let quote_char := if current_is dquote st then dquote else squote in
        let (v, st1) := read_string quote_char st in
        read_default (read_value_token fuel')
          [mkToken STRING v start_line start_col] st1
      else if current_is "["%char st then
        '(tokens, st1) <- read_array fuel' st ;;
        read_default (read_value_token fuel') tokens st1
      else if current_is "$"%char st then
        let (_, st1) := advance1 st in
        if starts_with (lit "env") (rest st1) then
          let (_, st2) := advance 4 st1 in
          let (name, st3) := read_while is_name_char st2 in
          read_default (read_value_token fuel')
            [mkToken ENV_VAR name start_line start_col] st3
        else if starts_with (lit "secret") (rest st1) then
          let (_, st2) := advance 7 st1 in
          let (name, st3) := read_while is_name_char st2 in
          read_default (read_value_token fuel')
            [mkToken SECRET name start_line start_col] st3
        else
          Raise (lexer_error (lit "Invalid variable reference") start_line start_col)
      else
        let (v, st1) := read_while (fun c => negb (is_value_end c)) st in
        match v with
        | [] => Done ([], st1)
        | _ :: _ =>
            read_default (read_value_token fuel')
              [classify v start_line start_col] st1
        end
  end

with read_array (fuel : nat) (st : state) : outcome (list Token * state) :=
  match fuel with
  | O => Diverge
  | S fuel' =>
      let start_line := line st in
      let start_col := column st in
      let (_, st0) := advance1 st in
      '(tokens, st1) <-
         read_array_loop fuel' st0
           [mkToken LBRACKET (lit "[") start_line start_col] ;;
      if current_is "]"%char st1 then
        Done (tokens ++ [mkToken RBRACKET (lit "]") (line st1) (column st1)],
              snd (advance1 st1))
      else Done (tokens, st1)
  end

with read_array_loop (fuel : nat) (st : state) (tokens : list Token)
  : outcome (list Token * state) :=
  match fuel with
  | O => Diverge
  | S fuel' =>
      match current_char st with
      | None => Done (tokens, st)
      | Some c =>
          if Ascii.eqb c "]"%char then Done (tokens, st)
          else
            let (_, st1) := skip_whitespace_on_line st in
            let st2 := skip_newlines st1 in
            if current_is "]"%char st2 then Done (tokens, st2)
            else if current_is "#"%char st2 then
              let (_, st3) := read_until [newline] st2 in
              read_array_loop fuel' st3 tokens
            else
              '(val_tokens, st3) <- read_value_token fuel' st2 ;;
              let tokens := tokens ++ val_tokens in
              let (_, st4) := skip_whitespace_on_line st3 in
              if current_is ","%char st4 then
                read_array_loop fuel' (snd (advance1 st4))
                  (tokens ++ [mkToken COMMA (lit ",") (line st4) (column st4)])
              else read_array_loop fuel' st4 tokens
      end
  end.

(** The loop of [Lexer.tokenize]; [tokens] is [self.tokens]. *)
Fixpoint tokenize_loop (fuel : nat) (st : state) (tokens : list Token)
  : outcome (list Token) :=
  match fuel with
  | O => Diverge
  | S fuel' =>
      match current_char st with
      | None => Done (tokens ++ [mkToken EOF [] (line st) (column st)])
      | Some char =>
          let start_line := line st in
          let start_col := column st in
          if Ascii.eqb char newline then
            let tokens :=
              tokens ++ [mkToken NEWLINE (lit "\n") start_line start_col] in
            let (_, st1) := advance1 st in
            let (indent, st2) := skip_whitespace_on_line st1 in
            let significant :=
              match current_char st2 with
              | None => false
              | Some d => negb (Ascii.eqb d newline || Ascii.eqb d "#"%char)
              end in
            if (0 <? indent) && significant then
              tokenize_loop fuel' st2
                (tokens ++ [mkToken INDENT (repeat space indent) (line st2) 1])
            else tokenize_loop fuel' st2 tokens
          else if is_blank char then
            tokenize_loop fuel' (snd (skip_whitespace_on_line st)) tokens
          else if Ascii.eqb char "#"%char then
            let (comment, st1) := read_until [newline] st in
            tokenize_loop fuel' st1
              (tokens ++ [mkToken COMMENT (strip comment) start_line start_col])
          else if Ascii.eqb char ">"%char && peek_is ">"%char st then
            let (_, st1) := advance 2 st in
            let (_, st2) := skip_whitespace_on_line st1 in
            if starts_with (lit "@when") (rest st2) then
              let (_, st3) := advance 5 st2 in
              let (_, st4) := skip_whitespace_on_line st3 in
              let (condition, st5) := read_until [newline] st4 in
              tokenize_loop fuel' st5
                (tokens ++
                 [mkToken SECTION_WHEN (strip condition) start_line start_col])
            else
              let (name, st3) := read_until [newline; "#"%char] st2 in
              tokenize_loop fuel' st3
                (tokens ++ [mkToken SECTION (strip name) start_line start_col])
          else if Ascii.eqb char "@"%char && starts_with (lit "@include") (rest st) then
            let (_, st1) := advance 8 st in
            let (_, st2) := skip_whitespace_on_line st1 in
            let (path, st3) :=
              if current_is dquote st2 then read_string dquote st2
              else if current_is squote st2 then read_string squote st2
              else let (p, st') := read_until [newline; "#"%char] st2 in
                   (strip p, st') in
            tokenize_loop fuel' st3
              (tokens ++ [mkToken INCLUDE path start_line start_col])
          else if isalnum char || Ascii.eqb char "_"%char then
            let (key, st1) := read_while is_key_char st in
            let tokens := tokens ++ [mkToken KEY key start_line start_col] in
            let (_, st2) := skip_whitespace_on_line st1 in
            let (tokens, st3) :=
              if current_is ":"%char st2 && peek_is ":"%char st2 then
                let (_, sa) := advance 2 st2 in
                let (_, sb) := skip_whitespace_on_line sa in
                let (type_name, sc) := read_while isalnum sb in
                let tokens :=
                  tokens ++ [mkToken TYPE_HINT type_name (line sc) (column sc)] in
                (tokens, snd (skip_whitespace_on_line sc))
              else (tokens, st2) in
            if current_is "="%char st3 then
              let tokens :=
                tokens ++ [mkToken EQUALS (lit "=") (line st3) (column st3)] in
              let (_, st4) := advance1 st3 in
              let (_, st5) := skip_whitespace_on_line st4 in
              '(value_tokens, st6) <- read_value_token fuel' st5 ;;
              tokenize_loop fuel' st6 (tokens ++ value_tokens)
            else tokenize_loop fuel' st3 tokens
          else
            Raise (lexer_error (lit "Unexpected character: " ++ [char])
                               start_line start_col)
      end
  end.

(** [tokenize(text)]. *)
Definition tokenize (fuel : nat) (text : str) : outcome (list Token) :=
  tokenize_loop fuel (init text) [].

End WithRuntime.

End Lexer.

(** ** Parser ([parser.py]) *)

Module Parser.
Import Lexer.

Section WithRuntime.
Context {RT : PyRuntime}.

(** [ValueNode]; [None] in [type_hint], [env_var], [secret] and [default]
    is Python's [None]. *)
Inductive ValueNode : Type := mkValueNode {
  vn_value : value;
  type_hint : option str;
  env_var : option str;
  secret : option str;
  default : option ValueNode;
  vn_line : nat
}.

Record AssignmentNode : Type := mkAssignmentNode {
  key : str;
  an_value : ValueNode;
  an_line : nat
}.

Record SectionNode : Type := mkSectionNode {
  name : str;
  assignments : list AssignmentNode;
  sn_line : nat
}.

Record ConditionalNode : Type := mkConditionalNode {
  condition : str;
  cn_sections : list SectionNode;
  cn_line : nat
}.

Record IncludeNode : Type := mkIncludeNode {
  path : str;
  in_line : nat
}.

Record AST : Type := mkAST {
  sections : list SectionNode;
  conditionals : list ConditionalNode;
  includes : list IncludeNode
}.

(** The truth value of an optional string: [None] and the empty string are
    false. *)
Definition truthy (s : option str) : bool :=
  match s with
  | Some (_ :: _) => true
  | _ => false
  end.

Definition parse_error (message : str) (ln : option nat) : exn :=
  mk_exn ParseError message ln None.

(** [Parser.__init__]: comments and newlines are dropped. *)
Definition significant (tokens : list Token) : list Token :=
  filter (fun t => negb (TokenType_eqb (tk_type t) COMMENT ||
                         TokenType_eqb (tk_type t) NEWLINE)) tokens.

(** [_current], on the tokens from [pos] on. *)
Definition current (toks : list Token) : option Token := hd_error toks.

Definition current_type_is (ty : TokenType) (toks : list Token) : bool :=
  match current toks with
  | Some t => TokenType_eqb (tk_type t) ty
  | None => false
  end.

(** [_advance]. *)
Definition advance (toks : list Token) : list Token := tl toks.

(** [_skip_indent]. *)
Fixpoint skip_indent (toks : list Token) : list Token :=
  match toks with
  | t :: toks' =>
      if TokenType_eqb (tk_type t) INDENT then skip_indent toks' else toks
  | [] => []
  end.

(** [_expect]. *)
Definition expect (ty : TokenType) (toks : list Token)
  : outcome (Token * list Token) :=
  match current toks with
  | Some t =>
      if TokenType_eqb (tk_type t) ty then Done (t, advance toks)
      else Raise (parse_error
                    (lit "Expected " ++ TokenType_name ty ++ lit ", got " ++
                     TokenType_name (tk_type t))
                    (Some (tk_line t)))
  | None =>
      Raise (parse_error
               (lit "Expected " ++ TokenType_name ty ++ lit ", got EOF")
               (Some 0))
  end.

(** The item that [_parse_array] keeps for a parsed value. *)
Definition array_item (node : ValueNode) : value :=
  if truthy (env_var node) then
    VDict [(lit "$env", match env_var node with Some n => VStr n | None => VNone end)]
  else if truthy (secret node) then
    VDict [(lit "$secret", match secret node with Some n => VStr n | None => VNone end)]
  else vn_value node.

(** The literal of a [NUMBER] token. *)
Definition number_value (v : str) : outcome value :=
  if contains "."%char v then
    match float_of_str v with
    | Some x => Done (VFloat x)
    | None =>
        Raise (builtin_exn PyValueError
                 (lit "could not convert string to float: " ++ repr_of_str v))
    end
  else
    match py_int v with
    | Some z => Done (VInt z)
    | None =>
        Raise (builtin_exn PyValueError
                 (lit "invalid literal for int() with base 10: " ++ repr_of_str v))
    end.

(** The tail of [_parse_value]: the default operator. *)
Definition parse_default
    (parse_value : list Token -> outcome (ValueNode * list Token))
    (node : ValueNode) (toks : list Token) : outcome (ValueNode * list Token) :=
  if current_type_is DEFAULT_OP toks then
    '(d, toks1) <- parse_value (advance toks) ;;
    Done (mkValueNode (vn_value node) (type_hint node) (env_var node)
            (secret node) (Some d) (vn_line node), toks1)
  else Done (node, toks).

(** [_parse_value], [_parse_array] and the loop of [_parse_array]. *)
Fixpoint parse_value (fuel : nat) (toks : list Token)
  : outcome (ValueNode * list Token) :=
  match fuel with
  | O => Diverge
  | S fuel' =>
      let toks := skip_indent toks in
      match current toks with
      | None => Raise (parse_error (lit "Expected value, got EOF") None)
      | Some token =>
          let node v e s := mkValueNode v None e s None (tk_line token) in
          match tk_type token with
          | LBRACKET =>
              '(items, toks1) <- parse_array fuel' toks ;;
              Done (node (VList items) None None, toks1)
          | ENV_VAR =>
              parse_default (parse_value fuel')
                (node VNone (Some (tk_value token)) None) (advance toks)
          | SECRET =>
              parse_default (parse_value fuel')
                (node VNone None (Some (tk_value token))) (advance toks)
          | STRING =>
              parse_default (parse_value fuel')
                (node (VStr (tk_value token)) None None) (advance toks)
          | NUMBER =>
              v <- number_value (tk_value token) ;;
              parse_default (parse_value fuel') (node v None None) (advance toks)
          | BOOLEAN =>
              parse_default (parse_value fuel')
                (node (VBool (str_eqb (tk_value token) (lit "true"))) None None)
                (advance toks)
          | NULL =>
              parse_default (parse_value fuel') (node VNone None None) (advance toks)
          | ty =>
              Raise (parse_error (lit "Unexpected token: " ++ TokenType_name ty)
                                 (Some (tk_line token)))
          end
      end
  end

with parse_array (fuel : nat) (toks : list Token)
  : outcome (list value * list Token) :=
  match fuel with
  | O => Diverge
  | S fuel' =>
      '(_, toks0) <- expect LBRACKET toks ;;
      '(items, toks1) <- parse_array_loop fuel' toks0 [] ;;
      '(_, toks2) <- expect RBRACKET toks1 ;;
      Done (items, toks2)
  end

with parse_array_loop (fuel : nat) (toks : list Token) (items : list value)
  : outcome (list value * list Token) :=
  match fuel with
  | O => Diverge
  | S fuel' =>
      match current toks with
      | None => Done (items, toks)
      | Some t =>
          if TokenType_eqb (tk_type t) RBRACKET then Done (items, toks)
          else
            let toks1 := skip_indent toks in
            match current toks1 with
            | None =>
                Raise (builtin_exn PyAttributeError
                         (lit "'NoneType' object has no attribute 'type'"))
            | Some t1 =>
                if TokenType_eqb (tk_type t1) RBRACKET then Done (items, toks1)
                else
                  '(value_node, toks2) <- parse_value fuel' toks1 ;;
                  let items := items ++ [array_item value_node] in
                  let toks3 := skip_indent toks2 in
                  if current_type_is COMMA toks3
                  then parse_array_loop fuel' (advance toks3) items
                  else parse_array_loop fuel' toks3 items
            end
      end
  end.

(** [_parse_assignment]. *)
Definition parse_assignment (fuel : nat) (toks : list Token)
  : outcome (AssignmentNode * list Token) :=
  let toks := skip_indent toks in
  '(key_token, toks1) <- expect KEY toks ;;
  let (hint, toks2) :=
    match current toks1 with
    | Some t =>
        if TokenType_eqb (tk_type t) TYPE_HINT
        then (Some (tk_value t), advance toks1)
        else (None, toks1)
    | None => (None, toks1)
    end in
  '(_, toks3) <- expect EQUALS toks2 ;;
  '(value_node, toks4) <- parse_value fuel toks3 ;;
  let value_node :=
    mkValueNode (vn_value value_node) hint (env_var value_node)
      (secret value_node) (default value_node) (vn_line value_node) in
  Done (mkAssignmentNode (tk_value key_token) value_node (tk_line key_token), toks4).

(** The section that [self.current_section] refers to, once it is set: the
    section appended last to [ast.sections], or the section appended last to
    the conditional appended last to [ast.conditionals]. *)
Inductive section_ref : Type :=
| InSections
| InConditional.

Fixpoint update_last {A : Type} (f : A -> A) (l : list A) : list A :=
  match l with
  | [] => []
  | [x] => [f x]
  | x :: l' => x :: update_last f l'
  end.

Definition add_assignment (a : AssignmentNode) (s : SectionNode) : SectionNode :=
  mkSectionNode (name s) (assignments s ++ [a]) (sn_line s).

(** [self.current_section.assignments.append(assignment)]. *)
Definition append_to_current (r : section_ref) (a : AssignmentNode) (ast : AST) : AST :=
  match r with
  | InSections =>
      mkAST (update_last (add_assignment a) (sections ast))
            (conditionals ast) (includes ast)
  | InConditional =>
      mkAST (sections ast)
            (update_last
               (fun c => mkConditionalNode (condition c)
                           (update_last (add_assignment a) (cn_sections c))
                           (cn_line c))
               (conditionals ast))
            (includes ast)
  end.

(** The global assignment: the implicit root section. *)
Definition append_to_root (a : AssignmentNode) (ln : nat) (ast : AST) : AST :=
  let secs :=
    match sections ast with
    | s :: _ =>
        match name s with
        | [] => sections ast
        | _ :: _ => mkSectionNode [] [] ln :: sections ast
        end
    | [] => [mkSectionNode [] [] ln]
    end in
  let secs :=
    match secs with
    | s :: rest => add_assignment a s :: rest
    | [] => []
    end in
  mkAST secs (conditionals ast) (includes ast).

(** The inner loop under a conditional's section:
    [while self._current() and self._current().type == TokenType.KEY]. *)
Fixpoint parse_section_assignments (fuel : nat) (toks : list Token)
    (acc : list AssignmentNode) : outcome (list AssignmentNode * list Token) :=
  match fuel with
  | O => Diverge
  | S fuel' =>
      if current_type_is KEY toks then
        '(a, toks1) <- parse_assignment fuel' toks ;;
        parse_section_assignments fuel' (skip_indent toks1) (acc ++ [a])
      else Done (acc, toks)
  end.

(** The loop over the sections of a conditional:
    [while self._current() and self._current().type == TokenType.SECTION]. *)
Fixpoint parse_conditional_sections (fuel : nat) (toks : list Token)
    (acc : list SectionNode) : outcome (list SectionNode * list Token) :=
  match fuel with
  | O => Diverge
  | S fuel' =>
      match current toks with
      | Some t =>
          if TokenType_eqb (tk_type t) SECTION then
            '(asg, toks1) <-
               parse_section_assignments fuel' (skip_indent (advance toks)) [] ;;
            parse_conditional_sections fuel' toks1
              (acc ++ [mkSectionNode (tk_value t) asg (tk_line t)])
          else Done (acc, toks)
      | None => Done (acc, toks)
      end
  end.

(** The loop of [Parser.parse]; [cur] is [self.current_section]. *)
Fixpoint parse_loop (fuel : nat) (toks : list Token) (cur : option section_ref)
    (ast : AST) : outcome AST :=
  match fuel with
  | O => Diverge
  | S fuel' =>
      if match current toks with
         | Some t => TokenType_eqb (tk_type t) EOF
         | None => true
         end
      then Done ast
      else
        let toks := skip_indent toks in
        match current toks with
        | None => Done ast
        | Some token =>
            match tk_type token with
            | EOF => Done ast
            | SECTION =>
                let section := mkSectionNode (tk_value token) [] (tk_line token) in
                parse_loop fuel' (advance toks) (Some InSections)
                  (mkAST (sections ast ++ [section]) (conditionals ast) (includes ast))
            | SECTION_WHEN =>
                '(secs, toks1) <-
                   parse_conditional_sections fuel' (skip_indent (advance toks)) [] ;;
                let conditional :=
                  mkConditionalNode (tk_value token) secs (tk_line token) in
                parse_loop fuel' toks1
                  (match secs with [] => None | _ :: _ => Some InConditional end)
                  (mkAST (sections ast) (conditionals ast ++ [conditional])
                         (includes ast))
            | INCLUDE =>
                let include := mkIncludeNode (tk_value token) (tk_line token) in
                parse_loop fuel' (advance toks) cur
                  (mkAST (sections ast) (conditionals ast) (includes ast ++ [include]))
            | KEY =>
                '(a, toks1) <- parse_assignment fuel' toks ;;
                match cur with
                | Some r => parse_loop fuel' toks1 cur (append_to_current r a ast)
                | None => parse_loop fuel' toks1 cur (append_to_root a (tk_line token) ast)
                end
            | _ => parse_loop fuel' (advance toks) cur ast
            end
        end
  end.

(** [Parser(tokens).parse()]. *)
Definition parse_tokens (fuel : nat) (tokens : list Token) : outcome AST :=
  parse_loop fuel (significant tokens) None (mkAST [] [] []).

(** [parse(text)]. *)
Definition parse (fuel : nat) (text : str) : outcome AST :=
  tokens <- tokenize fuel text ;;
  parse_tokens fuel tokens.

End WithRuntime.

End Parser.

(** ** Type system ([types.py]) *)

Module Types.

Inductive PPCType : Type := STR | INT | FLOAT | BOOL | LIST | ANY.

Section WithRuntime.
Context {RT : PyRuntime}.

Definition type_error (message : str) (ln : option nat) : exn :=
  mk_exn TypeError message ln None.

(** The table [type_map] of [PPCType.from_string]. *)
Definition type_map : list (str * PPCType) :=
  [ (lit "str", STR); (lit "string", STR);
    (lit "int", INT); (lit "integer", INT);
    (lit "float", FLOAT); (lit "number", FLOAT);
    (lit "bool", BOOL); (lit "boolean", BOOL);
    (lit "list", LIST); (lit "array", LIST);
    (lit "any", ANY) ].

Fixpoint type_map_get (k : str) (m : list (str * PPCType)) : option PPCType :=
  match m with
  | [] => None
  | (n, t) :: m' => if str_eqb k n then Some t else type_map_get k m'
  end.

(** [PPCType.from_string]. *)
Definition from_string (type_str : str) : outcome PPCType :=
  let normalized := strip (lower type_str) in
  match type_map_get normalized type_map with
  | Some t => Done t
  | None => Raise (type_error (lit "Unknown type: " ++ type_str) None)
  end.

(** [int(value)] as [validate_type] calls it. *)
Definition py_int_of (v : value) : outcome Z :=
  match v with
  | VInt z => Done z
  | VBool b => Done (if b then 1%Z else 0%Z)
  | VFloat x =>
      match int_of_float x with
      | inr z => Done z
      | inl PyValueError =>
          Raise (builtin_exn PyValueError (lit "cannot convert float NaN to integer"))
      | inl k =>
          Raise (builtin_exn k (lit "cannot convert float infinity to integer"))
      end
  | VStr s =>
      match py_int s with
      | Some z => Done z
      | None =>
          Raise (builtin_exn PyValueError
                   (lit "invalid literal for int() with base 10: " ++ repr_of_str s))
      end
  | _ =>
      Raise (builtin_exn PyTypeError
               (lit "int() argument must be a string, a bytes-like object or a real number, not '"
                ++ type_name v ++ lit "'"))
  end.

(** [float(value)] as [validate_type] calls it. *)
Definition py_float_of (v : value) : outcome pyfloat :=
  match v with
  | VFloat x => Done x
  | VInt z =>
      match float_of_int z with
      | Some x => Done x
      | None => Raise (builtin_exn PyOverflowError (lit "int too large to convert to float"))
      end
  | VBool b =>
      match float_of_int (if b then 1%Z else 0%Z) with
      | Some x => Done x
      | None => Raise (builtin_exn PyOverflowError (lit "int too large to convert to float"))
      end
  | VStr s =>
      match float_of_str s with
      | Some x => Done x
      | None =>
          Raise (builtin_exn PyValueError
                   (lit "could not convert string to float: " ++ repr_of_str s))
      end
  | _ =>
      Raise (builtin_exn PyTypeError
               (lit "float() argument must be a string or a real number, not '"
                ++ type_name v ++ lit "'"))
  end.

Definition is_bool (v : value) : bool :=
  match v with VBool _ => true | _ => false end.

(** [except (ValueError, TypeError)] in [types.py]: the name [TypeError] is
    the one imported from [exceptions.py], so that the built-in
    [TypeError] is not caught. *)
Definition caught (e : exn) : bool :=
  match exn_class_of e with
  | Builtin PyValueError => true
  | TypeError => true
  | _ => false
  end.

(** A [try] block of [validate_type] for [int] and [float]. *)
Definition convert (target : str) (v : value) (ln : option nat)
    (body : outcome value) : outcome value :=
  let attempt :=
    if is_bool v then Raise (builtin_exn PyValueError []) else body in
  match attempt with
  | Raise e =>
      if caught e then
        Raise (type_error
                 (lit "Cannot convert '" ++ py_str v ++ lit "' to " ++ target) ln)
      else Raise e
  | r => r
  end.

(** [validate_type]. *)
Definition validate_type (v : value) (expected_type : PPCType) (ln : option nat)
  : outcome value :=
  match expected_type with
  | ANY => Done v
  | STR => Done (VStr (py_str v))
  | INT =>
      convert (lit "int") v ln (z <- py_int_of v ;; Done (VInt z))
  | FLOAT =>
      convert (lit "float") v ln (x <- py_float_of v ;; Done (VFloat x))
  | BOOL =>
      match v with
      | VBool _ => Done v
      | VStr s =>
          if str_in (lower s) [lit "true"; lit "yes"; lit "on"; lit "1"]
          then Done (VBool true)
          else if str_in (lower s) [lit "false"; lit "no"; lit "off"; lit "0"]
          then Done (VBool false)
          else Raise (type_error
                        (lit "Cannot convert '" ++ py_str v ++ lit "' to bool") ln)
      | _ => Raise (type_error
                      (lit "Cannot convert '" ++ py_str v ++ lit "' to bool") ln)
      end
  | LIST =>
      match v with
      | VList _ => Done v
      | _ => Raise (type_error (lit "Expected list, got " ++ type_name v) ln)
      end
  end.

End WithRuntime.

End Types.

(** ** Secret providers ([secrets.py]) *)

(** [os.environ.get]. *)
Definition environ : Type := str -> option str.

Module Secrets.

(** A string's truth value. *)
Definition nonempty (v : option str) : bool :=
  match v with
  | Some (_ :: _) => true
  | _ => false
  end.

(** [EnvSecretProvider.get]. *)
Definition env_get (env : environ) (prefix key : str) : option str :=
  let value := env (prefix ++ key) in
  if nonempty value then value
  else
    let value := env (lit "PEPECONFIG_SECRET_" ++ key) in
    if nonempty value then value else None.

Fixpoint assoc_get (key : str) (m : list (str * str)) : option str :=
  match m with
  | [] => None
  | (k, v) :: m' => if str_eqb key k then Some v else assoc_get key m'
  end.

(** The providers; a [FileSecretProvider] holds the mapping that [_load]
    has read from its file. *)
Inductive SecretProvider : Type :=
| EnvSecretProvider (prefix : str)
| FileSecretProvider (secrets : list (str * str))
| DictSecretProvider (secrets : list (str * str))
| ChainedSecretProvider (providers : list SecretProvider).

(** [SecretProvider.get]. *)
Fixpoint get (env : environ) (p : SecretProvider) (key : str) : option str :=
  match p with
  | EnvSecretProvider prefix => env_get env prefix key
  | FileSecretProvider secrets => assoc_get key secrets
  | DictSecretProvider secrets => assoc_get key secrets
  | ChainedSecretProvider providers =>
      (fix first (ps : list SecretProvider) : option str :=
         match ps with
         | [] => None
         | q :: ps' =>
             match get env q key with
             | Some v => Some v
             | None => first ps'
             end
         end) providers
  end.

End Secrets.

(** ** The other providers of [secrets.py] *)

Module SecretStore.
Import Secrets.

Definition secret_error (message : str) : exn :=
  mk_exn SecretError message None None.

(** [d[key] = value] on a dictionary of strings. *)
Fixpoint assoc_set (key value : str) (m : list (str * str)) : list (str * str) :=
  match m with
  | [] => [(key, value)]
  | (k, w) :: m' =>
      if str_eqb key k then (k, value) :: m' else (k, w) :: assoc_set key value m'
  end.

(** [d.pop(key, None)]: the dictionary that is left. *)
Fixpoint assoc_pop (key : str) (m : list (str * str)) : list (str * str) :=
  match m with
  | [] => []
  | (k, w) :: m' => if str_eqb key k then m' else (k, w) :: assoc_pop key m'
  end.

(** [DictSecretProvider.set] and [DictSecretProvider.delete], on the
    provider's dictionary. *)
Definition set (key value : str) (secrets : list (str * str)) : list (str * str) :=
  assoc_set key value secrets.

Definition delete (key : str) (secrets : list (str * str)) : list (str * str) :=
  assoc_pop key secrets.

(** [ChainedSecretProvider.add_provider], on the list of providers. *)
Definition add_provider (provider : SecretProvider) (providers : list SecretProvider)
  : list SecretProvider :=
  providers ++ [provider].

(** What reading a secrets file gives: the mapping of [json.load], no
    file, a text that is no JSON, or another failure. *)
Inductive secrets_file : Type :=
| SecretsOk (secrets : list (str * str))
| SecretsMissing
| SecretsInvalid (message : str)
| SecretsError (message : str).

Section Create.

Variable read_secrets : str -> secrets_file.

(** [FileSecretProvider(path)]: [__init__] calls [_load]. *)
Definition file_provider (path : str) : outcome SecretProvider :=
  match read_secrets path with
  | SecretsOk secrets => Done (FileSecretProvider secrets)
  | SecretsMissing => Raise (secret_error (lit "Secrets file not found: " ++ path))
  | SecretsInvalid message =>
      Raise (secret_error (lit "Invalid JSON in secrets file: " ++ message))
  | SecretsError message =>
      Raise (secret_error (lit "Error reading secrets file: " ++ message))
  end.

(** [create_secret_provider(env, file_path, secrets)]; a [Path] is always
    true, a dictionary is true when it is not empty. *)
Definition create_secret_provider (env : bool) (file_path : option str)
    (secrets : option (list (str * str))) : outcome SecretProvider :=
  let providers :=
    match secrets with
    | Some (e :: m) => [DictSecretProvider (e :: m)]
    | _ => []
    end in
  providers <-
    match file_path with
    | Some path => p <- file_provider path ;; Done (providers ++ [p])
    | None => Done providers
    end ;;
  let providers :=
    if env then providers ++ [EnvSecretProvider (lit "SECRET_")] else providers in
  match providers with
  | [] => Done (EnvSecretProvider (lit "SECRET_"))
  | [p] => Done p
  | _ => Done (ChainedSecretProvider providers)
  end.

End Create.

(** The first answer of two lookups. *)
Definition or_else (a b : option str) : option str :=
  match a with Some v => Some v | None => b end.

End SecretStore.

(** ** Regular expressions, as far as [evaluator.py] uses them *)

Module Re.

(** The fragment of the [re] syntax that the two patterns need; repetition
    is greedy and applies to a character class. *)
Inductive regex : Type :=
| Lit (s : str)
| Star (p : ascii -> bool)
| Plus (p : ascii -> bool)
| Opt (p : ascii -> bool)
| Alt (a b : regex)
| Seq (a b : regex)
| Group (r : regex)
| Eos.

(** Greedy repetition: the longest run first, shorter ones on failure of the
    continuation. *)
Fixpoint star_match {R : Type} (p : ascii -> bool) (s : str)
    (k : str -> option R) : option R :=
  match s with
  | c :: s' =>
      if p c then
        match star_match p s' k with
        | Some r => Some r
        | None => k s
        end
      else k s
  | [] => k s
  end.

(** Backtracking matching; [caps] are the groups closed so far and [k] is
    what remains to be matched. *)
Fixpoint match_here (r : regex) (s : str) (caps : list str)
    (k : str -> list str -> option (list str)) : option (list str) :=
  match r with
  | Lit l =>
      if starts_with l s then k (skipn (List.length l) s) caps else None
  | Star p => star_match p s (fun s' => k s' caps)
  | Plus p =>
      match s with
      | c :: s' => if p c then star_match p s' (fun s'' => k s'' caps) else None
      | [] => None
      end
  | Opt p =>
      match s with
      | c :: s' =>
          if p c then
            match k s' caps with
            | Some r => Some r
            | None => k s caps
            end
          else k s caps
      | [] => k s caps
      end
  | Alt a b =>
      match match_here a s caps k with
      | Some r => Some r
      | None => match_here b s caps k
      end
  | Seq a b => match_here a s caps (fun s' caps' => match_here b s' caps' k)
  | Group r0 =>
      match_here r0 s caps
        (fun s' caps' =>
           k s' (caps' ++ [firstn (List.length s - List.length s') s]))
  | Eos =>
      match s with
      | [] => k s caps
      | [c] => if Ascii.eqb c newline then k s caps else None
      | _ => None
      end
  end.

(** [re.match(pattern, s)]: the groups of the match at the start of [s]. *)
Definition re_match (r : regex) (s : str) : option (list str) :=
  match_here r s [] (fun _ caps => Some caps).

End Re.

(** ** Evaluator ([evaluator.py]) *)

Module Evaluator.
Import Parser Types Re.

(** What [open(full_path).read()] gives. *)
Inductive read_result : Type :=
| ReadOk (text : str)
| ReadNotFound
| ReadError (message : str).

(** The operations of [os.path] and [pathlib] that the evaluator uses, and
    what reading a file of secrets gives ([FileSecretProvider._load], for
    [load]). *)
Record FileSystem : Type := {
  cwd : str;
  isabs : str -> bool;
  joinpath : str -> str -> str;
  resolve : str -> str;
  parent : str -> str;
  read_text : str -> read_result;
  read_secrets : str -> SecretStore.secrets_file
}.

Definition include_error (message : str) (ln : nat) : exn :=
  mk_exn IncludeError message (Some ln) None.

Definition evaluation_error (message : str) (ln : nat) : exn :=
  mk_exn EvaluationError message (Some ln) None.

Definition is_quote (c : ascii) : bool := Ascii.eqb c dquote || Ascii.eqb c squote.

(** The first pattern of [_evaluate_condition]: the text [$env.], group 1 a
    run of word characters, white space, group 2 one of [==] and [!=],
    white space, an optional quote (double or single), group 3 a run of
    characters other than quotes, an optional quote. *)
Definition comparison_pattern : regex :=
  Seq (Lit (lit "$env."))
 (Seq (Group (Plus is_word))
 (Seq (Star isspace)
 (Seq (Group (Alt (Lit (lit "==")) (Lit (lit "!="))))
 (Seq (Star isspace)
 (Seq (Opt is_quote)
 (Seq (Group (Star (fun c => negb (is_quote c))))
      (Opt is_quote))))))).

(** The second pattern: the text [$env.], group 1 a run of word characters,
    and the end of the string. *)
Definition truthy_pattern : regex :=
  Seq (Lit (lit "$env.")) (Seq (Group (Plus is_word)) Eos).

(** [os.environ.get(name, "")]. *)
Definition env_or_empty (env : environ) (var_name : str) : str :=
  match env var_name with Some v => v | None => [] end.

(** The second half of [_evaluate_condition]. *)
Definition evaluate_truthy (env : environ) (condition : str) : bool :=
  match re_match truthy_pattern condition with
  | Some (var_name :: _) => Secrets.nonempty (env var_name)
  | _ => false
  end.

(** [_evaluate_condition]. *)
Definition evaluate_condition (env : environ) (condition : str) : bool :=
  let condition := strip condition in
  match re_match comparison_pattern condition with
  | Some [var_name; operator; expected] =>
      let actual := env_or_empty env var_name in
      if str_eqb operator (lit "==") then str_eqb actual expected
      else if str_eqb operator (lit "!=") then negb (str_eqb actual expected)
      else evaluate_truthy env condition
  | _ => evaluate_truthy env condition
  end.

Fixpoint foldM {A S : Type} (f : S -> A -> outcome S) (l : list A) (s : S)
  : outcome S :=
  match l with
  | [] => Done s
  | a :: l' => s' <- f s a ;; foldM f l' s'
  end.

Section WithRuntime.
Context {RT : PyRuntime}.

(** [_deep_merge] (the same text in [Evaluator] and in [Config]): the
    dictionary that [base] has become. The recursion follows the override,
    a value of the tree. *)
Fixpoint deep_merge_value (base : dict) (override : value) {struct override} : dict :=
  match override with
  | VDict entries =>
      (fix loop (base : dict) (entries : list (str * value)) {struct entries} : dict :=
         match entries with
         | [] => base
         | (k, v) :: entries' =>
             let base' :=
               match dict_get k base, v with
               | Some (VDict b), VDict _ => dict_set k (VDict (deep_merge_value b v)) base
               | _, _ => dict_set k v base
               end in
             loop base' entries'
         end) base entries
  | _ => base
  end.

Definition deep_merge (base override : dict) : dict :=
  deep_merge_value base (VDict override).

Variable env : environ.
Variable secret_provider : option (str -> option str).

(** The lookup of a secret: the provider, or [SECRET_<name>] in the
    environment. *)
Definition lookup_secret (secret_name : str) : option str :=
  match secret_provider with
  | Some provider => provider secret_name
  | None => env (lit "SECRET_" ++ secret_name)
  end.

Definition of_lookup (r : option str) : value :=
  match r with Some s => VStr s | None => VNone end.

(** One item of [_evaluate_array]. *)
Definition evaluate_item (item : value) : outcome value :=
  match item with
  | VDict d =>
      if dict_mem (lit "$env") d then
        match dict_get (lit "$env") d with
        | Some (VStr n) => Done (of_lookup (env n))
        | _ => Raise (builtin_exn PyTypeError (lit "str expected"))
        end
      else if dict_mem (lit "$secret") d then
        match dict_get (lit "$secret") d with
        | Some (VStr n) => Done (of_lookup (lookup_secret n))
        | _ => Raise (builtin_exn PyTypeError (lit "str expected"))
        end
      else Done item
  | _ => Done item
  end.

(** [_evaluate_array]. *)
Fixpoint evaluate_array (arr : list value) : outcome (list value) :=
  match arr with
  | [] => Done []
  | item :: arr' =>
      v <- evaluate_item item ;;
      vs <- evaluate_array arr' ;;
      Done (v :: vs)
  end.

Definition is_none (v : value) : bool :=
  match v with VNone => true | _ => false end.

(** The last step of [_evaluate_value]: the type hint. *)
Definition apply_hint (hint : option str) (ln : nat) (v : value) : outcome value :=
  match hint with
  | Some h =>
      if truthy hint && negb (is_none v) then
        match (ppc_type <- from_string h ;; validate_type v ppc_type (Some ln)) with
        | Raise e => Raise (evaluation_error (exn_str e) ln)
        | r => r
        end
      else Done v
  | None => Done v
  end.

(** [_evaluate_value]. *)
Fixpoint evaluate_value (node : ValueNode) : outcome value :=
  match node with
  | mkValueNode node_value hint env_name secret_name dflt ln =>
      let with_default (found : option str) : outcome value :=
        match found, dflt with
        | Some s, _ => Done (VStr s)
        | None, Some d => evaluate_value d
        | None, None => Done VNone
        end in
      v <-
        match env_name, secret_name, node_value with
        | Some (c :: n), _, _ => with_default (env (c :: n))
        | _, Some (c :: n), _ => with_default (lookup_secret (c :: n))
        | _, _, VList arr => items <- evaluate_array arr ;; Done (VList items)
        | _, _, _ => Done node_value
        end ;;
      apply_hint hint ln v
  end.

(** The assignments of [_process_section], applied to [current]. *)
Fixpoint apply_assignments (asgs : list AssignmentNode) (current : value)
  : outcome value :=
  match asgs with
  | [] => Done current
  | a :: asgs' =>
      v <- evaluate_value (an_value a) ;;
      match current with
      | VDict d => apply_assignments asgs' (VDict (dict_set (key a) v d))
      | _ =>
          Raise (builtin_exn PyTypeError
                   (lit "'" ++ type_name current ++
                    lit "' object does not support item assignment"))
      end
  end.

(** The descent of [_process_section] along [parts], from [current]; the
    value returned is [current] after the section has been applied below
    it. Where [current] is no dictionary, the membership test, the
    subscript or the item assignment raises the built-in [TypeError]; the
    text of a built-in exception is the interpreter's own and only
    indicated here. *)
Fixpoint descend (parts : list str) (asgs : list AssignmentNode) (current : value)
  : outcome value :=
  match parts with
  | [] => apply_assignments asgs current
  | part :: parts' =>
      match current with
      | VDict d =>
          let d1 := if dict_mem part d then d else dict_set part (VDict []) d in
          match dict_get part d1 with
          | Some child =>
              child' <- descend parts' asgs child ;;
              Done (VDict (dict_set part child' d1))
          | None => Raise (builtin_exn PyKeyError part)
          end
      | _ =>
          Raise (builtin_exn PyTypeError
                   (lit "'" ++ type_name current ++
                    lit "' object is not a mapping"))
      end
  end.

(** [section.name.split(".") if section.name else []]. *)
Definition section_parts (section_name : str) : list str :=
  match section_name with
  | [] => []
  | _ :: _ => split "."%char section_name
  end.

(** [_process_section]. *)
Definition process_section (data : dict) (section : SectionNode) : outcome dict :=
  r <- descend (section_parts (name section)) (assignments section) (VDict data) ;;
  match r with
  | VDict d => Done d
  | _ => Done data
  end.

(** One round of the loop over [ast.conditionals]. *)
Definition process_conditional (data : dict) (conditional : ConditionalNode)
  : outcome dict :=
  if evaluate_condition env (condition conditional)
  then foldM process_section (cn_sections conditional) data
  else Done data.

Variable fs : FileSystem.

(** [parse(text)] for the text of an included file. *)
Variable parse_text : str -> outcome AST.

Definition in_set (p : str) (s : list str) : bool := existsb (str_eqb p) s.

(** [_process_include]; [evaluate_rec] evaluates the included document with
    its base path and the shared set [_included_files]. *)
Definition process_include
    (evaluate_rec : str -> AST -> list str -> outcome (dict * list str))
    (base_path : str) (included_files : list str) (include : IncludeNode)
  : outcome (dict * list str) :=
  let full_path :=
    if isabs fs (path include) then path include
    else joinpath fs base_path (path include) in
  let resolved := resolve fs full_path in
  if in_set resolved included_files then
    Raise (include_error (lit "Circular include detected: " ++ path include)
                         (in_line include))
  else
    let included_files := resolved :: included_files in
    text <-
      match read_text fs full_path with
      | ReadOk text => Done text
      | ReadNotFound =>
          Raise (include_error (lit "Include file not found: " ++ path include)
                               (in_line include))
      | ReadError message =>
          Raise (include_error (lit "Error reading include file: " ++ message)
                               (in_line include))
      end ;;
    included_ast <- parse_text text ;;
    evaluate_rec (parent fs full_path) included_ast included_files.

(** [Evaluator.evaluate], for the evaluator whose fields are [base_path]
    and [included_files]; the set is returned as the evaluation leaves it. *)
Fixpoint evaluate (fuel : nat) (base_path : str) (ast : AST)
    (included_files : list str) : outcome (dict * list str) :=
  match fuel with
  | O => Diverge
  | S fuel' =>
      '(data, included_files) <-
         foldM (fun (acc : dict * list str) include =>
                  '(included_data, files) <-
                     process_include (evaluate fuel') base_path (snd acc) include ;;
                  Done (deep_merge (fst acc) included_data, files))
               (includes ast) ([], included_files) ;;
      data <- foldM process_section (sections ast) data ;;
      data <- foldM process_conditional (conditionals ast) data ;;
      Done (data, included_files)
  end.

End WithRuntime.

End Evaluator.

(** ** The configuration object ([config.py]) *)

Module Config.

Section WithRuntime.
Context {RT : PyRuntime}.

(** [Config.merge]: [Config._deep_merge] has the text of
    [Evaluator._deep_merge]. *)
Definition merge (self other : dict) : dict := Evaluator.deep_merge self other.

(** The loop [for part in parts: current = current[part]] of
    [get_nested]; [None] stands for the [KeyError] or [TypeError] that
    makes [get_nested] return its default. *)
Fixpoint get_parts (parts : list str) (current : value) : option value :=
  match parts with
  | [] => Some current
  | part :: parts' =>
      match current with
      | VDict d =>
          match dict_get part d with
          | Some child => get_parts parts' child
          | None => None
          end
      | _ => None
      end
  end.

(** [Config.get_nested(path)], with [None] for the default. *)
Definition get_nested (data : dict) (path : str) : option value :=
  get_parts (split "."%char path) (VDict data).

End WithRuntime.

End Config.

(** ** Serializer and entry points ([__init__.py]) *)

Module Serializer.

Section WithRuntime.
Context {RT : PyRuntime}.

(** [s.replace(old, new)] for a pattern [old] of one character. *)
Definition replace (old : ascii) (new : str) (s : str) : str :=
  flat_map (fun c => if Ascii.eqb c old then new else [c]) s.

(** [value.replace("\\", "\\\\").replace('"', '\\"')]. *)
Definition escape (s : str) : str :=
  replace dquote [backslash; dquote] (replace backslash [backslash; backslash] s).

(** [_format_value]. *)
Fixpoint format_value (v : value) : str :=
  match v with
  | VNone => lit "null"
  | VBool b => if b then lit "true" else lit "false"
  | VStr s => [dquote] ++ escape s ++ [dquote]
  | VInt z => str_of_Z z
  | VFloat x => str_of_float x
  | VList items => lit "[" ++ join (lit ", ") (map format_value items) ++ lit "]"
  | VDict _ => py_str v
  end.

Definition is_dict (v : value) : bool :=
  match v with VDict _ => true | _ => false end.

(** [simple_items]: the entries that hold no dictionary, in iteration
    order. *)
Definition simple_items (data : dict) : dict :=
  filter (fun kv => negb (is_dict (snd kv))) data.

Definition new_prefix (prefix k : str) : str :=
  match prefix with
  | [] => k
  | _ :: _ => prefix ++ lit "." ++ k
  end.

(** The lines of the simple items of one section. *)
Definition dump_simple (prefix : str) (data : dict) : list str :=
  match simple_items data with
  | [] => []
  | items =>
      (match prefix with [] => [] | _ :: _ => [lit ">> " ++ prefix] end) ++
      map (fun kv => lit "  " ++ fst kv ++ lit " = " ++ format_value (snd kv)) items ++
      [[]]
  end.

(** [_dump_section(data, lines, prefix)]: the lines appended to [lines],
    for the dictionary [VDict data]. *)
Fixpoint dump_value (prefix : str) (v : value) {struct v} : list str :=
  match v with
  | VDict data =>
      dump_simple prefix data ++
      (fix nested (entries : list (str * value)) : list str :=
         match entries with
         | [] => []
         | (k, w) :: entries' =>
             (if is_dict w then dump_value (new_prefix prefix k) w else []) ++
             nested entries'
         end) data
  | _ => []
  end.

Definition dump_section (data : dict) (prefix : str) : list str :=
  dump_value prefix (VDict data).

(** [dumps]. *)
Definition dumps (data : dict) : str :=
  join [newline] (dump_section data []).

Variable env : environ.
Variable fs : Evaluator.FileSystem.

(** [loads(text, base_path=..., secret_provider=..., secrets=...)]. *)
Definition loads (fuel : nat) (text : str) (base_path : option str)
    (secret_provider : option (str -> option str))
    (secrets : option (list (str * str))) : outcome dict :=
  let provider :=
    match secret_provider, secrets with
    | Some p, _ => Some p
    | None, Some (e :: m) => Some (fun k => Secrets.assoc_get k (e :: m))
    | None, _ => None
    end in
  ast <- Parser.parse fuel text ;;
  '(data, _) <-
     Evaluator.evaluate env provider fs (Parser.parse fuel) fuel
       (match base_path with Some (c :: p) => c :: p | _ => Evaluator.cwd fs end)
       ast [] ;;
  Done data.

(** [load(path, secret_provider=..., secrets_file=..., secrets=...)]; the
    path of the file of secrets is given as a string. *)
Definition load (fuel : nat) (path : str)
    (secret_provider : option (str -> option str))
    (secrets_file : option str)
    (secrets : option (list (str * str))) : outcome dict :=
  text <-
    match Evaluator.read_text fs path with
    | Evaluator.ReadOk text => Done text
    | Evaluator.ReadNotFound =>
        Raise (builtin_exn PyOSError (lit "No such file or directory"))
    | Evaluator.ReadError message => Raise (builtin_exn PyOSError message)
    end ;;
  provider <-
    match secret_provider with
    | Some p => Done (Some p)
    | None =>
        if Parser.truthy secrets_file ||
           match secrets with Some (_ :: _) => true | _ => false end
        then
          sp <- SecretStore.create_secret_provider (Evaluator.read_secrets fs) true
                  (if Parser.truthy secrets_file then secrets_file else None)
                  secrets ;;
          Done (Some (Secrets.get env sp))
        else Done None
    end ;;
  ast <- Parser.parse fuel text ;;
  '(data, _) <-
     Evaluator.evaluate env provider fs (Parser.parse fuel) fuel
       (Evaluator.parent fs path) ast [] ;;
  Done data.

End WithRuntime.

End Serializer.

(** * Notions used in the statements *)

(** [refines a b]: [a] ran out of fuel, or [a] is [b]. *)
Definition refines {A : Type} (a b : outcome A) : Prop :=
  a = Diverge \/ a = b.


Section Wellformed.
Context {RT : PyRuntime}.

(** The keys of [d] are pairwise distinct. *)
Fixpoint distinct (l : list str) : bool :=
  match l with
  | [] => true
  | k :: l' => negb (existsb (str_eqb k) l') && distinct l'
  end.

(** A value all of whose dictionaries have pairwise distinct keys: what a
    Python object always is. *)
Fixpoint wf_value (v : value) : bool :=
  match v with
  | VList items => forallb wf_value items
  | VDict entries =>
      distinct (map fst entries) && forallb (fun kv => wf_value (snd kv)) entries
  | _ => true
  end.

Definition wf_dict (d : dict) : bool := wf_value (VDict d).


(** What a key holds after a merge. *)
Definition merged_entry (base override : dict) (k : str) : option value :=
  match dict_get k override with
  | None => dict_get k base
  | Some v =>
      match dict_get k base, v with
      | Some (VDict b), VDict o => Some (VDict (Evaluator.deep_merge b o))
      | _, _ => Some v
      end
  end.


End Wellformed.

Section Documents.
Context {RT : PyRuntime}.
Import Parser.

(** A node without its type hint: what [_evaluate_value] resolves before it
    looks at the hint. *)
Definition without_hint (node : ValueNode) : ValueNode :=
  mkValueNode (vn_value node) None (env_var node) (secret node)
    (default node) (vn_line node).

(** The documents of the examples. *)
Definition port_document : str := lit "port :: int = $env.PORT ?? 8080".

Definition age_document : str :=
  lit "age :: int = " ++ [dquote] ++ lit "notanumber" ++ [dquote].

Definition count_document : str := lit "count :: int = true".

Definition unknown_hint_document : str := lit "x :: foo = null".

Definition hanging_document : str := lit "x = [?]".

End Documents.

(** A runtime, an environment and a file system to run the examples with.
    The floats of the runtime are the whole numbers, written with a
    trailing [.0]; no example depends on them. *)
Definition whole_float_of_str (s : str) : option Z :=
  match rev s with
  | "0"%char :: "."%char :: r => py_int (rev r)
  | _ => None
  end.

#[export] Instance example_runtime : PyRuntime := {|
  pyfloat := Z;
  float_of_str := whole_float_of_str;
  float_of_int := fun z => Some z;
  int_of_float := fun x => inr x;
  str_of_float := fun x => str_of_Z x ++ lit ".0";
  repr_of_str := fun s => [squote] ++ s ++ [squote]
|}.

Definition empty_env : environ := fun _ => None.

Definition env_with (k v : str) : environ :=
  fun n => if str_eqb n k then Some v else None.

(** A file system of one directory: a path is a file name. Its files are
    documents, none of them a file of secrets. *)
Definition flat_fs (files : list (str * str)) : Evaluator.FileSystem := {|
  Evaluator.cwd := [];
  Evaluator.isabs := fun _ => true;
  Evaluator.joinpath := fun _ p => p;
  Evaluator.resolve := fun p => p;
  Evaluator.parent := fun _ => [];
  Evaluator.read_text := fun p =>
    match Secrets.assoc_get p files with
    | Some text => Evaluator.ReadOk text
    | None => Evaluator.ReadNotFound
    end;
  Evaluator.read_secrets := fun p =>
    match Secrets.assoc_get p files with
    | Some text => SecretStore.SecretsInvalid (lit "Expecting value")
    | None => SecretStore.SecretsMissing
    end
|}.

(** ** The shapes of a conditional's predicate *)

(** What a predicate text asks: a comparison of a variable with a literal
    (negated for [!=]), the truth value of a variable, or nothing that the
    evaluator supports. *)
Inductive shape : Type :=
| Comparison (var_name : str) (negated : bool) (expected : str)
| Truthiness (var_name : str)
| Unsupported.

Definition not_quote (c : ascii) : bool := negb (Evaluator.is_quote c).

(** A text without the quote it may begin with. *)
Definition after_quote (s : str) : str :=
  match s with
  | q :: t => if Evaluator.is_quote q then t else s
  | [] => []
  end.

(** The literal of a comparison, read from the text that follows the
    operator: white space is skipped, then one quote if there is one; the
    literal runs up to the next quote or to the end of the text, and what
    follows that quote is not looked at. *)
Definition operand (s : str) : str :=
  take_while not_quote (after_quote (drop_while isspace s)).

(** The shape of a predicate, once stripped. *)
Definition condition_shape (c : str) : shape :=
  if starts_with (lit "$env.") c then
    let r := skipn 5 c in
    match take_while is_word r with
    | [] => Unsupported
    | var_name =>
        let r1 := drop_while is_word r in
        let r2 := drop_while isspace r1 in
        if starts_with (lit "==") r2 then
          Comparison var_name false (operand (skipn 2 r2))
        else if starts_with (lit "!=") r2 then
          Comparison var_name true (operand (skipn 2 r2))
        else
          match r1 with
          | [] => Truthiness var_name
          | _ :: _ => Unsupported
          end
    end
  else Unsupported.

(** Whether a predicate of a given shape holds in an environment. *)
Definition shape_holds (env : environ) (s : shape) : bool :=
  match s with
  | Comparison var_name negated expected =>
      xorb negated (str_eqb (Evaluator.env_or_empty env var_name) expected)
  | Truthiness var_name => Secrets.nonempty (env var_name)
  | Unsupported => false
  end.

(** The reading of the predicate that takes the whole text for one of the
    two forms: in a comparison nothing follows the literal, whose closing
    quote, if any, ends the text. *)
Definition whole_comparison (c : str) : bool :=
  if starts_with (lit "$env.") c then
    let r2 := drop_while isspace (drop_while is_word (skipn 5 c)) in
    if starts_with (lit "==") r2 || starts_with (lit "!=") r2 then
      let s := after_quote (drop_while isspace (skipn 2 r2)) in
      match drop_while not_quote s with
      | [] => true
      | [_] => true
      | _ => false
      end
    else false
  else false.

(** The reading that takes the whole text for [$env.NAME]. *)
Definition whole_truthiness (c : str) : bool :=
  starts_with (lit "$env.") c &&
  match take_while is_word (skipn 5 c), drop_while is_word (skipn 5 c) with
  | _ :: _, [] => true
  | _, _ => false
  end.

(** A predicate of one of the two forms, the whole text taken. *)
Definition claimed_shape (c : str) : bool :=
  whole_comparison c || whole_truthiness c.

(** A conjunction of two comparisons, and an environment in which the
    first holds and the second does not. *)
Definition conjunction_predicate : str := lit "$env.ENV == 'dev' and $env.CI == '1'".

Definition dev_env : environ := env_with (lit "ENV") (lit "dev").

(** ** Includes *)

(** The path that [_process_include] opens for an include directive met
    under [base_path]. *)
Definition full_path_of (fs : Evaluator.FileSystem) (base_path : str)
    (include : Parser.IncludeNode) : str :=
  if Evaluator.isabs fs (Parser.path include) then Parser.path include
  else Evaluator.joinpath fs base_path (Parser.path include).

(** Two files that include each other. *)
Definition cycle_files : list (str * str) :=
  [ (lit "a.ppc", lit "@include b.ppc");
    (lit "b.ppc", lit "@include a.ppc") ].

(** A document whose conditional block stands before the unconditional
    section that sets the same key; an include directive ends the block. *)
Definition override_document : str :=
  lit ">> @when $env.MODE == 'dev'" ++ [newline] ++
  lit ">> app" ++ [newline] ++
  lit "  debug = true" ++ [newline] ++
  lit "@include base.ppc" ++ [newline] ++
  lit ">> app" ++ [newline] ++
  lit "  debug = false" ++ [newline].

Definition override_files : list (str * str) :=
  [ (lit "base.ppc", lit ">> app" ++ [newline] ++ lit "  debug = false") ].

Definition mode_dev : environ := env_with (lit "MODE") (lit "dev").

Section ExampleTrees.
Context {RT : PyRuntime}.

(** The trees of the example documents. *)
Definition override_ast : Parser.AST :=
  Eval vm_compute in
    match Parser.parse 30 override_document with
    | Done a => a
    | _ => Parser.mkAST [] [] []
    end.

Definition override_tokens : list Lexer.Token :=
  Eval vm_compute in
    match Lexer.tokenize 30 override_document with
    | Done t => t
    | _ => []
    end.

Definition include_of (target : str) : Parser.IncludeNode :=
  Parser.mkIncludeNode target 1.

Definition including (target : str) : Parser.AST :=
  Parser.mkAST [] [] [include_of target].

End ExampleTrees.


(** A tree with a nested map, for the merge. *)
Definition sample_tree : dict :=
  [ (lit "name", VStr (lit "bot"));
    (lit "db", VDict [ (lit "host", VStr (lit "localhost"));
                       (lit "port", VInt 5432) ]) ].

Definition sample_override : dict :=
  [ (lit "db", VDict [ (lit "port", VInt 6543) ]);
    (lit "name", VDict [ (lit "first", VStr (lit "b")) ]) ].

(** A node with a hint that names no type. *)
Definition odd_hint_node : Parser.ValueNode :=
  Parser.mkValueNode (VInt 1) (Some (lit "foo")) None None None 3.

(** An environment in which [SECRET_TOKEN] is set to the empty string. *)
Definition empty_secret_env : environ :=
  fun n =>
    if str_eqb n (lit "SECRET_TOKEN") then Some []
    else if str_eqb n (lit "PEPECONFIG_SECRET_TOKEN") then Some (lit "s3cr3t")
    else None.

(** ** Trees that the serializer can write *)

Section LiteralTrees.
Context {RT : PyRuntime}.

Definition key_start (c : ascii) : bool := isalnum c || Ascii.eqb c "_"%char.

(** A bare key: what the lexer reads as one [KEY] token. *)
Definition bare_key (k : str) : bool :=
  match k with
  | c :: k' => key_start c && forallb Lexer.is_key_char k'
  | [] => false
  end.

Definition float_char (c : ascii) : bool :=
  is_digit c || Ascii.eqb c "."%char || Ascii.eqb c "-"%char ||
  Ascii.eqb c "+"%char || Ascii.eqb c "e"%char.

(** A float that [str] writes with a point, in digits, signs and an
    exponent mark, and that [float] reads back. *)
Definition plain_float (x : pyfloat) : Prop :=
  contains "."%char (str_of_float x) = true /\
  forallb float_char (str_of_float x) = true /\
  float_of_str (str_of_float x) = Some x.

Definition scalar (v : value) : Prop :=
  match v with
  | VNone | VBool _ | VInt _ | VStr _ => True
  | VFloat x => plain_float x
  | VList _ | VDict _ => False
  end.

(** A scalar or a list of scalars. *)
Definition leaf (v : value) : Prop :=
  match v with
  | VList items => Forall scalar items
  | VDict _ => False
  | _ => scalar v
  end.

(** What an entry of a literal tree may hold: a leaf, or a nested map that
    is not empty and is a literal tree itself. *)
Definition entry_ok (literal : value -> Prop) (kv : str * value) : Prop :=
  bare_key (fst kv) = true /\
  match snd kv with
  | VDict es => es <> [] /\ literal (snd kv)
  | w => leaf w
  end.

(** A literal tree: a dictionary with pairwise distinct bare keys, whose
    values are leaves or non-empty literal trees. *)
Fixpoint literal_tree (v : value) : Prop :=
  match v with
  | VDict entries =>
      distinct (map fst entries) = true /\
      (fix all (l : list (str * value)) : Prop :=
         match l with
         | [] => True
         | (k, w) :: l' =>
             (bare_key k = true /\
              match w with
              | VDict es => es <> [] /\ literal_tree w
              | _ => leaf w
              end) /\ all l'
         end) entries
  | _ => False
  end.

(** Equality of trees as Python's [==] on dictionaries decides it: the
    same number of keys, and under each key of the one an equal value in
    the other; the order of the keys does not count. The other values are
    compared here by identity. *)
Inductive deep_equal : value -> value -> Prop :=
| deep_equal_leaf v : Serializer.is_dict v = false -> deep_equal v v
| deep_equal_dict d1 d2 :
    List.length d1 = List.length d2 ->
    (forall k v, In (k, v) d1 ->
       exists w, dict_get k d2 = Some w /\ deep_equal v w) ->
    deep_equal (VDict d1) (VDict d2).

(** The nested maps of a dictionary, in iteration order. *)
Definition nested_items (data : dict) : dict :=
  filter (fun kv => Serializer.is_dict (snd kv)) data.

(** The tree that writing and reading back gives: in every map the simple
    entries come first. *)
Fixpoint reorder (v : value) : value :=
  match v with
  | VDict entries =>
      VDict (Serializer.simple_items entries ++
             (fix nested (l : list (str * value)) : list (str * value) :=
                match l with
                | [] => []
                | (k, w) :: l' =>
                    if Serializer.is_dict w then (k, reorder w) :: nested l'
                    else nested l'
                end) entries)
  | _ => v
  end.

(** The sections that [_dump_section] writes: the path of each and its
    simple items. *)
Fixpoint blocks (path : list str) (v : value) : list (list str * dict) :=
  match v with
  | VDict entries =>
      match Serializer.simple_items entries with
      | [] => []
      | items => [(path, items)]
      end ++
      (fix nested (l : list (str * value)) : list (list str * dict) :=
         match l with
         | [] => []
         | (k, w) :: l' =>
             (if Serializer.is_dict w then blocks (path ++ [k]) w else []) ++
             nested l'
         end) entries
  | _ => []
  end.

(** The lines of a written document. *)
Inductive doc_line : Type :=
| LHeader (section_name : str)
| LItem (k : str) (v : value)
| LBlank.

Definition line_text (l : doc_line) : str :=
  match l with
  | LHeader n => lit ">> " ++ n
  | LItem k v => lit "  " ++ k ++ lit " = " ++ Serializer.format_value v
  | LBlank => []
  end.

Definition block_lines (b : list str * dict) : list doc_line :=
  match fst b with
  | [] => []
  | _ :: _ => [LHeader (join (lit ".") (fst b))]
  end ++
  map (fun kv => LItem (fst kv) (snd kv)) (snd b) ++ [LBlank].

(** Tokens up to their positions. *)
Import Lexer.

Definition is_layout (t : Token) : Prop :=
  tk_type t = NEWLINE \/ tk_type t = INDENT.

(** The tokens of a written scalar. *)
Inductive scalar_tokens : value -> Token -> Prop :=
| st_none l c : scalar_tokens VNone (mkToken NULL (lit "null") l c)
| st_bool b l c :
    scalar_tokens (VBool b)
      (mkToken BOOLEAN (if b then lit "true" else lit "false") l c)
| st_int z l c : scalar_tokens (VInt z) (mkToken NUMBER (str_of_Z z) l c)
| st_float x l c :
    plain_float x ->
    scalar_tokens (VFloat x) (mkToken NUMBER (str_of_float x) l c)
| st_str s l c : scalar_tokens (VStr s) (mkToken STRING s l c).

(** The tokens of the elements of a written list: a comma after each
    element but the last. *)
Inductive elements_tokens : list value -> list Token -> Prop :=
| et_nil : elements_tokens [] []
| et_last v t : scalar_tokens v t -> elements_tokens [v] [t]
| et_cons v t w vs l c toks :
    scalar_tokens v t -> elements_tokens (w :: vs) toks ->
    elements_tokens (v :: w :: vs) (t :: mkToken COMMA (lit ",") l c :: toks).

(** The tokens of a written leaf. *)
Inductive value_tokens : value -> list Token -> Prop :=
| vt_scalar v t : scalar_tokens v t -> value_tokens v [t]
| vt_list items toks l c l' c' :
    elements_tokens items toks ->
    value_tokens (VList items)
      (mkToken LBRACKET (lit "[") l c :: toks ++ [mkToken RBRACKET (lit "]") l' c']).

(** The tokens of a written line. *)
Inductive line_tokens : doc_line -> list Token -> Prop :=
| lt_header n l c : line_tokens (LHeader n) [mkToken SECTION n l c]
| lt_item k v l c l' c' toks :
    value_tokens v toks ->
    line_tokens (LItem k v)
      (mkToken KEY k l c :: mkToken EQUALS (lit "=") l' c' :: toks)
| lt_blank : line_tokens LBlank [].

(** The tokens of written lines: those of each line, layout tokens before
    the next, and the end of the text. [layout] says which tokens may
    stand between lines. *)
Inductive lines_tokens (layout : Token -> Prop) : list doc_line -> list Token -> Prop :=
| lst_end lay l c :
    Forall layout lay -> lines_tokens layout [] (lay ++ [mkToken EOF [] l c])
| lst_line ln lns lay tl toks :
    Forall layout lay -> line_tokens ln tl -> lines_tokens layout lns toks ->
    lines_tokens layout (ln :: lns) (lay ++ tl ++ toks).

(** A computation settles on a result: from some fuel on, it returns
    it. *)
Definition settles {A : Type} (f : nat -> outcome A) (a : A) : Prop :=
  exists n, forall m, n <= m -> f m = Done a.

End LiteralTrees.

(** A run of characters ends where the text ends or a character fails the
    test. *)
Definition stops (p : ascii -> bool) (tail : str) : Prop :=
  match tail with
  | [] => True
  | c :: _ => p c = false
  end.

(** What may follow a written value: the end of its line, or a comma or
    the closing bracket of its list. *)
Definition follows (tail : str) : Prop :=
  match tail with
  | c :: _ => c = newline \/ c = ","%char \/ c = "]"%char
  | [] => False
  end.

(** What the serializer writes for one character of a string. *)
Definition escape_char (c : ascii) : str :=
  if Ascii.eqb c backslash then [backslash; backslash]
  else if Ascii.eqb c dquote then [backslash; dquote]
  else [c].

(** The first character of a written value: no blank, no end of line, and
    none of the marks that the loop of [_read_array] tests for. *)
Definition value_start (c : ascii) : bool :=
  negb (Lexer.is_blank c || Ascii.eqb c newline || Ascii.eqb c "]"%char ||
        Ascii.eqb c "#"%char || Ascii.eqb c ","%char).

(** The first character of a bare value: it opens no string, no list and
    no reference. *)
Definition bare_start (c : ascii) : bool :=
  negb (Ascii.eqb c dquote || Ascii.eqb c squote || Ascii.eqb c "["%char ||
        Ascii.eqb c "$"%char).

(** The value of a run of decimal digits read after [acc]. *)
Fixpoint digits_val (d : Decimal.uint) (acc : Z) : Z :=
  match d with
  | Decimal.Nil => acc
  | Decimal.D0 l => digits_val l (acc * 10 + 0)
  | Decimal.D1 l => digits_val l (acc * 10 + 1)
  | Decimal.D2 l => digits_val l (acc * 10 + 2)
  | Decimal.D3 l => digits_val l (acc * 10 + 3)
  | Decimal.D4 l => digits_val l (acc * 10 + 4)
  | Decimal.D5 l => digits_val l (acc * 10 + 5)
  | Decimal.D6 l => digits_val l (acc * 10 + 6)
  | Decimal.D7 l => digits_val l (acc * 10 + 7)
  | Decimal.D8 l => digits_val l (acc * 10 + 8)
  | Decimal.D9 l => digits_val l (acc * 10 + 9)
  end.

(** The characters of a written integer. *)
Definition int_char (c : ascii) : bool := is_digit c || Ascii.eqb c "-"%char.

(** The text between the brackets of a written list. *)
Definition elements_text {RT : PyRuntime} (items : list value) : str :=
  join (lit ", ") (map Serializer.format_value items).

(** ** The lines of a written document *)

Section DocumentLines.
Context {RT : PyRuntime}.

(** A line without its indentation. *)
Definition line_body (l : doc_line) : str :=
  match l with
  | LHeader n => lit ">> " ++ n
  | LItem k v => k ++ lit " = " ++ Serializer.format_value v
  | LBlank => []
  end.

Definition line_indent (l : doc_line) : str :=
  match l with
  | LItem _ _ => lit "  "
  | _ => []
  end.

(** The text of lines that end in a line feed each. *)
Definition doc_text (lines : list doc_line) : str :=
  List.concat (map (fun l => line_text l ++ [newline]) lines).

(** The same text from the first character of its first line that is no
    blank. *)
Definition body_text (lines : list doc_line) : str :=
  match lines with
  | [] => []
  | l :: lines' => line_body l ++ newline :: doc_text lines'
  end.

Definition first_indent (lines : list doc_line) : str :=
  match lines with
  | [] => []
  | l :: _ => line_indent l
  end.

Definition name_char (c : ascii) : bool :=
  Lexer.is_key_char c || Ascii.eqb c "."%char.

(** The name of a written section: bare keys joined by points. *)
Definition section_name (n : str) : bool :=
  match n with
  | c :: r => key_start c && forallb name_char r
  | [] => false
  end.

Definition line_ok (l : doc_line) : Prop :=
  match l with
  | LHeader n => section_name n = true
  | LItem k v => bare_key k = true /\ leaf v
  | LBlank => True
  end.

End DocumentLines.

(** ** The sections that written lines stand for *)

Section WrittenSections.
Context {RT : PyRuntime}.
Import Lexer Parser.

Definition is_indent (t : Token) : Prop := tk_type t = INDENT.

(** The node of a literal. *)
Definition literal_node (v : value) (ln : nat) : ValueNode :=
  mkValueNode v None None None None ln.

(** An assignment of a literal, whatever its lines. *)
Definition assigns (kv : str * value) (a : AssignmentNode) : Prop :=
  exists ln ln', a = mkAssignmentNode (fst kv) (literal_node (snd kv) ln) ln'.

(** A section of literals, whatever its lines. *)
Definition holds (s : str * dict) (node : SectionNode) : Prop :=
  name node = fst s /\ Forall2 assigns (snd s) (assignments node).

Definition add_item (kv : str * value) (s : str * dict) : str * dict :=
  (fst s, snd s ++ [kv]).

(** The implicit root section, as [append_to_root] finds or makes it. *)
Definition root_add (kv : str * value) (secs : list (str * dict))
  : list (str * dict) :=
  match secs with
  | s :: rest =>
      match fst s with
      | [] => add_item kv s :: rest
      | _ :: _ => add_item kv ([], []) :: secs
      end
  | [] => [([], [kv])]
  end.

(** What a written line adds to the sections read so far; the flag tells
    whether a header has been read. *)
Definition absorb (st : bool * list (str * dict)) (l : doc_line)
  : bool * list (str * dict) :=
  match l with
  | LHeader n => (true, snd st ++ [(n, [])])
  | LItem k v =>
      if fst st then (true, update_last (add_item (k, v)) (snd st))
      else (false, root_add (k, v) (snd st))
  | LBlank => st
  end.

(** The parser's state stands for the sections read so far. *)
Definition stands (st : bool * list (str * dict)) (cur : option section_ref)
    (ast : AST) : Prop :=
  cur = (if fst st then Some InSections else None) /\
  Forall2 holds (snd st) (sections ast) /\
  conditionals ast = [] /\ includes ast = [].

(** The section that a block is written as. *)
Definition named (b : list str * dict) : str * dict :=
  (join (lit ".") (fst b), snd b).

End WrittenSections.

(** No default operator comes next. *)
Definition not_default (toks : list Lexer.Token) : Prop :=
  Parser.current_type_is Lexer.DEFAULT_OP toks = false.

(** ** Written blocks *)

Section WrittenBlocks.
Context {RT : PyRuntime}.

Definition bare (k : str) : Prop := bare_key k = true.

Definition item_ok (kv : str * value) : Prop := bare (fst kv) /\ leaf (snd kv).

(** A block that [_dump_section] writes for a literal tree. *)
Definition block_ok (b : list str * dict) : Prop :=
  Forall bare (fst b) /\ snd b <> [] /\ Forall item_ok (snd b) /\
  distinct (map fst (snd b)) = true.

(** The blocks of the nested maps among [entries], under [path]. *)
Definition nested_blocks (path : list str) (entries : dict)
  : list (list str * dict) :=
  flat_map (fun kv => if Serializer.is_dict (snd kv)
                      then blocks (path ++ [fst kv]) (snd kv) else []) entries.

Definition simple_block (path : list str) (entries : dict)
  : list (list str * dict) :=
  match Serializer.simple_items entries with
  | [] => []
  | items => [(path, items)]
  end.

(** The lines of a written tree. *)
Definition tree_lines (v : value) : list doc_line :=
  flat_map block_lines (blocks [] v).

End WrittenBlocks.

(** ** The evaluation of written blocks *)

Section BlockEvaluation.
Context {RT : PyRuntime}.
Import Parser Evaluator.

Variable env : environ.
Variable secret_provider : option (str -> option str).

(** [d[k] = v] for each item in turn. *)
Definition set_items (items : dict) (d : dict) : dict :=
  fold_left (fun d kv => dict_set (fst kv) (snd kv) d) items d.

(** The assignments of literal items, all on line 0. *)
Definition literal_asgs (items : dict) : list AssignmentNode :=
  map (fun kv => mkAssignmentNode (fst kv) (literal_node (snd kv) 0) 0) items.

(** [_process_section] for the blocks in turn, from [current]. *)
Definition run_blocks (bs : list (list str * dict)) (current : value)
  : outcome value :=
  foldM (fun v b => descend env secret_provider (fst b) (literal_asgs (snd b)) v)
        bs current.

(** A block one level down, under the key [k]. *)
Definition under (k : str) (b : list str * dict) : list str * dict :=
  (k :: fst b, snd b).

(** The nested maps among [entries], each reordered. *)
Definition nested_reordered (entries : dict) : dict :=
  flat_map (fun kv => if Serializer.is_dict (snd kv)
                      then [(fst kv, reorder (snd kv))] else []) entries.

End BlockEvaluation.

(** ** Trees for the round trip *)

(** A literal tree with a nested map before a simple entry, a list and a
    map two levels down. *)
Definition round_tree : dict :=
  [ (lit "name", VStr (lit "bot \ one"));
    (lit "db", VDict [ (lit "port", VInt 5432);
                       (lit "tags", VList [VStr (lit "a"); VBool true; VNone]);
                       (lit "pool", VDict [ (lit "size", VInt (-3)) ]) ]);
    (lit "ratio", VFloat 2%Z) ].

(** A key of two words. *)
Definition spaced_key_tree : dict := [ (lit "my key", VInt 1) ].

(** A nested map without entries. *)
Definition empty_map_tree : dict := [ (lit "a", VDict []) ].

(** ** The tails of the comparison pattern *)

Section PatternTails.
Import Re Evaluator.

(** The continuation that ends a match. *)
Definition final : str -> list str -> option (list str) :=
  fun _ caps => Some caps.

Definition tail_quote : regex := Opt is_quote.
Definition tail_literal : regex := Seq (Group (Star not_quote)) tail_quote.
Definition tail_open : regex := Seq (Opt is_quote) tail_literal.
Definition tail_space : regex := Seq (Star isspace) tail_open.
Definition tail_operator : regex :=
  Seq (Group (Alt (Lit (lit "==")) (Lit (lit "!=")))) tail_space.
Definition tail_gap : regex := Seq (Star isspace) tail_operator.
Definition tail_name : regex := Seq (Group (Plus is_word)) tail_gap.

End PatternTails.

(** ** The order of the text *)

Section TextOrder.
Context {RT : PyRuntime}.
Import Lexer Parser.

(** The tokens of one type, in the order of the text. *)
Definition of_type (ty : TokenType) (toks : list Token) : list Token :=
  filter (fun t => TokenType_eqb (tk_type t) ty) toks.

(** What a header or a directive says, and its line. *)
Definition token_header (t : Token) : str * nat := (tk_value t, tk_line t).
Definition section_header (s : SectionNode) : str * nat := (name s, sn_line s).
Definition conditional_header (c : ConditionalNode) : str * nat :=
  (condition c, cn_line c).
Definition include_header (i : IncludeNode) : str * nat := (path i, in_line i).

(** The headers of the tokens of one type, in the order of the text. *)
Definition text_headers (ty : TokenType) (toks : list Token) : list (str * nat) :=
  map token_header (of_type ty toks).

(** [l] is [l1] and [l2] shuffled: each keeps its order. *)
Inductive interleaved {A : Type} : list A -> list A -> list A -> Prop :=
| interleaved_nil : interleaved [] [] []
| interleaved_left a l1 l2 l :
    interleaved l1 l2 l -> interleaved (a :: l1) l2 (a :: l)
| interleaved_right a l1 l2 l :
    interleaved l1 l2 l -> interleaved l1 (a :: l2) (a :: l).

(** The sections of the conditionals, one conditional after the other. *)
Definition conditional_sections (ast : AST) : list SectionNode :=
  flat_map cn_sections (conditionals ast).

(** The implicit root section, if the parser has made one: it stands
    first and has no name. *)
Definition root_first (secs named : list SectionNode) : Prop :=
  secs = named \/ exists root, secs = root :: named /\ name root = [].

(** The tree of a document keeps the order of the text: the includes are
    the include directives, the conditionals the conditional headers, and
    the section headers are shared out, each in its order, between the
    sections of the document and the sections of the conditionals. *)
Definition text_order (toks : list Token) (ast : AST) : Prop :=
  map include_header (includes ast) = text_headers INCLUDE toks /\
  map conditional_header (conditionals ast) = text_headers SECTION_WHEN toks /\
  exists named,
    root_first (sections ast) named /\
    interleaved (map section_header named)
                (map section_header (conditional_sections ast))
                (text_headers SECTION toks).

(** A token that is no header and no directive. *)
Definition plain (t : Token) : bool :=
  negb (TokenType_eqb (tk_type t) SECTION ||
        TokenType_eqb (tk_type t) SECTION_WHEN ||
        TokenType_eqb (tk_type t) INCLUDE).

(** No section of the document has been read yet, or the first one has
    a name. *)
Definition rootless (ast : AST) : Prop :=
  match sections ast with
  | s :: _ => name s <> []
  | [] => True
  end.

(** The headers of the sections after a run, from those before it: the
    sections read are behind, the root section, if the run has made it,
    in front. *)
Definition sections_after (ast ast' : AST) (read : list (str * nat)) : Prop :=
  map section_header (sections ast') = map section_header (sections ast) ++ read \/
  (exists ln,
     map section_header (sections ast') =
       ([], ln) :: map section_header (sections ast) ++ read) /\
  rootless ast.

End TextOrder.

(** * More of the library: helpers, providers, paths *)

(** ** The helpers of [types.py] *)

Module TypeTools.
Import Types.

Section WithRuntime.
Context {RT : PyRuntime}.

(** [infer_type]. *)
Definition infer_type (v : value) : PPCType :=
  match v with
  | VBool _ => BOOL
  | VInt _ => INT
  | VFloat _ => FLOAT
  | VStr _ => STR
  | VList _ => LIST
  | _ => ANY
  end.

(** [s.endswith(q)] for a character [q]. *)
Definition ends_with (q : ascii) (s : str) : bool :=
  match rev s with
  | c :: _ => Ascii.eqb c q
  | [] => false
  end.

(** [s.startswith(q) and s.endswith(q)]. *)
Definition quoted (q : ascii) (s : str) : bool :=
  starts_with [q] s && ends_with q s.

(** [parse_value]. *)
Definition parse_value (raw_value : str) : value :=
  let stripped := strip raw_value in
  match stripped with
  | [] => VStr []
  | _ :: _ =>
      if str_in (lower stripped) [lit "true"; lit "yes"; lit "on"] then VBool true
      else if str_in (lower stripped) [lit "false"; lit "no"; lit "off"] then VBool false
      else if str_in (lower stripped) [lit "null"; lit "none"; lit "nil"] then VNone
      else if quoted dquote stripped || quoted squote stripped
      then VStr (removelast (tl stripped))
      else
        match py_int stripped with
        | Some z => VInt z
        | None =>
            match float_of_str stripped with
            | Some x => VFloat x
            | None => VStr stripped
            end
        end
  end.

End WithRuntime.

End TypeTools.

(** ** [Config.set_nested] ([config.py]) *)

Module ConfigPaths.

Section WithRuntime.
Context {RT : PyRuntime}.

(** The loop of [set_nested] over [parts[:-1]] and the assignment to
    [parts[-1]], from [current]; the value returned is [current] after
    the assignment below it. Where [current] is no dictionary, the
    membership test, the subscript or the item assignment raises the
    built-in [TypeError]. *)
Fixpoint set_parts (front : list str) (last_part : str) (v : value)
    (current : value) : outcome value :=
  match front with
  | [] =>
      match current with
      | VDict d => Done (VDict (dict_set last_part v d))
      | _ =>
          Raise (builtin_exn PyTypeError
                   (lit "'" ++ type_name current ++
                    lit "' object does not support item assignment"))
      end
  | part :: front' =>
      match current with
      | VDict d =>
          let d1 := if dict_mem part d then d else dict_set part (VDict []) d in
          match dict_get part d1 with
          | Some child =>
              child' <- set_parts front' last_part v child ;;
              Done (VDict (dict_set part child' d1))
          | None => Raise (builtin_exn PyKeyError part)
          end
      | _ =>
          Raise (builtin_exn PyTypeError
                   (lit "'" ++ type_name current ++
                    lit "' object is not a mapping"))
      end
  end.

(** [Config.set_nested(path, value)]: the data of the configuration
    afterwards. *)
Definition set_nested (data : dict) (path : str) (v : value) : outcome dict :=
  let parts := split "."%char path in
  r <- set_parts (removelast parts) (last parts []) v (VDict data) ;;
  match r with
  | VDict d => Done d
  | _ => Done data
  end.

End WithRuntime.

End ConfigPaths.

(** ** The commands of the command line ([cli.py]) *)

(** [p in s] for strings. *)
Fixpoint has_substring (p s : str) : bool :=
  starts_with p s ||
  match s with
  | [] => false
  | _ :: s' => has_substring p s'
  end.

(** [isinstance(e, PPCError)]. *)
Definition is_ppc_error (e : exn) : bool :=
  match exn_class_of e with
  | Builtin _ => false
  | _ => true
  end.

Module Cli.

Section WithRuntime.
Context {RT : PyRuntime}.

Variable env : environ.
Variable fs : Evaluator.FileSystem.

(** [cmd_format], from the text read to the text written or printed:
    [dumps(loads(text))]. *)
Definition format_text (fuel : nat) (text : str) : outcome str :=
  data <- Serializer.loads env fs fuel text None None None ;;
  Done (Serializer.dumps data).

(** [cmd_validate]: the line printed, or the exception that leaves the
    command; [path] is the text of [Path(args.file)]. *)
Definition cmd_validate (fuel : nat) (path : str) : outcome str :=
  text <-
    match Evaluator.read_text fs path with
    | Evaluator.ReadOk text => Done text
    | Evaluator.ReadNotFound =>
        Raise (builtin_exn PyOSError (lit "No such file or directory"))
    | Evaluator.ReadError message => Raise (builtin_exn PyOSError message)
    end ;;
  tokens <- Lexer.tokenize fuel text ;;
  ast <- Parser.parse fuel text ;;
  let valid := Done (lit "[OK] " ++ path ++ lit " is valid") in
  match Serializer.load env fs fuel path None None None with
  | Done config => valid
  | Raise e =>
      if is_ppc_error e
      then if negb (has_substring (lit "not found") (lower (exn_str e)))
           then Raise e
           else valid
      else Raise e
  | Diverge => Diverge
  end.

End WithRuntime.

End Cli.

(** ** The exceptions of a load *)

(** The classes of the exceptions that an evaluation lets through. *)
Definition evaluation_class (c : exn_class) : Prop :=
  c = EvaluationError \/ c = Builtin PyTypeError.

Definition loading_class (c : exn_class) : Prop :=
  c = LexerError \/ c = ParseError \/ c = IncludeError \/ evaluation_class c.

(** ** The set of included files *)

(** Every path of [files] is in [files']. *)
Definition grows (files files' : list str) : Prop :=
  forall p, Evaluator.in_set p files = true -> Evaluator.in_set p files' = true.

(** ** What the lexer hands to the parser *)

(** What every result of a computation satisfies. *)
Definition outcome_all {A : Type} (P : A -> Prop) (Q : exn -> Prop)
    (r : outcome A) : Prop :=
  match r with
  | Done a => P a
  | Raise e => Q e
  | Diverge => True
  end.

Section TokenInvariant.
Context {RT : PyRuntime}.
Import Lexer.

(** The test of [_read_value_token] for a number. *)
Definition numeric (v : str) : bool :=
  if contains "."%char v
  then match float_of_str v with Some _ => true | None => false end
  else match py_int v with Some _ => true | None => false end.

(** A token that the lexer appends before the end of the text. *)
Definition lexed (t : Token) : Prop :=
  tk_type t <> EOF /\ (tk_type t = NUMBER -> numeric (tk_value t) = true).

(** Tokens that end in the one [EOF] token. *)
Definition closed_tokens (toks : list Token) : Prop :=
  exists pre e, toks = pre ++ [e] /\ tk_type e = EOF /\ Forall lexed pre.

Definition is_lexer_error (e : exn) : Prop := exn_class_of e = LexerError.

Definition is_parse_error (e : exn) : Prop := exn_class_of e = ParseError.

End TokenInvariant.

(** ** How far the lexer has read *)

Section Progress.
Import Lexer.

(** The state [st'] is reached from [st] by reading on. *)
Definition tail_of (st' st : state) : Prop :=
  exists pre, rest st = pre ++ rest st'.

(** A computation returns or raises, and what it returns satisfies [P]. *)
Definition returns_with {A : Type} (P : A -> Prop) (r : outcome A) : Prop :=
  match r with
  | Done a => P a
  | Raise _ => True
  | Diverge => False
  end.

Definition clean (st : state) : Prop := contains "["%char (rest st) = false.

End Progress.

(** ** More to run the statements on *)

(** The tokens of [x = 1]. *)
Definition assignment_tokens : list Lexer.Token :=
  [ Lexer.mkToken Lexer.KEY (lit "x") 1 1;
    Lexer.mkToken Lexer.EQUALS (lit "=") 1 3;
    Lexer.mkToken Lexer.NUMBER (lit "1") 1 5;
    Lexer.mkToken Lexer.EOF [] 1 6 ].

(** The tokens that follow the line of a conditional: a section with one
    assignment, a section without, the end of the text. *)
Definition two_sections_tokens : list Lexer.Token :=
  [ Lexer.mkToken Lexer.SECTION (lit "a") 2 1;
    Lexer.mkToken Lexer.KEY (lit "x") 3 3;
    Lexer.mkToken Lexer.EQUALS (lit "=") 3 5;
    Lexer.mkToken Lexer.NUMBER (lit "1") 3 7;
    Lexer.mkToken Lexer.SECTION (lit "b") 4 1;
    Lexer.mkToken Lexer.EOF [] 4 5 ].

Definition two_sections : list Parser.SectionNode :=
  [ Parser.mkSectionNode (lit "a")
      [ Parser.mkAssignmentNode (lit "x")
          (Parser.mkValueNode (VInt 1) None None None None 3) 3 ] 2;
    Parser.mkSectionNode (lit "b") [] 4 ].

(** [${PORT:-8080}]: a reference to the environment with a default. *)
Definition port_reference : Parser.ValueNode :=
  Parser.mkValueNode VNone None (Some (lit "PORT")) None
    (Some (Parser.mkValueNode (VInt 8080) None None None None 1)) 1.

(** One file to include. *)
Definition part_files : list (str * str) := [ (lit "b.ppc", lit "x = 1") ].

(** A file whose include names no file. *)
Definition one_include_files : list (str * str) :=
  [ (lit "a.ppc", lit "@include b.ppc") ].

(** ** The order of an evaluation, in the words of the specification *)

(** The items of [l] are handled in turn, from the first to the last:
    [step s a s'] takes the state [s] to [s'] on the item [a]. *)
Inductive in_turn {A S : Type} (step : S -> A -> S -> Prop)
  : list A -> S -> S -> Prop :=
| in_turn_done s : in_turn step [] s s
| in_turn_next a l s s1 s2 :
    step s a s1 -> in_turn step l s1 s2 -> in_turn step (a :: l) s s2.

Section FixedOrder.
Context {RT : PyRuntime}.
Import Parser Evaluator.

Variable env : environ.
Variable secret_provider : option (str -> option str).
Variable fs : FileSystem.
Variable parse_text : str -> outcome AST.

(** Step 1, for one include: its path, resolved against the base
    directory, is not in the chain; it is added to the chain; the file is
    read, parsed and evaluated with the chain, by [rec]; the tree of the
    file is merged into the accumulator. *)
Definition include_applied
    (rec : str -> AST -> list str -> outcome (dict * list str)) (base_path : str)
    (acc : dict * list str) (include : IncludeNode) (acc' : dict * list str) : Prop :=
  let full_path := full_path_of fs base_path include in
  exists text included_ast tree,
    in_set (resolve fs full_path) (snd acc) = false /\
    read_text fs full_path = ReadOk text /\
    parse_text text = Done included_ast /\
    rec (parent fs full_path) included_ast (resolve fs full_path :: snd acc) =
      Done (tree, snd acc') /\
    fst acc' = deep_merge (fst acc) tree.

(** Step 2, for one section. *)
Definition section_applied (data : dict) (section : SectionNode) (data' : dict) : Prop :=
  process_section env secret_provider data section = Done data'.

(** Step 3, for one conditional: where the predicate holds, its sections
    are applied in turn as in step 2; where it does not, nothing is
    done. *)
Definition conditional_applied (data : dict) (conditional : ConditionalNode)
    (data' : dict) : Prop :=
  if evaluate_condition env (condition conditional)
  then in_turn section_applied (cn_sections conditional) data data'
  else data' = data.

(** The fixed order: the includes, then the sections of the document,
    then the conditionals, each list from its first item to its last. *)
Definition fixed_order
    (rec : str -> AST -> list str -> outcome (dict * list str)) (base_path : str)
    (ast : AST) (files : list str) (tree : dict) (files' : list str) : Prop :=
  exists merged with_sections,
    in_turn (include_applied rec base_path) (includes ast) ([], files) (merged, files') /\
    in_turn section_applied (sections ast) merged with_sections /\
    in_turn conditional_applied (conditionals ast) with_sections tree.

End FixedOrder.

(** File [a.ppc] includes [c.ppc] and then [b.ppc]; [b.ppc] includes
    [a.ppc]; [c.ppc] includes nothing. *)
Definition detour_files : list (str * str) :=
  [ (lit "a.ppc", lit "@include c.ppc" ++ [newline] ++ lit "@include b.ppc");
    (lit "b.ppc", lit "@include a.ppc");
    (lit "c.ppc", lit "x = 1") ].

(** * Properties *)

(** ** Strings and dictionaries *)

Lemma str_eqb_eq (a b : str) : str_eqb a b = true <-> a = b.
Proof.
  unfold str_eqb. destruct (list_eq_dec ascii_dec a b); split; congruence.
Qed.

Lemma str_eqb_refl (a : str) : str_eqb a a = true.
Proof. apply str_eqb_eq. reflexivity. Qed.

Lemma str_eqb_neq (a b : str) : str_eqb a b = false <-> a <> b.
Proof.
  unfold str_eqb. destruct (list_eq_dec ascii_dec a b); split; congruence.
Qed.

Lemma str_eqb_sym (a b : str) : str_eqb a b = str_eqb b a.
Proof.
  destruct (str_eqb b a) eqn:E.
  - apply str_eqb_eq in E. subst. apply str_eqb_refl.
  - apply str_eqb_neq. apply str_eqb_neq in E. congruence.
Qed.

(** ** The order of definedness on outcomes *)

Lemma refines_refl {A : Type} (a : outcome A) : refines a a.
Proof. right. reflexivity. Qed.

Lemma refines_diverge {A : Type} (b : outcome A) : refines Diverge b.
Proof. left. reflexivity. Qed.

Lemma refines_trans {A : Type} (a b c : outcome A) :
  refines a b -> refines b c -> refines a c.
Proof.
  intros [-> | ->]; [intros _; apply refines_diverge | auto].
Qed.

Lemma refines_bind {A B : Type} (c c' : outcome A) (k k' : A -> outcome B) :
  refines c c' -> (forall a, refines (k a) (k' a)) ->
  refines (bind c k) (bind c' k').
Proof.
  intros [-> | ->] Hk.
  - apply refines_diverge.
  - destruct c'; simpl; auto using refines_refl.
Qed.

Lemma refines_done {A : Type} (a : A) (b : outcome A) :
  refines (Done a) b -> b = Done a.
Proof. intros [H | H]; [discriminate | auto]. Qed.

Lemma refines_raise {A : Type} (e : exn) (b : outcome A) :
  refines (Raise e) b -> b = Raise e.
Proof. intros [H | H]; [discriminate | auto]. Qed.

Lemma refines_defined {A : Type} (a b : outcome A) :
  refines a b -> a <> Diverge -> b = a.
Proof. intros [H | H] Hd; congruence. Qed.

(** A function of the fuel that grows with each unit of fuel grows along
    [<=]. *)
Lemma refines_le {A : Type} (f : nat -> outcome A) :
  (forall n, refines (f n) (f (S n))) ->
  forall n m, n <= m -> refines (f n) (f m).
Proof.
  intros Hs n m Hle. induction Hle.
  - apply refines_refl.
  - eapply refines_trans; eauto.
Qed.

Ltac mono_step :=
  match goal with
  | |- refines ?a ?a => apply refines_refl
  | |- refines Diverge _ => apply refines_diverge
  | |- refines (bind _ _) (bind _ _) => apply refines_bind; [ | intros ]
  | |- refines (let (_, _) := ?a in _) (let (_, _) := ?a in _) => destruct a
  | |- refines (let ' _ := ?a in _) (let ' _ := ?a in _) => destruct a
  | |- refines (if ?b then _ else _) (if ?b then _ else _) => destruct b
  | |- refines (match ?x with _ => _ end) (match ?x with _ => _ end) => destruct x
  end.

(** ** More fuel does not change what the lexer returns *)

Section LexerFuel.
Context {RT : PyRuntime}.
Import Lexer.

Lemma read_default_refines f g tokens st :
  (forall st', refines (f st') (g st')) ->
  refines (read_default f tokens st) (read_default g tokens st).
Proof.
  intros H. unfold read_default. repeat (mono_step; auto).
Qed.

Lemma lexer_fuel_step (n : nat) :
  (forall st, refines (read_value_token n st) (read_value_token (S n) st)) /\
  (forall st, refines (read_array n st) (read_array (S n) st)) /\
  (forall st tokens,
     refines (read_array_loop n st tokens) (read_array_loop (S n) st tokens)).
Proof.
  induction n as [| n [IHv [IHa IHl]]].
  - repeat split; intros; apply refines_diverge.
  - repeat split; intros.
    + cbn [read_value_token].
      repeat first [ apply read_default_refines; auto | mono_step; auto ].
    + cbn [read_array]. repeat (mono_step; auto).
    + cbn [read_array_loop]. repeat (mono_step; auto).
Qed.

Lemma tokenize_loop_fuel_step (n : nat) :
  forall st tokens,
    refines (tokenize_loop n st tokens) (tokenize_loop (S n) st tokens).
Proof.
  induction n as [| n IH]; intros.
  - apply refines_diverge.
  - pose proof (proj1 (lexer_fuel_step n)) as Hv.
    cbn [tokenize_loop]. repeat (mono_step; auto).
Qed.

Lemma read_value_token_fuel n m st :
  n <= m -> refines (read_value_token n st) (read_value_token m st).
Proof.
  apply (refines_le (fun k => read_value_token k st)).
  intros k. apply lexer_fuel_step.
Qed.

Lemma read_array_fuel n m st :
  n <= m -> refines (read_array n st) (read_array m st).
Proof.
  apply (refines_le (fun k => read_array k st)).
  intros k. apply lexer_fuel_step.
Qed.

Lemma read_array_loop_fuel n m st tokens :
  n <= m -> refines (read_array_loop n st tokens) (read_array_loop m st tokens).
Proof.
  apply (refines_le (fun k => read_array_loop k st tokens)).
  intros k. apply lexer_fuel_step.
Qed.

Lemma tokenize_loop_fuel n m st tokens :
  n <= m -> refines (tokenize_loop n st tokens) (tokenize_loop m st tokens).
Proof.
  apply (refines_le (fun k => tokenize_loop k st tokens)).
  intros k. apply tokenize_loop_fuel_step.
Qed.

Lemma tokenize_fuel n m text :
  n <= m -> refines (tokenize n text) (tokenize m text).
Proof. unfold tokenize. apply tokenize_loop_fuel. Qed.

End LexerFuel.

(** ** More fuel does not change what the parser returns *)

Section ParserFuel.
Context {RT : PyRuntime}.
Import Lexer Parser.

Lemma parse_default_refines f g node toks :
  (forall t, refines (f t) (g t)) ->
  refines (parse_default f node toks) (parse_default g node toks).
Proof.
  intros H. unfold parse_default. repeat (mono_step; auto).
Qed.

Lemma parser_fuel_step (n : nat) :
  (forall toks, refines (parse_value n toks) (parse_value (S n) toks)) /\
  (forall toks, refines (parse_array n toks) (parse_array (S n) toks)) /\
  (forall toks items,
     refines (parse_array_loop n toks items) (parse_array_loop (S n) toks items)).
Proof.
  induction n as [| n [IHv [IHa IHl]]].
  - repeat split; intros; apply refines_diverge.
  - repeat split; intros.
    + cbn [parse_value].
      repeat first [ apply parse_default_refines; auto | mono_step; auto ].
    + cbn [parse_array]. repeat (mono_step; auto).
    + cbn [parse_array_loop]. repeat (mono_step; auto).
Qed.

Lemma parse_value_fuel n m toks :
  n <= m -> refines (parse_value n toks) (parse_value m toks).
Proof.
  apply (refines_le (fun k => parse_value k toks)).
  intros k. apply parser_fuel_step.
Qed.

Lemma parse_assignment_fuel_step n toks :
  refines (parse_assignment n toks) (parse_assignment (S n) toks).
Proof.
  unfold parse_assignment.
  pose proof (proj1 (parser_fuel_step n)) as Hv.
  repeat (mono_step; auto).
Qed.

Lemma parse_assignment_fuel n m toks :
  n <= m -> refines (parse_assignment n toks) (parse_assignment m toks).
Proof.
  apply (refines_le (fun k => parse_assignment k toks)).
  intros k. apply parse_assignment_fuel_step.
Qed.

Lemma parse_section_assignments_fuel_step n :
  forall toks acc,
    refines (parse_section_assignments n toks acc)
            (parse_section_assignments (S n) toks acc).
Proof.
  induction n as [| n IH]; intros.
  - apply refines_diverge.
  - pose proof (parse_assignment_fuel_step n) as Ha.
    cbn [parse_section_assignments]. repeat (mono_step; auto).
Qed.

Lemma parse_conditional_sections_fuel_step n :
  forall toks acc,
    refines (parse_conditional_sections n toks acc)
            (parse_conditional_sections (S n) toks acc).
Proof.
  induction n as [| n IH]; intros.
  - apply refines_diverge.
  - pose proof (parse_section_assignments_fuel_step n) as Ha.
    cbn [parse_conditional_sections]. repeat (mono_step; auto).
Qed.

Lemma parse_loop_fuel_gen n m :
  (forall t, refines (parse_assignment n t) (parse_assignment m t)) ->
  (forall t a, refines (parse_conditional_sections n t a)
                       (parse_conditional_sections m t a)) ->
  (forall toks cur ast, refines (parse_loop n toks cur ast) (parse_loop m toks cur ast)) ->
  forall toks cur ast,
    refines (parse_loop (S n) toks cur ast) (parse_loop (S m) toks cur ast).
Proof.
  intros Ha Hc IH toks cur ast.
  cbn [parse_loop]. repeat (mono_step; auto).
Qed.

Lemma parse_loop_fuel_step n :
  forall toks cur ast,
    refines (parse_loop n toks cur ast) (parse_loop (S n) toks cur ast).
Proof.
  induction n as [| n IH].
  - intros. apply refines_diverge.
  - apply parse_loop_fuel_gen; auto.
    + apply parse_assignment_fuel_step.
    + apply parse_conditional_sections_fuel_step.
Qed.

Lemma parse_fuel_step n text : refines (parse n text) (parse (S n) text).
Proof.
  unfold parse, parse_tokens, tokenize. apply refines_bind.
  - apply tokenize_loop_fuel_step.
  - intros. apply parse_loop_fuel_step.
Qed.

Lemma parse_fuel n m text : n <= m -> refines (parse n text) (parse m text).
Proof.
  apply (refines_le (fun k => parse k text)).
  intros k. apply parse_fuel_step.
Qed.

(** What [parse] returns with some fuel, it returns with any larger fuel. *)
Lemma parse_done n m text ast :
  parse n text = Done ast -> n <= m -> parse m text = Done ast.
Proof.
  intros H Hle. apply refines_done. rewrite <- H. apply parse_fuel. exact Hle.
Qed.

Lemma parse_raise n m text e :
  parse n text = Raise e -> n <= m -> parse m text = Raise e.
Proof.
  intros H Hle. apply refines_raise. rewrite <- H. apply parse_fuel. exact Hle.
Qed.

End ParserFuel.

(** ** Induction on values, well-formed dictionaries *)

Section ValueFacts.
Context {RT : PyRuntime}.

(** Induction on a value with the hypotheses for the values held by a list
    or a dictionary. *)
Lemma value_induction (P : value -> Prop) :
  P VNone ->
  (forall b, P (VBool b)) ->
  (forall z, P (VInt z)) ->
  (forall x, P (VFloat x)) ->
  (forall s, P (VStr s)) ->
  (forall items, Forall P items -> P (VList items)) ->
  (forall entries, Forall (fun kv => P (snd kv)) entries -> P (VDict entries)) ->
  forall v, P v.
Proof.
  intros HN HB HI HF HS HL HD.
  fix IH 1. intros v. destruct v as [ | b | z | x | s | items | entries ].
  - exact HN.
  - apply HB.
  - apply HI.
  - apply HF.
  - apply HS.
  - apply HL. induction items as [| i items IHi]; constructor.
    + apply IH.
    + exact IHi.
  - apply HD. induction entries as [| [k w] entries IHe]; constructor.
    + apply IH.
    + exact IHe.
Qed.

Lemma existsb_str_eqb_In (k : str) (l : list str) :
  existsb (str_eqb k) l = true <-> In k l.
Proof.
  rewrite existsb_exists. split.
  - intros [x [Hin Heq]]. apply str_eqb_eq in Heq. subst. exact Hin.
  - intros Hin. exists k. split; [exact Hin | apply str_eqb_refl].
Qed.

Lemma distinct_NoDup (l : list str) : distinct l = true <-> NoDup l.
Proof.
  induction l as [| k l IH]; simpl.
  - split; [constructor | reflexivity].
  - rewrite andb_true_iff, negb_true_iff, IH. split.
    + intros [Hn Hd]. constructor; [| exact Hd].
      intros Hin. apply existsb_str_eqb_In in Hin. congruence.
    + intros H. inversion H as [| ? ? Hn Hd]; subst. split; [| exact Hd].
      destruct (existsb (str_eqb k) l) eqn:E; [| reflexivity].
      apply existsb_str_eqb_In in E. contradiction.
Qed.

Lemma dict_get_In (k : str) (d : dict) (v : value) :
  dict_get k d = Some v -> In (k, v) d.
Proof.
  induction d as [| [k' w] d IH]; simpl; [discriminate |].
  destruct (str_eqb k k') eqn:E.
  - apply str_eqb_eq in E. subst. intros [= ->]. left. reflexivity.
  - intros H. right. auto.
Qed.

Lemma dict_get_None (k : str) (d : dict) :
  dict_get k d = None <-> ~ In k (keys d).
Proof.
  unfold keys. induction d as [| [k' w] d IH]; simpl.
  - split; auto.
  - destruct (str_eqb k k') eqn:E.
    + apply str_eqb_eq in E. subst. split; [discriminate | intros H; exfalso; auto].
    + apply str_eqb_neq in E. rewrite IH. split.
      * intros H [Heq | Hin]; [congruence | contradiction].
      * intros H Hin. apply H. right. exact Hin.
Qed.

Lemma In_dict_get (k : str) (d : dict) (v : value) :
  NoDup (keys d) -> In (k, v) d -> dict_get k d = Some v.
Proof.
  unfold keys. induction d as [| [k' w] d IH]; simpl; [contradiction |].
  intros Hnd [Heq | Hin].
  - inversion Heq; subst. rewrite str_eqb_refl. reflexivity.
  - inversion Hnd as [| ? ? Hn Hd]; subst.
    destruct (str_eqb k k') eqn:E.
    + apply str_eqb_eq in E. subst. exfalso. apply Hn.
      change k' with (fst (k', v)). apply in_map. exact Hin.
    + auto.
Qed.

Lemma dict_get_set_eq (k : str) (v : value) (d : dict) :
  dict_get k (dict_set k v d) = Some v.
Proof.
  induction d as [| [k' w] d IH]; simpl.
  - rewrite str_eqb_refl. reflexivity.
  - destruct (str_eqb k k') eqn:E; simpl; rewrite E; auto.
Qed.

Lemma dict_get_set_ne (k k' : str) (v : value) (d : dict) :
  k <> k' -> dict_get k (dict_set k' v d) = dict_get k d.
Proof.
  intros Hne. induction d as [| [k2 w] d IH]; simpl.
  - apply str_eqb_neq in Hne. rewrite Hne. reflexivity.
  - destruct (str_eqb k' k2) eqn:E; simpl.
    + apply str_eqb_eq in E. subst.
      apply str_eqb_neq in Hne. rewrite Hne. reflexivity.
    + rewrite IH. reflexivity.
Qed.

(** Writing the value that a key already holds changes nothing. *)
Lemma dict_set_same (k : str) (v : value) (d : dict) :
  dict_get k d = Some v -> dict_set k v d = d.
Proof.
  induction d as [| [k' w] d IH]; simpl; [discriminate |].
  destruct (str_eqb k k') eqn:E.
  - intros [= ->]. reflexivity.
  - intros H. rewrite IH; auto.
Qed.

Lemma keys_dict_set_mem (k : str) (v : value) (d : dict) :
  dict_mem k d = true -> keys (dict_set k v d) = keys d.
Proof.
  unfold dict_mem, keys. induction d as [| [k' w] d IH]; simpl; [discriminate |].
  destruct (str_eqb k k') eqn:E; simpl; [reflexivity |].
  intros H. rewrite IH; auto.
Qed.

Lemma keys_dict_set_new (k : str) (v : value) (d : dict) :
  dict_mem k d = false -> keys (dict_set k v d) = keys d ++ [k].
Proof.
  unfold dict_mem, keys. induction d as [| [k' w] d IH]; simpl; [reflexivity |].
  destruct (str_eqb k k') eqn:E; simpl; [discriminate |].
  intros H. rewrite IH; auto.
Qed.

End ValueFacts.

(** ** Deep merge *)

Section MergeFacts.
Context {RT : PyRuntime}.
Import Evaluator Config.

(** The loop of [_deep_merge], one entry of the override at a time. *)
Lemma deep_merge_nil (base : dict) : deep_merge base [] = base.
Proof. reflexivity. Qed.

Lemma deep_merge_cons (base : dict) (k : str) (v : value) (override : dict) :
  deep_merge base ((k, v) :: override) =
  deep_merge
    (match dict_get k base, v with
     | Some (VDict b), VDict o => dict_set k (VDict (deep_merge b o)) base
     | _, _ => dict_set k v base
     end) override.
Proof.
  unfold deep_merge. simpl.
  destruct (dict_get k base) as [[ | | | | | | b] |]; try reflexivity.
  destruct v; reflexivity.
Qed.

(** An override whose entries the base already holds leaves the base as it
    is. *)
Lemma deep_merge_absorb (v : value) :
  wf_value v = true ->
  forall d, v = VDict d ->
  forall base, (forall k w, In (k, w) d -> dict_get k base = Some w) ->
  deep_merge base d = base.
Proof.
  induction v as [ | | | | | | entries IH] using value_induction;
    intros Hwf d Hd; try discriminate.
  injection Hd as <-.
  simpl in Hwf. apply andb_true_iff in Hwf. destruct Hwf as [_ Hwf].
  rewrite forallb_forall in Hwf. rewrite Forall_forall in IH.
  enough (Hgen : forall rest,
            (forall k w, In (k, w) rest -> In (k, w) entries) ->
            forall base, (forall k w, In (k, w) rest -> dict_get k base = Some w) ->
            deep_merge base rest = base) by (apply Hgen; auto).
  induction rest as [| [k w] rest IHrest]; intros Hsub base Hbase.
  - reflexivity.
  - rewrite deep_merge_cons.
    assert (Hk : dict_get k base = Some w) by (apply Hbase; left; reflexivity).
    rewrite Hk.
    assert (Hstep :
      match w with
      | VDict b =>
          match w with
          | VDict o => dict_set k (VDict (deep_merge b o)) base
          | _ => dict_set k w base
          end
      | _ => dict_set k w base
      end = base).
    { destruct w as [ | | | | | | o]; try (apply dict_set_same; exact Hk).
      assert (Hin : In (k, VDict o) entries) by (apply Hsub; left; reflexivity).
      assert (Hwo : wf_value (VDict o) = true) by (apply (Hwf _ Hin)).
      rewrite (IH _ Hin Hwo o eq_refl o).
      - apply dict_set_same. exact Hk.
      - intros k' w' Hin'. apply In_dict_get; [| exact Hin'].
        simpl in Hwo. apply andb_true_iff in Hwo. destruct Hwo as [Hd _].
        apply distinct_NoDup. exact Hd. }
    destruct w as [ | | | | | | o]; simpl in Hstep |- *; rewrite Hstep;
      apply IHrest; auto; intros; try (apply Hsub; right; assumption);
      apply Hbase; right; assumption.
Qed.

Lemma deep_merge_self (d : dict) : wf_dict d = true -> deep_merge d d = d.
Proof.
  intros Hwf. apply (@deep_merge_absorb (VDict d) Hwf d eq_refl).
  intros k w Hin. apply In_dict_get; [| exact Hin].
  unfold wf_dict in Hwf. simpl in Hwf. apply andb_true_iff in Hwf.
  apply distinct_NoDup. apply Hwf.
Qed.

Lemma deep_merge_get (override : dict) :
  NoDup (keys override) ->
  forall base k, dict_get k (deep_merge base override) = merged_entry base override k.
Proof.
  unfold merged_entry.
  induction override as [| [k1 v1] override IH]; intros Hnd base k.
  - reflexivity.
  - rewrite deep_merge_cons. unfold keys in Hnd. simpl in Hnd.
    inversion Hnd as [| ? ? Hn Hd]; subst.
    rewrite (IH Hd). simpl.
    destruct (str_eqb k k1) eqn:E.
    + apply str_eqb_eq in E. subst k1.
      assert (Hnone : dict_get k override = None) by (apply dict_get_None; exact Hn).
      rewrite Hnone.
      destruct (dict_get k base) as [[ | | | | | | b] |];
        try (apply dict_get_set_eq).
      destruct v1; apply dict_get_set_eq.
    + apply str_eqb_neq in E.
      assert (Hbase :
        dict_get k
          (match dict_get k1 base, v1 with
           | Some (VDict b), VDict o => dict_set k1 (VDict (deep_merge b o)) base
           | _, _ => dict_set k1 v1 base
           end) = dict_get k base).
      { destruct (dict_get k1 base) as [[ | | | | | | b] |];
          try (apply dict_get_set_ne; exact E).
        destruct v1; apply dict_get_set_ne; exact E. }
      rewrite Hbase. reflexivity.
Qed.

(** C9. [Config.merge], the tree merge: an empty tree merged into a tree
    leaves it unchanged; a tree merged into itself is unchanged; for each
    key of the override, two nested maps are merged recursively and any
    other pair of values lets the override's value stand; the merge is a
    total function, it raises nothing. *)
Theorem merge_laws :
  (forall t : dict, merge t [] = t) /\
  (forall t : dict, wf_dict t = true -> merge t t = t) /\
  (forall base override : dict,
     wf_dict override = true ->
     forall k, dict_get k (merge base override) = merged_entry base override k).
Proof.
  split; [| split].
  - intros t. reflexivity.
  - intros t Hwf. apply deep_merge_self. exact Hwf.
  - intros base override Hwf k. apply deep_merge_get.
    unfold wf_dict in Hwf. simpl in Hwf. apply andb_true_iff in Hwf.
    apply distinct_NoDup. apply Hwf.
Qed.

End MergeFacts.

(** ** Secrets *)

(** C10. The environment-backed provider goes by the truth value of what it
    finds: where [SECRET_<key>] is set to the empty string, [get] passes on
    to [PEPECONFIG_SECRET_<key>] and returns its value if that is set and
    not empty, null otherwise; an empty string is never returned. *)
Theorem env_secret_empty_falls_through (env : environ) (key : str) :
  env (lit "SECRET_" ++ key) = Some [] ->
  Secrets.get env (Secrets.EnvSecretProvider (lit "SECRET_")) key =
    match env (lit "PEPECONFIG_SECRET_" ++ key) with
    | Some (c :: v) => Some (c :: v)
    | _ => None
    end /\
  (forall prefix k, Secrets.get env (Secrets.EnvSecretProvider prefix) k <> Some []).
Proof.
  intros H. split.
  - cbn [Secrets.get]. unfold Secrets.env_get. rewrite H. cbn [Secrets.nonempty].
    destruct (env (lit "PEPECONFIG_SECRET_" ++ key)) as [[| c v] |]; reflexivity.
  - intros prefix k. cbn [Secrets.get]. unfold Secrets.env_get.
    destruct (env (prefix ++ k)) as [[| c v] |]; cbn [Secrets.nonempty];
      try (intro; discriminate);
      destruct (env (lit "PEPECONFIG_SECRET_" ++ k)) as [[| c' v'] |];
      cbn [Secrets.nonempty]; intro; discriminate.
Qed.

(** ** Type hints *)

Section HintFacts.
Context {RT : PyRuntime}.
Import Parser Types Evaluator.

Variable env : environ.
Variable secret_provider : option (str -> option str).

Lemma bind_done {A : Type} (c : outcome A) : bind c (fun a => Done a) = c.
Proof. destruct c; reflexivity. Qed.

Lemma bind_assoc {A B C : Type} (c : outcome A) (f : A -> outcome B)
    (g : B -> outcome C) :
  bind (bind c f) g = bind c (fun a => bind (f a) g).
Proof. destruct c; reflexivity. Qed.

(** [_evaluate_value] resolves the value, then applies the hint. *)
Lemma evaluate_value_hint (node : ValueNode) :
  evaluate_value env secret_provider node =
  (v <- evaluate_value env secret_provider (without_hint node) ;;
   apply_hint (type_hint node) (vn_line node) v).
Proof.
  destruct node as [nv th ev sc df ln]. unfold without_hint.
  cbn [evaluate_value vn_value type_hint env_var secret default vn_line].
  cbn [apply_hint]. rewrite bind_done. reflexivity.
Qed.

Lemma bind_ext {A B : Type} (c : outcome A) (k k' : A -> outcome B) :
  (forall a, k a = k' a) -> bind c k = bind c k'.
Proof. intros H. destruct c; simpl; auto. Qed.

(** C7. An assignment whose hint is none of the recognized names: the value
    is resolved first; a value other than null then makes the evaluation
    fail with the evaluation error that carries the text of the type
    error for the unknown name, before any coercion is tried; a null value,
    or an empty hint, leaves the hint unread and the value is returned. *)
Theorem unknown_hint_raises_after_resolution (node : ValueNode) (h : str) :
  type_hint node = Some h ->
  type_map_get (strip (lower h)) type_map = None ->
  evaluate_value env secret_provider node =
    (v <- evaluate_value env secret_provider (without_hint node) ;;
     if truthy (Some h) && negb (is_none v)
     then Raise (evaluation_error (lit "Unknown type: " ++ h) (vn_line node))
     else Done v).
Proof.
  intros Hh Hmap. rewrite evaluate_value_hint, Hh.
  apply bind_ext. intros v. unfold apply_hint.
  destruct (truthy (Some h) && negb (is_none v)); [| reflexivity].
  unfold from_string. rewrite Hmap. reflexivity.
Qed.

Variable fs : FileSystem.

(** [loads] on a text that the parser accepts. *)
Lemma loads_parsed n fuel text ast base sp secrets :
  parse n text = Done ast -> n <= fuel ->
  Serializer.loads env fs fuel text base sp secrets =
  ('(data, _) <-
     evaluate env
       (match sp, secrets with
        | Some p, _ => Some p
        | None, Some (e :: m) => Some (fun k => Secrets.assoc_get k (e :: m))
        | None, _ => None
        end) fs (parse fuel) fuel
       (match base with Some (c :: p) => c :: p | _ => cwd fs end) ast [] ;;
   Done data).
Proof.
  intros Hp Hle. unfold Serializer.loads.
  rewrite (parse_done _ Hp Hle). reflexivity.
Qed.

(** A document without includes: sections, then conditionals. *)
Lemma evaluate_no_includes sp f base ast files :
  includes ast = [] ->
  evaluate env sp fs (parse (S f)) (S f) base ast files =
  (data <- foldM (process_section env sp) (sections ast) [] ;;
   data <- foldM (process_conditional env sp) (conditionals ast) data ;;
   Done (data, files)).
Proof.
  intros H. cbn [evaluate]. rewrite H. reflexivity.
Qed.

Lemma parse_port_document :
  parse 10 port_document =
  Done (mkAST
          [mkSectionNode []
             [mkAssignmentNode (lit "port")
                (mkValueNode VNone (Some (lit "int")) (Some (lit "PORT")) None
                   (Some (mkValueNode (VInt 8080) None None None None 1)) 1) 1] 1]
          [] []).
Proof. vm_compute. reflexivity. Qed.

(** C6. The assignment [port :: int = $env.PORT ?? 8080]: with [PORT]
    unset the tree holds the integer 8080 under [port], with [PORT] set to
    the text 9090 it holds the integer 9090. *)
Theorem env_default_port (fuel : nat) base sp secrets :
  10 <= fuel ->
  (env (lit "PORT") = None ->
   Serializer.loads env fs fuel port_document base sp secrets =
   Done [(lit "port", VInt 8080)]) /\
  (env (lit "PORT") = Some (lit "9090") ->
   Serializer.loads env fs fuel port_document base sp secrets =
   Done [(lit "port", VInt 9090)]).
Proof.
  intros Hle.
  rewrite (@loads_parsed 10 fuel _ _ base sp secrets parse_port_document Hle).
  destruct fuel as [| f]; [lia |].
  rewrite evaluate_no_includes by reflexivity.
  cbn [foldM sections conditionals]. unfold process_section.
  cbn [name assignments section_parts descend apply_assignments an_value key
       evaluate_value bind lit list_ascii_of_string].
  split; intros H; cbn [lit list_ascii_of_string] in H; rewrite H; reflexivity.
Qed.

Lemma parse_age_document :
  parse 10 age_document =
  Done (mkAST
          [mkSectionNode []
             [mkAssignmentNode (lit "age")
                (mkValueNode (VStr (lit "notanumber")) (Some (lit "int")) None None
                   None 1) 1] 1]
          [] []).
Proof. vm_compute. reflexivity. Qed.

Lemma parse_count_document :
  parse 10 count_document =
  Done (mkAST
          [mkSectionNode []
             [mkAssignmentNode (lit "count")
                (mkValueNode (VBool true) (Some (lit "int")) None None None 1) 1] 1]
          [] []).
Proof. vm_compute. reflexivity. Qed.

Lemma validate_int_done v ln r :
  validate_type v INT ln = Done r ->
  is_bool v = false /\ exists z, r = VInt z /\ py_int_of v = Done z.
Proof.
  unfold validate_type, convert.
  destruct (is_bool v); [discriminate |].
  destruct (py_int_of v) as [z | e |]; simpl.
  - intros [= <-]. split; [reflexivity | exists z; auto].
  - destruct (caught e); discriminate.
  - discriminate.
Qed.

Lemma validate_float_done v ln r :
  validate_type v FLOAT ln = Done r ->
  is_bool v = false /\ exists x, r = VFloat x /\ py_float_of v = Done x.
Proof.
  unfold validate_type, convert.
  destruct (is_bool v); [discriminate |].
  destruct (py_float_of v) as [x | e |]; simpl.
  - intros [= <-]. split; [reflexivity | exists x; auto].
  - destruct (caught e); discriminate.
  - discriminate.
Qed.

Lemma validate_int_returns v ln z :
  is_bool v = false -> py_int_of v = Done z -> validate_type v INT ln = Done (VInt z).
Proof.
  intros Hb Hz. unfold validate_type, convert. rewrite Hb, Hz. reflexivity.
Qed.

Lemma validate_float_returns v ln x :
  is_bool v = false -> py_float_of v = Done x ->
  validate_type v FLOAT ln = Done (VFloat x).
Proof.
  intros Hb Hx. unfold validate_type, convert. rewrite Hb, Hx. reflexivity.
Qed.

(** A hint that names a type, on a value that is not null: what
    [validate_type] raises leaves [_evaluate_value] as an evaluation
    error with its text and the line of the value. *)
Lemma evaluate_value_wraps (node : ValueNode) (h : str) (t : PPCType) (v : value)
    (e : exn) :
  type_hint node = Some h ->
  from_string h = Done t ->
  evaluate_value env secret_provider (without_hint node) = Done v ->
  is_none v = false ->
  validate_type v t (Some (vn_line node)) = Raise e ->
  evaluate_value env secret_provider node =
  Raise (evaluation_error (exn_str e) (vn_line node)).
Proof.
  intros Hh Ht Hv Hn He. rewrite evaluate_value_hint, Hh, Hv. cbn [bind].
  unfold apply_hint. destruct h as [| c h]; [discriminate |].
  cbn [truthy andb]. rewrite Hn. cbn [negb]. rewrite Ht. cbn [bind].
  rewrite He. reflexivity.
Qed.

(** C8. Coercion to [int] and to [float] succeeds exactly on a value that
    is no boolean and that [int()], respectively [float()], accepts; a
    boolean is rejected for both hints, and so is a string that is no
    number, with a type error that carries the line. Evaluation does not
    let the type error through: what [validate_type] raises on a value
    with a hint leaves [_evaluate_value] as an evaluation error that
    carries its text and the line. So evaluating
    [age :: int = "notanumber"] and [count :: int = true] fails with an
    evaluation error, whose text is that of the type error. *)
Theorem numeric_coercion_failures :
  (forall v ln r, validate_type v INT ln = Done r <->
     is_bool v = false /\ exists z, r = VInt z /\ py_int_of v = Done z) /\
  (forall v ln r, validate_type v FLOAT ln = Done r <->
     is_bool v = false /\ exists x, r = VFloat x /\ py_float_of v = Done x) /\
  (forall b ln,
     validate_type (VBool b) INT ln =
       Raise (type_error (lit "Cannot convert '" ++ py_str (VBool b) ++ lit "' to int") ln) /\
     validate_type (VBool b) FLOAT ln =
       Raise (type_error (lit "Cannot convert '" ++ py_str (VBool b) ++ lit "' to float") ln)) /\
  (forall s ln,
     (py_int s = None ->
      validate_type (VStr s) INT ln =
        Raise (type_error (lit "Cannot convert '" ++ s ++ lit "' to int") ln)) /\
     (float_of_str s = None ->
      validate_type (VStr s) FLOAT ln =
        Raise (type_error (lit "Cannot convert '" ++ s ++ lit "' to float") ln))) /\
  (forall node h t v e,
     type_hint node = Some h ->
     from_string h = Done t ->
     evaluate_value env secret_provider (without_hint node) = Done v ->
     is_none v = false ->
     validate_type v t (Some (vn_line node)) = Raise e ->
     evaluate_value env secret_provider node =
       Raise (evaluation_error (exn_str e) (vn_line node)) /\
     exn_class_of (evaluation_error (exn_str e) (vn_line node)) = EvaluationError) /\
  (forall fuel base sp secrets, 10 <= fuel ->
     Serializer.loads env fs fuel age_document base sp secrets =
       Raise (evaluation_error
                (exn_str (type_error (lit "Cannot convert 'notanumber' to int") (Some 1)))
                1) /\
     Serializer.loads env fs fuel count_document base sp secrets =
       Raise (evaluation_error
                (exn_str (type_error (lit "Cannot convert 'True' to int") (Some 1)))
                1)).
Proof.
  split.
  { intros v ln r. split; [apply validate_int_done |].
    intros [Hb [z [-> Hz]]]. apply validate_int_returns; assumption. }
  split.
  { intros v ln r. split; [apply validate_float_done |].
    intros [Hb [x [-> Hx]]]. apply validate_float_returns; assumption. }
  split; [intros b ln; split; reflexivity |].
  split.
  { intros s ln. split; intros H; unfold validate_type, convert; simpl;
      rewrite H; reflexivity. }
  split.
  { intros node h t v e Hh Ht Hv Hn He. split; [| reflexivity].
    apply (evaluate_value_wraps node Hh Ht Hv Hn He). }
  intros fuel base sp secrets Hle. split.
  - rewrite (@loads_parsed 10 fuel _ _ base sp secrets parse_age_document Hle).
    destruct fuel as [| f]; [lia |].
    rewrite evaluate_no_includes by reflexivity. reflexivity.
  - rewrite (@loads_parsed 10 fuel _ _ base sp secrets parse_count_document Hle).
    destruct fuel as [| f]; [lia |].
    rewrite evaluate_no_includes by reflexivity. reflexivity.
Qed.

End HintFacts.

(** ** The lexer on a lone question mark inside an array *)

Section LexerHang.
Context {RT : PyRuntime}.
Import Lexer.

(** At a question mark that no second one follows, [_read_value_token]
    returns no token and leaves the position where it is. *)
Lemma read_value_token_question_mark fuel ln col :
  read_value_token (S fuel) (mkState (lit "?]") ln col) =
  Done ([], mkState (lit "?]") ln col).
Proof. reflexivity. Qed.

(** The loop of [_read_array] then comes back to the state it started
    from: no fuel is enough. *)
Lemma read_array_loop_stuck fuel :
  forall ln col tokens,
    read_array_loop fuel (mkState (lit "?]") ln col) tokens = Diverge.
Proof.
  induction fuel as [| fuel IH]; intros ln col tokens.
  - reflexivity.
  - destruct fuel as [| fuel'].
    + reflexivity.
    + change (read_array_loop (S (S fuel')) (mkState (lit "?]") ln col) tokens)
        with ('(val_tokens, st3) <-
                 read_value_token (S fuel') (mkState (lit "?]") ln col) ;;
              read_array_loop (S fuel') st3 (tokens ++ val_tokens)).
      rewrite read_value_token_question_mark. cbn [bind].
      apply IH.
Qed.

(** C2. [tokenize] does not return on the text [x = [?]]: whatever the
    fuel, the run is still inside the loop of [_read_array], which reads
    nothing and emits nothing at the question mark. *)
Theorem tokenize_hangs_on_question_mark :
  forall fuel, tokenize fuel hanging_document = Diverge.
Proof.
  intros fuel. unfold tokenize, hanging_document.
  destruct fuel as [| [| [| fuel]]]; try reflexivity.
  change (tokenize_loop (S (S (S fuel))) (init (lit "x = [?]")) [])
    with ('(value_tokens, st6) <-
            ('(tokens, st1) <-
               ('(tokens, st1) <-
                   read_array_loop fuel (mkState (lit "?]") 1 6)
                     [mkToken LBRACKET (lit "[") 1 5] ;;
                 if current_is "]"%char st1 then
                   Done (tokens ++ [mkToken RBRACKET (lit "]") (line st1) (column st1)],
                         snd (advance1 st1))
                 else Done (tokens, st1)) ;;
             read_default (read_value_token (S fuel)) tokens st1) ;;
          tokenize_loop (S (S fuel)) st6
            ([mkToken KEY (lit "x") 1 1; mkToken EQUALS (lit "=") 1 3] ++ value_tokens)).
  rewrite read_array_loop_stuck. reflexivity.
Qed.

End LexerHang.

(** ** The predicate of a conditional *)

Section ConditionFacts.
Import Re Evaluator.

Lemma star_match_first {R : Type} (p : ascii -> bool) (s : str)
    (k : str -> option R) (r : R) :
  k (drop_while p s) = Some r -> star_match p s k = Some r.
Proof.
  induction s as [| c s IH]; simpl; [auto |].
  destruct (p c); [| auto].
  intros H. rewrite (IH H). reflexivity.
Qed.

Lemma star_match_greedy {R : Type} (p : ascii -> bool) (s : str)
    (k : str -> option R) :
  (forall c t, p c = true -> k (c :: t) = None) ->
  star_match p s k = k (drop_while p s).
Proof.
  intros Hk. induction s as [| c s IH]; simpl; [reflexivity |].
  destruct (p c) eqn:E; [| reflexivity].
  rewrite IH. destruct (k (drop_while p s)); [reflexivity |].
  apply Hk. exact E.
Qed.

Lemma length_drop_while (p : ascii -> bool) (s : str) :
  List.length (drop_while p s) <= List.length s.
Proof.
  induction s as [| c s IH]; simpl; [lia |].
  destruct (p c); simpl; lia.
Qed.

Lemma firstn_take_while (p : ascii -> bool) (s : str) :
  firstn (List.length s - List.length (drop_while p s)) s = take_while p s.
Proof.
  induction s as [| c s IH]; [reflexivity |].
  cbn [take_while drop_while]. destruct (p c).
  - pose proof (length_drop_while p s) as Hle.
    cbn [List.length].
    replace (S (List.length s) - List.length (drop_while p s))
      with (S (List.length s - List.length (drop_while p s))) by lia.
    cbn [firstn]. rewrite IH. reflexivity.
  - rewrite Nat.sub_diag. reflexivity.
Qed.

Lemma firstn_prefix (p s : str) :
  starts_with p s = true ->
  firstn (List.length s - List.length (skipn (List.length p) s)) s = p.
Proof.
  revert s. induction p as [| a p IH]; intros s.
  - intros _. cbn [List.length skipn]. rewrite Nat.sub_diag. reflexivity.
  - destruct s as [| b s]; [discriminate |].
    cbn [starts_with List.length skipn].
    intros H. apply andb_true_iff in H. destruct H as [Hab Hp].
    apply Ascii.eqb_eq in Hab. subst b.
    assert (Hle : List.length (skipn (List.length p) s) <= List.length s).
    { rewrite length_skipn. lia. }
    replace (S (List.length s) - List.length (skipn (List.length p) s))
      with (S (List.length s - List.length (skipn (List.length p) s)))
      by lia.
    cbn [firstn]. rewrite (IH s Hp). reflexivity.
Qed.

Lemma comparison_pattern_tails :
  comparison_pattern = Seq (Lit (lit "$env.")) tail_name.
Proof. reflexivity. Qed.

Lemma match_tail_quote s caps : match_here tail_quote s caps final = Some caps.
Proof.
  unfold tail_quote, final. simpl. destruct s as [| c s]; [reflexivity |].
  destruct (is_quote c); reflexivity.
Qed.

Lemma match_tail_literal s caps :
  match_here tail_literal s caps final = Some (caps ++ [take_while not_quote s]).
Proof.
  unfold tail_literal. cbn [match_here].
  apply star_match_first. rewrite match_tail_quote, firstn_take_while.
  reflexivity.
Qed.

Lemma match_tail_open s caps :
  match_here tail_open s caps final =
  Some (caps ++ [take_while not_quote (after_quote s)]).
Proof.
  unfold tail_open. cbn [match_here]. unfold after_quote.
  destruct s as [| c s].
  - apply match_tail_literal.
  - destruct (is_quote c); rewrite !match_tail_literal; reflexivity.
Qed.

Lemma match_tail_space s caps :
  match_here tail_space s caps final = Some (caps ++ [operand s]).
Proof.
  unfold tail_space. cbn [match_here].
  apply star_match_first. apply match_tail_open.
Qed.

Lemma match_tail_operator s caps :
  match_here tail_operator s caps final =
  if starts_with (lit "==") s then
    Some (caps ++ [lit "=="; operand (skipn 2 s)])
  else if starts_with (lit "!=") s then
    Some (caps ++ [lit "!="; operand (skipn 2 s)])
  else None.
Proof.
  unfold tail_operator. cbn [match_here].
  destruct (starts_with (lit "==") s) eqn:E1.
  - rewrite match_tail_space.
    rewrite (firstn_prefix (lit "==") s E1). rewrite <- app_assoc. reflexivity.
  - destruct (starts_with (lit "!=") s) eqn:E2; [| reflexivity].
    rewrite match_tail_space.
    rewrite (firstn_prefix (lit "!=") s E2). rewrite <- app_assoc. reflexivity.
Qed.

Lemma operator_start c t :
  starts_with (lit "==") (c :: t) || starts_with (lit "!=") (c :: t) = true ->
  isspace c = false /\ is_word c = false.
Proof.
  unfold lit. cbn [list_ascii_of_string starts_with].
  intros H. apply orb_true_iff in H.
  destruct H as [H | H]; apply andb_true_iff in H; destruct H as [H _];
    apply Ascii.eqb_eq in H; subst c; split; reflexivity.
Qed.

Lemma match_tail_operator_none p c t caps :
  (p = isspace \/ p = is_word) -> p c = true ->
  match_here tail_operator (c :: t) caps final = None.
Proof.
  intros Hp Hc. rewrite match_tail_operator.
  destruct (starts_with (lit "==") (c :: t)) eqn:E1.
  - destruct (@operator_start c t) as [H1 H2]; [rewrite E1; reflexivity |].
    destruct Hp; subst p; congruence.
  - destruct (starts_with (lit "!=") (c :: t)) eqn:E2; [| reflexivity].
    destruct (@operator_start c t) as [H1 H2];
      [rewrite E2; apply orb_true_r |].
    destruct Hp; subst p; congruence.
Qed.

Lemma match_tail_gap s caps :
  match_here tail_gap s caps final =
  match_here tail_operator (drop_while isspace s) caps final.
Proof.
  unfold tail_gap. cbn [match_here].
  apply star_match_greedy. intros c t Hc.
  apply (@match_tail_operator_none isspace); auto.
Qed.

Lemma word_not_space c : is_word c = true -> isspace c = false.
Proof.
  destruct c as [[] [] [] [] [] [] [] []]; vm_compute; congruence.
Qed.

Lemma match_tail_name s caps :
  match_here tail_name s caps final =
  match take_while is_word s with
  | [] => None
  | var_name =>
      match_here tail_operator (drop_while isspace (drop_while is_word s))
        (caps ++ [var_name]) final
  end.
Proof.
  unfold tail_name. cbn [match_here].
  destruct s as [| c s]; [reflexivity |].
  cbn [take_while drop_while]. destruct (is_word c) eqn:Ec; [| reflexivity].
  rewrite star_match_greedy.
  - rewrite match_tail_gap.
    pose proof (firstn_take_while is_word (c :: s)) as Hf.
    cbn [take_while drop_while] in Hf. rewrite Ec in Hf. rewrite Hf.
    reflexivity.
  - intros c' t Hc'. rewrite match_tail_gap.
    cbn [drop_while]. rewrite (word_not_space c' Hc').
    apply (@match_tail_operator_none is_word); auto.
Qed.

(** What the first pattern matches. *)
Lemma comparison_match (c : str) :
  re_match comparison_pattern c =
  if starts_with (lit "$env.") c then
    match take_while is_word (skipn 5 c) with
    | [] => None
    | var_name =>
        let r2 := drop_while isspace (drop_while is_word (skipn 5 c)) in
        if starts_with (lit "==") r2 then
          Some [var_name; lit "=="; operand (skipn 2 r2)]
        else if starts_with (lit "!=") r2 then
          Some [var_name; lit "!="; operand (skipn 2 r2)]
        else None
    end
  else None.
Proof.
  unfold re_match. rewrite comparison_pattern_tails. cbn [match_here].
  destruct (starts_with (lit "$env.") c); [| reflexivity].
  change (List.length (lit "$env.")) with 5.
  fold final. rewrite match_tail_name.
  destruct (take_while is_word (skipn 5 c)) as [| a n]; [reflexivity |].
  rewrite match_tail_operator. reflexivity.
Qed.

(** What the second pattern matches. *)
Lemma truthy_match (c : str) :
  re_match truthy_pattern c =
  if starts_with (lit "$env.") c then
    match take_while is_word (skipn 5 c) with
    | [] => None
    | var_name =>
        match drop_while is_word (skipn 5 c) with
        | [] => Some [var_name]
        | [d] => if Ascii.eqb d newline then Some [var_name] else None
        | _ => None
        end
    end
  else None.
Proof.
  unfold re_match, truthy_pattern. cbn [match_here].
  destruct (starts_with (lit "$env.") c); [| reflexivity].
  change (List.length (lit "$env.")) with 5.
  destruct (skipn 5 c) as [| a s]; [reflexivity |].
  cbn [take_while drop_while]. destruct (is_word a) eqn:Ea; [| reflexivity].
  pose proof (firstn_take_while is_word (a :: s)) as Hf.
  cbn [take_while drop_while] in Hf. rewrite Ea in Hf.
  rewrite star_match_greedy.
  - cbn [app]. rewrite Hf.
    destruct (drop_while is_word s) as [| d [| d' t]]; reflexivity.
  - intros c' t Hc'. destruct t as [| c2 t]; [| reflexivity].
    destruct (Ascii.eqb c' newline) eqn:E; [| reflexivity].
    apply Ascii.eqb_eq in E. subst c'. discriminate.
Qed.

Lemma take_drop_while (p : ascii -> bool) (s : str) :
  take_while p s ++ drop_while p s = s.
Proof.
  induction s as [| c s IH]; simpl; [reflexivity |].
  destruct (p c); simpl; [rewrite IH |]; reflexivity.
Qed.

Lemma drop_while_head (p : ascii -> bool) (s : str) d t :
  drop_while p s = d :: t -> p d = false.
Proof.
  induction s as [| c s IH]; simpl; [discriminate |].
  destruct (p c) eqn:E; [exact IH |].
  intros [= -> _]. exact E.
Qed.

(** A stripped text does not end with white space. *)
Lemma strip_last (c a : str) (d : ascii) :
  strip c = a ++ [d] -> isspace d = false.
Proof.
  unfold strip. intros H.
  apply (f_equal (@rev ascii)) in H.
  rewrite rev_involutive, rev_app_distr in H. simpl in H.
  eapply drop_while_head. exact H.
Qed.


End ConditionFacts.


(** ** The order of evaluation, includes *)

Section EvaluateFacts.
Context {RT : PyRuntime}.
Import Parser Evaluator Config.

Variable env : environ.
Variable secret_provider : option (str -> option str).
Variable fs : FileSystem.
Variable parse_text : str -> outcome AST.

#[local] Abbreviation evaluate_value := (evaluate_value env secret_provider).
#[local] Abbreviation process_section := (process_section env secret_provider).
#[local] Abbreviation process_conditional := (process_conditional env secret_provider).
#[local] Abbreviation process_include := (process_include fs parse_text).
#[local] Abbreviation evaluate := (evaluate env secret_provider fs parse_text).

Lemma bind_Done_inv {A B : Type} (c : outcome A) (k : A -> outcome B) (b : B) :
  bind c k = Done b -> exists a, c = Done a /\ k a = Done b.
Proof.
  destruct c as [a | e |]; simpl; try discriminate. intros H. exists a. auto.
Qed.

Lemma foldM_app {A S : Type} (f : S -> A -> outcome S) (l1 l2 : list A) (s : S) :
  foldM f (l1 ++ l2) s = (s' <- foldM f l1 s ;; foldM f l2 s').
Proof.
  revert s. induction l1 as [| a l1 IH]; intros s; simpl; [reflexivity |].
  destruct (f s a); simpl; auto.
Qed.

(** The assignment applied last stands in the dictionary. *)
Lemma apply_assignments_last asgs a v :
  evaluate_value (an_value a) = Done v ->
  forall current r,
    apply_assignments env secret_provider (asgs ++ [a]) current = Done r ->
    exists d, r = VDict d /\ dict_get (key a) d = Some v.
Proof.
  intros Hv. induction asgs as [| b asgs IH]; intros current r.
  - cbn [app apply_assignments]. rewrite Hv. cbn [bind].
    destruct current; try discriminate.
    intros [= <-]. eexists. split; [reflexivity | apply dict_get_set_eq].
  - cbn [app apply_assignments]. intros H.
    apply bind_Done_inv in H. destruct H as [w [_ H]]. cbv beta in H.
    destruct current; try discriminate. eapply IH. exact H.
Qed.

Lemma descend_last parts asgs a v :
  evaluate_value (an_value a) = Done v ->
  forall current r,
    descend env secret_provider parts (asgs ++ [a]) current = Done r ->
    exists d, r = VDict d /\ get_parts (parts ++ [key a]) (VDict d) = Some v.
Proof.
  intros Hv. induction parts as [| part parts IH]; intros current r.
  - cbn [descend app]. intros H.
    destruct (apply_assignments_last asgs a Hv _ H) as [d [-> Hd]].
    exists d. split; [reflexivity |]. cbn [get_parts]. rewrite Hd. reflexivity.
  - cbn [descend]. destruct current as [ | | | | | | d]; try discriminate.
    match goal with
    | |- match ?g with _ => _ end = _ -> _ => destruct g as [child |]
    end; [| discriminate].
    intros H. apply bind_Done_inv in H. destruct H as [child' [Hc H]]. cbv beta in H.
    injection H as <-.
    destruct (IH _ _ Hc) as [d' [-> Hd']].
    eexists. split; [reflexivity |].
    cbn [app get_parts]. rewrite dict_get_set_eq. exact Hd'.
Qed.

Lemma process_section_last data s asgs a v tree :
  assignments s = asgs ++ [a] ->
  evaluate_value (an_value a) = Done v ->
  process_section data s = Done tree ->
  get_parts (section_parts (name s) ++ [key a]) (VDict tree) = Some v.
Proof.
  intros Ha Hv. unfold Evaluator.process_section. rewrite Ha. intros H.
  apply bind_Done_inv in H. destruct H as [r [Hr H]]. cbv beta in H.
  destruct (descend_last _ asgs a Hv _ Hr) as [d [-> Hd]].
  injection H as <-. exact Hd.
Qed.

(** The unfolding of [evaluate]. *)
Lemma evaluate_S fuel base_path ast files :
  evaluate (S fuel) base_path ast files =
  ('(data, files') <-
     foldM (fun (acc : dict * list str) include =>
              '(included_data, fl) <-
                 process_include (evaluate fuel) base_path (snd acc) include ;;
              Done (deep_merge (fst acc) included_data, fl))
           (includes ast) ([], files) ;;
   data <- foldM process_section (sections ast) data ;;
   data <- foldM process_conditional (conditionals ast) data ;;
   Done (data, files')).
Proof. reflexivity. Qed.

(** An include whose target is in the set raises. *)
Lemma process_include_cycle rec base_path files include :
  in_set (resolve fs (full_path_of fs base_path include)) files = true ->
  process_include rec base_path files include =
  Raise (include_error (lit "Circular include detected: " ++ path include)
                       (in_line include)).
Proof.
  unfold Evaluator.process_include, full_path_of. intros H. rewrite H. reflexivity.
Qed.

(** An include whose target is new, can be read and parses. *)
Lemma process_include_enter rec base_path files include text ast :
  in_set (resolve fs (full_path_of fs base_path include)) files = false ->
  read_text fs (full_path_of fs base_path include) = ReadOk text ->
  parse_text text = Done ast ->
  process_include rec base_path files include =
  rec (parent fs (full_path_of fs base_path include)) ast
      (resolve fs (full_path_of fs base_path include) :: files).
Proof.
  unfold Evaluator.process_include, full_path_of. intros H Hr Hp.
  rewrite H, Hr. cbn [bind]. rewrite Hp. reflexivity.
Qed.

(** The first include of a document decides, if it raises. *)
Lemma evaluate_first_include_raises fuel base_path ast files include rest e :
  includes ast = include :: rest ->
  process_include (evaluate fuel) base_path files include = Raise e ->
  evaluate (S fuel) base_path ast files = Raise e.
Proof.
  intros Hi Hp. rewrite evaluate_S, Hi. cbn [foldM snd]. rewrite Hp. reflexivity.
Qed.

(** Two documents that include each other first of all: evaluating the
    one raises at its include of the other, met for the second time. *)
Lemma evaluate_two_cycle fuel base_a ast_a ast_b text_a text_b
    inc_b rest_a inc_a rest_b :
  let full_b := full_path_of fs base_a inc_b in
  let full_a := full_path_of fs (parent fs full_b) inc_a in
  includes ast_a = inc_b :: rest_a ->
  includes ast_b = inc_a :: rest_b ->
  read_text fs full_b = ReadOk text_b -> parse_text text_b = Done ast_b ->
  read_text fs full_a = ReadOk text_a -> parse_text text_a = Done ast_a ->
  resolve fs full_a <> resolve fs full_b ->
  resolve fs (full_path_of fs (parent fs full_a) inc_b) = resolve fs full_b ->
  evaluate (S (S (S fuel))) base_a ast_a [] =
  Raise (include_error (lit "Circular include detected: " ++ path inc_b)
                       (in_line inc_b)).
Proof.
  intros full_b full_a Ha Hb Hrb Hpb Hra Hpa Hne Hsame.
  eapply evaluate_first_include_raises; [exact Ha |].
  rewrite (process_include_enter _ base_a [] inc_b eq_refl Hrb Hpb).
  fold full_b.
  eapply evaluate_first_include_raises; [exact Hb |].
  assert (Hnew : in_set (resolve fs full_a) [resolve fs full_b] = false).
  { unfold in_set. cbn [existsb]. rewrite orb_false_r.
    apply str_eqb_neq. exact Hne. }
  rewrite (process_include_enter _ (parent fs full_b) _ inc_a Hnew Hra Hpa).
  fold full_a.
  eapply evaluate_first_include_raises; [exact Ha |].
  apply process_include_cycle.
  rewrite Hsame. unfold in_set. cbn [existsb].
  rewrite str_eqb_refl. apply orb_true_r.
Qed.

End EvaluateFacts.

Section LoadFacts.
Context {RT : PyRuntime}.
Import Parser Evaluator.

Variable env : environ.
Variable fs : FileSystem.

(** [load] without a file of secrets: the provider is built without an
    error. *)
Lemma load_without_secrets_file fuel path secret_provider secrets :
  exists provider,
    Serializer.load env fs fuel path secret_provider None secrets =
    (text <-
       match read_text fs path with
       | ReadOk text => Done text
       | ReadNotFound =>
           Raise (builtin_exn PyOSError (lit "No such file or directory"))
       | ReadError message => Raise (builtin_exn PyOSError message)
       end ;;
     ast <- parse fuel text ;;
     '(data, _) <- evaluate env provider fs (parse fuel) fuel (parent fs path) ast [] ;;
     Done data).
Proof.
  unfold Serializer.load.
  destruct secret_provider as [p |]; [exists (Some p) |];
    [destruct (read_text fs path); reflexivity |].
  destruct secrets as [[| e m] |];
    cbn [truthy orb SecretStore.create_secret_provider app bind];
    eexists; destruct (read_text fs path); reflexivity.
Qed.

(** C4. A document whose first include is in the chain already makes the
    evaluation raise the include error that names this include. So where
    file A includes file B and file B includes file A, each as its first
    include, loading A raises the include error that names the include of
    B, met again when A is evaluated for the second time, with any fuel
    that lets the two files be parsed; the load does not hang and returns
    no tree. *)
Theorem circular_include_raises :
  (forall provider parse_text f base_path ast files first rest,
     includes ast = first :: rest ->
     in_set (resolve fs (full_path_of fs base_path first)) files = true ->
     evaluate env provider fs parse_text (S f) base_path ast files =
     Raise (include_error (lit "Circular include detected: " ++ path first)
                          (in_line first))) /\
  (forall (n fuel : nat) (path_a text_a text_b : str) (ast_a ast_b : AST)
          (inc_b inc_a : IncludeNode) (rest_a rest_b : list IncludeNode)
          (secret_provider : option (str -> option str))
          (secrets : option (list (str * str))),
     let full_b := full_path_of fs (parent fs path_a) inc_b in
     let full_a := full_path_of fs (parent fs full_b) inc_a in
     read_text fs path_a = ReadOk text_a ->
     parse n text_a = Done ast_a ->
     includes ast_a = inc_b :: rest_a ->
     read_text fs full_b = ReadOk text_b ->
     parse n text_b = Done ast_b ->
     includes ast_b = inc_a :: rest_b ->
     read_text fs full_a = ReadOk text_a ->
     resolve fs full_a <> resolve fs full_b ->
     resolve fs (full_path_of fs (parent fs full_a) inc_b) = resolve fs full_b ->
     n <= fuel -> 3 <= fuel ->
     Serializer.load env fs fuel path_a secret_provider None secrets =
     Raise (include_error (lit "Circular include detected: " ++ path inc_b)
                          (in_line inc_b))).
Proof.
  split.
  - intros provider parse_text f base_path ast files first rest Hi Hset.
    apply (@evaluate_first_include_raises RT env provider fs parse_text f base_path
             ast files first rest _ Hi).
    apply process_include_cycle. exact Hset.
  - intros n fuel path_a text_a text_b ast_a ast_b inc_b inc_a rest_a rest_b
      secret_provider secrets full_b full_a Hr Hpa Ha Hrb Hpb Hb Hra Hne Hsame Hn H3.
    destruct (load_without_secrets_file fuel path_a secret_provider secrets)
      as [provider ->].
    rewrite Hr. cbn [bind].
    rewrite (parse_done _ Hpa Hn). cbn [bind].
    destruct fuel as [| [| [| f]]]; try lia.
    rewrite (@evaluate_two_cycle RT env provider fs (parse (S (S (S f)))) f
               (parent fs path_a) ast_a ast_b text_a text_b inc_b rest_a inc_a rest_b
               Ha Hb Hrb (parse_done _ Hpb Hn) Hra (parse_done _ Hpa Hn) Hne Hsame).
    reflexivity.
Qed.

End LoadFacts.

(** ** Characters and numerals of written values *)

Unset Implicit Arguments.

(** A fact about one character, by cases on its eight bits. *)
Ltac ascii_cases c :=
  destruct c as [[] [] [] [] [] [] [] []]; vm_compute; try reflexivity;
  try discriminate; try (intros _; repeat split; reflexivity).

Section CharFacts.
Context {RT : PyRuntime}.
Import Lexer.

(** *** Character classes *)

Lemma float_char_value_end c : float_char c = true -> is_value_end c = false.
Proof. ascii_cases c. Qed.

Lemma float_char_bare_start c : float_char c = true -> bare_start c = true.
Proof. ascii_cases c. Qed.

Lemma float_char_value_start c : float_char c = true -> value_start c = true.
Proof. ascii_cases c. Qed.

Lemma float_char_lower c : float_char c = true -> lower_char c = c.
Proof. ascii_cases c. Qed.

Lemma float_char_space c : float_char c = true -> isspace c = false.
Proof. ascii_cases c. Qed.

Lemma key_char_space c : is_key_char c = true -> isspace c = false.
Proof. ascii_cases c. Qed.

Lemma key_start_key_char c : key_start c = true -> is_key_char c = true.
Proof. ascii_cases c. Qed.

Lemma int_char_float_char c : int_char c = true -> float_char c = true.
Proof. ascii_cases c. Qed.

Lemma int_char_no_point c : int_char c = true -> Ascii.eqb "."%char c = false.
Proof. ascii_cases c. Qed.

(** *** Integers *)

Lemma uint_chars d :
  forallb is_digit (lit (DecimalString.NilEmpty.string_of_uint d)) = true.
Proof. induction d; cbn [DecimalString.NilEmpty.string_of_uint lit list_ascii_of_string forallb]; auto. Qed.

Lemma int_digits_uint d :
  forall acc prev, d <> Decimal.Nil \/ prev = true ->
  int_digits (lit (DecimalString.NilEmpty.string_of_uint d)) acc prev =
  Some (digits_val d acc).
Proof.
  induction d; intros acc prev H;
    cbn [DecimalString.NilEmpty.string_of_uint lit list_ascii_of_string
         int_digits digits_val];
    try (apply IHd; right; reflexivity).
  destruct H as [H | H]; [congruence | subst; reflexivity].
Qed.

Lemma digits_val_pos l :
  forall acc, digits_val l (Z.pos acc) = Z.pos (Pos.of_uint_acc l acc).
Proof.
  induction l; intros acc; cbn [digits_val Pos.of_uint_acc]; try reflexivity.
  all: match goal with
       | |- digits_val _ ?a = Z.pos (Pos.of_uint_acc _ ?b) =>
           replace a with (Z.pos b) by lia; apply IHl
       end.
Qed.

Lemma digits_val_of_uint d : digits_val d 0 = Z.of_N (Pos.of_uint d).
Proof.
  induction d; cbn [digits_val Pos.of_uint]; try reflexivity; try exact IHd.
  all: cbn [Z.mul Z.add Z.of_N]; apply digits_val_pos.
Qed.

Lemma drop_while_stops (p : ascii -> bool) s : stops p s -> drop_while p s = s.
Proof. destruct s as [| c s]; cbn; [reflexivity | intros ->; reflexivity]. Qed.

Lemma forallb_stops (p q : ascii -> bool) s :
  (forall c, p c = true -> q c = false) -> forallb p s = true -> stops q s.
Proof.
  intros H. destruct s as [| c s]; cbn; [trivial |].
  intros E. apply andb_true_iff in E. apply H, E.
Qed.

Lemma forallb_rev_true (p : ascii -> bool) s :
  forallb p s = true -> forallb p (rev s) = true.
Proof.
  rewrite !forallb_forall. intros H c Hc. apply H. apply in_rev. exact Hc.
Qed.

Lemma strip_id (p : ascii -> bool) s :
  (forall c, p c = true -> isspace c = false) -> forallb p s = true -> strip s = s.
Proof.
  intros H E. unfold strip.
  rewrite (@drop_while_stops isspace s) by (eapply forallb_stops; eauto).
  rewrite (@drop_while_stops isspace (rev s))
    by (eapply forallb_stops; [exact H | apply forallb_rev_true; exact E]).
  apply rev_involutive.
Qed.

Lemma number_space_isspace c : isspace c = false -> is_number_space c = false.
Proof.
  unfold isspace, is_number_space. intros H.
  apply orb_false_iff in H. destruct H as [H H2].
  apply orb_false_iff in H. destruct H as [H1 _]. rewrite H1, H2. reflexivity.
Qed.

Lemma number_text_id (p : ascii -> bool) s :
  (forall c, p c = true -> isspace c = false) -> forallb p s = true -> number_text s = s.
Proof.
  intros H E. unfold number_text.
  assert (H' : forall c, p c = true -> is_number_space c = false)
    by (intros c Hc; apply number_space_isspace, H, Hc).
  rewrite (@drop_while_stops is_number_space s) by (eapply forallb_stops; eauto).
  rewrite (@drop_while_stops is_number_space (rev s))
    by (eapply forallb_stops; [exact H' | apply forallb_rev_true; exact E]).
  apply rev_involutive.
Qed.

Lemma str_of_Z_chars z : forallb int_char (str_of_Z z) = true.
Proof.
  assert (U : forall d, forallb int_char (lit (DecimalString.NilZero.string_of_uint d)) = true).
  { intros d.
    assert (E : forallb int_char (lit (DecimalString.NilEmpty.string_of_uint d)) = true).
    { generalize (uint_chars d). rewrite !forallb_forall. intros H c Hc.
      unfold int_char. rewrite (H c Hc). reflexivity. }
    destruct d; exact E. }
  unfold str_of_Z. destruct z as [| p | p]; cbn [Z.to_int DecimalString.NilZero.string_of_int].
  - reflexivity.
  - apply U.
  - change (int_char "-"%char &&
            forallb int_char (lit (DecimalString.NilZero.string_of_uint (Pos.to_uint p))) = true).
    rewrite (U (Pos.to_uint p)). reflexivity.
Qed.

Lemma str_of_Z_float_chars z : forallb float_char (str_of_Z z) = true.
Proof.
  generalize (str_of_Z_chars z). rewrite !forallb_forall. intros H c Hc.
  apply int_char_float_char. apply (H c Hc).
Qed.

Lemma str_of_Z_no_point z : contains "."%char (str_of_Z z) = false.
Proof.
  unfold contains. generalize (str_of_Z_chars z).
  induction (str_of_Z z) as [| c s IH]; cbn [forallb existsb]; [reflexivity |].
  intros E. apply andb_true_iff in E. destruct E as [Ec Es].
  rewrite (@int_char_no_point c Ec). exact (IH Es).
Qed.

Lemma py_int_uint d :
  d <> Decimal.Nil ->
  py_int (lit (DecimalString.NilZero.string_of_uint d)) = Some (Z.of_N (Pos.of_uint d)).
Proof.
  intros Hd. unfold py_int.
  rewrite (@number_text_id is_digit).
  - rewrite <- digits_val_of_uint.
    destruct d; try congruence;
      cbn [DecimalString.NilZero.string_of_uint DecimalString.NilEmpty.string_of_uint
           lit list_ascii_of_string];
      match goal with
      | |- _ = Some (digits_val ?d0 _) =>
          apply (@int_digits_uint d0 0%Z false); left; discriminate
      end.
  - intros c Hc. apply float_char_space, int_char_float_char.
    unfold int_char in *. rewrite Hc. reflexivity.
  - destruct d; try congruence; apply (uint_chars _).
Qed.

Lemma py_int_str_of_Z z : py_int (str_of_Z z) = Some z.
Proof.
  destruct z as [| p | p].
  - reflexivity.
  - unfold str_of_Z. cbn [Z.to_int DecimalString.NilZero.string_of_int].
    rewrite py_int_uint by apply DecimalPos.Unsigned.to_uint_nonnil.
    rewrite DecimalPos.Unsigned.of_to. reflexivity.
  - unfold str_of_Z. cbn [Z.to_int DecimalString.NilZero.string_of_int].
    generalize (@py_int_uint _ (DecimalPos.Unsigned.to_uint_nonnil p)).
    rewrite DecimalPos.Unsigned.of_to.
    unfold py_int.
    rewrite (@number_text_id is_digit).
    2:{ intros c Hc. apply float_char_space, int_char_float_char.
        unfold int_char. rewrite Hc. reflexivity. }
    2:{ generalize (DecimalPos.Unsigned.to_uint_nonnil p).
        destruct (Pos.to_uint p); try congruence; intros _; apply (uint_chars _). }
    rewrite (@number_text_id int_char).
    2:{ intros c Hc. apply float_char_space, int_char_float_char. exact Hc. }
    2:{ apply (str_of_Z_chars (Z.neg p)). }
    cbn [lit list_ascii_of_string].
    generalize (DecimalPos.Unsigned.to_uint_nonnil p).
    destruct (Pos.to_uint p); try congruence; intros _;
      cbn [DecimalString.NilZero.string_of_uint DecimalString.NilEmpty.string_of_uint
           lit list_ascii_of_string];
      intros E; cbn [option_map] in *; 
      match goal with
      | |- option_map _ ?x = _ =>
          match type of E with ?y = _ => change x with y; rewrite E; reflexivity end
      end.
Qed.

End CharFacts.

(** ** The lexer on written values *)

Section LexingFacts.
Context {RT : PyRuntime}.
Import Lexer.

Lemma read_while_from_app p run tail :
  forallb p run = true -> stops p tail ->
  forall ln col, exists ln' col',
    read_while_from p (run ++ tail) ln col = (run, mkState tail ln' col').
Proof.
  intros Hrun Hstop. induction run as [| c run IH]; intros ln col.
  - cbn [app]. destruct tail as [| d tail]; cbn [read_while_from].
    + eauto.
    + cbn [stops] in Hstop. rewrite Hstop. eauto.
  - cbn [forallb] in Hrun. apply andb_true_iff in Hrun. destruct Hrun as [Hc Hrun].
    cbn [app read_while_from]. rewrite Hc.
    destruct (Ascii.eqb c newline).
    + destruct (IH Hrun (S ln) 1) as [ln' [col' E]]. rewrite E. eauto.
    + destruct (IH Hrun ln (S col)) as [ln' [col' E]]. rewrite E. eauto.
Qed.

Lemma read_while_app p run tail ln col :
  forallb p run = true -> stops p tail ->
  exists ln' col',
    read_while p (mkState (run ++ tail) ln col) = (run, mkState tail ln' col').
Proof. intros. unfold read_while. cbn [rest line column]. apply read_while_from_app; auto. Qed.

Lemma skip_whitespace_app ws tail ln col :
  forallb is_blank ws = true -> stops is_blank tail ->
  exists ln' col',
    skip_whitespace_on_line (mkState (ws ++ tail) ln col) =
    (List.length ws, mkState tail ln' col').
Proof.
  intros Hws Hstop. unfold skip_whitespace_on_line.
  destruct (@read_while_app is_blank ws tail ln col Hws Hstop) as [ln' [col' E]].
  rewrite E. eauto.
Qed.

Lemma skip_whitespace_none tail ln col :
  stops is_blank tail ->
  skip_whitespace_on_line (mkState tail ln col) = (0, mkState tail ln col).
Proof.
  intros Hstop. unfold skip_whitespace_on_line, read_while. cbn [rest line column].
  destruct tail as [| c tail]; cbn [read_while_from]; [reflexivity |].
  cbn [stops] in Hstop. rewrite Hstop. reflexivity.
Qed.

(** *** Strings *)

Lemma escape_cons c s :
  Serializer.escape (c :: s) = escape_char c ++ Serializer.escape s.
Proof.
  unfold Serializer.escape, Serializer.replace, escape_char.
  cbn [flat_map]. rewrite flat_map_app.
  destruct (Ascii.eqb c backslash) eqn:E1.
  - apply Ascii.eqb_eq in E1. subst c. reflexivity.
  - cbn [flat_map app]. destruct (Ascii.eqb c dquote); reflexivity.
Qed.

Lemma read_string_from_escape s tail :
  forall ln col, exists ln' col',
    read_string_from dquote (Serializer.escape s ++ dquote :: tail) ln col =
    (s, mkState tail ln' col').
Proof.
  induction s as [| c s IH]; intros ln col.
  - cbn. eauto.
  - rewrite escape_cons. unfold escape_char.
    destruct (Ascii.eqb c backslash) eqn:E1.
    + apply Ascii.eqb_eq in E1. subst c.
      cbn [app read_string_from].
      change (Ascii.eqb backslash backslash) with true. cbv iota.
      destruct (IH (next_line backslash (next_line backslash ln))
                   (next_column backslash (next_column backslash col)))
        as [ln' [col' E]].
      rewrite E. change (unescape dquote backslash) with backslash. eauto.
    + destruct (Ascii.eqb c dquote) eqn:E2.
      * apply Ascii.eqb_eq in E2. subst c.
        cbn [app read_string_from].
        change (Ascii.eqb dquote backslash) with false. cbv iota.
        change (Ascii.eqb backslash backslash) with true.
        change (Ascii.eqb backslash dquote) with false.
        cbn [app read_string_from].
        change (Ascii.eqb backslash backslash) with true. cbv iota.
        destruct (IH (next_line dquote (next_line backslash ln))
                     (next_column dquote (next_column backslash col)))
          as [ln' [col' E]].
        rewrite E. change (unescape dquote dquote) with dquote. eauto.
      * cbn [app read_string_from]. rewrite E1, E2.
        destruct (IH (next_line c ln) (next_column c col)) as [ln' [col' E]].
        rewrite E. eauto.
Qed.

Lemma read_string_escape s tail ln col :
  exists ln' col',
    read_string dquote (mkState (dquote :: Serializer.escape s ++ dquote :: tail) ln col) =
    (s, mkState tail ln' col').
Proof.
  unfold read_string, advance1. cbn [rest line column].
  change (Ascii.eqb dquote newline) with false. cbv iota. cbn [rest line column].
  apply read_string_from_escape.
Qed.

(** *** Scalars *)

Lemma follows_cases tail :
  follows tail ->
  exists c r, tail = c :: r /\ is_blank c = false /\ is_value_end c = true /\
              Ascii.eqb c "?"%char = false.
Proof.
  destruct tail as [| c r]; cbn [follows]; [tauto |].
  intros [H | [H | H]]; subst c; eexists; exists r; repeat split; reflexivity.
Qed.

Lemma read_default_follows f tokens tail ln col :
  follows tail ->
  read_default f tokens (mkState tail ln col) = Done (tokens, mkState tail ln col).
Proof.
  intros H. destruct (@follows_cases _ H) as [c [r [-> [Hb [_ Hq]]]]].
  unfold read_default. rewrite skip_whitespace_none by exact Hb.
  unfold current_is, current_char. cbn [rest hd_error]. rewrite Hq. reflexivity.
Qed.

(** A bare value: a run that no end mark interrupts. *)
Lemma read_bare_value c run tail ln col :
  bare_start c = true ->
  forallb (fun c => negb (is_value_end c)) (c :: run) = true ->
  follows tail ->
  exists ln' col', forall fuel,
    read_value_token (S fuel) (mkState ((c :: run) ++ tail) ln col) =
    Done ([classify (c :: run) ln col], mkState tail ln' col').
Proof.
  intros Hs Hrun Htail.
  destruct (@follows_cases _ Htail) as [d [r [E [Hb [Hv Hq]]]]].
  destruct (@read_while_app (fun c => negb (is_value_end c)) (c :: run) tail ln col Hrun)
    as [ln' [col' Hread]].
  { subst tail. cbn [stops]. rewrite Hv. reflexivity. }
  exists ln', col'. intros fuel.
  cbn [read_value_token]. unfold current_is, current_char. cbn [rest hd_error app line column].
  unfold bare_start in Hs. apply negb_true_iff in Hs.
  apply orb_false_iff in Hs. destruct Hs as [Hs H4].
  apply orb_false_iff in Hs. destruct Hs as [Hs H3].
  apply orb_false_iff in Hs. destruct Hs as [H1 H2].
  rewrite H1, H2, H3, H4. cbn [orb].
  cbn [app] in Hread. rewrite Hread.
  apply read_default_follows. exact Htail.
Qed.

Lemma lower_float_chars v : forallb float_char v = true -> lower v = v.
Proof.
  induction v as [| c v IH]; cbn [forallb lower map]; [reflexivity |].
  intros E. apply andb_true_iff in E. destruct E as [Ec Ev].
  rewrite (@float_char_lower c Ec). f_equal. apply IH, Ev.
Qed.

Lemma float_chars_not_word v (words : list str) :
  forallb float_char v = true ->
  forallb (fun w => negb (forallb float_char w)) words = true ->
  str_in v words = false.
Proof.
  intros Hv. unfold str_in. induction words as [| w ws IH]; cbn [forallb existsb]; [reflexivity |].
  intros E. apply andb_true_iff in E. destruct E as [Ew Ews].
  rewrite (IH Ews). destruct (str_eqb v w) eqn:Evw; [| reflexivity].
  apply str_eqb_eq in Evw. subst w. rewrite Hv in Ew. discriminate.
Qed.

Lemma classify_number v ln col :
  forallb float_char v = true ->
  (if contains "."%char v
   then match float_of_str v with Some _ => true | None => false end
   else match py_int v with Some _ => true | None => false end) = true ->
  classify v ln col = mkToken NUMBER v ln col.
Proof.
  intros Hv Hn. unfold classify. rewrite (@lower_float_chars v Hv).
  rewrite !(@float_chars_not_word v _ Hv) by reflexivity.
  rewrite Hn. reflexivity.
Qed.


Lemma forallb_impl (p q : ascii -> bool) s :
  (forall c, p c = true -> q c = true) -> forallb p s = true -> forallb q s = true.
Proof. rewrite !forallb_forall. auto. Qed.

Lemma float_chars_run v :
  forallb float_char v = true ->
  forallb (fun c => negb (is_value_end c)) v = true.
Proof.
  apply forallb_impl. intros c Hc. rewrite (@float_char_value_end c Hc). reflexivity.
Qed.

(** A written number is read as one [NUMBER] token. *)
Lemma read_number v tail ln col :
  forallb float_char v = true ->
  (if contains "."%char v
   then match float_of_str v with Some _ => true | None => false end
   else match py_int v with Some _ => true | None => false end) = true ->
  follows tail ->
  exists ln' col', forall fuel,
    read_value_token (S fuel) (mkState (v ++ tail) ln col) =
    Done ([mkToken NUMBER v ln col], mkState tail ln' col').
Proof.
  intros Hv Hn Htail. destruct v as [| c run].
  - cbn in Hn. discriminate.
  - rewrite <- (@classify_number (c :: run) ln col Hv Hn).
    apply read_bare_value; [| apply float_chars_run, Hv | exact Htail].
    cbn [forallb] in Hv. apply andb_true_iff in Hv.
    apply float_char_bare_start, Hv.
Qed.

Lemma read_scalar v tail ln col :
  scalar v -> follows tail ->
  exists t ln' col',
    scalar_tokens v t /\ forall fuel,
    read_value_token (S fuel) (mkState (Serializer.format_value v ++ tail) ln col) =
    Done ([t], mkState tail ln' col').
Proof.
  intros Hv Htail. destruct v as [| b | z | x | s | items | entries];
    cbn [scalar] in Hv; try contradiction; cbn [Serializer.format_value].
  - destruct (@read_bare_value "n"%char (lit "ull") tail ln col) as [ln' [col' E]];
      [reflexivity | reflexivity | exact Htail |].
    exists (mkToken NULL (lit "null") ln col), ln', col'. split; [constructor | exact E].
  - destruct b.
    + destruct (@read_bare_value "t"%char (lit "rue") tail ln col) as [ln' [col' E]];
        [reflexivity | reflexivity | exact Htail |].
      exists (mkToken BOOLEAN (lit "true") ln col), ln', col'.
      split; [exact (st_bool true ln col) | exact E].
    + destruct (@read_bare_value "f"%char (lit "alse") tail ln col) as [ln' [col' E]];
        [reflexivity | reflexivity | exact Htail |].
      exists (mkToken BOOLEAN (lit "false") ln col), ln', col'.
      split; [exact (st_bool false ln col) | exact E].
  - destruct (@read_number (str_of_Z z) tail ln col) as [ln' [col' E]];
      [apply str_of_Z_float_chars | | exact Htail |].
    { rewrite str_of_Z_no_point, py_int_str_of_Z. reflexivity. }
    exists (mkToken NUMBER (str_of_Z z) ln col), ln', col'. split; [constructor | exact E].
  - destruct Hv as [Hp [Hc Hf]].
    destruct (@read_number (str_of_float x) tail ln col) as [ln' [col' E]];
      [exact Hc | | exact Htail |].
    { rewrite Hp, Hf. reflexivity. }
    exists (mkToken NUMBER (str_of_float x) ln col), ln', col'.
    split; [constructor; repeat split; assumption | exact E].
  - destruct (@read_string_escape s tail ln col) as [ln' [col' E]].
    exists (mkToken STRING s ln col), ln', col'. split; [constructor |]. intros fuel.
    cbn [read_value_token app]. unfold current_is, current_char. cbn [rest hd_error].
    change (Ascii.eqb dquote dquote) with true. cbn [orb line column].
    rewrite <- app_assoc. cbn [app]. rewrite E.
    apply read_default_follows. exact Htail.
Qed.

Lemma scalar_start v :
  scalar v ->
  exists c r, Serializer.format_value v = c :: r /\ value_start c = true.
Proof.
  intros Hv. destruct v as [| b | z | x | s | items | entries];
    cbn [scalar] in Hv; try contradiction; cbn [Serializer.format_value].
  - eexists; eexists; split; reflexivity.
  - destruct b; eexists; eexists; split; reflexivity.
  - generalize (str_of_Z_float_chars z) (py_int_str_of_Z z).
    destruct (str_of_Z z) as [| c r]; [discriminate |].
    cbn [forallb]. intros E _. apply andb_true_iff in E.
    exists c, r. split; [reflexivity | apply float_char_value_start, E].
  - destruct Hv as [Hp [Hc Hf]].
    destruct (str_of_float x) as [| c r]; [discriminate |].
    cbn [forallb] in Hc. apply andb_true_iff in Hc.
    exists c, r. split; [reflexivity | apply float_char_value_start, Hc].
  - eexists; eexists; split; reflexivity.
Qed.

End LexingFacts.

(** ** The lexer on written lists *)

Section LexingLists.
Context {RT : PyRuntime}.
Import Lexer.

Lemma value_start_facts c :
  value_start c = true ->
  is_blank c = false /\ Ascii.eqb c newline = false /\
  Ascii.eqb c "]"%char = false /\ Ascii.eqb c "#"%char = false.
Proof. ascii_cases c. Qed.

Lemma blank_not_bracket c : is_blank c = true -> Ascii.eqb c "]"%char = false.
Proof. ascii_cases c. Qed.

(** One element of a written list, with what follows it. *)
Lemma read_array_loop_element pre v tail ln col :
  forallb is_blank pre = true -> scalar v -> follows tail ->
  exists t ln' col',
    scalar_tokens v t /\
    forall fuel acc,
    read_array_loop (S (S fuel))
      (mkState (pre ++ Serializer.format_value v ++ tail) ln col) acc =
    if current_is ","%char (mkState tail ln' col') then
      read_array_loop (S fuel) (snd (advance1 (mkState tail ln' col')))
        ((acc ++ [t]) ++ [mkToken COMMA (lit ",") ln' col'])
    else read_array_loop (S fuel) (mkState tail ln' col') (acc ++ [t]).
Proof.
  intros Hpre Hv Htail.
  destruct (scalar_start v Hv) as [c [r [Efv Hc]]].
  destruct (value_start_facts c Hc) as [Hb [Hn [Hk Hh]]].
  destruct (skip_whitespace_app pre (Serializer.format_value v ++ tail) ln col Hpre)
    as [ln1 [col1 Hskip]].
  { rewrite Efv. cbn [app stops]. exact Hb. }
  destruct (read_scalar v tail ln1 col1 Hv Htail) as [t [ln' [col' [Ht Hread]]]].
  exists t, ln', col'. split; [exact Ht |]. intros fuel acc.
  remember (S fuel) as fuel1 eqn:Ef. cbn [read_array_loop].
  assert (Hfirst : exists c0, current_char (mkState (pre ++ Serializer.format_value v ++ tail) ln col) = Some c0
                              /\ Ascii.eqb c0 "]"%char = false).
  { unfold current_char. cbn [rest]. destruct pre as [| b pre].
    - rewrite Efv. cbn [app hd_error]. eauto.
    - cbn [app hd_error]. exists b. split; [reflexivity |].
      cbn [forallb] in Hpre. apply andb_true_iff in Hpre.
      apply blank_not_bracket, Hpre. }
  destruct Hfirst as [c0 [-> ->]].
  rewrite Hskip.
  assert (Hnl : skip_newlines (mkState (Serializer.format_value v ++ tail) ln1 col1) =
                mkState (Serializer.format_value v ++ tail) ln1 col1).
  { unfold skip_newlines. cbn [rest line column]. rewrite Efv.
    cbn [app skip_newlines_from]. rewrite Hn. reflexivity. }
  cbv zeta. rewrite Hnl.
  assert (Hcur : forall d, Ascii.eqb c d = false ->
            current_is d (mkState (Serializer.format_value v ++ tail) ln1 col1) = false).
  { intros d Hd. unfold current_is, current_char. cbn [rest]. rewrite Efv.
    cbn [app hd_error]. exact Hd. }
  rewrite (Hcur _ Hk), (Hcur _ Hh).
  subst fuel1. rewrite Hread. cbn [bind].
  destruct (follows_cases tail Htail) as [d [r' [E [Hdb _]]]].
  rewrite skip_whitespace_none by (rewrite E; exact Hdb).
  reflexivity.
Qed.

Lemma elements_text_cons v w vs :
  elements_text (v :: w :: vs) =
  Serializer.format_value v ++ ","%char :: space :: elements_text (w :: vs).
Proof. reflexivity. Qed.

(** The loop of [_read_array] over the written elements. *)
Lemma read_array_loop_elements items :
  Forall scalar items ->
  forall pre tail ln col,
    forallb is_blank pre = true -> (items = [] -> pre = []) ->
    exists toks ln' col',
      elements_tokens items toks /\
      forall fuel acc, List.length items < fuel ->
      read_array_loop fuel
        (mkState (pre ++ elements_text items ++ "]"%char :: tail) ln col) acc =
      Done (acc ++ toks, mkState ("]"%char :: tail) ln' col').
Proof.
  induction 1 as [| v vs Hv Hvs IH]; intros pre tail ln col Hpre Hnil.
  - rewrite (Hnil eq_refl). exists [], ln, col. split; [constructor |].
    intros fuel acc Hfuel. destruct fuel as [| fuel]; [cbn in Hfuel; lia |].
    cbn [read_array_loop app elements_text map join]. unfold current_char.
    cbn [rest hd_error]. rewrite app_nil_r. reflexivity.
  - destruct vs as [| w vs].
    + destruct (read_array_loop_element pre v ("]"%char :: tail) ln col Hpre Hv)
        as [t [ln1 [col1 [Ht Hstep]]]].
      { cbn. auto. }
      exists [t], ln1, col1. split; [constructor; exact Ht |].
      intros fuel acc Hfuel. cbn [List.length] in Hfuel.
      destruct fuel as [| [| fuel]]; try lia.
      change (elements_text [v]) with (Serializer.format_value v).
      rewrite Hstep. reflexivity.
    + destruct (read_array_loop_element pre v
                  (","%char :: space :: elements_text (w :: vs) ++ "]"%char :: tail)
                  ln col Hpre Hv)
        as [t [ln1 [col1 [Ht Hstep]]]].
      { cbn. auto. }
      destruct (IH [space] tail ln1 (S col1))
        as [toks [ln2 [col2 [Htoks Hrest]]]].
      { reflexivity. }
      { discriminate. }
      exists (t :: mkToken COMMA (lit ",") ln1 col1 :: toks), ln2, col2.
      split; [constructor; assumption |].
      intros fuel acc Hfuel. cbn [List.length] in Hfuel.
      destruct fuel as [| [| fuel]]; try lia.
      rewrite elements_text_cons. rewrite <- !app_assoc. cbn [app].
      rewrite Hstep.
      unfold current_is, current_char, advance1. cbn [rest hd_error line column snd].
      change (Ascii.eqb ","%char ","%char) with true. cbv iota.
      change (Ascii.eqb ","%char newline) with false. cbv iota.
      cbn [app] in Hrest. rewrite Hrest by (cbn [List.length]; lia).
      rewrite <- !app_assoc. reflexivity.
Qed.

(** A written list. *)
Lemma read_list items tail ln col :
  Forall scalar items -> follows tail ->
  exists toks ln' col',
    value_tokens (VList items) toks /\
    forall fuel, List.length items + 2 < fuel ->
    read_value_token fuel
      (mkState (Serializer.format_value (VList items) ++ tail) ln col) =
    Done (toks, mkState tail ln' col').
Proof.
  intros Hitems Htail.
  destruct (read_array_loop_elements items Hitems [] tail ln (S col))
    as [toks [ln1 [col1 [Htoks Hloop]]]]; [reflexivity | reflexivity |].
  exists (mkToken LBRACKET (lit "[") ln col :: toks ++
          [mkToken RBRACKET (lit "]") ln1 col1]).
  eexists. eexists. split; [constructor; exact Htoks |].
  intros fuel Hfuel.
  destruct fuel as [| [| fuel]]; try lia.
  cbn [Serializer.format_value]. fold (elements_text items).
  change (lit "[") with ["["%char]. change (lit "]") with ["]"%char].
  rewrite <- !app_assoc. cbn [app].
  cbn [read_value_token read_array]. unfold current_is at 1 2 3, current_char.
  cbn [rest hd_error line column].
  change (Ascii.eqb "["%char dquote) with false.
  change (Ascii.eqb "["%char squote) with false.
  change (Ascii.eqb "["%char "["%char) with true. cbn [orb].
  unfold advance1 at 1. cbn [rest line column].
  change (Ascii.eqb "["%char newline) with false. cbv iota.
  cbn [app] in Hloop. rewrite Hloop by lia. cbn [bind].
  unfold current_is, current_char, advance1. cbn [rest hd_error line column snd].
  change (Ascii.eqb "]"%char "]"%char) with true. cbv iota.
  change (Ascii.eqb "]"%char newline) with false. cbv iota.
  cbn [bind app].
  apply read_default_follows. exact Htail.
Qed.

(** A written leaf: a scalar or a list of scalars. *)
Lemma read_leaf v tail ln col :
  leaf v -> follows tail ->
  exists toks ln' col' n,
    value_tokens v toks /\
    forall fuel, n <= fuel ->
      read_value_token fuel (mkState (Serializer.format_value v ++ tail) ln col) =
      Done (toks, mkState tail ln' col').
Proof.
  intros Hv Htail.
  assert (Hs : scalar v ->
    exists toks ln' col' n,
      value_tokens v toks /\
      forall fuel, n <= fuel ->
        read_value_token fuel (mkState (Serializer.format_value v ++ tail) ln col) =
        Done (toks, mkState tail ln' col')).
  { intros Hsc.
    destruct (read_scalar v tail ln col Hsc Htail) as [t [ln' [col' [Ht E]]]].
    exists [t], ln', col', 1. split; [constructor; exact Ht |].
    intros fuel Hfuel. destruct fuel as [| fuel]; [lia |]. apply E. }
  destruct v; cbn [leaf] in Hv; try (apply Hs; exact Hv); try contradiction.
  destruct (read_list items tail ln col Hv Htail)
    as [toks [ln' [col' [Htoks E]]]].
  exists toks, ln', col', (List.length items + 3). split; [exact Htoks |].
  intros fuel Hfuel. apply E. lia.
Qed.

End LexingLists.

(** ** The lexer on written lines *)

Section LexingLines.
Context {RT : PyRuntime}.
Import Lexer.

Lemma doc_text_body lines : doc_text lines = first_indent lines ++ body_text lines.
Proof.
  destruct lines as [| l lines]; [reflexivity |].
  unfold doc_text. cbn [map List.concat first_indent body_text].
  fold (doc_text lines).
  destruct l; cbn [line_text line_indent line_body]; rewrite <- ?app_assoc; reflexivity.
Qed.

Lemma key_start_facts c :
  key_start c = true ->
  Ascii.eqb c newline = false /\ is_blank c = false /\ Ascii.eqb c "#"%char = false /\
  Ascii.eqb c ">"%char = false /\ Ascii.eqb c "@"%char = false /\
  isalnum c || Ascii.eqb c "_"%char = true.
Proof. ascii_cases c. Qed.

Lemma body_text_stops lines : Forall line_ok lines -> stops is_blank (body_text lines).
Proof.
  intros H. destruct H as [| l lines Hl _]; [exact I |].
  destruct l as [n | k v |]; cbn [body_text line_body]; try reflexivity.
  destruct Hl as [Hk _]. destruct k as [| c k]; [discriminate |].
  cbn [bare_key] in Hk. apply andb_true_iff in Hk.
  cbn [app stops]. apply (key_start_facts c), Hk.
Qed.

Lemma first_indent_blank lines : forallb is_blank (first_indent lines) = true.
Proof. destruct lines as [| [] ?]; reflexivity. Qed.

(** The end of a line and the indentation of the next. *)
Lemma newline_step ind body ln col :
  forallb is_blank ind = true -> stops is_blank body ->
  exists lay ln' col',
    Forall is_layout lay /\
    forall fuel acc,
      tokenize_loop (S fuel) (mkState (newline :: ind ++ body) ln col) acc =
      tokenize_loop fuel (mkState body ln' col') (acc ++ lay).
Proof.
  intros Hind Hbody.
  destruct (skip_whitespace_app ind body (S ln) 1 Hind Hbody) as [ln' [col' Hskip]].
  set (significant :=
         match current_char (mkState body ln' col') with
         | None => false
         | Some d => negb (Ascii.eqb d newline || Ascii.eqb d "#"%char)
         end).
  exists (mkToken NEWLINE (lit "\n") ln col ::
          if (0 <? List.length ind) && significant
          then [mkToken INDENT (repeat space (List.length ind)) ln' 1] else []),
    ln', col'.
  split.
  - constructor; [left; reflexivity |].
    destruct ((0 <? List.length ind) && significant); constructor;
      [right; reflexivity | constructor].
  - intros fuel acc. cbn [tokenize_loop]. unfold current_char at 1.
    cbn [rest hd_error line column].
    change (Ascii.eqb newline newline) with true. cbv iota.
    unfold advance1. cbn [rest line column].
    change (Ascii.eqb newline newline) with true. cbv iota.
    rewrite Hskip. fold significant.
    destruct ((0 <? List.length ind) && significant).
    + cbn [line]. rewrite <- app_assoc. reflexivity.
    + reflexivity.
Qed.


Lemma name_char_facts c :
  name_char c = true ->
  negb (contains c [newline; "#"%char]) = true /\ isspace c = false.
Proof. ascii_cases c. Qed.

Lemma key_start_name_char c :
  key_start c = true -> name_char c = true /\ Ascii.eqb "@"%char c = false.
Proof. ascii_cases c. Qed.

Lemma section_name_chars n :
  section_name n = true ->
  forallb name_char n = true /\
  exists c r, n = c :: r /\ key_start c = true.
Proof.
  destruct n as [| c r]; [discriminate |]. cbn [section_name forallb].
  intros H. apply andb_true_iff in H. destruct H as [Hc Hr].
  split; [| eauto].
  rewrite Hr. destruct (key_start_name_char c Hc) as [-> _]. reflexivity.
Qed.

(** The header of a section. *)
Lemma header_step n more ln col :
  section_name n = true ->
  exists ln' col',
    forall fuel acc,
      tokenize_loop (S fuel)
        (mkState (line_body (LHeader n) ++ newline :: more) ln col) acc =
      tokenize_loop fuel (mkState (newline :: more) ln' col')
        (acc ++ [mkToken SECTION n ln col]).
Proof.
  intros Hn. destruct (section_name_chars n Hn) as [Hchars [c [r [En Hc]]]].
  destruct (key_start_facts c Hc) as [_ [Hb _]].
  destruct (key_start_name_char c Hc) as [_ Hat].
  destruct (skip_whitespace_app [space] (n ++ newline :: more) ln (S (S col)))
    as [ln1 [col1 Hskip]]; [reflexivity | rewrite En; exact Hb |].
  destruct (read_while_app (fun c => negb (contains c [newline; "#"%char]))
              n (newline :: more) ln1 col1)
    as [ln' [col' Hread]].
  { revert Hchars. apply forallb_impl. intros d Hd. apply (name_char_facts d Hd). }
  { reflexivity. }
  exists ln', col'. intros fuel acc.
  cbn [line_body]. change (lit ">> ") with [">"%char; ">"%char; space].
  rewrite <- app_assoc. cbn [app].
  cbn [tokenize_loop]. unfold current_char at 1. cbn [rest hd_error line column].
  change (Ascii.eqb ">"%char newline) with false.
  change (is_blank ">"%char) with false.
  change (Ascii.eqb ">"%char "#"%char) with false.
  change (Ascii.eqb ">"%char ">"%char) with true. cbv iota.
  unfold peek_is, peek. cbn [rest nth_error].
  change (Ascii.eqb ">"%char ">"%char) with true. cbn [andb].
  change (advance 2 (mkState (">"%char :: ">"%char :: space :: n ++ newline :: more) ln col))
    with ([">"%char; ">"%char], mkState (space :: n ++ newline :: more) ln (S (S col))).
  cbv iota beta. cbn [app] in Hskip. rewrite Hskip.
  assert (Hwhen : starts_with (lit "@when") (n ++ newline :: more) = false).
  { rewrite En. cbn [app]. unfold lit. cbn [list_ascii_of_string starts_with].
    rewrite Hat. reflexivity. }
  cbn [rest]. rewrite Hwhen.
  unfold read_until. rewrite Hread.
  rewrite (strip_id name_char n); [reflexivity | | exact Hchars].
  intros d Hd. apply (name_char_facts d Hd).
Qed.


Lemma leaf_start v :
  leaf v ->
  exists c r, Serializer.format_value v = c :: r /\ value_start c = true.
Proof.
  intros Hv. destruct v; cbn [leaf] in Hv; try contradiction;
    try (apply scalar_start; exact Hv).
  cbn [Serializer.format_value]. eexists; eexists; split; reflexivity.
Qed.

Lemma bare_key_chars k :
  bare_key k = true ->
  forallb is_key_char k = true /\ exists c r, k = c :: r /\ key_start c = true.
Proof.
  destruct k as [| c r]; [discriminate |]. cbn [bare_key forallb].
  intros H. apply andb_true_iff in H. destruct H as [Hc Hr].
  split; [| eauto]. rewrite Hr, (key_start_key_char c Hc). reflexivity.
Qed.

(** An assignment of a leaf to a bare key. *)
Lemma item_step k v more ln col :
  bare_key k = true -> leaf v ->
  exists tl ln' col' n,
    line_tokens (LItem k v) tl /\
    forall fuel acc, n <= fuel ->
      tokenize_loop (S fuel)
        (mkState (line_body (LItem k v) ++ newline :: more) ln col) acc =
      tokenize_loop fuel (mkState (newline :: more) ln' col') (acc ++ tl).
Proof.
  intros Hk Hv.
  destruct (bare_key_chars k Hk) as [Hchars [c [r [Ek Hc]]]].
  destruct (key_start_facts c Hc) as [Hnl [Hb [Hh [Hgt [Hat Hal]]]]].
  destruct (leaf_start v Hv) as [c0 [r0 [Efv Hc0]]].
  destruct (value_start_facts c0 Hc0) as [Hb0 _].
  set (fv := Serializer.format_value v) in *.
  destruct (read_while_app is_key_char k
              (space :: "="%char :: space :: fv ++ newline :: more) ln col Hchars)
    as [ln1 [col1 Hread]]; [reflexivity |].
  destruct (skip_whitespace_app [space] ("="%char :: space :: fv ++ newline :: more)
              ln1 col1) as [ln2 [col2 Hskip]]; [reflexivity | reflexivity |].
  destruct (skip_whitespace_app [space] (fv ++ newline :: more) ln2 (S col2))
    as [ln3 [col3 Hskip2]]; [reflexivity | rewrite Efv; exact Hb0 |].
  destruct (read_leaf v (newline :: more) ln3 col3 Hv)
    as [toks [ln' [col' [n [Htoks Hval]]]]]; [cbn; auto |].
  exists (mkToken KEY k ln col :: mkToken EQUALS (lit "=") ln2 col2 :: toks), ln', col', n.
  split; [constructor; exact Htoks |].
  intros fuel acc Hfuel.
  cbn [line_body]. fold fv. change (lit " = ") with [space; "="%char; space].
  rewrite <- !app_assoc. cbn [app].
  cbn [tokenize_loop]. unfold current_char at 1. cbn [rest line column].
  rewrite Ek at 1. cbn [app hd_error].
  rewrite Hnl, Hb, Hh, Hgt, Hat, Hal. cbn [andb].
  rewrite Hread. cbn [app] in Hskip. rewrite Hskip.
  unfold current_is at 1, current_char. cbn [rest hd_error].
  change (Ascii.eqb "="%char ":"%char) with false. cbn [andb].
  unfold current_is at 1, current_char. cbn [rest hd_error].
  change (Ascii.eqb "="%char "="%char) with true. cbv iota.
  unfold advance1. cbn [rest line column].
  change (Ascii.eqb "="%char newline) with false. cbv iota.
  cbn [app] in Hskip2. rewrite Hskip2.
  fold fv in Hval. rewrite (Hval fuel Hfuel). cbn [bind].
  rewrite <- !app_assoc. reflexivity.
Qed.

Lemma blank_not_newline c : is_blank c = true -> Ascii.eqb c newline = false.
Proof. ascii_cases c. Qed.

(** The indentation of the first line. *)
Lemma indent_step ind body ln col :
  ind <> [] -> forallb is_blank ind = true -> stops is_blank body ->
  exists ln' col',
    forall fuel acc,
      tokenize_loop (S fuel) (mkState (ind ++ body) ln col) acc =
      tokenize_loop fuel (mkState body ln' col') acc.
Proof.
  intros Hne Hind Hbody.
  destruct (skip_whitespace_app ind body ln col Hind Hbody) as [ln' [col' Hskip]].
  exists ln', col'. intros fuel acc.
  destruct ind as [| b ind]; [congruence |].
  cbn [forallb] in Hind. apply andb_true_iff in Hind. destruct Hind as [Hb _].
  cbn [tokenize_loop]. unfold current_char at 1. cbn [rest app hd_error].
  rewrite (blank_not_newline b Hb), Hb. cbn [app] in Hskip. rewrite Hskip.
  reflexivity.
Qed.

Lemma lines_tokens_prepend (layout : Token -> Prop) lay lines toks :
  Forall layout lay -> lines_tokens layout lines toks ->
  lines_tokens layout lines (lay ++ toks).
Proof.
  intros Hlay H. destruct H as [lay' l c Hlay' | ln lns lay' tl toks Hlay' Htl Hrest].
  - rewrite app_assoc. constructor. apply Forall_app. auto.
  - rewrite app_assoc. constructor; [apply Forall_app; auto | exact Htl | exact Hrest].
Qed.

(** The loop of [tokenize] over written lines, from the body of the
    first. *)
Lemma tokenize_body lines :
  Forall line_ok lines ->
  forall ln col, exists toks n,
    lines_tokens is_layout lines toks /\
    forall fuel acc, n <= fuel ->
      tokenize_loop fuel (mkState (body_text lines) ln col) acc = Done (acc ++ toks).
Proof.
  induction 1 as [| l lines Hl Hlines IH]; intros ln col.
  - exists [mkToken EOF [] ln col], 1. split.
    + apply (@lst_end _ is_layout [] ln col). constructor.
    + intros fuel acc Hfuel. destruct fuel as [| fuel]; [lia |]. reflexivity.
  - cbn [body_text]. rewrite doc_text_body.
    assert (Hnext : forall ln1 col1, exists toks n,
              lines_tokens is_layout lines toks /\
              forall fuel acc, n <= fuel ->
                tokenize_loop fuel
                  (mkState (newline :: first_indent lines ++ body_text lines) ln1 col1) acc =
                Done (acc ++ toks)).
    { intros ln1 col1.
      destruct (newline_step (first_indent lines) (body_text lines) ln1 col1
                  (first_indent_blank lines) (body_text_stops lines Hlines))
        as [lay [ln2 [col2 [Hlay Hstep]]]].
      destruct (IH ln2 col2) as [toks [n [Htoks Hrun]]].
      exists (lay ++ toks), (S n). split.
      - apply lines_tokens_prepend; assumption.
      - intros fuel acc Hfuel. destruct fuel as [| fuel]; [lia |].
        rewrite Hstep. rewrite Hrun by lia. rewrite <- app_assoc. reflexivity. }
    destruct l as [n | k v |].
    + destruct (header_step n (first_indent lines ++ body_text lines) ln col Hl)
        as [ln1 [col1 Hstep]].
      destruct (Hnext ln1 col1) as [toks [m [Htoks Hrun]]].
      exists (mkToken SECTION n ln col :: toks), (S m). split.
      * apply (@lst_line _ is_layout (LHeader n) lines [] [mkToken SECTION n ln col] toks);
          [constructor | constructor | exact Htoks].
      * intros fuel acc Hfuel. destruct fuel as [| fuel]; [lia |].
        rewrite Hstep. rewrite Hrun by lia. rewrite <- app_assoc. reflexivity.
    + destruct Hl as [Hk Hv].
      destruct (item_step k v (first_indent lines ++ body_text lines) ln col Hk Hv)
        as [tl [ln1 [col1 [n [Htl Hstep]]]]].
      destruct (Hnext ln1 col1) as [toks [m [Htoks Hrun]]].
      exists (tl ++ toks), (S (n + m)). split.
      * apply (@lst_line _ is_layout (LItem k v) lines [] tl toks);
          [constructor | exact Htl | exact Htoks].
      * intros fuel acc Hfuel. destruct fuel as [| fuel]; [lia |].
        rewrite Hstep by lia. rewrite Hrun by lia. rewrite <- app_assoc. reflexivity.
    + destruct (Hnext ln col) as [toks [m [Htoks Hrun]]].
      exists toks, m. split; [| exact Hrun].
      apply (@lst_line _ is_layout LBlank lines [] [] toks);
        [constructor | constructor | exact Htoks].
Qed.

(** [tokenize] on written lines. *)
Lemma tokenize_lines lines :
  Forall line_ok lines ->
  exists toks,
    lines_tokens is_layout lines toks /\
    settles (fun fuel => tokenize fuel (doc_text lines)) toks.
Proof.
  intros Hlines. unfold tokenize, init. rewrite doc_text_body.
  destruct (first_indent lines) as [| b ind] eqn:Eind.
  - destruct (tokenize_body lines Hlines 1 1) as [toks [n [Htoks Hrun]]].
    exists toks. split; [exact Htoks |]. exists n. intros fuel Hfuel.
    cbn [app]. apply (Hrun fuel [] Hfuel).
  - destruct (indent_step (b :: ind) (body_text lines) 1 1) as [ln [col Hstep]];
      [discriminate | rewrite <- Eind; apply first_indent_blank
       | apply body_text_stops; exact Hlines |].
    destruct (tokenize_body lines Hlines ln col) as [toks [n [Htoks Hrun]]].
    exists toks. split; [exact Htoks |]. exists (S n). intros fuel Hfuel.
    destruct fuel as [| fuel]; [lia |].
    rewrite Hstep. apply (Hrun fuel []). lia.
Qed.

End LexingLines.

(** ** The parser on the tokens of written lines *)

Section ParsingLines.
Context {RT : PyRuntime}.
Import Lexer Parser.

(** A scalar token. *)
Lemma parse_scalar v t rest fuel :
  scalar_tokens v t -> not_default rest ->
  parse_value (S fuel) (t :: rest) = Done (literal_node v (tk_line t), rest).
Proof.
  intros Ht Hrest. unfold not_default in Hrest.
  destruct Ht as [l c | b l c | z l c | x l c Hx | s l c];
    cbn [parse_value skip_indent tk_type TokenType_eqb current hd_error
         tk_value tk_line advance tl];
    unfold parse_default; try rewrite Hrest; try reflexivity.
  - destruct b; reflexivity.
  - unfold number_value. rewrite str_of_Z_no_point, py_int_str_of_Z.
    reflexivity.
  - destruct Hx as [Hp [_ Hf]]. unfold number_value. rewrite Hp, Hf.
    reflexivity.
Qed.

Lemma scalar_token_type v t :
  scalar_tokens v t ->
  TokenType_eqb (tk_type t) RBRACKET = false /\
  TokenType_eqb (tk_type t) INDENT = false /\
  TokenType_eqb (tk_type t) EOF = false /\
  TokenType_eqb (tk_type t) DEFAULT_OP = false.
Proof. intros Ht. destruct Ht; repeat split; reflexivity. Qed.

(** The loop of [_parse_array] over the tokens of written elements. *)
Lemma parse_array_loop_elements items toks :
  elements_tokens items toks ->
  forall rb rest acc fuel,
    tk_type rb = RBRACKET -> List.length items < fuel ->
    parse_array_loop fuel (toks ++ rb :: rest) acc = Done (acc ++ items, rb :: rest).
Proof.
  assert (Hend : forall rb rest acc fuel,
            tk_type rb = RBRACKET ->
            parse_array_loop (S fuel) (rb :: rest) acc = Done (acc, rb :: rest)).
  { intros rb rest acc fuel Hrb. cbn [parse_array_loop current hd_error].
    rewrite Hrb. reflexivity. }
  assert (Hone : forall v t more acc fuel,
            scalar_tokens v t -> not_default more ->
            parse_array_loop (S (S fuel)) (t :: more) acc =
            let toks3 := skip_indent more in
            if current_type_is COMMA toks3
            then parse_array_loop (S fuel) (advance toks3) (acc ++ [v])
            else parse_array_loop (S fuel) toks3 (acc ++ [v])).
  { intros v t more acc fuel Ht Hmore.
    destruct (scalar_token_type v t Ht) as [Hrb [Hin _]].
    remember (S fuel) as fuel1 eqn:Ef.
    cbn [parse_array_loop current hd_error skip_indent]. rewrite Hrb, Hin.
    cbn [current hd_error]. rewrite Hrb. subst fuel1.
    rewrite (parse_scalar v t more fuel Ht Hmore). reflexivity. }
  induction 1 as [| v t Ht | v t w vs l c toks Ht Hrest IH];
    intros rb rest acc fuel Hrb Hfuel; cbn [List.length] in Hfuel.
  - destruct fuel as [| fuel]; [lia |]. rewrite app_nil_r. apply Hend, Hrb.
  - destruct fuel as [| [| fuel]]; try lia. cbn [app].
    rewrite (Hone v t (rb :: rest) acc fuel Ht).
    + cbn [skip_indent]. rewrite Hrb.
      unfold current_type_is. cbn [current hd_error TokenType_eqb]. rewrite Hrb.
      cbn [TokenType_eqb]. apply Hend, Hrb.
    + unfold not_default, current_type_is. cbn [current hd_error]. rewrite Hrb. reflexivity.
  - destruct fuel as [| [| fuel]]; try lia. cbn [app].
    rewrite (Hone v t _ acc fuel Ht); [| reflexivity].
    cbn [skip_indent tk_type TokenType_eqb current_type_is current hd_error advance tl].
    unfold current_type_is. cbn [current hd_error tk_type TokenType_eqb advance tl].
    rewrite (IH rb rest (acc ++ [v]) (S fuel) Hrb) by (cbn [List.length]; lia).
    rewrite <- app_assoc. reflexivity.
Qed.

(** The tokens of a written leaf. *)
Lemma parse_leaf v toks rest :
  value_tokens v toks -> not_default rest ->
  exists ln n, forall fuel, n <= fuel ->
    parse_value fuel (toks ++ rest) = Done (literal_node v ln, rest).
Proof.
  intros Hv Hrest. destruct Hv as [v t Ht | items toks l c l' c' Hitems].
  - exists (tk_line t), 1. intros fuel Hfuel. destruct fuel as [| fuel]; [lia |].
    apply parse_scalar; assumption.
  - exists l, (List.length items + 3). intros fuel Hfuel.
    destruct fuel as [| [| fuel]]; try lia.
    cbn [app]. rewrite <- app_assoc. cbn [app].
    cbn [parse_value parse_array skip_indent tk_type TokenType_eqb current hd_error
         expect advance tl bind tk_line].
    rewrite (parse_array_loop_elements items toks Hitems) by (cbn; lia || reflexivity).
    cbn [bind expect current hd_error tk_type TokenType_eqb advance tl app].
    reflexivity.
Qed.


Lemma skip_indent_layout lay rest :
  Forall is_indent lay -> skip_indent (lay ++ rest) = skip_indent rest.
Proof.
  induction 1 as [| t lay Ht _ IH]; [reflexivity |].
  cbn [app skip_indent]. rewrite Ht. exact IH.
Qed.

(** The tokens of a written assignment. *)
Lemma parse_item k v tl rest :
  line_tokens (LItem k v) tl -> not_default rest ->
  exists a n, assigns (k, v) a /\
    forall fuel, n <= fuel -> parse_assignment fuel (tl ++ rest) = Done (a, rest).
Proof.
  intros Htl Hrest. inversion Htl as [| k0 v0 l c l' c' toks Hv |]; subst.
  destruct (parse_leaf v toks rest Hv Hrest) as [ln [n Hparse]].
  exists (mkAssignmentNode k (literal_node v ln) l), n. split.
  - exists ln, l. reflexivity.
  - intros fuel Hfuel. unfold parse_assignment.
    cbn [app skip_indent tk_type TokenType_eqb expect current hd_error advance tl bind].
    rewrite (Hparse fuel Hfuel). reflexivity.
Qed.

Lemma lines_tokens_head lines toks :
  lines_tokens is_indent lines toks ->
  exists t rest, toks = t :: rest /\
    (tk_type t = INDENT \/ tk_type t = EOF \/ tk_type t = SECTION \/ tk_type t = KEY).
Proof.
  induction 1 as [lay l c Hlay | ln lns lay tl toks Hlay Htl Hrest IH].
  - destruct Hlay as [| t lay Ht _]; cbn [app]; eauto 6.
  - destruct Hlay as [| t lay Ht _]; cbn [app]; [| eauto 6].
    destruct Htl; cbn [app]; eauto 7.
Qed.

Lemma lines_tokens_not_default lines toks :
  lines_tokens is_indent lines toks -> not_default toks.
Proof.
  intros H. destruct (lines_tokens_head lines toks H) as [t [rest [-> Ht]]].
  unfold not_default, current_type_is. cbn [current hd_error].
  destruct Ht as [Ht | [Ht | [Ht | Ht]]]; rewrite Ht; reflexivity.
Qed.


Lemma Forall2_update_last {A B : Type} (R : A -> B -> Prop) f g l1 l2 :
  (forall x y, R x y -> R (f x) (g y)) ->
  Forall2 R l1 l2 -> Forall2 R (update_last f l1) (update_last g l2).
Proof.
  intros Hfg. induction 1 as [| x y l1 l2 Hxy Hl IH]; [constructor |].
  destruct Hl as [| x' y' l1 l2 Hxy' Hl].
  - cbn. constructor; [apply Hfg, Hxy | constructor].
  - cbn [update_last] in *. constructor; [exact Hxy | exact IH].
Qed.

Lemma holds_add kv a s node :
  assigns kv a -> holds s node -> holds (add_item kv s) (add_assignment a node).
Proof.
  intros Ha [Hn Hs]. split; [exact Hn |].
  cbn [add_item add_assignment assignments snd].
  apply Forall2_app; [exact Hs | constructor; [exact Ha | constructor]].
Qed.

Lemma stands_header st cur ast n ln :
  stands st cur ast ->
  stands (absorb st (LHeader n)) (Some InSections)
    (mkAST (sections ast ++ [mkSectionNode n [] ln]) (conditionals ast) (includes ast)).
Proof.
  intros [_ [Hs [Hc Hi]]]. repeat split; try assumption.
  cbn [absorb snd sections]. apply Forall2_app; [exact Hs |].
  constructor; [| constructor]. split; [reflexivity | constructor].
Qed.

Lemma stands_item st cur ast k v a ln :
  stands st cur ast -> assigns (k, v) a ->
  stands (absorb st (LItem k v)) cur
    (match cur with
     | Some r => append_to_current r a ast
     | None => append_to_root a ln ast
     end).
Proof.
  intros [Hcur [Hs [Hc Hi]]] Ha. destruct st as [[|] secs]; cbn [fst snd] in *; subst cur.
  - repeat split; try assumption. cbn [absorb fst snd append_to_current sections].
    apply Forall2_update_last; [| exact Hs].
    intros s node. apply holds_add, Ha.
  - repeat split; try assumption. cbn [absorb fst snd append_to_root sections].
    destruct Hs as [| s node secs nodes Hsn Hrest].
    + cbn [root_add]. constructor; [| constructor].
      split; [reflexivity |]. cbn. constructor; [exact Ha | constructor].
    + cbn [root_add]. destruct Hsn as [Hn Hasg]. rewrite Hn.
      destruct (fst s) as [| c r] eqn:Es.
      * constructor; [| exact Hrest]. apply holds_add; [exact Ha |].
        split; [rewrite Es; exact Hn | exact Hasg].
      * constructor.
        -- apply (holds_add (k, v) a ([], []) (mkSectionNode [] [] ln) Ha).
           split; [reflexivity | constructor].
        -- constructor; [| exact Hrest]. split; [rewrite Es; exact Hn | exact Hasg].
Qed.

Lemma parse_loop_indented lay t rest cur ast fuel :
  Forall is_indent lay ->
  TokenType_eqb (tk_type t) EOF = false -> TokenType_eqb (tk_type t) INDENT = false ->
  parse_loop (S fuel) (lay ++ t :: rest) cur ast = parse_loop (S fuel) (t :: rest) cur ast.
Proof.
  intros Hlay He Hi. destruct Hlay as [| i lay Hin Hlay]; [reflexivity |].
  cbn [parse_loop app current hd_error]. rewrite Hin, He.
  cbn [TokenType_eqb skip_indent]. rewrite Hin, Hi. cbn [TokenType_eqb].
  rewrite (skip_indent_layout lay (t :: rest) Hlay). cbn [skip_indent]. rewrite Hi.
  reflexivity.
Qed.

Lemma parse_loop_end lay l c cur ast fuel :
  Forall is_indent lay ->
  parse_loop (S fuel) (lay ++ [mkToken EOF [] l c]) cur ast = Done ast.
Proof.
  intros Hlay. destruct Hlay as [| i lay Hin Hlay]; [reflexivity |].
  cbn [parse_loop app current hd_error]. rewrite Hin.
  cbn [TokenType_eqb skip_indent]. rewrite Hin. cbn [TokenType_eqb].
  rewrite (skip_indent_layout lay _ Hlay). reflexivity.
Qed.

(** The loop of [Parser.parse] over the tokens of written lines. *)
Lemma parse_lines lines :
  forall toks, lines_tokens is_indent lines toks ->
  forall st cur ast, stands st cur ast ->
  exists ast' cur' n,
    stands (fold_left absorb lines st) cur' ast' /\
    forall fuel, n <= fuel -> parse_loop fuel toks cur ast = Done ast'.
Proof.
  induction lines as [| l lines IH]; intros toks Htoks st cur ast Hst;
    inversion Htoks as [lay ln c Hlay | l0 lns lay tl toks' Hlay Htl Hrest]; subst.
  - exists ast, cur, 1. split; [exact Hst |].
    intros fuel Hfuel. destruct fuel as [| fuel]; [lia |].
    apply parse_loop_end, Hlay.
  - cbn [fold_left]. inversion Htl as [n ln c | k v ln c ln' c' vtoks Hv |]; subst.
    + destruct (IH toks' Hrest _ _ _ (stands_header st cur ast n ln Hst))
        as [ast' [cur' [m [Hst' Hrun]]]].
      exists ast', cur', (S m). split; [exact Hst' |].
      intros fuel Hfuel. destruct fuel as [| fuel]; [lia |]. cbn [app].
      rewrite parse_loop_indented by (exact Hlay || reflexivity).
      cbn [parse_loop current hd_error tk_type TokenType_eqb skip_indent advance tl
           tk_value tk_line].
      apply Hrun. lia.
    + destruct (parse_item k v _ toks' Htl (lines_tokens_not_default lines toks' Hrest))
        as [a [n [Ha Hparse]]].
      destruct (IH toks' Hrest _ _ _ (stands_item st cur ast k v a ln Hst Ha))
        as [ast' [cur' [m [Hst' Hrun]]]].
      exists ast', cur', (S (n + m)). split; [exact Hst' |].
      intros fuel Hfuel. destruct fuel as [| fuel]; [lia |].
      cbn [app] in Hparse |- *.
      rewrite parse_loop_indented by (exact Hlay || reflexivity).
      cbn [parse_loop current hd_error tk_type TokenType_eqb skip_indent tk_line].
      rewrite Hparse by lia. cbn [bind].
      destruct cur; apply Hrun; lia.
    + cbn [app]. apply (IH (lay ++ toks')); [| exact Hst].
      apply lines_tokens_prepend; assumption.
Qed.


Lemma significant_app a b : significant (a ++ b) = significant a ++ significant b.
Proof. apply filter_app. Qed.

Lemma significant_layout lay :
  Forall is_layout lay -> Forall is_indent (significant lay).
Proof.
  induction 1 as [| t lay Ht _ IH]; [constructor |].
  unfold significant in *. cbn [filter].
  destruct Ht as [Ht | Ht]; rewrite Ht; cbn [TokenType_eqb orb negb]; [exact IH |].
  constructor; [exact Ht | exact IH].
Qed.

Lemma significant_elements items toks :
  elements_tokens items toks -> significant toks = toks.
Proof.
  assert (Hs : forall v t rest, scalar_tokens v t ->
            significant (t :: rest) = t :: significant rest).
  { intros v t rest Ht. destruct Ht; reflexivity. }
  induction 1 as [| v t Ht | v t w vs l c toks Ht Hrest IH].
  - reflexivity.
  - apply (Hs v t [] Ht).
  - rewrite (Hs v t _ Ht). f_equal.
    change (significant (mkToken COMMA (lit ",") l c :: toks))
      with (mkToken COMMA (lit ",") l c :: significant toks).
    f_equal. exact IH.
Qed.

Lemma significant_line l tl : line_tokens l tl -> significant tl = tl.
Proof.
  intros Htl. destruct Htl as [n ln c | k v ln c ln' c' toks Hv |]; try reflexivity.
  change (significant (mkToken KEY k ln c :: mkToken EQUALS (lit "=") ln' c' :: toks))
    with (mkToken KEY k ln c :: mkToken EQUALS (lit "=") ln' c' :: significant toks).
  do 2 f_equal.
  destruct Hv as [v t Ht | items toks l1 c1 l2 c2 Hitems].
  - destruct Ht; reflexivity.
  - change (significant (mkToken LBRACKET (lit "[") l1 c1 ::
                         toks ++ [mkToken RBRACKET (lit "]") l2 c2]))
      with (mkToken LBRACKET (lit "[") l1 c1 ::
            significant (toks ++ [mkToken RBRACKET (lit "]") l2 c2])).
    rewrite significant_app, (significant_elements items toks Hitems). reflexivity.
Qed.

(** What the parser keeps of the tokens of written lines. *)
Lemma significant_lines lines toks :
  lines_tokens is_layout lines toks ->
  lines_tokens is_indent lines (significant toks).
Proof.
  induction 1 as [lay l c Hlay | ln lns lay tl toks Hlay Htl Hrest IH].
  - rewrite significant_app. apply (@lst_end _ is_indent).
    apply significant_layout, Hlay.
  - rewrite !significant_app, (significant_line ln tl Htl).
    constructor; [apply significant_layout, Hlay | exact Htl | exact IH].
Qed.

(** [parse] on written lines. *)
Lemma parse_document lines :
  Forall line_ok lines ->
  exists ast cur,
    stands (fold_left absorb lines (false, [])) cur ast /\
    settles (fun fuel => parse fuel (doc_text lines)) ast.
Proof.
  intros Hlines.
  destruct (tokenize_lines lines Hlines) as [toks [Htoks [n1 Htokenize]]].
  destruct (parse_lines lines (significant toks) (significant_lines lines toks Htoks)
              (false, []) None (mkAST [] [] []))
    as [ast [cur [n2 [Hst Hparse]]]].
  { repeat split. constructor. }
  exists ast, cur. split; [exact Hst |].
  exists (n1 + n2). intros fuel Hfuel. unfold parse.
  rewrite Htokenize by lia. cbn [bind]. unfold parse_tokens.
  apply Hparse. lia.
Qed.

End ParsingLines.

(** ** The blocks and lines of a written tree *)

Section WrittenTrees.
Context {RT : PyRuntime}.
Import Lexer Parser.

Lemma blocks_dict path entries :
  blocks path (VDict entries) = simple_block path entries ++ nested_blocks path entries.
Proof.
  unfold simple_block, nested_blocks. cbn [blocks]. f_equal.
  induction entries as [| [k w] entries IH]; [reflexivity |].
  cbn [flat_map fst snd]. rewrite IH. reflexivity.
Qed.

Lemma dump_value_dict prefix data :
  Serializer.dump_value prefix (VDict data) =
  Serializer.dump_simple prefix data ++
  flat_map (fun kv => if Serializer.is_dict (snd kv)
                      then Serializer.dump_value
                             (Serializer.new_prefix prefix (fst kv)) (snd kv)
                      else []) data.
Proof.
  cbn [Serializer.dump_value]. f_equal.
  induction data as [| [k w] data IH]; [reflexivity |].
  cbn [flat_map fst snd]. rewrite IH. reflexivity.
Qed.

Lemma reorder_dict entries :
  reorder (VDict entries) =
  VDict (Serializer.simple_items entries ++
         flat_map (fun kv => if Serializer.is_dict (snd kv)
                             then [(fst kv, reorder (snd kv))] else []) entries).
Proof.
  cbn [reorder]. do 2 f_equal.
  induction entries as [| [k w] entries IH]; [reflexivity |].
  cbn [flat_map fst snd]. rewrite IH. destruct (Serializer.is_dict w); reflexivity.
Qed.

Lemma literal_tree_dict entries :
  literal_tree (VDict entries) <->
  distinct (map fst entries) = true /\ Forall (entry_ok literal_tree) entries.
Proof.
  cbn [literal_tree]. apply and_iff_compat_l.
  induction entries as [| [k w] entries IH].
  - split; intros _; [constructor | exact I].
  - rewrite IH. split.
    + intros [[Hk Hw] Hrest]. constructor; [| exact Hrest].
      split; [exact Hk |]. cbn [snd]. destruct w; exact Hw.
    + intros H. inversion H as [| kv l [Hk Hw] Hrest]; subst.
      split; [| exact Hrest]. split; [exact Hk |]. cbn [snd] in Hw.
      destruct w; exact Hw.
Qed.

(** *** Section names *)

Lemma join_cons sep p q r : join sep (p :: q :: r) = p ++ sep ++ join sep (q :: r).
Proof. reflexivity. Qed.

Lemma join_snoc sep path k :
  path <> [] -> join sep (path ++ [k]) = join sep path ++ sep ++ k.
Proof.
  induction path as [| p path IH]; [congruence |]. intros _.
  destruct path as [| q path]; [reflexivity |].
  cbn [app] in *. rewrite !join_cons, IH by discriminate.
  rewrite <- !app_assoc. reflexivity.
Qed.

Lemma bare_first k : bare k -> exists c r, k = c :: r /\ key_start c = true.
Proof. intros H. apply (bare_key_chars k H). Qed.

Lemma join_bare path :
  Forall bare path -> path <> [] ->
  exists c r, join (lit ".") path = c :: r /\ key_start c = true.
Proof.
  intros H Hne. destruct H as [| k path Hk _]; [congruence |].
  destruct (bare_first k Hk) as [c [r [-> Hc]]].
  destruct path as [| q path]; exists c; eexists;
    (split; [try rewrite join_cons; reflexivity | exact Hc]).
Qed.

Lemma new_prefix_join path k :
  Forall bare path ->
  Serializer.new_prefix (join (lit ".") path) k = join (lit ".") (path ++ [k]).
Proof.
  intros H. destruct path as [| p path]; [reflexivity |].
  destruct (join_bare (p :: path) H) as [c [r [E _]]]; [discriminate |].
  rewrite join_snoc by discriminate. rewrite E. reflexivity.
Qed.

Lemma key_char_name_char c :
  is_key_char c = true -> name_char c = true /\ Ascii.eqb c "."%char = false.
Proof. ascii_cases c. Qed.

Lemma bare_name_chars k : bare k -> forallb name_char k = true.
Proof.
  intros H. destruct (bare_key_chars k H) as [Hc _]. revert Hc.
  apply forallb_impl. intros c Hc. apply (key_char_name_char c Hc).
Qed.

Lemma join_name_chars path :
  Forall bare path -> forallb name_char (join (lit ".") path) = true.
Proof.
  induction 1 as [| k path Hk Hpath IH]; [reflexivity |].
  destruct path as [| q path]; [apply bare_name_chars, Hk |].
  rewrite join_cons, !forallb_app, (bare_name_chars k Hk), IH. reflexivity.
Qed.

Lemma section_name_join path :
  Forall bare path -> path <> [] -> section_name (join (lit ".") path) = true.
Proof.
  intros H Hne. destruct (join_bare path H Hne) as [c [r [E Hc]]].
  generalize (join_name_chars path H). rewrite E. cbn [section_name forallb].
  intros Hall. apply andb_true_iff in Hall. rewrite Hc. apply Hall.
Qed.

Lemma split_bare k : bare k -> split "."%char k = [k].
Proof.
  intros H. destruct (bare_key_chars k H) as [Hc _]. clear H.
  induction k as [| c k IH]; [reflexivity |].
  cbn [forallb] in Hc. apply andb_true_iff in Hc. destruct Hc as [Hc Hk].
  cbn [split]. destruct (key_char_name_char c Hc) as [_ ->]. rewrite (IH Hk). reflexivity.
Qed.

Lemma split_bare_app k s :
  bare k -> split "."%char (k ++ "."%char :: s) = k :: split "."%char s.
Proof.
  intros H. destruct (bare_key_chars k H) as [Hc _]. clear H.
  induction k as [| c k IH]; [reflexivity |].
  cbn [forallb] in Hc. apply andb_true_iff in Hc. destruct Hc as [Hc Hk].
  cbn [split app]. destruct (key_char_name_char c Hc) as [_ ->]. rewrite (IH Hk). reflexivity.
Qed.

Lemma split_join path :
  Forall bare path -> path <> [] -> split "."%char (join (lit ".") path) = path.
Proof.
  induction 1 as [| k path Hk Hpath IH]; [congruence |]. intros _.
  destruct path as [| q path]; [apply split_bare, Hk |].
  rewrite join_cons.
  change (lit "." ++ join (lit ".") (q :: path))
    with ("."%char :: join (lit ".") (q :: path)).
  rewrite (split_bare_app k _ Hk), IH by discriminate. reflexivity.
Qed.

Lemma section_parts_join path :
  Forall bare path -> Evaluator.section_parts (join (lit ".") path) = path.
Proof.
  intros H. destruct path as [| p path]; [reflexivity |].
  destruct (join_bare (p :: path) H) as [c [r [E _]]]; [discriminate |].
  unfold Evaluator.section_parts. rewrite <- (split_join (p :: path) H) at 2 by discriminate.
  rewrite E. reflexivity.
Qed.


(** *** The blocks of a literal tree *)

Lemma simple_items_ok entries :
  distinct (map fst entries) = true -> Forall (entry_ok literal_tree) entries ->
  Forall item_ok (Serializer.simple_items entries) /\
  distinct (map fst (Serializer.simple_items entries)) = true.
Proof.
  intros Hd H. split.
  - clear Hd. unfold Serializer.simple_items.
    induction H as [| [k w] entries [Hk Hw] _ IH];
      [constructor |].
    cbn [filter snd]. destruct w; cbn [Serializer.is_dict negb]; try exact IH;
      (constructor; [split; [exact Hk | exact Hw] | exact IH]).
  - clear H. apply distinct_NoDup in Hd. apply distinct_NoDup.
    unfold Serializer.simple_items.
    induction entries as [| [k w] entries IH]; [constructor |].
    cbn [map fst] in Hd. inversion Hd as [| k0 l Hk Hrest]; subst.
    cbn [filter snd]. destruct (negb (Serializer.is_dict w)); [| apply IH, Hrest].
    cbn [map fst]. constructor; [| apply IH, Hrest].
    intros Hin. apply Hk. apply in_map_iff in Hin. destruct Hin as [kv [E Hin]].
    apply filter_In in Hin. apply in_map_iff. exists kv. tauto.
Qed.

Lemma blocks_ok v :
  literal_tree v -> forall path, Forall bare path -> Forall block_ok (blocks path v).
Proof.
  induction v as [| | | | | | entries IH] using value_induction;
    try (intros []; fail); try contradiction.
  intros Hv path Hpath. apply literal_tree_dict in Hv. destruct Hv as [Hd Hentries].
  rewrite blocks_dict. apply Forall_app. split.
  - unfold simple_block.
    destruct (simple_items_ok entries Hd Hentries) as [Hitems Hdist].
    destruct (Serializer.simple_items entries) as [| kv items]; [constructor |].
    constructor; [| constructor]. repeat split; try assumption. discriminate.
  - clear Hd. unfold nested_blocks.
    induction Hentries as [| [k w] entries [Hk Hw] Hrest IHe]; [constructor |].
    inversion IH as [| kv l IHw IHrest]; subst.
    cbn [flat_map fst snd] in *. apply Forall_app. split; [| apply IHe, IHrest].
    destruct w; cbn [Serializer.is_dict]; try constructor.
    destruct Hw as [_ Hw]. apply (IHw Hw). apply Forall_app. split; [exact Hpath |].
    constructor; [exact Hk | constructor].
Qed.

Lemma blocks_under path v :
  path <> [] -> Forall (fun b => fst b <> []) (blocks path v).
Proof.
  revert path. induction v as [| | | | | | entries IH] using value_induction;
    intros path Hpath; try constructor.
  rewrite blocks_dict. apply Forall_app. split.
  - unfold simple_block. destruct (Serializer.simple_items entries); constructor;
      [exact Hpath | constructor].
  - unfold nested_blocks. induction IH as [| [k w] entries IHw _ IHe]; [constructor |].
    cbn [flat_map fst snd] in *. apply Forall_app. split; [| exact IHe].
    destruct (Serializer.is_dict w); [| constructor].
    apply IHw. destruct path; discriminate.
Qed.

Lemma block_lines_ok b : block_ok b -> Forall line_ok (block_lines b).
Proof.
  intros [Hpath [_ [Hitems _]]]. unfold block_lines. apply Forall_app. split.
  - destruct (fst b) as [| p path] eqn:E; constructor; [| constructor].
    apply section_name_join; [exact Hpath | discriminate].
  - apply Forall_app. split; [| constructor; [exact I | constructor]].
    induction Hitems as [| kv items Hkv _ IH]; constructor; [exact Hkv | exact IH].
Qed.

Lemma tree_lines_ok v : literal_tree v -> Forall line_ok (tree_lines v).
Proof.
  intros Hv. unfold tree_lines.
  generalize (blocks_ok v Hv [] (Forall_nil _)).
  induction 1 as [| b bs Hb _ IH]; [constructor |].
  cbn [flat_map]. apply Forall_app. split; [apply block_lines_ok, Hb | exact IH].
Qed.


(** *** The serializer writes the lines of the blocks *)

Lemma dump_simple_lines path entries :
  Forall bare path ->
  Serializer.dump_simple (join (lit ".") path) entries =
  map line_text (flat_map block_lines (simple_block path entries)).
Proof.
  intros Hpath. unfold Serializer.dump_simple, simple_block.
  destruct (Serializer.simple_items entries) as [| kv items]; [reflexivity |].
  cbn [flat_map]. rewrite app_nil_r. unfold block_lines. cbn [fst snd].
  rewrite !map_app, map_map. cbn [map line_text].
  f_equal. destruct path as [| p path]; [reflexivity |].
  destruct (join_bare (p :: path) Hpath) as [c [r [E _]]]; [discriminate |].
  rewrite E. reflexivity.
Qed.

Lemma dump_value_lines v :
  literal_tree v -> forall path, Forall bare path ->
  Serializer.dump_value (join (lit ".") path) v =
  map line_text (flat_map block_lines (blocks path v)).
Proof.
  induction v as [| | | | | | entries IH] using value_induction;
    try (intros []; fail); try contradiction.
  intros Hv path Hpath. apply literal_tree_dict in Hv. destruct Hv as [_ Hentries].
  rewrite dump_value_dict, blocks_dict, flat_map_app, map_app.
  rewrite (dump_simple_lines path entries Hpath). f_equal.
  unfold nested_blocks.
  induction Hentries as [| [k w] entries [Hk Hw] Hrest IHe]; [reflexivity |].
  inversion IH as [| kv l IHw IHrest]; subst.
  cbn [flat_map fst snd] in *. rewrite flat_map_app, map_app, <- (IHe IHrest). f_equal.
  destruct w; cbn [Serializer.is_dict]; try reflexivity.
  destruct Hw as [_ Hw]. rewrite (new_prefix_join path k Hpath).
  apply (IHw Hw). apply Forall_app. split; [exact Hpath |].
  constructor; [exact Hk | constructor].
Qed.

Lemma join_lines (lines : list str) :
  join [newline] (lines ++ [[]]) = List.concat (map (fun l => l ++ [newline]) lines).
Proof.
  induction lines as [| l lines IH]; [reflexivity |].
  cbn [app map List.concat]. rewrite <- IH, <- app_assoc.
  destruct lines; reflexivity.
Qed.

Lemma blocks_lines_end (bs : list (list str * dict)) :
  bs <> [] -> exists lines, flat_map block_lines bs = lines ++ [LBlank].
Proof.
  induction bs as [| b bs IH]; [congruence |]. intros _. cbn [flat_map].
  destruct bs as [| b' bs].
  - cbn [flat_map]. rewrite app_nil_r. unfold block_lines. rewrite app_assoc. eauto.
  - destruct IH as [lines E]; [discriminate |]. rewrite E, app_assoc. eauto.
Qed.

(** [dumps] writes the lines of the tree, the last without its line
    feed. *)
Lemma dumps_lines t :
  literal_tree (VDict t) ->
  Serializer.dumps t = doc_text (removelast (tree_lines (VDict t))).
Proof.
  intros Ht. unfold Serializer.dumps, Serializer.dump_section.
  pose proof (dump_value_lines (VDict t) Ht [] (Forall_nil _)) as E0.
  cbn [join] in E0. rewrite E0. clear E0.
  fold (tree_lines (VDict t)). unfold tree_lines.
  destruct (blocks [] (VDict t)) as [| b bs] eqn:E; [reflexivity |].
  destruct (blocks_lines_end (b :: bs)) as [lines El]; [discriminate |].
  rewrite El, removelast_last, map_app. cbn [map line_text].
  rewrite join_lines, map_map. reflexivity.
Qed.


(** *** The sections that the lines of the blocks stand for *)

Lemma update_last_snoc {A : Type} (f : A -> A) l x :
  update_last f (l ++ [x]) = l ++ [f x].
Proof.
  induction l as [| y l IH]; [reflexivity |].
  cbn [app]. destruct l as [| z l]; [reflexivity |].
  cbn [app update_last] in *. rewrite IH. reflexivity.
Qed.

Lemma absorb_items_under items :
  forall secs n acc,
    fold_left absorb (map (fun kv => LItem (fst kv) (snd kv)) items)
      (true, secs ++ [(n, acc)]) =
    (true, secs ++ [(n, acc ++ items)]).
Proof.
  induction items as [| [k v] items IH]; intros secs n acc.
  - rewrite app_nil_r. reflexivity.
  - cbn [map fold_left absorb fst snd]. rewrite update_last_snoc.
    unfold add_item. cbn [fst snd]. rewrite IH, <- app_assoc. reflexivity.
Qed.

Lemma absorb_items_root items :
  forall acc,
    fold_left absorb (map (fun kv => LItem (fst kv) (snd kv)) items)
      (false, [([], acc)]) =
    (false, [([], acc ++ items)]).
Proof.
  induction items as [| [k v] items IH]; intros acc.
  - rewrite app_nil_r. reflexivity.
  - cbn [map fold_left absorb fst snd root_add]. unfold add_item. cbn [fst snd].
    rewrite IH, <- app_assoc. reflexivity.
Qed.

Lemma absorb_block b st :
  fst b <> [] -> fold_left absorb (block_lines b) st = (true, snd st ++ [named b]).
Proof.
  intros Hb. unfold block_lines. destruct (fst b) as [| p path] eqn:E; [congruence |].
  cbn [app fold_left absorb]. rewrite fold_left_app, absorb_items_under.
  unfold named. rewrite E. reflexivity.
Qed.

Lemma absorb_root_block items :
  items <> [] ->
  fold_left absorb (block_lines ([], items)) (false, []) = (false, [named ([], items)]).
Proof.
  intros Hne. destruct items as [| [k v] items]; [congruence |].
  unfold block_lines. cbn [fst snd app map fold_left absorb root_add].
  rewrite fold_left_app, absorb_items_root. reflexivity.
Qed.

Lemma absorb_blocks bs :
  Forall (fun b => fst b <> []) bs ->
  forall st, exists c,
    fold_left absorb (flat_map block_lines bs) st = (c, snd st ++ map named bs).
Proof.
  induction 1 as [| b bs Hb _ IH]; intros st.
  - exists (fst st). cbn. rewrite app_nil_r. destruct st; reflexivity.
  - cbn [flat_map map]. rewrite fold_left_app, (absorb_block b st Hb).
    destruct (IH (true, snd st ++ [named b])) as [c E]. exists c.
    rewrite E. cbn [snd]. rewrite <- app_assoc. reflexivity.
Qed.

Lemma absorb_tree t :
  exists c, fold_left absorb (tree_lines (VDict t)) (false, []) =
            (c, map named (blocks [] (VDict t))).
Proof.
  unfold tree_lines. rewrite blocks_dict, flat_map_app, fold_left_app, map_app.
  assert (Hnested : Forall (fun b => fst b <> []) (nested_blocks [] t)).
  { unfold nested_blocks. induction t as [| [k w] t IH]; [constructor |].
    cbn [flat_map fst snd]. apply Forall_app. split; [| exact IH].
    destruct (Serializer.is_dict w); [| constructor].
    apply blocks_under. discriminate. }
  unfold simple_block. destruct (Serializer.simple_items t) as [| kv items].
  - apply (absorb_blocks _ Hnested (false, [])).
  - cbn [flat_map]. rewrite app_nil_r, absorb_root_block by discriminate.
    apply (absorb_blocks _ Hnested).
Qed.

Lemma absorb_removelast lines st :
  (lines = [] \/ exists lines', lines = lines' ++ [LBlank]) ->
  fold_left absorb (removelast lines) st = fold_left absorb lines st.
Proof.
  intros [-> | [lines' ->]]; [reflexivity |].
  rewrite removelast_last, fold_left_app. reflexivity.
Qed.

Lemma tree_lines_end v :
  tree_lines v = [] \/ exists lines, tree_lines v = lines ++ [LBlank].
Proof.
  unfold tree_lines. destruct (blocks [] v) as [| b bs]; [left; reflexivity |].
  right. apply blocks_lines_end. discriminate.
Qed.

Lemma Forall_removelast {A : Type} (P : A -> Prop) l :
  Forall P l -> Forall P (removelast l).
Proof.
  induction 1 as [| x l Hx Hl IH]; [constructor |].
  cbn [removelast]. destruct l; [constructor |]. constructor; assumption.
Qed.

End WrittenTrees.

(** ** The evaluation of the blocks of a written tree *)

Section EvaluatingBlocks.
Context {RT : PyRuntime}.
Import Lexer Parser Evaluator.

Variable env : environ.
Variable secret_provider : option (str -> option str).

#[local] Abbreviation evaluate_value := (evaluate_value env secret_provider).
#[local] Abbreviation apply_assignments := (apply_assignments env secret_provider).
#[local] Abbreviation descend := (descend env secret_provider).
#[local] Abbreviation process_section := (process_section env secret_provider).
#[local] Abbreviation run_blocks := (run_blocks env secret_provider).

(** *** Literal nodes *)

Lemma evaluate_array_scalars items :
  Forall scalar items -> evaluate_array env secret_provider items = Done items.
Proof.
  induction 1 as [| v items Hv _ IH]; [reflexivity |].
  cbn [evaluate_array]. rewrite IH.
  destruct v; cbn [scalar] in Hv; try contradiction; reflexivity.
Qed.

Lemma evaluate_literal v ln : leaf v -> evaluate_value (literal_node v ln) = Done v.
Proof.
  intros Hv. destruct v; cbn [leaf scalar] in Hv; try contradiction; try reflexivity.
  cbn [Evaluator.evaluate_value literal_node].
  rewrite (evaluate_array_scalars items Hv). reflexivity.
Qed.

Lemma apply_assignments_literal items :
  Forall item_ok items ->
  forall asgs d, Forall2 assigns items asgs ->
  apply_assignments asgs (VDict d) = Done (VDict (set_items items d)).
Proof.
  induction 1 as [| [k v] items [Hk Hv] _ IH]; intros asgs d Hasgs;
    inversion Hasgs as [| kv a l l' [ln [ln' Ha]] Hrest]; subst; [reflexivity |].
  cbn [Evaluator.apply_assignments an_value key fst snd] in *.
  rewrite (evaluate_literal v ln Hv). cbn [bind]. apply (IH _ _ Hrest).
Qed.

Lemma literal_asgs_assigns items : Forall2 assigns items (literal_asgs items).
Proof.
  induction items as [| kv items IH]; constructor; [| exact IH].
  exists 0, 0. reflexivity.
Qed.

Lemma apply_assignments_literal_asgs items asgs v :
  Forall item_ok items -> Forall2 assigns items asgs ->
  apply_assignments asgs v = apply_assignments (literal_asgs items) v.
Proof.
  intros Hitems Hasgs. destruct v as [| | | | | | entries].
  7:{ rewrite (apply_assignments_literal items Hitems asgs entries Hasgs).
      rewrite (apply_assignments_literal items Hitems _ entries (literal_asgs_assigns items)).
      reflexivity. }
  all: destruct Hasgs as [| [k w] a items asgs [ln [ln' Ha]] Hrest]; [reflexivity |].
  all: inversion Hitems as [| kv' items' [Hk Hv] Hrest']; subst.
  all: cbn [literal_asgs map Evaluator.apply_assignments an_value fst snd] in *.
  all: rewrite !evaluate_literal by exact Hv; reflexivity.
Qed.

Lemma descend_literal parts items asgs :
  Forall item_ok items -> Forall2 assigns items asgs ->
  forall v, descend parts asgs v = descend parts (literal_asgs items) v.
Proof.
  intros Hitems Hasgs. induction parts as [| part parts IH]; intros v.
  - apply apply_assignments_literal_asgs; assumption.
  - cbn [Evaluator.descend]. destruct v; try reflexivity.
    destruct (dict_get part _); [| reflexivity]. rewrite IH. reflexivity.
Qed.


(** *** Dictionaries *)

Lemma dict_set_set k (v w : value) d : dict_set k v (dict_set k w d) = dict_set k v d.
Proof.
  induction d as [| [k' x] d IH]; cbn [dict_set].
  - rewrite str_eqb_refl. reflexivity.
  - destruct (str_eqb k k') eqn:E; cbn [dict_set]; rewrite E; [reflexivity |].
    rewrite IH. reflexivity.
Qed.

Lemma dict_set_fresh k (v : value) d :
  dict_get k d = None -> dict_set k v d = d ++ [(k, v)].
Proof.
  induction d as [| [k' x] d IH]; cbn [dict_get dict_set app]; [reflexivity |].
  destruct (str_eqb k k'); [discriminate |]. intros H. rewrite (IH H). reflexivity.
Qed.

Lemma dict_get_app k (d1 d2 : dict) :
  dict_get k (d1 ++ d2) =
  match dict_get k d1 with Some v => Some v | None => dict_get k d2 end.
Proof.
  induction d1 as [| [k' x] d1 IH]; cbn [dict_get app]; [reflexivity |].
  destruct (str_eqb k k'); [reflexivity | exact IH].
Qed.

Lemma dict_get_not_in k (d : dict) : ~ In k (map fst d) -> dict_get k d = None.
Proof.
  induction d as [| [k' x] d IH]; cbn [dict_get map fst In]; [reflexivity |].
  intros H. destruct (str_eqb k k') eqn:E.
  - apply str_eqb_eq in E. subst. tauto.
  - apply IH. tauto.
Qed.

Lemma set_items_fresh items :
  NoDup (map fst items) ->
  forall d, (forall k, In k (map fst items) -> dict_get k d = None) ->
  set_items items d = d ++ items.
Proof.
  unfold set_items. induction items as [| [k v] items IH]; intros Hnd d Hd.
  - rewrite app_nil_r. reflexivity.
  - cbn [map fst] in Hnd. inversion Hnd as [| k0 l Hk Hrest]; subst.
    cbn [fold_left fst snd].
    rewrite (dict_set_fresh k v d) by (apply Hd; left; reflexivity).
    rewrite (IH Hrest).
    + rewrite <- app_assoc. reflexivity.
    + intros k' Hk'. rewrite dict_get_app, (Hd k') by (right; exact Hk').
      cbn [dict_get]. destruct (str_eqb k' k) eqn:E; [| reflexivity].
      apply str_eqb_eq in E. subst. contradiction.
Qed.

(** *** The descent *)

Lemma apply_assignments_dict asgs :
  forall d r, apply_assignments asgs (VDict d) = Done r -> exists d', r = VDict d'.
Proof.
  induction asgs as [| a asgs IH]; intros d r; cbn [Evaluator.apply_assignments].
  - intros [= <-]. eauto.
  - destruct (evaluate_value (an_value a)); cbn [bind]; try discriminate. apply IH.
Qed.

Lemma descend_dict parts asgs d r :
  descend parts asgs (VDict d) = Done r -> exists d', r = VDict d'.
Proof.
  destruct parts as [| part parts]; cbn [Evaluator.descend].
  - apply apply_assignments_dict.
  - destruct (dict_get part _) as [child |]; [| discriminate].
    destruct (descend parts asgs child); cbn [bind]; try discriminate.
    intros [= <-]. eauto.
Qed.

Lemma descend_present k parts asgs d child :
  dict_get k d = Some child ->
  descend (k :: parts) asgs (VDict d) =
  (r <- descend parts asgs child ;; Done (VDict (dict_set k r d))).
Proof.
  intros H. cbn [Evaluator.descend]. unfold dict_mem. rewrite H. cbv iota.
  rewrite H. reflexivity.
Qed.

Lemma descend_fresh k parts asgs d :
  dict_get k d = None ->
  descend (k :: parts) asgs (VDict d) =
  (r <- descend parts asgs (VDict []) ;; Done (VDict (d ++ [(k, r)]))).
Proof.
  intros H. cbn [Evaluator.descend]. unfold dict_mem. rewrite H. cbv iota.
  rewrite dict_get_set_eq. destruct (descend parts asgs (VDict [])); try reflexivity.
  cbn [bind]. rewrite dict_set_set, dict_set_fresh by exact H. reflexivity.
Qed.


(** *** Blocks under a key *)

Lemma run_blocks_cons b bs v :
  run_blocks (b :: bs) v =
  (v' <- descend (fst b) (literal_asgs (snd b)) v ;; run_blocks bs v').
Proof. reflexivity. Qed.

Lemma run_under_present k bs :
  bs <> [] -> forall d child,
  dict_get k d = Some child ->
  run_blocks (map (under k) bs) (VDict d) =
  (r <- run_blocks bs child ;; Done (VDict (dict_set k r d))).
Proof.
  induction bs as [| b bs IH]; [congruence |]. intros _ d child Hget.
  cbn [map]. rewrite !run_blocks_cons. cbn [under fst snd].
  rewrite (descend_present k (fst b) _ d child Hget).
  destruct (descend (fst b) (literal_asgs (snd b)) child) as [r | e |];
    cbn [bind]; try reflexivity.
  destruct bs as [| b' bs]; [reflexivity |].
  rewrite (IH ltac:(discriminate) (dict_set k r d) r) by apply dict_get_set_eq.
  destruct (run_blocks (b' :: bs) r); cbn [bind]; try reflexivity.
  rewrite dict_set_set. reflexivity.
Qed.

Lemma run_under_fresh k bs d :
  bs <> [] -> dict_get k d = None ->
  run_blocks (map (under k) bs) (VDict d) =
  (r <- run_blocks bs (VDict []) ;; Done (VDict (d ++ [(k, r)]))).
Proof.
  destruct bs as [| b bs]; [congruence |]. intros _ Hget.
  cbn [map]. rewrite !run_blocks_cons. cbn [under fst snd].
  rewrite (descend_fresh k (fst b) _ d Hget).
  destruct (descend (fst b) (literal_asgs (snd b)) (VDict [])) as [r | e |];
    cbn [bind]; try reflexivity.
  destruct bs as [| b' bs]; [reflexivity |].
  rewrite (run_under_present k (b' :: bs) ltac:(discriminate) (d ++ [(k, r)]) r).
  - destruct (run_blocks (b' :: bs) r); cbn [bind]; try reflexivity.
    rewrite <- (dict_set_fresh k r d Hget), dict_set_set, dict_set_fresh by exact Hget.
    reflexivity.
  - rewrite dict_get_app, Hget. cbn [dict_get]. rewrite str_eqb_refl. reflexivity.
Qed.

Lemma blocks_under_key v :
  forall k q, blocks (k :: q) v = map (under k) (blocks q v).
Proof.
  induction v as [| | | | | | entries IH] using value_induction; intros k q;
    try reflexivity.
  rewrite !blocks_dict, map_app. f_equal.
  - unfold simple_block. destruct (Serializer.simple_items entries); reflexivity.
  - unfold nested_blocks. induction IH as [| [k' w] entries IHw _ IHe]; [reflexivity |].
    cbn [flat_map fst snd] in *. rewrite map_app, IHe. f_equal.
    destruct (Serializer.is_dict w); [| reflexivity]. apply IHw.
Qed.

Lemma blocks_nonempty v :
  literal_tree v -> v <> VDict [] -> forall q, blocks q v <> [].
Proof.
  induction v as [| | | | | | entries IH] using value_induction;
    try (intros []; fail); try contradiction.
  intros Hv Hne q. apply literal_tree_dict in Hv. destruct Hv as [_ Hentries].
  rewrite blocks_dict. unfold simple_block.
  destruct entries as [| [k w] entries]; [congruence |].
  inversion Hentries as [| kv l [Hk Hw] _]; subst.
  inversion IH as [| kv l IHw _]; subst. cbn [snd] in *.
  destruct w; try (cbn; discriminate).
  cbn [Serializer.simple_items filter snd Serializer.is_dict negb].
  fold (Serializer.simple_items entries).
  destruct (Serializer.simple_items entries); [| discriminate].
  unfold nested_blocks. cbn [app flat_map fst snd Serializer.is_dict].
  destruct Hw as [Hes Hw]. intros E. apply app_eq_nil in E. destruct E as [E _].
  revert E. apply IHw; [exact Hw | congruence].
Qed.


(** *** The blocks of a literal tree give the tree back *)

Lemma run_blocks_app bs1 bs2 v :
  run_blocks (bs1 ++ bs2) v = (v' <- run_blocks bs1 v ;; run_blocks bs2 v').
Proof. unfold run_blocks. apply foldM_app. Qed.

Lemma run_simple_block entries :
  distinct (map fst entries) = true -> Forall (entry_ok literal_tree) entries ->
  run_blocks (simple_block [] entries) (VDict []) =
  Done (VDict (Serializer.simple_items entries)).
Proof.
  intros Hd Hentries. unfold simple_block.
  destruct (simple_items_ok entries Hd Hentries) as [Hitems Hdist].
  destruct (Serializer.simple_items entries) as [| kv items] eqn:E; [reflexivity |].
  rewrite run_blocks_cons. cbn [fst snd Evaluator.descend].
  rewrite (apply_assignments_literal _ Hitems _ [] (literal_asgs_assigns _)).
  cbn [bind]. rewrite set_items_fresh; [reflexivity | | reflexivity].
  apply distinct_NoDup, Hdist.
Qed.

Lemma key_unique (l : dict) k a b :
  NoDup (map fst l) -> In (k, a) l -> In (k, b) l -> a = b.
Proof.
  induction l as [| [k' x] l IH]; cbn [map fst In]; [tauto |].
  intros Hnd. inversion Hnd as [| k0 l0 Hk Hrest]; subst.
  intros [[= -> ->] | Ha] [[= E] | Hb]; subst; try reflexivity.
  - exfalso. apply Hk. apply in_map_iff. exists (k, b). auto.
  - exfalso. apply Hk. apply in_map_iff. exists (k, a). auto.
  - apply IH; assumption.
Qed.

Lemma run_nested_blocks l :
  Forall (fun kv => literal_tree (snd kv) ->
                    run_blocks (blocks [] (snd kv)) (VDict []) = Done (reorder (snd kv))) l ->
  Forall (entry_ok literal_tree) l -> NoDup (map fst l) ->
  forall d,
    (forall kv, In kv l -> Serializer.is_dict (snd kv) = true ->
                dict_get (fst kv) d = None) ->
    run_blocks (nested_blocks [] l) (VDict d) = Done (VDict (d ++ nested_reordered l)).
Proof.
  unfold nested_blocks, nested_reordered.
  induction 1 as [| [k w] l IHw _ IHl]; intros Hentries Hnd d Hd.
  - rewrite app_nil_r. reflexivity.
  - inversion Hentries as [| kv l0 [Hk Hw] Hrest]; subst.
    cbn [map fst] in Hnd. inversion Hnd as [| k0 l0 Hnk Hndl]; subst.
    cbn [flat_map fst snd] in *.
    destruct (Serializer.is_dict w) eqn:Ew.
    + destruct w; try discriminate. destruct Hw as [Hne Hw].
      rewrite run_blocks_app.
      change (blocks ([] ++ [k]) (VDict entries)) with (blocks [k] (VDict entries)).
      rewrite blocks_under_key.
      rewrite run_under_fresh.
      * rewrite (IHw Hw). cbn [bind].
        rewrite (IHl Hrest Hndl (d ++ [(k, reorder (VDict entries))])).
        -- rewrite <- app_assoc. reflexivity.
        -- intros kv Hin Hdict. rewrite dict_get_app, (Hd kv (or_intror Hin) Hdict).
           cbn [dict_get]. destruct (str_eqb (fst kv) k) eqn:E; [| reflexivity].
           apply str_eqb_eq in E. exfalso. apply Hnk. rewrite <- E.
           apply in_map. exact Hin.
      * apply blocks_nonempty; [exact Hw | congruence].
      * apply (Hd (k, VDict entries)); [left; reflexivity | reflexivity].
    + apply (IHl Hrest Hndl). intros kv Hin. apply Hd. right. exact Hin.
Qed.

Lemma run_blocks_tree v :
  literal_tree v -> run_blocks (blocks [] v) (VDict []) = Done (reorder v).
Proof.
  induction v as [| | | | | | entries IH] using value_induction;
    try (intros []; fail); try contradiction.
  intros Hv. apply literal_tree_dict in Hv. destruct Hv as [Hd Hentries].
  rewrite blocks_dict, run_blocks_app, (run_simple_block entries Hd Hentries).
  cbn [bind]. rewrite reorder_dict. fold (nested_reordered entries).
  apply distinct_NoDup in Hd.
  apply (run_nested_blocks entries IH Hentries Hd).
  intros [k w] Hin Hdict. cbn [fst snd] in *. apply dict_get_not_in.
  intros Hk. apply in_map_iff in Hk. destruct Hk as [[k' w'] [E Hin']].
  cbn [fst] in E. subst k'. unfold Serializer.simple_items in Hin'.
  apply filter_In in Hin'. destruct Hin' as [Hin' Hsimple]. cbn [snd] in Hsimple.
  rewrite (key_unique entries k w w' Hd Hin Hin') in Hdict.
  rewrite Hdict in Hsimple. discriminate.
Qed.


(** *** The sections of a parsed document *)

Lemma process_sections bs :
  Forall block_ok bs ->
  forall secs data r,
    Forall2 holds (map named bs) secs ->
    run_blocks bs (VDict data) = Done (VDict r) ->
    foldM process_section secs data = Done r.
Proof.
  induction 1 as [| b bs Hb _ IH]; intros secs data r Hsecs Hrun;
    inversion Hsecs as [| nb s l secs' [Hname Hasgs] Hrest]; subst.
  - cbn in Hrun. injection Hrun as ->. reflexivity.
  - destruct Hb as [Hpath [_ [Hitems _]]]. cbn [named fst snd] in *.
    rewrite run_blocks_cons in Hrun. cbn [foldM]. unfold Evaluator.process_section.
    rewrite Hname, (section_parts_join (fst b) Hpath).
    rewrite (descend_literal (fst b) (snd b) (assignments s) Hitems Hasgs).
    destruct (descend (fst b) (literal_asgs (snd b)) (VDict data)) as [v | e |] eqn:E;
      cbn [bind] in *; try discriminate.
    destruct (descend_dict _ _ _ _ E) as [d' ->]. cbn [bind].
    apply (IH secs' d' r Hrest Hrun).
Qed.

(** *** The tree read back equals the tree written *)

Lemma reorder_length entries :
  List.length (Serializer.simple_items entries ++ nested_reordered entries) =
  List.length entries.
Proof.
  rewrite length_app. unfold Serializer.simple_items, nested_reordered.
  induction entries as [| [k w] entries IH]; [reflexivity |].
  cbn [filter flat_map fst snd]. destruct (Serializer.is_dict w);
    cbn [negb app List.length]; lia.
Qed.

Lemma simple_items_get (l : dict) k v :
  NoDup (map fst l) -> In (k, v) l ->
  dict_get k (Serializer.simple_items l) =
  if Serializer.is_dict v then None else Some v.
Proof.
  intros Hnd Hin. destruct (Serializer.is_dict v) eqn:Ev.
  - apply dict_get_not_in. intros Hk. apply in_map_iff in Hk.
    destruct Hk as [[k' w'] [E Hin']]. cbn [fst] in E. subst k'.
    apply filter_In in Hin'. destruct Hin' as [Hin' Hs]. cbn [snd] in Hs.
    rewrite (key_unique l k w' v Hnd Hin' Hin), Ev in Hs. discriminate.
  - apply In_dict_get.
    + unfold keys, Serializer.simple_items. clear Hin.
      induction l as [| [k' w'] l IH]; [constructor |].
      cbn [map fst] in Hnd. inversion Hnd as [| k0 l0 Hk Hrest]; subst.
      cbn [filter snd]. destruct (negb (Serializer.is_dict w')); [| apply IH, Hrest].
      cbn [map fst]. constructor; [| apply IH, Hrest].
      intros Hin. apply Hk. apply in_map_iff in Hin. destruct Hin as [kv [E Hin]].
      apply filter_In in Hin. apply in_map_iff. exists kv. tauto.
    + apply filter_In. split; [exact Hin |]. cbn [snd]. rewrite Ev. reflexivity.
Qed.

Lemma nested_reordered_get (l : dict) k v :
  NoDup (map fst l) -> In (k, v) l -> Serializer.is_dict v = true ->
  dict_get k (nested_reordered l) = Some (reorder v).
Proof.
  unfold nested_reordered. intros Hnd Hin Hv.
  induction l as [| [k' w'] l IH]; [contradiction |].
  cbn [map fst] in Hnd. inversion Hnd as [| k0 l0 Hk Hrest]; subst.
  cbn [flat_map fst snd]. destruct Hin as [[= -> ->] | Hin].
  - rewrite Hv. cbn [app dict_get]. rewrite str_eqb_refl. reflexivity.
  - assert (Hne : str_eqb k k' = false).
    { apply str_eqb_neq. intros ->. apply Hk. apply in_map_iff. exists (k', v). auto. }
    destruct (Serializer.is_dict w'); cbn [app dict_get]; [rewrite Hne |];
      apply (IH Hrest Hin).
Qed.

Lemma deep_equal_reorder v : literal_tree v -> deep_equal v (reorder v).
Proof.
  induction v as [| | | | | | entries IH] using value_induction;
    try (intros []; fail); try contradiction.
  intros Hv. apply literal_tree_dict in Hv. destruct Hv as [Hd Hentries].
  apply distinct_NoDup in Hd.
  rewrite reorder_dict. fold (nested_reordered entries).
  constructor; [symmetry; apply reorder_length |].
  intros k v Hin. rewrite dict_get_app, (simple_items_get entries k v Hd Hin).
  rewrite Forall_forall in IH, Hentries.
  specialize (IH (k, v) Hin). specialize (Hentries (k, v) Hin).
  destruct Hentries as [_ Hw]. cbn [snd] in *.
  destruct (Serializer.is_dict v) eqn:Ev.
  - exists (reorder v). split; [apply nested_reordered_get; assumption |].
    apply IH. destruct v; try discriminate. apply Hw.
  - exists v. split; [reflexivity |]. constructor. exact Ev.
Qed.

End EvaluatingBlocks.

(** ** The round trip through the serializer *)

Section RoundTrip.
Context {RT : PyRuntime}.
Import Lexer Parser Evaluator.

Variable env : environ.
Variable fs : FileSystem.

(** The document parsed from what [dumps] writes holds the sections of the
    blocks of the tree. *)
Lemma parse_dumps t :
  literal_tree (VDict t) ->
  exists ast,
    settles (fun fuel => parse fuel (Serializer.dumps t)) ast /\
    Forall2 holds (map named (blocks [] (VDict t))) (sections ast) /\
    conditionals ast = [] /\ includes ast = [].
Proof.
  intros Ht. rewrite (dumps_lines t Ht).
  destruct (parse_document (removelast (tree_lines (VDict t))))
    as [ast [cur [Hst Hparse]]].
  { apply Forall_removelast, tree_lines_ok, Ht. }
  exists ast. split; [exact Hparse |].
  rewrite (absorb_removelast _ _ (tree_lines_end (VDict t))) in Hst.
  destruct (absorb_tree t) as [c E]. rewrite E in Hst.
  destruct Hst as [_ [Hs [Hc Hi]]]. auto.
Qed.

(** C3. The round trip through the serializer: for every literal tree
    (in every map pairwise distinct bare keys, no empty nested map, and as
    the other values strings, integers, booleans, nulls, floats that [str]
    writes with a point and [float] reads back, or lists of these),
    [loads(dumps(tree))] without secrets returns, whatever the
    environment, a tree that is deep-equal to the original. *)
Theorem literal_tree_round_trip (base_path : option str) (t : dict) :
  literal_tree (VDict t) ->
  exists r,
    settles (fun fuel =>
               Serializer.loads env fs fuel (Serializer.dumps t) base_path None None) r /\
    deep_equal (VDict t) (VDict r).
Proof.
  intros Ht.
  destruct (parse_dumps t Ht) as [ast [[n Hparse] [Hsecs [Hconds Hincs]]]].
  pose proof (run_blocks_tree env None (VDict t) Ht) as Hrun.
  pose proof (deep_equal_reorder (VDict t) Ht) as Heq.
  rewrite reorder_dict in Hrun, Heq.
  set (r := Serializer.simple_items t ++ _) in *.
  exists r. split; [| exact Heq].
  pose proof (process_sections env None (blocks [] (VDict t))
                (blocks_ok (VDict t) Ht [] (Forall_nil _))
                (sections ast) [] r Hsecs Hrun) as Hfold.
  exists (S n). intros fuel Hfuel. destruct fuel as [| fuel]; [lia |].
  unfold Serializer.loads. rewrite Hparse by lia. cbn [bind evaluate].
  rewrite Hincs, Hconds. cbn [foldM bind]. rewrite Hfold. reflexivity.
Qed.

End RoundTrip.

(** ** The parser keeps the order of the text *)

Section ParserOrder.
Context {RT : PyRuntime}.
Import Lexer Parser.

(** What a step of the parser has read: plain tokens before [toks']. *)
#[local] Abbreviation reads_plain toks :=
  (outcome_all (fun r => exists pre, toks = pre ++ snd r /\ Forall (fun t => plain t = true) pre)
               (fun _ => True)).

Lemma of_type_app ty a b : of_type ty (a ++ b) = of_type ty a ++ of_type ty b.
Proof. apply filter_app. Qed.

Lemma text_headers_app ty a b :
  text_headers ty (a ++ b) = text_headers ty a ++ text_headers ty b.
Proof. unfold text_headers. rewrite of_type_app. apply map_app. Qed.

Lemma plain_of_type ty pre :
  ty = SECTION \/ ty = SECTION_WHEN \/ ty = INCLUDE ->
  Forall (fun t => plain t = true) pre -> of_type ty pre = [].
Proof.
  intros Hty H. induction H as [| t pre Ht _ IH]; [reflexivity |].
  cbn [of_type filter]. fold (of_type ty pre). rewrite IH.
  unfold plain in Ht. apply negb_true_iff in Ht.
  apply orb_false_iff in Ht. destruct Ht as [Ht H3].
  apply orb_false_iff in Ht. destruct Ht as [H1 H2].
  destruct Hty as [-> | [-> | ->]]; rewrite ?H1, ?H2, ?H3; reflexivity.
Qed.

Lemma plain_text_headers ty pre :
  ty = SECTION \/ ty = SECTION_WHEN \/ ty = INCLUDE ->
  Forall (fun t => plain t = true) pre -> text_headers ty pre = [].
Proof. intros Hty H. unfold text_headers. rewrite (plain_of_type ty pre Hty H). reflexivity. Qed.

Lemma skip_indent_split toks :
  exists pre, toks = pre ++ skip_indent toks /\ Forall (fun t => plain t = true) pre.
Proof.
  induction toks as [| t toks [pre [E H]]]; cbn [skip_indent].
  - exists []. split; [reflexivity | constructor].
  - destruct (TokenType_eqb (tk_type t) INDENT) eqn:Et.
    + exists (t :: pre). split; [cbn [app]; f_equal; exact E |].
      constructor; [| exact H]. unfold plain. destruct (tk_type t); try discriminate.
      reflexivity.
    + exists []. split; [reflexivity | constructor].
Qed.

Lemma reads_plain_refl {A : Type} (a : A) toks : reads_plain toks (Done (a, toks)).
Proof. exists []. split; [reflexivity | constructor]. Qed.

Lemma reads_plain_step {A B : Type} toks pre toks1 (c : outcome (A * list Token))
    (k : A * list Token -> outcome (B * list Token)) :
  toks = pre ++ toks1 -> Forall (fun t => plain t = true) pre ->
  reads_plain toks1 c ->
  (forall r, reads_plain (snd r) (k r)) ->
  reads_plain toks (bind c k).
Proof.
  intros E Hpre Hc Hk. destruct c as [r | e |]; cbn [bind]; try exact I.
  destruct Hc as [p1 [E1 H1]]. specialize (Hk r).
  destruct (k r) as [r' | e |]; try exact I.
  destruct Hk as [p2 [E2 H2]]. cbn [outcome_all].
  exists (pre ++ p1 ++ p2). split.
  - rewrite E, E1, E2, <- !app_assoc. reflexivity.
  - apply Forall_app. split; [exact Hpre |]. apply Forall_app. split; assumption.
Qed.

Lemma reads_plain_from toks pre toks1 {A : Type} (c : outcome (A * list Token)) :
  toks = pre ++ toks1 -> Forall (fun t => plain t = true) pre ->
  reads_plain toks1 c -> reads_plain toks c.
Proof.
  intros E Hpre Hc. destruct c as [r | e |]; try exact I.
  destruct Hc as [p1 [E1 H1]]. exists (pre ++ p1). split.
  - rewrite E, E1, <- app_assoc. reflexivity.
  - apply Forall_app. split; assumption.
Qed.

Lemma advance_plain toks t :
  current toks = Some t -> plain t = true ->
  exists pre, toks = pre ++ advance toks /\ Forall (fun t => plain t = true) pre.
Proof.
  destruct toks as [| t' toks]; [discriminate |]. cbn. intros [= ->] Ht.
  exists [t]. split; [reflexivity | constructor; [exact Ht | constructor]].
Qed.

Lemma expect_plain ty toks :
  plain (mkToken ty [] 0 0) = true -> reads_plain toks (expect ty toks).
Proof.
  intros Hty. unfold expect. destruct (current toks) as [t |] eqn:E; [| exact I].
  destruct (TokenType_eqb (tk_type t) ty) eqn:Et; [| exact I].
  cbn [outcome_all snd]. apply (advance_plain _ _ E).
  unfold plain in *. cbn [tk_type] in Hty.
  destruct (tk_type t), ty; try discriminate; reflexivity.
Qed.

Lemma parse_default_plain pv node toks :
  (forall t, reads_plain t (pv t)) -> reads_plain toks (parse_default pv node toks).
Proof.
  intros Hpv. unfold parse_default.
  destruct (current_type_is DEFAULT_OP toks) eqn:E; [| apply reads_plain_refl].
  unfold current_type_is in E. destruct (current toks) as [t |] eqn:Ec; [| discriminate].
  destruct (advance_plain toks t Ec) as [pre [Ep Hp]].
  { unfold plain. destruct (tk_type t); try discriminate; reflexivity. }
  apply (reads_plain_step _ _ _ _ _ Ep Hp (Hpv _)).
  intros [d toks1]. apply reads_plain_refl.
Qed.

Lemma parser_plain (fuel : nat) :
  (forall toks, reads_plain toks (parse_value fuel toks)) /\
  (forall toks, reads_plain toks (parse_array fuel toks)) /\
  (forall toks items, reads_plain toks (parse_array_loop fuel toks items)).
Proof.
  induction fuel as [| fuel [IHv [IHa IHl]]]; [repeat split; intros; exact I |].
  repeat split.
  - intros toks. cbn [parse_value].
    destruct (skip_indent_split toks) as [pre [Ep Hp]].
    apply (reads_plain_from _ _ _ _ Ep Hp).
    destruct (current (skip_indent toks)) as [token |] eqn:E; [| exact I].
    assert (Hd : forall node, plain token = true ->
              reads_plain (skip_indent toks)
                (parse_default (parse_value fuel) node (advance (skip_indent toks)))).
    { intros node Ht. destruct (advance_plain _ _ E Ht) as [p1 [E1 H1]].
      apply (reads_plain_from _ _ _ _ E1 H1). apply parse_default_plain, IHv. }
    destruct (tk_type token) eqn:Et; try exact I;
      try (apply Hd; unfold plain; rewrite Et; reflexivity).
    + unfold number_value. destruct (contains _ _);
        [destruct (float_of_str _) | destruct (py_int _)];
        cbn [bind]; try exact I; apply Hd; unfold plain; rewrite Et; reflexivity.
    + apply (reads_plain_step _ [] _ _ _ eq_refl (Forall_nil _) (IHa _)).
      intros [items toks1]. apply reads_plain_refl.
  - intros toks. cbn [parse_array].
    apply (reads_plain_step _ [] _ _ _ eq_refl (Forall_nil _)
             (expect_plain LBRACKET toks eq_refl)).
    intros [t toks0]. cbn [snd].
    apply (reads_plain_step _ [] _ _ _ eq_refl (Forall_nil _) (IHl _ _)).
    intros [items toks1]. cbn [snd].
    apply (reads_plain_step _ [] _ _ _ eq_refl (Forall_nil _)
             (expect_plain RBRACKET toks1 eq_refl)).
    intros [t2 toks2]. apply reads_plain_refl.
  - intros toks items. cbn [parse_array_loop].
    destruct (current toks) as [t |] eqn:E; [| apply reads_plain_refl].
    destruct (TokenType_eqb (tk_type t) RBRACKET); [apply reads_plain_refl |].
    destruct (skip_indent_split toks) as [pre [Ep Hp]].
    destruct (current (skip_indent toks)) as [t1 |] eqn:E1; [| exact I].
    destruct (TokenType_eqb (tk_type t1) RBRACKET).
    { cbn [outcome_all snd]. exists pre. split; assumption. }
    apply (reads_plain_step _ _ _ _ _ Ep Hp (IHv _)).
    intros [value_node toks2]. cbn [snd].
    destruct (skip_indent_split toks2) as [p2 [E2 H2]].
    apply (reads_plain_from _ _ _ _ E2 H2).
    destruct (current_type_is COMMA (skip_indent toks2)) eqn:Ec; [| apply IHl].
    unfold current_type_is in Ec.
    destruct (current (skip_indent toks2)) as [t3 |] eqn:E3; [| discriminate].
    destruct (advance_plain _ t3 E3) as [p3 [Ep3 H3]].
    { unfold plain. destruct (tk_type t3); try discriminate; reflexivity. }
    apply (reads_plain_from _ _ _ _ Ep3 H3). apply IHl.
Qed.

Lemma parse_assignment_plain fuel toks : reads_plain toks (parse_assignment fuel toks).
Proof.
  unfold parse_assignment.
  destruct (skip_indent_split toks) as [pre [Ep Hp]].
  apply (reads_plain_step _ _ _ _ _ Ep Hp (expect_plain KEY _ eq_refl)).
  intros [key_token toks1]. cbn [snd].
  match goal with
  | |- outcome_all _ _ (let (_, _) := ?x in _) =>
      assert (Hx : exists p, toks1 = p ++ snd x /\ Forall (fun t => plain t = true) p);
      [| destruct x as [hint toks2]]
  end.
  { destruct (current toks1) as [t |] eqn:E;
      [| exists []; split; [reflexivity | constructor]].
    destruct (TokenType_eqb (tk_type t) TYPE_HINT) eqn:Et;
      [| exists []; split; [reflexivity | constructor]].
    cbn [snd]. apply (advance_plain _ _ E).
    unfold plain. destruct (tk_type t); try discriminate; reflexivity. }
  cbn [snd] in Hx. destruct Hx as [p [Ex Hx]].
  apply (reads_plain_step _ _ _ _ _ Ex Hx (expect_plain EQUALS _ eq_refl)).
  intros [t3 toks3]. cbn [snd].
  apply (reads_plain_step _ [] _ _ _ eq_refl (Forall_nil _)
           (proj1 (parser_plain fuel) _)).
  intros [value_node toks4]. apply reads_plain_refl.
Qed.

Lemma parse_section_assignments_plain fuel :
  forall toks acc, reads_plain toks (parse_section_assignments fuel toks acc).
Proof.
  induction fuel as [| fuel IH]; intros toks acc; [exact I |].
  cbn [parse_section_assignments].
  destruct (current_type_is KEY toks); [| apply reads_plain_refl].
  apply (reads_plain_step _ [] _ _ _ eq_refl (Forall_nil _)
           (parse_assignment_plain fuel toks)).
  intros [a toks1]. cbn [snd].
  destruct (skip_indent_split toks1) as [p [E H]].
  apply (reads_plain_from _ _ _ _ E H). apply IH.
Qed.

End ParserOrder.

Section ParserOrder2.
Context {RT : PyRuntime}.
Import Lexer Parser.

Lemma interleaved_right_app {A : Type} (c l1 l2 l : list A) :
  interleaved l1 l2 l -> interleaved l1 (c ++ l2) (c ++ l).
Proof. intros H. induction c as [| a c IH]; [exact H | constructor; exact IH]. Qed.

Lemma interleaved_only_right {A : Type} (l : list A) : interleaved [] l l.
Proof. induction l; constructor; assumption. Qed.

Lemma current_cons toks t : current toks = Some t -> toks = t :: advance toks.
Proof. destruct toks; [discriminate |]. cbn. intros [= ->]. reflexivity. Qed.

(** The loop over the sections of a conditional: what it has read, and
    what it has made of it. *)
Lemma parse_conditional_sections_split fuel :
  forall toks acc secs rest,
    parse_conditional_sections fuel toks acc = Done (secs, rest) ->
    exists consumed more,
      toks = consumed ++ rest /\ secs = acc ++ more /\
      map section_header more = text_headers SECTION consumed /\
      text_headers SECTION_WHEN consumed = [] /\
      text_headers INCLUDE consumed = [] /\
      current_type_is SECTION rest = false.
Proof.
  induction fuel as [| fuel IH]; intros toks acc secs rest; [discriminate |].
  cbn [parse_conditional_sections].
  destruct (current toks) as [t |] eqn:E.
  - destruct (TokenType_eqb (tk_type t) SECTION) eqn:Et.
    + pose proof (parse_section_assignments_plain fuel (skip_indent (advance toks)) [])
        as Ha.
      destruct (parse_section_assignments fuel (skip_indent (advance toks)) [])
        as [[asg toks1] | |] eqn:Epa; cbn [bind]; try discriminate.
      cbn [outcome_all] in Ha. destruct Ha as [p1 [E1 H1]]. cbn [snd] in E1.
      destruct (skip_indent_split (advance toks)) as [p0 [E0 H0]].
      intros H. apply IH in H.
      destruct H as [consumed [more [Ec [-> [Hm [Hw [Hi Hr]]]]]]].
      exists (t :: p0 ++ p1 ++ consumed),
             (mkSectionNode (tk_value t) asg (tk_line t) :: more).
      assert (Hp : Forall (fun t => plain t = true) (p0 ++ p1))
        by (apply Forall_app; split; assumption).
      split.
      { rewrite (current_cons _ _ E) at 1. cbn [app]. f_equal.
        rewrite E0, E1, Ec, <- !app_assoc. reflexivity. }
      split; [rewrite <- app_assoc; reflexivity |].
      assert (Hsplit : t :: p0 ++ p1 ++ consumed = [t] ++ (p0 ++ p1) ++ consumed)
        by (cbn [app]; rewrite <- app_assoc; reflexivity).
      rewrite Hsplit, !text_headers_app.
      rewrite !(plain_text_headers _ p0) by auto.
      rewrite !(plain_text_headers _ p1) by auto.
      rewrite Hw, Hi.
      assert (Ht : tk_type t = SECTION) by (destruct (tk_type t); try discriminate; reflexivity).
      assert (H1t : forall ty, text_headers ty [t] =
                               if TokenType_eqb SECTION ty then [token_header t] else []).
      { intros ty. unfold text_headers, of_type. cbn [filter]. rewrite Ht.
        destruct (TokenType_eqb SECTION ty); reflexivity. }
      rewrite !H1t. cbn [TokenType_eqb map app]. rewrite Hm.
      repeat split; try reflexivity. exact Hr.
    + intros [= <- <-]. exists [], []. rewrite app_nil_r.
      repeat split; try reflexivity.
      unfold current_type_is. rewrite E. exact Et.
  - intros [= <- <-]. exists [], []. rewrite app_nil_r.
    repeat split; try reflexivity.
    unfold current_type_is. rewrite E. reflexivity.
Qed.

End ParserOrder2.

Section ParserOrder3.
Context {RT : PyRuntime}.
Import Lexer Parser.

Lemma update_last_headers {A B : Type} (h : A -> B) (f : A -> A) (l : list A) :
  (forall x, h (f x) = h x) -> map h (update_last f l) = map h l.
Proof.
  intros Hf. induction l as [| x l IH]; [reflexivity |].
  destruct l as [| y l]; cbn [update_last map] in *; [rewrite Hf | rewrite IH];
    reflexivity.
Qed.

Lemma update_last_flat_headers {A B C : Type} (g : A -> list B) (h : B -> C)
    (f : A -> A) (l : list A) :
  (forall x, map h (g (f x)) = map h (g x)) ->
  map h (flat_map g (update_last f l)) = map h (flat_map g l).
Proof.
  intros Hf. induction l as [| x l IH]; [reflexivity |].
  destruct l as [| y l].
  - cbn [update_last flat_map]. rewrite !app_nil_r. apply Hf.
  - change (update_last f (x :: y :: l)) with (x :: update_last f (y :: l)).
    change (flat_map g (x :: update_last f (y :: l)))
      with (g x ++ flat_map g (update_last f (y :: l))).
    change (flat_map g (x :: y :: l)) with (g x ++ flat_map g (y :: l)).
    rewrite !map_app. f_equal. exact IH.
Qed.


Lemma append_to_current_headers r a ast :
  map include_header (includes (append_to_current r a ast)) =
    map include_header (includes ast) /\
  map conditional_header (conditionals (append_to_current r a ast)) =
    map conditional_header (conditionals ast) /\
  map section_header (sections (append_to_current r a ast)) =
    map section_header (sections ast) /\
  map section_header (conditional_sections (append_to_current r a ast)) =
    map section_header (conditional_sections ast).
Proof.
  destruct r; cbn [append_to_current includes conditionals sections];
    unfold conditional_sections; cbn [conditionals].
  - repeat split. apply update_last_headers. reflexivity.
  - repeat split.
    + apply update_last_headers. reflexivity.
    + apply update_last_flat_headers. intros c. cbn [cn_sections].
      apply update_last_headers. reflexivity.
Qed.

Lemma append_to_root_headers a ln ast :
  map include_header (includes (append_to_root a ln ast)) =
    map include_header (includes ast) /\
  map conditional_header (conditionals (append_to_root a ln ast)) =
    map conditional_header (conditionals ast) /\
  map section_header (conditional_sections (append_to_root a ln ast)) =
    map section_header (conditional_sections ast) /\
  ~ rootless (append_to_root a ln ast) /\
  (map section_header (sections (append_to_root a ln ast)) =
     map section_header (sections ast) \/
   (map section_header (sections (append_to_root a ln ast)) =
      ([], ln) :: map section_header (sections ast) /\ rootless ast)).
Proof.
  unfold append_to_root, conditional_sections, rootless.
  cbn [includes conditionals sections].
  repeat split; try reflexivity.
  - destruct (sections ast) as [| s secs]; [intros H; apply H; reflexivity |].
    destruct (name s) eqn:En; cbn; intros H; apply H; [exact En | reflexivity].
  - destruct (sections ast) as [| s secs].
    + right. split; [reflexivity | exact I].
    + destruct (name s) eqn:En.
      * left. reflexivity.
      * right. split; [reflexivity | cbn; discriminate].
Qed.


Lemma sections_after_step ast ast1 ast' h read :
  map section_header (sections ast1) = map section_header (sections ast) ++ h ->
  sections_after ast1 ast' read -> sections_after ast ast' (h ++ read).
Proof.
  intros H1 [H | [[ln H] Hr]].
  - left. rewrite H, H1, <- app_assoc. reflexivity.
  - right. split.
    + exists ln. rewrite H, H1, <- app_assoc. reflexivity.
    + unfold rootless in *. destruct (sections ast) as [| s secs]; [exact I |].
      destruct (sections ast1) as [| s1 secs1]; [discriminate |].
      cbn [map app] in H1. injection H1 as Hs _.
      rewrite <- Hs. exact Hr.
Qed.

Lemma sections_after_root ast ast1 ast' ln read :
  ~ rootless ast1 ->
  (map section_header (sections ast1) = map section_header (sections ast) \/
   (map section_header (sections ast1) = ([], ln) :: map section_header (sections ast) /\
    rootless ast)) ->
  sections_after ast1 ast' read -> sections_after ast ast' read.
Proof.
  intros Hn H1 [H | [_ Hr]]; [| contradiction].
  destruct H1 as [H1 | [H1 Hr]].
  - left. rewrite H, H1. reflexivity.
  - right. split; [| exact Hr]. exists ln. rewrite H, H1. reflexivity.
Qed.

(** What the loop of [parse] has read and what it has made of it. *)
Lemma parse_loop_order fuel :
  forall toks cur ast ast',
    parse_loop fuel toks cur ast = Done ast' ->
    exists consumed rest U C,
      toks = consumed ++ rest /\
      (rest = [] \/ exists t r, rest = t :: r /\ tk_type t = EOF) /\
      map include_header (includes ast') =
        map include_header (includes ast) ++ text_headers INCLUDE consumed /\
      map conditional_header (conditionals ast') =
        map conditional_header (conditionals ast) ++
        text_headers SECTION_WHEN consumed /\
      interleaved U C (text_headers SECTION consumed) /\
      map section_header (conditional_sections ast') =
        map section_header (conditional_sections ast) ++ C /\
      sections_after ast ast' U.
Proof.
  induction fuel as [| fuel IH]; intros toks cur ast ast'; [discriminate |].
  cbn [parse_loop].
  assert (Hstop : forall rest pre,
            toks = pre ++ rest -> Forall (fun t => plain t = true) pre ->
            (rest = [] \/ exists t r, rest = t :: r /\ tk_type t = EOF) ->
            exists consumed rest U C,
              toks = consumed ++ rest /\
              (rest = [] \/ exists t r, rest = t :: r /\ tk_type t = EOF) /\
              map include_header (includes ast) =
                map include_header (includes ast) ++ text_headers INCLUDE consumed /\
              map conditional_header (conditionals ast) =
                map conditional_header (conditionals ast) ++
                text_headers SECTION_WHEN consumed /\
              interleaved U C (text_headers SECTION consumed) /\
              map section_header (conditional_sections ast) =
                map section_header (conditional_sections ast) ++ C /\
              sections_after ast ast U).
  { intros rest pre E Hpre Hrest. exists pre, rest, [], [].
    rewrite !(plain_text_headers _ pre) by auto. rewrite !app_nil_r.
    repeat split; try assumption; try constructor. rewrite app_nil_r. reflexivity. }
  destruct (match current toks with
            | Some t => TokenType_eqb (tk_type t) EOF
            | None => true
            end) eqn:Eend.
  { intros [= <-]. apply (Hstop toks []); [reflexivity | constructor |].
    destruct toks as [| t r]; [left; reflexivity |]. right. exists t, r.
    split; [reflexivity |]. cbn in Eend. destruct (tk_type t); try discriminate.
    reflexivity. }
  destruct (skip_indent_split toks) as [pre [Epre Hpre]].
  destruct (current (skip_indent toks)) as [token |] eqn:E.
  2:{ intros [= <-]. apply (Hstop [] pre); [| exact Hpre | left; reflexivity].
      rewrite Epre at 1. destruct (skip_indent toks); [reflexivity | discriminate]. }
  pose proof (current_cons _ _ E) as Etok.
  (* a step that reads [pre ++ step] and leaves the tree [ast1] *)
  assert (Hgo : forall step toks1 cur1 ast1 hi hw hs hc,
            skip_indent toks = step ++ toks1 ->
            text_headers INCLUDE step = hi ->
            text_headers SECTION_WHEN step = hw ->
            map include_header (includes ast1) = map include_header (includes ast) ++ hi ->
            map conditional_header (conditionals ast1) =
              map conditional_header (conditionals ast) ++ hw ->
            map section_header (conditional_sections ast1) =
              map section_header (conditional_sections ast) ++ hc ->
            (text_headers SECTION step = hs ++ hc /\ (hs = [] \/ hc = [])) ->
            (forall read, sections_after ast1 ast' read ->
                          sections_after ast ast' (hs ++ read)) ->
            parse_loop fuel toks1 cur1 ast1 = Done ast' ->
            exists consumed rest U C,
              toks = consumed ++ rest /\
              (rest = [] \/ exists t r, rest = t :: r /\ tk_type t = EOF) /\
              map include_header (includes ast') =
                map include_header (includes ast) ++ text_headers INCLUDE consumed /\
              map conditional_header (conditionals ast') =
                map conditional_header (conditionals ast) ++
                text_headers SECTION_WHEN consumed /\
              interleaved U C (text_headers SECTION consumed) /\
              map section_header (conditional_sections ast') =
                map section_header (conditional_sections ast) ++ C /\
              sections_after ast ast' U).
  { intros step toks1 cur1 ast1 hi hw hs hc Es Hi Hw Hi1 Hw1 Hc1 [Hs Hsc] Hsec H.
    apply IH in H.
    destruct H as [consumed [rest [U [C [Ec [Hrest [HI [HW [Hint [HC HS]]]]]]]]]].
    exists (pre ++ step ++ consumed), rest, (hs ++ U), (hc ++ C).
    split; [rewrite Epre at 1; rewrite Es, Ec, <- !app_assoc; reflexivity |].
    split; [exact Hrest |].
    rewrite !text_headers_app, !(plain_text_headers _ pre) by auto.
    cbn [app]. rewrite Hi, Hw, Hs, HI, Hi1, HW, Hw1, HC, Hc1, <- !app_assoc.
    repeat split; try reflexivity.
    - destruct Hsc as [-> | ->]; cbn [app]; rewrite ?app_nil_r.
      + apply interleaved_right_app. exact Hint.
      + clear - Hint. induction hs as [| a hs IHs]; [exact Hint |].
        cbn [app]. constructor. exact IHs.
    - apply Hsec. exact HS. }
  assert (Hone : forall ty, text_headers ty [token] =
                            if TokenType_eqb (tk_type token) ty
                            then [token_header token] else [])
    by (intros ty; unfold text_headers, of_type; cbn [filter];
        destruct (TokenType_eqb (tk_type token) ty); reflexivity).
  assert (Hskip : forall cur1,
            plain token = true ->
            parse_loop fuel (advance (skip_indent toks)) cur1 ast = Done ast' -> _)
    by (intros cur1 Hp H;
        exact (Hgo [token] _ cur1 ast [] [] [] [] Etok
                 (plain_text_headers INCLUDE [token] ltac:(auto)
                    (Forall_cons _ Hp (Forall_nil _)))
                 (plain_text_headers SECTION_WHEN [token] ltac:(auto)
                    (Forall_cons _ Hp (Forall_nil _)))
                 (eq_sym (app_nil_r _)) (eq_sym (app_nil_r _)) (eq_sym (app_nil_r _))
                 (conj (plain_text_headers SECTION [token] ltac:(auto)
                          (Forall_cons _ Hp (Forall_nil _))) (or_introl eq_refl))
                 (fun read Hr => Hr) H)).
  destruct (tk_type token) eqn:Et;
    try (apply Hskip; unfold plain; rewrite Et; reflexivity).
  - (* SECTION *)
    apply (Hgo [token] _ _ _ [] [] [token_header token] [] Etok);
      rewrite ?Hone, ?Et; cbn [TokenType_eqb includes conditionals sections];
      unfold conditional_sections; cbn [conditionals];
      rewrite ?app_nil_r; try reflexivity.
    + split; [reflexivity | right; reflexivity].
    + intros read. apply sections_after_step. cbn [sections].
      rewrite map_app. reflexivity.
  - (* SECTION_WHEN *)
    destruct (parse_conditional_sections fuel _ [])
      as [[secs toks1] | |] eqn:Ecs; cbn [bind]; try discriminate.
    destruct (parse_conditional_sections_split _ _ _ _ _ Ecs)
      as [consumed [more [Ec [-> [Hm [Hw [Hi Hr]]]]]]]. cbn [app] in *.
    destruct (skip_indent_split (advance (skip_indent toks))) as [p0 [E0 H0]].
    apply (Hgo (token :: p0 ++ consumed) _ _ _ [] [token_header token] []
             (map section_header more)).
    + rewrite Etok at 1. rewrite E0 at 1. rewrite Ec.
      cbn [app]. rewrite <- app_assoc. reflexivity.
    + change (token :: p0 ++ consumed) with ([token] ++ p0 ++ consumed).
      rewrite !text_headers_app, Hone, ?Et, Hi, (plain_text_headers _ p0) by auto.
      reflexivity.
    + change (token :: p0 ++ consumed) with ([token] ++ p0 ++ consumed).
      rewrite !text_headers_app, Hone, ?Et, Hw, (plain_text_headers _ p0) by auto.
      reflexivity.
    + cbn [includes]. rewrite app_nil_r. reflexivity.
    + cbn [conditionals]. rewrite map_app. reflexivity.
    + unfold conditional_sections. cbn [conditionals].
      rewrite flat_map_app, map_app. cbn [flat_map cn_sections]. rewrite app_nil_r.
      reflexivity.
    + split; [| left; reflexivity].
      change (token :: p0 ++ consumed) with ([token] ++ p0 ++ consumed).
      rewrite !text_headers_app, Hone, ?Et, (plain_text_headers _ p0) by auto.
      cbn [TokenType_eqb app]. symmetry. exact Hm.
    + intros read. cbn [app]. intros [H | [H Hrl]]; [left | right; split];
        cbn [sections] in *; assumption.
  - (* INCLUDE *)
    apply (Hgo [token] _ _ _ [token_header token] [] [] [] Etok);
      rewrite ?Hone, ?Et; cbn [TokenType_eqb includes conditionals sections];
      unfold conditional_sections; cbn [conditionals];
      rewrite ?app_nil_r, ?map_app; try reflexivity.
    + split; [reflexivity | left; reflexivity].
    + intros read. cbn [app]. intros [H | [H Hrl]]; [left | right; split];
        cbn [sections] in *; assumption.
  - (* KEY *)
    pose proof (parse_assignment_plain fuel (skip_indent toks)) as Ha.
    destruct (parse_assignment fuel (skip_indent toks)) as [[a toks1] | |] eqn:Epa;
      cbn [bind]; try discriminate.
    cbn [outcome_all snd] in Ha. destruct Ha as [p1 [E1 H1]].
    match goal with
    | |- _ -> ?G =>
        assert (Hk : forall ast1 cur1,
                  map include_header (includes ast1) =
                    map include_header (includes ast) ->
                  map conditional_header (conditionals ast1) =
                    map conditional_header (conditionals ast) ->
                  map section_header (conditional_sections ast1) =
                    map section_header (conditional_sections ast) ->
                  (forall read, sections_after ast1 ast' read ->
                                sections_after ast ast' read) ->
                  parse_loop fuel toks1 cur1 ast1 = Done ast' -> G)
    end.
    { intros ast1 cur1 Hi Hw Hc Hs H.
      exact (Hgo p1 toks1 cur1 ast1 [] [] [] [] E1
               (plain_text_headers INCLUDE p1 ltac:(auto) H1)
               (plain_text_headers SECTION_WHEN p1 ltac:(auto) H1)
               (eq_trans Hi (eq_sym (app_nil_r _)))
               (eq_trans Hw (eq_sym (app_nil_r _)))
               (eq_trans Hc (eq_sym (app_nil_r _)))
               (conj (plain_text_headers SECTION p1 ltac:(auto) H1) (or_introl eq_refl))
               Hs H). }
    destruct cur as [r |].
    + destruct (append_to_current_headers r a ast) as [Hi [Hw [Hs Hc]]].
      apply Hk; try assumption.
      intros read Hr. rewrite <- (app_nil_l read).
      apply (sections_after_step ast (append_to_current r a ast) ast' [] read);
        [| exact Hr].
      rewrite app_nil_r. exact Hs.
    + destruct (append_to_root_headers a (tk_line token) ast)
        as [Hi [Hw [Hc [Hn Hs]]]].
      apply Hk; try assumption.
      intros read.
      apply (sections_after_root ast (append_to_root a (tk_line token) ast) ast'
               (tk_line token) read Hn Hs).
  - (* EOF *)
    intros [= <-]. apply (Hstop (skip_indent toks) pre Epre Hpre).
    right. exists token, (advance (skip_indent toks)). split; [exact Etok | exact Et].
Qed.

End ParserOrder3.

(** * More properties of the library *)

(** ** The type helpers *)

Section TypeFacts.
Context {RT : PyRuntime}.
Import Types TypeTools.

(** X1. A value that [validate_type] returns has the type asked for, as
    [infer_type] sees it, and validating it again returns it unchanged. *)
Theorem validate_type_settles (v w : value) (t : PPCType) (ln : option nat) :
  validate_type v t ln = Done w ->
  (t <> ANY -> infer_type w = t) /\
  (forall ln', validate_type w t ln' = Done w).
Proof.
  intros H. destruct t; cbn [validate_type] in H.
  - injection H as <-. split; reflexivity.
  - unfold convert in H. destruct (is_bool v); [discriminate |].
    destruct (py_int_of v) as [z | e |]; cbn [bind] in H;
      [| destruct (caught e); discriminate | discriminate].
    injection H as <-. split; reflexivity.
  - unfold convert in H. destruct (is_bool v); [discriminate |].
    destruct (py_float_of v) as [x | e |]; cbn [bind] in H;
      [| destruct (caught e); discriminate | discriminate].
    injection H as <-. split; reflexivity.
  - destruct v as [| b | z | x | s | items | entries]; try discriminate.
    + injection H as <-. split; reflexivity.
    + destruct (str_in (lower s) _); [injection H as <-; split; reflexivity |].
      destruct (str_in (lower s) _); [injection H as <-; split; reflexivity |].
      discriminate.
  - destruct v; try discriminate. injection H as <-. split; reflexivity.
  - injection H as <-. split; [congruence | reflexivity].
Qed.


Lemma strip_ends (c d : ascii) (m : str) :
  isspace c = false -> isspace d = false -> strip (c :: m ++ [d]) = c :: m ++ [d].
Proof.
  intros Hc Hd. unfold strip.
  rewrite (drop_while_stops isspace (c :: m ++ [d])) by exact Hc.
  assert (E : rev (c :: m ++ [d]) = d :: rev (c :: m)).
  { change (c :: m ++ [d]) with ((c :: m) ++ [d]). rewrite rev_app_distr. reflexivity. }
  rewrite (drop_while_stops isspace (rev (c :: m ++ [d]))) by (rewrite E; exact Hd).
  apply rev_involutive.
Qed.

Lemma escape_plain (s : str) :
  forallb (fun c => negb (Ascii.eqb c backslash || Ascii.eqb c dquote)) s = true ->
  Serializer.escape s = s.
Proof.
  induction s as [| c s IH]; [reflexivity |]. cbn [forallb]. intros H.
  apply andb_true_iff in H. destruct H as [Hc Hs].
  rewrite escape_cons, (IH Hs). unfold escape_char.
  apply negb_true_iff, orb_false_iff in Hc. destruct Hc as [-> ->]. reflexivity.
Qed.

(** X2. [parse_value] reads back what [_format_value] writes for null, for
    the booleans and for a string without backslash and double quote. *)
Theorem parse_value_format_value (v : value) :
  match v with
  | VNone | VBool _ => True
  | VStr s =>
      forallb (fun c => negb (Ascii.eqb c backslash || Ascii.eqb c dquote)) s = true
  | _ => False
  end ->
  parse_value (Serializer.format_value v) = v.
Proof.
  destruct v as [| b | z | x | s | items | entries]; try contradiction.
  - reflexivity.
  - destruct b; reflexivity.
  - intros Hs. cbn [Serializer.format_value]. rewrite (escape_plain s Hs).
    unfold parse_value. cbn [app]. rewrite strip_ends by reflexivity.
    cbn [lower map]. change (lower_char dquote) with dquote.
    assert (Hw : forall r ws,
              forallb (fun w => match w with c :: _ => negb (Ascii.eqb c dquote) | [] => true end) ws = true ->
              str_in (dquote :: r) ws = false).
    { intros r ws. unfold str_in. induction ws as [| w ws IH]; [reflexivity |].
      cbn [forallb existsb]. intros H. apply andb_true_iff in H. destruct H as [Hw Hws].
      rewrite (IH Hws). destruct (str_eqb (dquote :: r) w) eqn:E; [| reflexivity].
      apply str_eqb_eq in E. subst w. discriminate. }
    rewrite !Hw by reflexivity.
    unfold quoted, ends_with. cbn [starts_with].
    change (Ascii.eqb dquote dquote) with true.
    change (dquote :: s ++ [dquote]) with ((dquote :: s) ++ [dquote]).
    rewrite rev_app_distr. cbn [rev app andb orb].
    change (Ascii.eqb dquote dquote) with true. cbv iota.
    cbn [app tl]. rewrite removelast_last. reflexivity.
Qed.

End TypeFacts.

(** ** The secret providers *)

Section SecretFacts.
Import Secrets SecretStore.

Variable env : environ.

Lemma chained_get_nil key : get env (ChainedSecretProvider []) key = None.
Proof. reflexivity. Qed.

Lemma chained_get_cons p ps key :
  get env (ChainedSecretProvider (p :: ps)) key =
  or_else (get env p key) (get env (ChainedSecretProvider ps) key).
Proof. reflexivity. Qed.

Lemma chained_get_app ps qs key :
  get env (ChainedSecretProvider (ps ++ qs)) key =
  or_else (get env (ChainedSecretProvider ps) key)
          (get env (ChainedSecretProvider qs) key).
Proof.
  induction ps as [| p ps IH]; [reflexivity |].
  cbn [app]. rewrite !chained_get_cons, IH.
  destruct (get env p key); reflexivity.
Qed.

(** X3. A provider added to a chain is asked only when every provider
    before it answers [None]; an empty string is an answer. *)
Theorem add_provider_get providers provider key :
  get env (ChainedSecretProvider (add_provider provider providers)) key =
  or_else (get env (ChainedSecretProvider providers) key) (get env provider key).
Proof.
  unfold add_provider. rewrite chained_get_app, chained_get_cons, chained_get_nil.
  destruct (get env provider key); reflexivity.
Qed.

(** *** The dictionary of a [DictSecretProvider] *)

Lemma assoc_get_set_eq key value m : assoc_get key (assoc_set key value m) = Some value.
Proof.
  induction m as [| [k w] m IH]; cbn [assoc_set assoc_get].
  - rewrite str_eqb_refl. reflexivity.
  - destruct (str_eqb key k) eqn:E; cbn [assoc_get]; rewrite E; [reflexivity | exact IH].
Qed.

Lemma assoc_get_set_ne key key' value m :
  key' <> key -> assoc_get key' (assoc_set key value m) = assoc_get key' m.
Proof.
  intros Hne. induction m as [| [k w] m IH]; cbn [assoc_set assoc_get].
  - apply str_eqb_neq in Hne. rewrite Hne. reflexivity.
  - destruct (str_eqb key k) eqn:E; cbn [assoc_get].
    + apply str_eqb_eq in E. subst k. apply str_eqb_neq in Hne. rewrite Hne. reflexivity.
    + rewrite IH. reflexivity.
Qed.

Lemma assoc_get_absent key (m : list (str * str)) :
  ~ In key (map fst m) -> assoc_get key m = None.
Proof.
  induction m as [| [k w] m IH]; cbn [assoc_get map fst In]; [reflexivity |].
  intros H. destruct (str_eqb key k) eqn:E.
  - apply str_eqb_eq in E. subst. tauto.
  - apply IH. tauto.
Qed.

Lemma assoc_get_pop_eq key m :
  NoDup (map fst m) -> assoc_get key (assoc_pop key m) = None.
Proof.
  induction m as [| [k w] m IH]; cbn [assoc_pop assoc_get map fst]; [reflexivity |].
  intros Hnd. inversion Hnd as [| k0 l Hk Hrest]; subst.
  destruct (str_eqb key k) eqn:E.
  - apply str_eqb_eq in E. subst k. apply assoc_get_absent, Hk.
  - cbn [assoc_get]. rewrite E. apply IH, Hrest.
Qed.

Lemma assoc_get_pop_ne key key' m :
  key' <> key -> assoc_get key' (assoc_pop key m) = assoc_get key' m.
Proof.
  intros Hne. induction m as [| [k w] m IH]; cbn [assoc_pop assoc_get]; [reflexivity |].
  destruct (str_eqb key k) eqn:E; cbn [assoc_get].
  - apply str_eqb_eq in E. subst k. apply str_eqb_neq in Hne. rewrite Hne. reflexivity.
  - rewrite IH. reflexivity.
Qed.

Lemma assoc_set_keys key value m :
  NoDup (map fst m) -> NoDup (map fst (assoc_set key value m)).
Proof.
  induction m as [| [k w] m IH]; cbn [assoc_set map fst]; intros Hnd.
  - constructor; [intros [] | constructor].
  - inversion Hnd as [| k0 l Hk Hrest]; subst.
    destruct (str_eqb key k) eqn:E; cbn [map fst]; [exact Hnd |].
    constructor; [| apply IH, Hrest].
    intros Hin. apply Hk. clear IH Hnd Hrest Hk.
    induction m as [| [k' w'] m IHm]; cbn [assoc_set map fst In] in *.
    + destruct Hin as [<- | []]. rewrite str_eqb_refl in E. discriminate.
    + destruct (str_eqb key k'); cbn [map fst In] in Hin; tauto.
Qed.

Lemma assoc_pop_keys key m :
  NoDup (map fst m) -> NoDup (map fst (assoc_pop key m)).
Proof.
  induction m as [| [k w] m IH]; cbn [assoc_pop map fst]; intros Hnd; [constructor |].
  inversion Hnd as [| k0 l Hk Hrest]; subst.
  destruct (str_eqb key k); [exact Hrest |]. cbn [map fst].
  constructor; [| apply IH, Hrest].
  intros Hin. apply Hk. clear IH Hnd Hrest Hk.
  induction m as [| [k' w'] m IHm]; cbn [assoc_pop map fst In] in *; [exact Hin |].
  destruct (str_eqb key k'); cbn [map fst In] in Hin; tauto.
Qed.

(** X4. In a [DictSecretProvider], [set] makes [get] return the value,
    [delete] makes it return [None], a key that is absent included, and
    neither touches another key. *)
Theorem dict_provider_set_delete secrets key value :
  NoDup (map fst secrets) ->
  get env (DictSecretProvider (set key value secrets)) key = Some value /\
  get env (DictSecretProvider (delete key secrets)) key = None /\
  (forall other, other <> key ->
     get env (DictSecretProvider (set key value secrets)) other =
       get env (DictSecretProvider secrets) other /\
     get env (DictSecretProvider (delete key secrets)) other =
       get env (DictSecretProvider secrets) other) /\
  NoDup (map fst (set key value secrets)) /\
  NoDup (map fst (delete key secrets)).
Proof.
  intros Hnd. unfold set, delete. cbn [get].
  split; [apply assoc_get_set_eq |].
  split; [apply assoc_get_pop_eq, Hnd |].
  split; [| split; [apply assoc_set_keys, Hnd | apply assoc_pop_keys, Hnd]].
  intros other Hne. split; [apply assoc_get_set_ne, Hne | apply assoc_get_pop_ne, Hne].
Qed.

End SecretFacts.

Section CreateFacts.
Import Secrets SecretStore.

Variable read_secrets : str -> secrets_file.
Variable env : environ.

(** X5. The provider of [create_secret_provider] answers from the
    dictionary first, then from the secrets file, then from the
    environment; the environment is asked when [env] is set, and also
    when neither a dictionary with entries nor a file is given. A file
    that cannot be read makes the creation fail with a [SecretError]. *)
Theorem create_secret_provider_get (use_env : bool) (file_path : option str)
    (secrets : option (list (str * str))) (key : str) :
  match file_path with
  | Some path =>
      match read_secrets path with
      | SecretsOk from_file =>
          exists provider,
            create_secret_provider read_secrets use_env file_path secrets = Done provider /\
            get env provider key =
            or_else (match secrets with Some m => assoc_get key m | None => None end)
              (or_else (assoc_get key from_file)
                 (if use_env then env_get env (lit "SECRET_") key else None))
      | _ =>
          exists e,
            create_secret_provider read_secrets use_env file_path secrets = Raise e /\
            exn_class_of e = SecretError
      end
  | None =>
      exists provider,
        create_secret_provider read_secrets use_env file_path secrets = Done provider /\
        get env provider key =
        or_else (match secrets with Some m => assoc_get key m | None => None end)
          (if use_env || match secrets with Some (_ :: _) => false | _ => true end
           then env_get env (lit "SECRET_") key else None)
  end.
Proof.
  unfold create_secret_provider, file_provider.
  destruct file_path as [path |].
  - destruct (read_secrets path) as [from_file | | message | message];
      cbn [bind]; try (eexists; split; reflexivity).
    destruct secrets as [[| e m] |], use_env; cbn [app];
      eexists; (split; [reflexivity |]); cbn [get]; unfold or_else;
      try change (assoc_get key []) with (@None str);
      repeat match goal with
             | |- context [assoc_get ?k ?m] => destruct (assoc_get k m)
             | |- context [env_get ?e ?p ?k] => destruct (env_get e p k)
             end; reflexivity.
  - destruct secrets as [[| e m] |], use_env; cbn [bind app];
      eexists; (split; [reflexivity |]); cbn [get orb]; unfold or_else;
      try change (assoc_get key []) with (@None str);
      repeat match goal with
             | |- context [assoc_get ?k ?m] => destruct (assoc_get k m)
             | |- context [env_get ?e ?p ?k] => destruct (env_get e p k)
             end; reflexivity.
Qed.

End CreateFacts.

(** ** Paths and merges of a configuration *)

Section PathFacts.
Context {RT : PyRuntime}.
Import Config ConfigPaths Evaluator.

Lemma split_nonempty sep s : split sep s <> [].
Proof.
  destruct s as [| c s]; cbn [split]; [discriminate |].
  destruct (Ascii.eqb c sep); [discriminate |]. destruct (split sep s); discriminate.
Qed.

Lemma set_parts_get front :
  forall last_part v current r,
    set_parts front last_part v current = Done r ->
    get_parts (front ++ [last_part]) r = Some v.
Proof.
  induction front as [| part front IH]; intros last_part v current r;
    cbn [set_parts app].
  - destruct current; try discriminate. intros [= <-].
    cbn [get_parts]. rewrite dict_get_set_eq. reflexivity.
  - destruct current as [| | | | | | d]; try discriminate.
    destruct (dict_get part _) as [child |]; [| discriminate].
    destruct (set_parts front last_part v child) as [child' | |] eqn:E;
      cbn [bind]; try discriminate.
    intros [= <-]. cbn [get_parts]. rewrite dict_get_set_eq.
    apply (IH _ _ _ _ E).
Qed.

Lemma set_parts_dict front last_part v d r :
  set_parts front last_part v (VDict d) = Done r -> exists d', r = VDict d'.
Proof.
  destruct front as [| part front]; cbn [set_parts].
  - intros [= <-]. eauto.
  - destruct (dict_get part _) as [child |]; [| discriminate].
    destruct (set_parts front last_part v child); cbn [bind]; try discriminate.
    intros [= <-]. eauto.
Qed.

(** X6. After [set_nested(path, value)] has returned, [get_nested(path)]
    finds the value, whatever the path and the tree were. *)
Theorem set_nested_get_nested (data data' : dict) (path : str) (v : value) :
  set_nested data path v = Done data' ->
  get_nested data' path = Some v.
Proof.
  unfold set_nested, get_nested. intros H.
  destruct (set_parts _ _ v (VDict data)) as [r | |] eqn:E; cbn [bind] in H;
    try discriminate.
  destruct (set_parts_dict _ _ _ _ _ E) as [d' ->]. injection H as <-.
  rewrite (app_removelast_last [] (split_nonempty "."%char path)) at 1.
  apply (set_parts_get _ _ _ _ _ E).
Qed.

(** [set_nested] creates the maps that are missing on its way. *)
Lemma set_parts_fresh front :
  forall last_part v, exists r, set_parts front last_part v (VDict []) = Done r.
Proof.
  induction front as [| part front IH]; intros last_part v; cbn [set_parts].
  - eauto.
  - unfold dict_mem. cbn [dict_get dict_set]. rewrite str_eqb_refl.
    destruct (IH last_part v) as [r ->]. cbn [bind]. eauto.
Qed.


Lemma ensured_get part (d : dict) :
  dict_get part (if dict_mem part d then d else dict_set part (VDict []) d) <> None.
Proof.
  unfold dict_mem. destruct (dict_get part d) eqn:E.
  - rewrite E. discriminate.
  - rewrite dict_get_set_eq. discriminate.
Qed.

Lemma set_parts_raises front :
  forall last_part v current e,
    set_parts front last_part v current = Raise e ->
    exn_class_of e = Builtin PyTypeError.
Proof.
  induction front as [| part front IH]; intros last_part v current e;
    cbn [set_parts].
  - destruct current; try discriminate; intros [= <-]; reflexivity.
  - destruct current as [| | | | | | d]; try (intros [= <-]; reflexivity).
    generalize (ensured_get part d).
    destruct (dict_get part _) as [child |]; [intros _ | congruence].
    destruct (set_parts front last_part v child) as [child' | e' |] eqn:E;
      cbn [bind]; try discriminate.
    intros [= <-]. apply (IH _ _ _ _ E).
Qed.

Lemma set_parts_returns front :
  forall last_part v current, set_parts front last_part v current <> Diverge.
Proof.
  induction front as [| part front IH]; intros last_part v current; cbn [set_parts].
  - destruct current; discriminate.
  - destruct current as [| | | | | | d]; try discriminate.
    destruct (dict_get part _) as [child |]; [| discriminate].
    specialize (IH last_part v child).
    destruct (set_parts front last_part v child); cbn [bind]; congruence.
Qed.

(** X7. [set_nested] returns or raises the built-in [TypeError] (a part of
    the path crosses a value that is no map); it never raises a
    [KeyError], and on the empty tree it always returns. *)
Theorem set_nested_outcome (data : dict) (path : str) (v : value) :
  ((exists data', set_nested data path v = Done data') \/
   (exists e, set_nested data path v = Raise e /\
              exn_class_of e = Builtin PyTypeError)) /\
  (exists data', set_nested [] path v = Done data').
Proof.
  unfold set_nested. split.
  - generalize (set_parts_returns (removelast (split "."%char path))
                  (last (split "."%char path) []) v (VDict data)).
    destruct (set_parts _ _ v (VDict data)) as [r | e |] eqn:E; cbn [bind];
      [| | congruence]; intros _.
    + left. destruct r; eauto.
    + right. exists e. split; [reflexivity |]. apply (set_parts_raises _ _ _ _ _ E).
  - destruct (set_parts_fresh (removelast (split "."%char path))
                (last (split "."%char path) []) v) as [r ->].
    cbn [bind]. destruct r; eauto.
Qed.

(** *** The keys after a merge *)

Lemma filter_ext_in_keys (f g : str -> bool) (l : list str) :
  (forall k, In k l -> f k = g k) -> filter f l = filter g l.
Proof.
  induction l as [| k l IH]; [reflexivity |]. intros H. cbn [filter].
  rewrite (H k) by (left; reflexivity). rewrite IH; [reflexivity |].
  intros k' Hk'. apply H. right. exact Hk'.
Qed.

Lemma deep_merge_keys (override : dict) :
  NoDup (keys override) ->
  forall base : dict,
    keys (deep_merge base override) =
    keys base ++ filter (fun k => negb (dict_mem k base)) (keys override).
Proof.
  induction override as [| [k v] override IH]; intros Hnd base.
  - cbn. rewrite app_nil_r. reflexivity.
  - unfold keys in Hnd. cbn [map fst] in Hnd.
    inversion Hnd as [| k0 l Hk Hrest]; subst.
    rewrite deep_merge_cons.
    set (base' := match dict_get k base, v with
                  | Some (VDict b), VDict o => dict_set k (VDict (deep_merge b o)) base
                  | _, _ => dict_set k v base
                  end).
    assert (Hset : exists w, base' = dict_set k w base).
    { subst base'. destruct (dict_get k base) as [[| | | | | | b] |]; eauto.
      destruct v; eauto. }
    destruct Hset as [w Hset]. rewrite (IH Hrest base').
    unfold keys at 4. cbn [map fst filter]. fold (keys override).
    assert (Hother : filter (fun k' => negb (dict_mem k' base')) (keys override) =
                     filter (fun k' => negb (dict_mem k' base)) (keys override)).
    { apply filter_ext_in_keys. intros k' Hk'. unfold dict_mem.
      rewrite Hset, dict_get_set_ne; [reflexivity |].
      intros ->. apply Hk. exact Hk'. }
    rewrite Hother, Hset. destruct (dict_mem k base) eqn:Em; cbn [negb].
    + rewrite keys_dict_set_mem by exact Em. reflexivity.
    + rewrite keys_dict_set_new by exact Em. rewrite <- app_assoc. reflexivity.
Qed.

(** X8. [Config.merge] keeps every key of the configuration in its place
    and appends the keys that only the other tree has, in that tree's
    order. *)
Theorem merge_keys (self other : dict) :
  NoDup (keys other) ->
  keys (merge self other) =
  keys self ++ filter (fun k => negb (dict_mem k self)) (keys other).
Proof. intros H. apply deep_merge_keys, H. Qed.

End PathFacts.

(** ** The evaluator: lists, section paths, includes *)

Section EvaluatorMore.
Context {RT : PyRuntime}.
Import Parser Evaluator.

Variable env : environ.
Variable secret_provider : option (str -> option str).
Variable fs : FileSystem.
Variable parse_text : str -> outcome AST.

#[local] Abbreviation evaluate_value := (evaluate_value env secret_provider).
#[local] Abbreviation evaluate_array := (evaluate_array env secret_provider).
#[local] Abbreviation process_section := (process_section env secret_provider).
#[local] Abbreviation process_include := (process_include fs parse_text).
#[local] Abbreviation evaluate := (evaluate env secret_provider fs parse_text).

(** X9. A reference to the environment that stands in a list evaluates to
    the value of the variable, or to null when the variable is not set:
    the default that the reference carries, which the same reference
    outside a list would evaluate to, is not used. *)
Theorem array_reference_ignores_default (node : ValueNode) (c : ascii) (n : str) :
  env_var node = Some (c :: n) ->
  evaluate_array [array_item node] = Done [of_lookup (env (c :: n))] /\
  (forall d, env (c :: n) = None -> type_hint node = None -> default node = Some d ->
             evaluate_array [array_item node] = Done [VNone] /\
             evaluate_value node = evaluate_value d).
Proof.
  intros He. destruct node as [v hint e s dflt ln]. cbn [env_var] in He. subst e.
  assert (Ha : evaluate_array [array_item (mkValueNode v hint (Some (c :: n)) s dflt ln)] =
               Done [of_lookup (env (c :: n))]).
  { unfold array_item. cbn [env_var truthy evaluate_array Evaluator.evaluate_array
                             evaluate_item dict_mem dict_get].
    rewrite str_eqb_refl. reflexivity. }
  split; [exact Ha |].
  intros d Hn Hh Hd. cbn [type_hint default] in Hh, Hd. subst hint dflt.
  split; [rewrite Ha, Hn; reflexivity |].
  cbn [Evaluator.evaluate_value]. rewrite Hn.
  destruct (Evaluator.evaluate_value env secret_provider d); reflexivity.
Qed.

(** X10. A section whose path leads through a value that is no map (its
    first part names one, and more parts or an assignment that evaluates
    follow) makes [_process_section] raise the built-in [TypeError], an
    exception outside the classes of the library. *)
Theorem section_through_scalar (data : dict) (section : SectionNode)
    (part : str) (parts : list str) (v : value) :
  section_parts (name section) = part :: parts ->
  dict_get part data = Some v ->
  Serializer.is_dict v = false ->
  (parts <> [] \/
   exists a rest w, assignments section = a :: rest /\
                    evaluate_value (an_value a) = Done w) ->
  exists e, process_section data section = Raise e /\
            exn_class_of e = Builtin PyTypeError.
Proof.
  intros Hparts Hget Hv Hmore. unfold Evaluator.process_section.
  rewrite Hparts. cbn [descend]. unfold dict_mem. rewrite Hget. cbv iota.
  rewrite Hget.
  destruct Hmore as [Hne | [a [rest [w [Ha Hw]]]]].
  - destruct parts as [| q parts]; [congruence |].
    destruct v; try discriminate; cbn [descend bind]; eexists; split; reflexivity.
  - destruct parts as [| q parts].
    + cbn [descend]. rewrite Ha. cbn [apply_assignments]. rewrite Hw. cbn [bind].
      destruct v; try discriminate; cbn [bind]; eexists; split; reflexivity.
    + destruct v; try discriminate; cbn [descend bind]; eexists; split; reflexivity.
Qed.

(** X11. An include whose file does not exist makes the evaluation raise
    the [IncludeError] that names the path as written, with the line of
    the directive, before any section is applied. *)
Theorem include_not_found (fuel : nat) (base_path : str) (ast : AST)
    (files : list str) (include : IncludeNode) (rest : list IncludeNode) :
  includes ast = include :: rest ->
  in_set (resolve fs (full_path_of fs base_path include)) files = false ->
  read_text fs (full_path_of fs base_path include) = ReadNotFound ->
  evaluate (S fuel) base_path ast files =
  Raise (include_error (lit "Include file not found: " ++ path include)
                       (in_line include)).
Proof.
  intros Hi Hset Hread. cbn [Evaluator.evaluate]. rewrite Hi. cbn [foldM snd].
  unfold Evaluator.process_include. unfold full_path_of in Hset, Hread.
  rewrite Hset, Hread. reflexivity.
Qed.

(** *** The set of included files *)

Lemma grows_refl files : grows files files.
Proof. intros p H. exact H. Qed.

Lemma grows_trans a b c : grows a b -> grows b c -> grows a c.
Proof. intros H1 H2 p H. apply H2, H1, H. Qed.

Lemma grows_cons p files : grows files (p :: files).
Proof. intros q H. unfold in_set in *. cbn [existsb]. rewrite H. apply orb_true_r. Qed.

Lemma process_include_grows rec base_path files include d files' :
  (forall base ast fl r fl', rec base ast fl = Done (r, fl') -> grows fl fl') ->
  process_include rec base_path files include = Done (d, files') ->
  grows (resolve fs (full_path_of fs base_path include) :: files) files'.
Proof.
  intros Hrec. unfold Evaluator.process_include, full_path_of.
  destruct (in_set _ files); [discriminate |].
  destruct (read_text fs _); cbn [bind]; try discriminate.
  destruct (parse_text text); cbn [bind]; try discriminate.
  apply Hrec.
Qed.

Lemma evaluate_grows fuel :
  forall base ast files r files',
    evaluate fuel base ast files = Done (r, files') -> grows files files'.
Proof.
  induction fuel as [| fuel IH]; intros base ast files r files'; [discriminate |].
  cbn [Evaluator.evaluate].
  assert (Hfold : forall incs acc acc',
            foldM (fun (acc : dict * list str) include =>
                     '(included_data, fl) <-
                        process_include (evaluate fuel) base (snd acc) include ;;
                     Done (deep_merge (fst acc) included_data, fl))
                  incs acc = Done acc' ->
            grows (snd acc) (snd acc')).
  { induction incs as [| inc incs IHi]; intros acc acc'; cbn [foldM].
    - intros [= <-]. apply grows_refl.
    - destruct (process_include (evaluate fuel) base (snd acc) inc)
        as [[d fl] | |] eqn:E; cbn [bind]; try discriminate.
      intros H. apply IHi in H. cbn [snd] in H.
      eapply grows_trans; [| exact H].
      eapply grows_trans; [apply grows_cons |].
      apply (process_include_grows _ _ _ _ _ _ IH E). }
  match goal with
  | |- bind ?c _ = _ -> _ => destruct c as [[d fl] | |] eqn:E
  end; cbn [bind]; try discriminate.
  apply Hfold in E. cbn [snd] in E.
  match goal with
  | |- bind ?c _ = _ -> _ => destruct c as [d1 | |]
  end; cbn [bind]; try discriminate.
  match goal with
  | |- bind ?c _ = _ -> _ => destruct c as [d2 | |]
  end; cbn [bind]; try discriminate.
  intros [= _ <-]. exact E.
Qed.

(** X12. The set of included files is never reset: when a document
    includes the same file a second time, the evaluation raises the
    [IncludeError] of a circular include, although including the file
    once succeeds. *)
Theorem include_twice_is_circular (fuel : nat) (base_path : str)
    (secs : list SectionNode) (conds : list ConditionalNode)
    (first second : IncludeNode) (rest : list IncludeNode)
    (files : list str) (r : dict * list str) :
  resolve fs (full_path_of fs base_path second) =
    resolve fs (full_path_of fs base_path first) ->
  evaluate (S fuel) base_path (mkAST [] [] [first]) files = Done r ->
  evaluate (S fuel) base_path (mkAST secs conds (first :: second :: rest)) files =
  Raise (include_error (lit "Circular include detected: " ++ path second)
                       (in_line second)).
Proof.
  intros Hsame Hone. cbn [Evaluator.evaluate includes foldM snd fst] in *.
  destruct (process_include (evaluate fuel) base_path files first)
    as [[d fl] | |] eqn:E; cbn [bind] in *; try discriminate.
  cbn [snd].
  assert (Hin : in_set (resolve fs (full_path_of fs base_path second)) fl = true).
  { rewrite Hsame.
    apply (process_include_grows _ _ _ _ _ _ (evaluate_grows fuel) E).
    unfold in_set. cbn [existsb]. rewrite str_eqb_refl. reflexivity. }
  unfold Evaluator.process_include at 1. unfold full_path_of in Hin. rewrite Hin.
  reflexivity.
Qed.

End EvaluatorMore.

(** ** The tokens of the lexer and the errors of the parser *)

Section LexerInvariant.
Context {RT : PyRuntime}.
Import Lexer.

Lemma outcome_all_bind {A B : Type} (P : A -> Prop) (P' : B -> Prop) Q c k :
  outcome_all P Q c -> (forall a, P a -> outcome_all P' Q (k a)) ->
  outcome_all P' Q (bind c k).
Proof. destruct c; cbn; auto. Qed.

Lemma lexed_other ty v l c :
  ty <> EOF -> ty <> NUMBER -> lexed (mkToken ty v l c).
Proof. intros H1 H2. split; [exact H1 | intros H; contradiction]. Qed.

Lemma classify_lexed v l c : lexed (classify v l c).
Proof.
  unfold classify.
  destruct (str_in (lower v) _); [apply lexed_other; discriminate |].
  destruct (str_in (lower v) _); [apply lexed_other; discriminate |].
  destruct (str_in (lower v) _); [apply lexed_other; discriminate |].
  fold (numeric v). destruct (numeric v) eqn:E.
  - split; [discriminate | intros _; exact E].
  - apply lexed_other; discriminate.
Qed.

#[local] Abbreviation value_ok :=
  (outcome_all (fun r : list Token * state => Forall lexed (fst r)) is_lexer_error).

Lemma Forall_snoc {A : Type} (P : A -> Prop) l x :
  Forall P l -> P x -> Forall P (l ++ [x]).
Proof. intros Hl Hx. apply Forall_app. split; [exact Hl | constructor; [exact Hx | constructor]]. Qed.

Lemma read_default_ok f tokens st :
  (forall st', value_ok (f st')) -> Forall lexed tokens ->
  value_ok (read_default f tokens st).
Proof.
  intros Hf Htokens. unfold read_default.
  destruct (skip_whitespace_on_line st) as [n st1].
  destruct (current_is "?"%char st1 && peek_is "?"%char st1); [| exact Htokens].
  destruct (advance 2 st1) as [a st2].
  destruct (skip_whitespace_on_line st2) as [m st3].
  apply (outcome_all_bind (fun r => Forall lexed (fst r))); [apply Hf |].
  intros [more st4] Hmore. cbn [fst] in *.
  apply Forall_app. split; [| exact Hmore].
  apply Forall_snoc; [exact Htokens | apply lexed_other; discriminate].
Qed.

Lemma lexer_ok (n : nat) :
  (forall st, value_ok (read_value_token n st)) /\
  (forall st, value_ok (read_array n st)) /\
  (forall st tokens, Forall lexed tokens -> value_ok (read_array_loop n st tokens)).
Proof.
  induction n as [| n [IHv [IHa IHl]]]; [repeat split; intros; exact I |].
  repeat split.
  - intros st. cbn [read_value_token].
    destruct (current_is dquote st || current_is squote st).
    { destruct (read_string _ st) as [v st1].
      apply read_default_ok; [exact IHv |].
      constructor; [apply lexed_other; discriminate | constructor]. }
    destruct (current_is "["%char st).
    { apply (outcome_all_bind (fun r => Forall lexed (fst r))); [apply IHa |].
      intros [tokens st1] H. apply read_default_ok; [exact IHv | exact H]. }
    destruct (current_is "$"%char st).
    { destruct (advance1 st) as [a st1].
      destruct (starts_with (lit "env") (rest st1)).
      { destruct (advance 4 st1) as [b st2].
        destruct (read_while is_name_char st2) as [name st3].
        apply read_default_ok; [exact IHv |].
        constructor; [apply lexed_other; discriminate | constructor]. }
      destruct (starts_with (lit "secret") (rest st1)); [| reflexivity].
      destruct (advance 7 st1) as [b st2].
      destruct (read_while is_name_char st2) as [name st3].
      apply read_default_ok; [exact IHv |].
      constructor; [apply lexed_other; discriminate | constructor]. }
    destruct (read_while _ st) as [v st1].
    destruct v as [| c v]; [constructor |].
    apply read_default_ok; [exact IHv |].
    constructor; [apply classify_lexed | constructor].
  - intros st. cbn [read_array]. destruct (advance1 st) as [a st0].
    apply (outcome_all_bind (fun r => Forall lexed (fst r))).
    + apply IHl. constructor; [apply lexed_other; discriminate | constructor].
    + intros [tokens st1] H. cbn [fst] in H.
      destruct (current_is "]"%char st1); [| exact H].
      cbn [outcome_all fst]. apply Forall_snoc; [exact H | apply lexed_other; discriminate].
  - intros st tokens Htokens. cbn [read_array_loop].
    destruct (current_char st) as [c |]; [| exact Htokens].
    destruct (Ascii.eqb c "]"%char); [exact Htokens |].
    destruct (skip_whitespace_on_line st) as [k st1].
    cbv zeta.
    destruct (current_is "]"%char (skip_newlines st1)); [exact Htokens |].
    destruct (current_is "#"%char (skip_newlines st1)).
    { destruct (read_until _ _) as [a st3]. apply IHl, Htokens. }
    apply (outcome_all_bind (fun r => Forall lexed (fst r))); [apply IHv |].
    intros [val_tokens st3] Hval. cbn [fst] in Hval.
    destruct (skip_whitespace_on_line st3) as [k' st4].
    destruct (current_is ","%char st4).
    + apply IHl. apply Forall_snoc; [| apply lexed_other; discriminate].
      apply Forall_app. split; assumption.
    + apply IHl. apply Forall_app. split; assumption.
Qed.


Lemma tokenize_loop_ok (n : nat) :
  forall st tokens,
    Forall lexed tokens ->
    outcome_all closed_tokens is_lexer_error (tokenize_loop n st tokens).
Proof.
  induction n as [| n IH]; intros st tokens Htokens; [exact I |].
  pose proof (proj1 (lexer_ok n)) as Hv.
  cbn [tokenize_loop].
  destruct (current_char st) as [char |].
  2:{ exists tokens, (mkToken EOF [] (line st) (column st)). auto. }
  destruct (Ascii.eqb char newline).
  { destruct (advance1 st) as [a st1].
    destruct (skip_whitespace_on_line st1) as [indent st2].
    assert (Hnl : Forall lexed
                    (tokens ++ [mkToken NEWLINE (lit "\n") (line st) (column st)])).
    { apply Forall_snoc; [exact Htokens | apply lexed_other; discriminate]. }
    match goal with
    | |- outcome_all _ _ (if ?b then _ else _) => destruct b
    end; apply IH; [| exact Hnl].
    apply Forall_snoc; [exact Hnl | apply lexed_other; discriminate]. }
  destruct (is_blank char); [apply IH, Htokens |].
  destruct (Ascii.eqb char "#"%char).
  { destruct (read_until _ st) as [comment st1]. apply IH.
    apply Forall_snoc; [exact Htokens | apply lexed_other; discriminate]. }
  destruct (Ascii.eqb char ">"%char && peek_is ">"%char st).
  { destruct (advance 2 st) as [a st1].
    destruct (skip_whitespace_on_line st1) as [k st2].
    destruct (starts_with (lit "@when") (rest st2)).
    - destruct (advance 5 st2) as [b st3].
      destruct (skip_whitespace_on_line st3) as [k' st4].
      destruct (read_until _ st4) as [condition st5]. apply IH.
      apply Forall_snoc; [exact Htokens | apply lexed_other; discriminate].
    - destruct (read_until _ st2) as [name st3]. apply IH.
      apply Forall_snoc; [exact Htokens | apply lexed_other; discriminate]. }
  destruct (Ascii.eqb char "@"%char && starts_with (lit "@include") (rest st)).
  { destruct (advance 8 st) as [a st1].
    destruct (skip_whitespace_on_line st1) as [k st2].
    match goal with
    | |- outcome_all _ _ (let (_, _) := ?x in _) => destruct x as [path st3]
    end.
    apply IH. apply Forall_snoc; [exact Htokens | apply lexed_other; discriminate]. }
  destruct (isalnum char || Ascii.eqb char "_"%char); [| reflexivity].
  destruct (read_while is_key_char st) as [key st1].
  destruct (skip_whitespace_on_line st1) as [k st2].
  assert (Hkey : Forall lexed (tokens ++ [mkToken KEY key (line st) (column st)])).
  { apply Forall_snoc; [exact Htokens | apply lexed_other; discriminate]. }
  match goal with
  | |- outcome_all _ _ (let (_, _) := ?x in _) =>
      assert (Hx : Forall lexed (fst x)); [| destruct x as [tokens' st3]]
  end.
  { destruct (current_is ":"%char st2 && peek_is ":"%char st2); [| exact Hkey].
    destruct (advance 2 st2) as [a sa].
    destruct (skip_whitespace_on_line sa) as [k' sb].
    destruct (read_while isalnum sb) as [type_name sc]. cbn [fst].
    apply Forall_snoc; [exact Hkey | apply lexed_other; discriminate]. }
  cbn [fst] in Hx.
  destruct (current_is "="%char st3); [| apply IH, Hx].
  destruct (advance1 st3) as [a st4].
  destruct (skip_whitespace_on_line st4) as [k' st5].
  apply (outcome_all_bind (fun r => Forall lexed (fst r))); [apply Hv |].
  intros [value_tokens st6] Hval. cbn [fst] in Hval. apply IH.
  apply Forall_app. split; [| exact Hval].
  apply Forall_snoc; [exact Hx | apply lexed_other; discriminate].
Qed.

(** X13. When [tokenize] returns, the tokens end in an [EOF] token and
    hold no other, and the text of every [NUMBER] token is one that
    [float] (with a point) or [int] (without) accepts; when it raises,
    the exception is a [LexerError]. *)
Theorem tokenize_outcome (fuel : nat) (text : str) :
  (forall toks, tokenize fuel text = Done toks ->
     exists pre e,
       toks = pre ++ [e] /\ tk_type e = EOF /\
       Forall (fun t => tk_type t <> EOF /\
                        (tk_type t = NUMBER -> numeric (tk_value t) = true)) pre) /\
  (forall e, tokenize fuel text = Raise e -> exn_class_of e = LexerError).
Proof.
  pose proof (tokenize_loop_ok fuel (init text) [] (Forall_nil _)) as H.
  unfold tokenize. split.
  - intros toks E. rewrite E in H. exact H.
  - intros e E. rewrite E in H. exact H.
Qed.

End LexerInvariant.

Section ParserInvariant.
Context {RT : PyRuntime}.
Import Lexer Parser.

#[local] Abbreviation rest_ok :=
  (fun A : Type =>
     outcome_all (fun r : A * list Token => closed_tokens (snd r)) is_parse_error).

Lemma closed_cons_inv t rest :
  closed_tokens (t :: rest) -> tk_type t <> EOF -> lexed t /\ closed_tokens rest.
Proof.
  intros [pre [e [E [He Hpre]]]] Ht. destruct pre as [| p pre].
  - cbn in E. injection E as -> _. contradiction.
  - cbn in E. injection E as -> ->. inversion Hpre; subst.
    split; [assumption |]. exists pre, e. auto.
Qed.

Lemma closed_nonempty toks : closed_tokens toks -> exists t rest, toks = t :: rest.
Proof.
  intros [pre [e [-> _]]]. destruct pre as [| p pre]; cbn; eauto.
Qed.

Lemma closed_skip_indent toks : closed_tokens toks -> closed_tokens (skip_indent toks).
Proof.
  induction toks as [| t toks IH]; intros H; [exact H |].
  cbn [skip_indent]. destruct (TokenType_eqb (tk_type t) INDENT) eqn:E; [| exact H].
  apply IH. apply (closed_cons_inv t toks H). intros Ht. rewrite Ht in E. discriminate.
Qed.

Lemma closed_advance t rest ty :
  closed_tokens (t :: rest) -> TokenType_eqb (tk_type t) ty = true -> ty <> EOF ->
  closed_tokens rest.
Proof.
  intros H E Hty. apply (closed_cons_inv t rest H). intros Ht. rewrite Ht in E.
  destruct ty; try discriminate. congruence.
Qed.

Lemma number_value_numeric v :
  numeric v = true -> exists w, number_value v = Done w.
Proof.
  unfold numeric, number_value. destruct (contains "."%char v).
  - destruct (float_of_str v); [eauto | discriminate].
  - destruct (py_int v); [eauto | discriminate].
Qed.

Lemma parse_default_ok f node toks :
  (forall toks', closed_tokens toks' -> rest_ok ValueNode (f toks')) ->
  closed_tokens toks -> rest_ok ValueNode (parse_default f node toks).
Proof.
  intros Hf Htoks. unfold parse_default.
  destruct (current_type_is DEFAULT_OP toks) eqn:E; [| exact Htoks].
  destruct toks as [| t rest]; [discriminate |].
  unfold current_type_is in E. cbn [current hd_error] in E.
  apply (outcome_all_bind (fun r : ValueNode * list Token => closed_tokens (snd r))).
  - apply Hf. cbn [advance tl]. apply (closed_advance t rest DEFAULT_OP Htoks E).
    discriminate.
  - intros [d toks1] H. exact H.
Qed.

Lemma expect_ok ty toks :
  ty <> EOF -> closed_tokens toks -> rest_ok Token (expect ty toks).
Proof.
  intros Hty Htoks. unfold expect. destruct toks as [| t rest]; [reflexivity |].
  cbn [current hd_error]. destruct (TokenType_eqb (tk_type t) ty) eqn:E; [| reflexivity].
  cbn [outcome_all snd advance tl]. apply (closed_advance t rest ty Htoks E Hty).
Qed.

Lemma parser_ok (n : nat) :
  (forall toks, closed_tokens toks -> rest_ok ValueNode (parse_value n toks)) /\
  (forall toks, closed_tokens toks -> rest_ok (list value) (parse_array n toks)) /\
  (forall toks items, closed_tokens toks ->
     rest_ok (list value) (parse_array_loop n toks items)).
Proof.
  induction n as [| n [IHv [IHa IHl]]]; [repeat split; intros; exact I |].
  repeat split.
  - intros toks Htoks. cbn [parse_value].
    apply closed_skip_indent in Htoks.
    destruct (skip_indent toks) as [| token rest]; [reflexivity |].
    cbn [current hd_error advance tl].
    destruct (tk_type token) eqn:Et; try reflexivity;
      try (apply parse_default_ok; [exact IHv |];
           apply (closed_cons_inv token rest Htoks); rewrite Et; discriminate).
    + assert (Hl : lexed token)
        by (apply (closed_cons_inv token rest Htoks); rewrite Et; discriminate).
      destruct (number_value_numeric (tk_value token) (proj2 Hl Et)) as [w ->].
      cbn [bind]. apply parse_default_ok; [exact IHv |].
      apply (closed_cons_inv token rest Htoks); rewrite Et; discriminate.
    + apply (outcome_all_bind (fun r : list value * list Token => closed_tokens (snd r)));
        [apply IHa, Htoks |].
      intros [items toks1] H. exact H.
  - intros toks Htoks. cbn [parse_array].
    apply (outcome_all_bind (fun r : Token * list Token => closed_tokens (snd r)));
      [apply expect_ok; [discriminate | exact Htoks] |].
    intros [t0 toks0] H0. cbn [snd] in H0.
    apply (outcome_all_bind (fun r : list value * list Token => closed_tokens (snd r)));
      [apply IHl, H0 |].
    intros [items toks1] H1. cbn [snd] in H1.
    apply (outcome_all_bind (fun r : Token * list Token => closed_tokens (snd r)));
      [apply expect_ok; [discriminate | exact H1] |].
    intros [t2 toks2] H2. exact H2.
  - intros toks items Htoks. cbn [parse_array_loop].
    destruct toks as [| t rest]; [destruct (closed_nonempty [] Htoks) as [? [? ?]]; discriminate |].
    cbn [current hd_error].
    destruct (TokenType_eqb (tk_type t) RBRACKET); [exact Htoks |].
    pose proof (closed_skip_indent _ Htoks) as H1.
    destruct (skip_indent (t :: rest)) as [| t1 rest1];
      [destruct (closed_nonempty [] H1) as [? [? ?]]; discriminate |].
    cbn [current hd_error].
    destruct (TokenType_eqb (tk_type t1) RBRACKET); [exact H1 |].
    apply (outcome_all_bind (fun r : ValueNode * list Token => closed_tokens (snd r)));
      [apply IHv, H1 |].
    intros [value_node toks2] H2. cbn [snd] in H2.
    pose proof (closed_skip_indent _ H2) as H3. cbv zeta.
    destruct (current_type_is COMMA (skip_indent toks2)) eqn:E; [| apply IHl, H3].
    apply IHl. destruct (skip_indent toks2) as [| t3 rest3]; [discriminate |].
    unfold current_type_is in E. cbn [current hd_error] in E. cbn [advance tl].
    apply (closed_advance t3 rest3 COMMA H3 E). discriminate.
Qed.


Lemma parse_assignment_ok n toks :
  closed_tokens toks -> rest_ok AssignmentNode (parse_assignment n toks).
Proof.
  intros Htoks. unfold parse_assignment.
  apply closed_skip_indent in Htoks. cbv zeta.
  apply (outcome_all_bind (fun r : Token * list Token => closed_tokens (snd r)));
    [apply expect_ok; [discriminate | exact Htoks] |].
  intros [key_token toks1] H1. cbn [snd] in H1.
  match goal with
  | |- outcome_all _ _ (let (_, _) := ?x in _) =>
      assert (Hx : closed_tokens (snd x)); [| destruct x as [hint toks2]]
  end.
  { destruct toks1 as [| t rest]; [exact H1 |]. cbn [current hd_error].
    destruct (TokenType_eqb (tk_type t) TYPE_HINT) eqn:E; [| exact H1].
    cbn [snd advance tl]. apply (closed_advance t rest TYPE_HINT H1 E). discriminate. }
  cbn [snd] in Hx.
  apply (outcome_all_bind (fun r : Token * list Token => closed_tokens (snd r)));
    [apply expect_ok; [discriminate | exact Hx] |].
  intros [eq_token toks3] H3. cbn [snd] in H3.
  apply (outcome_all_bind (fun r : ValueNode * list Token => closed_tokens (snd r)));
    [apply (parser_ok n), H3 |].
  intros [value_node toks4] H4. exact H4.
Qed.

Lemma parse_section_assignments_ok n :
  forall toks acc,
    closed_tokens toks ->
    rest_ok (list AssignmentNode) (parse_section_assignments n toks acc).
Proof.
  induction n as [| n IH]; intros toks acc Htoks; [exact I |].
  cbn [parse_section_assignments].
  destruct (current_type_is KEY toks); [| exact Htoks].
  apply (outcome_all_bind (fun r : AssignmentNode * list Token => closed_tokens (snd r)));
    [apply parse_assignment_ok, Htoks |].
  intros [a toks1] H1. apply IH. apply closed_skip_indent, H1.
Qed.

Lemma parse_conditional_sections_ok n :
  forall toks acc,
    closed_tokens toks ->
    rest_ok (list SectionNode) (parse_conditional_sections n toks acc).
Proof.
  induction n as [| n IH]; intros toks acc Htoks; [exact I |].
  cbn [parse_conditional_sections].
  destruct toks as [| t rest]; [exact Htoks |]. cbn [current hd_error].
  destruct (TokenType_eqb (tk_type t) SECTION) eqn:E; [| exact Htoks].
  apply (outcome_all_bind (fun r : list AssignmentNode * list Token => closed_tokens (snd r))).
  - apply parse_section_assignments_ok. cbn [advance tl].
    apply closed_skip_indent. apply (closed_advance t rest SECTION Htoks E). discriminate.
  - intros [asg toks1] H1. apply IH, H1.
Qed.

Lemma parse_loop_ok n :
  forall toks cur ast,
    closed_tokens toks ->
    outcome_all (fun _ : AST => True) is_parse_error (parse_loop n toks cur ast).
Proof.
  induction n as [| n IH]; intros toks cur ast Htoks; [exact I |].
  cbn [parse_loop].
  match goal with
  | |- outcome_all _ _ (if ?b then _ else _) => destruct b
  end; [exact I |].
  apply closed_skip_indent in Htoks. cbv zeta.
  destruct (skip_indent toks) as [| token rest]; [exact I |].
  cbn [current hd_error advance tl].
  assert (Hrest : tk_type token <> EOF -> closed_tokens rest)
    by (intros H; apply (closed_cons_inv token rest Htoks H)).
  destruct (tk_type token) eqn:Et; try exact I;
    try (apply IH, Hrest; discriminate).
  - apply (outcome_all_bind (fun r : list SectionNode * list Token => closed_tokens (snd r))).
    + apply parse_conditional_sections_ok, closed_skip_indent, Hrest. discriminate.
    + intros [secs toks1] H1. apply IH, H1.
  - apply (outcome_all_bind (fun r : AssignmentNode * list Token => closed_tokens (snd r)));
      [apply parse_assignment_ok, Htoks |].
    intros [a toks1] H1. destruct cur; apply IH, H1.
Qed.

Lemma significant_closed toks : closed_tokens toks -> closed_tokens (significant toks).
Proof.
  intros [pre [e [-> [He Hpre]]]]. unfold significant. rewrite filter_app.
  cbn [filter]. rewrite He. cbn [TokenType_eqb orb negb].
  exists (filter (fun t => negb (TokenType_eqb (tk_type t) COMMENT ||
                                 TokenType_eqb (tk_type t) NEWLINE)) pre), e.
  split; [reflexivity |]. split; [exact He |].
  apply Forall_forall. intros t Ht. apply filter_In in Ht.
  rewrite Forall_forall in Hpre. apply Hpre, Ht.
Qed.

(** X14. [parse(text)] raises nothing but a [LexerError] or a
    [ParseError]: the conversion of a [NUMBER] token cannot fail, and the
    parser never reads past the [EOF] token. *)
Theorem parse_raises_lexer_or_parse_error (fuel : nat) (text : str) (e : exn) :
  parse fuel text = Raise e ->
  exn_class_of e = LexerError \/ exn_class_of e = ParseError.
Proof.
  unfold parse. pose proof (tokenize_loop_ok fuel (init text) [] (Forall_nil _)) as Ht.
  fold (tokenize fuel text) in Ht.
  destruct (tokenize fuel text) as [tokens | e' |]; cbn [bind outcome_all] in *;
    [| intros [= <-]; left; exact Ht | discriminate].
  unfold parse_tokens.
  pose proof (parse_loop_ok fuel (significant tokens) None (mkAST [] [] [])
                (significant_closed tokens Ht)) as Hp.
  intros E. rewrite E in Hp. right. exact Hp.
Qed.

(** X15. The loop over the sections of a conditional reads a stretch of
    the tokens and makes one section of every section header in it, in
    the order of the text, behind the sections that the conditional has;
    the stretch holds no include directive and no conditional header, and
    it ends where the next token is no section header. So every section
    header that follows the line of a conditional, or the assignments of
    one of its sections, belongs to the conditional. *)
Theorem conditional_takes_following_sections (fuel : nat) (toks rest : list Token)
    (acc secs : list SectionNode) :
  parse_conditional_sections fuel toks acc = Done (secs, rest) ->
  exists consumed more,
    toks = consumed ++ rest /\ secs = acc ++ more /\
    map section_header more = text_headers SECTION consumed /\
    text_headers SECTION_WHEN consumed = [] /\
    text_headers INCLUDE consumed = [] /\
    current_type_is SECTION rest = false.
Proof. apply parse_conditional_sections_split. Qed.

End ParserInvariant.

(** ** Formatting a written text *)

Section FormatFacts.
Context {RT : PyRuntime}.
Import Lexer Parser Evaluator.

Variable env : environ.
Variable fs : FileSystem.

Lemma simple_items_app (a b : dict) :
  Serializer.simple_items (a ++ b) = Serializer.simple_items a ++ Serializer.simple_items b.
Proof. apply filter_app. Qed.

Lemma simple_items_idem (l : dict) :
  Serializer.simple_items (Serializer.simple_items l) = Serializer.simple_items l.
Proof.
  unfold Serializer.simple_items. induction l as [| kv l IH]; [reflexivity |].
  cbn [filter]. destruct (negb (Serializer.is_dict (snd kv))) eqn:E; [| exact IH].
  cbn [filter]. rewrite E, IH. reflexivity.
Qed.

Lemma reorder_is_dict v : Serializer.is_dict (reorder v) = Serializer.is_dict v.
Proof. destruct v; reflexivity. Qed.

Lemma simple_items_nested (l : dict) : Serializer.simple_items (nested_reordered l) = [].
Proof.
  unfold Serializer.simple_items, nested_reordered.
  induction l as [| [k w] l IH]; [reflexivity |].
  cbn [flat_map fst snd]. destruct (Serializer.is_dict w) eqn:E; [| exact IH].
  cbn [app filter snd]. rewrite reorder_is_dict, E. exact IH.
Qed.

(** What [_dump_section] writes does not change when, in every map, the
    simple entries are moved before the nested maps. *)
Lemma dump_value_reorder v :
  forall prefix, Serializer.dump_value prefix (reorder v) = Serializer.dump_value prefix v.
Proof.
  induction v as [| | | | | | entries IH] using value_induction; intros prefix;
    try reflexivity.
  rewrite reorder_dict. fold (nested_reordered entries).
  rewrite !dump_value_dict. f_equal.
  - unfold Serializer.dump_simple.
    rewrite simple_items_app, simple_items_idem, simple_items_nested, app_nil_r.
    reflexivity.
  - rewrite flat_map_app.
    assert (Hs : flat_map
                   (fun kv : str * value =>
                      if Serializer.is_dict (snd kv)
                      then Serializer.dump_value
                             (Serializer.new_prefix prefix (fst kv)) (snd kv)
                      else []) (Serializer.simple_items entries) = []).
    { unfold Serializer.simple_items. clear IH.
      induction entries as [| [k w] entries IHe]; [reflexivity |].
      cbn [filter snd]. destruct (Serializer.is_dict w) eqn:E; cbn [negb]; [exact IHe |].
      cbn [flat_map snd]. rewrite E. exact IHe. }
    rewrite Hs. clear Hs. cbn [app]. unfold nested_reordered.
    induction IH as [| [k w] entries IHw _ IHe]; [reflexivity |].
    cbn [flat_map fst snd] in *. destruct (Serializer.is_dict w) eqn:E.
    + cbn [app flat_map fst snd]. rewrite reorder_is_dict, E, IHw, IHe.
      reflexivity.
    + exact IHe.
Qed.

(** [loads(dumps(tree))] for a literal tree is the tree with the simple
    entries first. *)
Lemma loads_dumps_reorder (base_path : option str) (t : dict) :
  literal_tree (VDict t) ->
  settles (fun fuel =>
             Serializer.loads env fs fuel (Serializer.dumps t) base_path None None)
          (Serializer.simple_items t ++ nested_reordered t).
Proof.
  intros Ht.
  destruct (parse_dumps t Ht) as [ast [[n Hparse] [Hsecs [Hconds Hincs]]]].
  pose proof (run_blocks_tree env None (VDict t) Ht) as Hrun.
  rewrite reorder_dict in Hrun. fold (nested_reordered t) in Hrun.
  pose proof (process_sections env None (blocks [] (VDict t))
                (blocks_ok (VDict t) Ht [] (Forall_nil _))
                (sections ast) [] _ Hsecs Hrun) as Hfold.
  exists (S n). intros fuel Hfuel. destruct fuel as [| fuel]; [lia |].
  unfold Serializer.loads. rewrite Hparse by lia. cbn [bind evaluate].
  rewrite Hincs, Hconds. cbn [foldM bind]. rewrite Hfold. reflexivity.
Qed.

(** X16. Formatting leaves the text written for a literal tree as it is:
    [dumps(loads(dumps(tree)))] is [dumps(tree)]. *)
Theorem format_written_text (t : dict) :
  literal_tree (VDict t) ->
  settles (fun fuel => Cli.format_text env fs fuel (Serializer.dumps t))
          (Serializer.dumps t).
Proof.
  intros Ht. destruct (loads_dumps_reorder None t Ht) as [n Hloads].
  exists n. intros fuel Hfuel. unfold Cli.format_text.
  rewrite (Hloads fuel Hfuel). cbn [bind]. f_equal.
  unfold Serializer.dumps, Serializer.dump_section. f_equal.
  rewrite <- (dump_value_reorder (VDict t) []), reorder_dict. reflexivity.
Qed.

End FormatFacts.

(** ** The lexer comes to an end *)

Section Progress.
Import Lexer.

Lemma tail_of_refl st : tail_of st st.
Proof. exists []. reflexivity. Qed.

Lemma tail_of_trans a b c : tail_of a b -> tail_of b c -> tail_of a c.
Proof.
  intros [p1 H1] [p2 H2]. exists (p2 ++ p1). rewrite H2, H1, app_assoc. reflexivity.
Qed.

Lemma tail_of_length st' st : tail_of st' st -> List.length (rest st') <= List.length (rest st).
Proof. intros [pre H]. rewrite H, length_app. lia. Qed.

Lemma tail_of_clean st' st : tail_of st' st -> clean st -> clean st'.
Proof.
  unfold clean, contains. intros [pre H]. rewrite H, existsb_app.
  intros E. apply orb_false_iff in E. apply E.
Qed.

Lemma read_while_from_tail p s :
  forall ln col,
    s = fst (read_while_from p s ln col) ++ rest (snd (read_while_from p s ln col)).
Proof.
  induction s as [| c s IH]; intros ln col; cbn [read_while_from]; [reflexivity |].
  destruct (p c); [| reflexivity].
  destruct (Ascii.eqb c newline).
  - specialize (IH (S ln) 1). destruct (read_while_from p s (S ln) 1). cbn [fst snd] in *.
    cbn [app]. f_equal. exact IH.
  - specialize (IH ln (S col)). destruct (read_while_from p s ln (S col)). cbn [fst snd] in *.
    cbn [app]. f_equal. exact IH.
Qed.

Lemma read_while_tail p st r st' :
  read_while p st = (r, st') -> rest st = r ++ rest st'.
Proof.
  unfold read_while. intros E.
  pose proof (read_while_from_tail p (rest st) (line st) (column st)) as H.
  rewrite E in H. exact H.
Qed.

Lemma read_while_first p st c r st' :
  current_char st = Some c -> p c = true -> read_while p st = (r, st') -> r <> [].
Proof.
  unfold read_while, current_char. destruct (rest st) as [| d s]; [discriminate |].
  cbn [hd_error read_while_from]. intros [= ->] Hp. rewrite Hp.
  destruct (if Ascii.eqb c newline then _ else _). intros [= <- _]. discriminate.
Qed.

Lemma skip_whitespace_tail st n st' :
  skip_whitespace_on_line st = (n, st') -> tail_of st' st.
Proof.
  unfold skip_whitespace_on_line. destruct (read_while is_blank st) as [r st1] eqn:E.
  intros [= _ <-]. exists r. apply (read_while_tail _ _ _ _ E).
Qed.

Lemma advance1_tail st a st' : advance1 st = (a, st') -> rest st = a ++ rest st'.
Proof.
  unfold advance1. destruct (rest st) as [| c r] eqn:E.
  - intros [= <- <-]. rewrite E. reflexivity.
  - destruct (Ascii.eqb c newline); intros [= <- <-]; reflexivity.
Qed.

Lemma advance_tail n : forall st a st', advance n st = (a, st') -> rest st = a ++ rest st'.
Proof.
  induction n as [| n IH]; intros st a st'; cbn [advance].
  - intros [= <- <-]. reflexivity.
  - destruct (advance1 st) as [a1 st1] eqn:E1.
    destruct (advance n st1) as [b st2] eqn:E2. intros [= <- <-].
    rewrite (advance1_tail _ _ _ E1), (IH _ _ _ E2), app_assoc. reflexivity.
Qed.

Lemma advance1_first st c a st' :
  current_char st = Some c -> advance1 st = (a, st') -> a = [c].
Proof.
  unfold advance1, current_char. destruct (rest st) as [| d r]; [discriminate |].
  cbn [hd_error]. intros [= ->]. intros [= <- _]. reflexivity.
Qed.

Lemma advance_first n st c a st' :
  current_char st = Some c -> advance (S n) st = (a, st') -> a <> [].
Proof.
  intros Hc. cbn [advance]. destruct (advance1 st) as [a1 st1] eqn:E1.
  destruct (advance n st1) as [b st2]. intros [= <- _].
  rewrite (advance1_first _ _ _ _ Hc E1). discriminate.
Qed.

Lemma read_string_from_tail q s :
  forall ln col, exists pre, s = pre ++ rest (snd (read_string_from q s ln col)).
Proof.
  assert (H : forall n s, List.length s < n ->
              forall ln col, exists pre, s = pre ++ rest (snd (read_string_from q s ln col))).
  { clear s. induction n as [| n IH]; intros s Hn ln col; [lia |].
    destruct s as [| c s']; cbn [read_string_from].
    - exists []. reflexivity.
    - cbn [List.length] in Hn. destruct (Ascii.eqb c backslash).
      + destruct s' as [| d s2]; [exists [c]; reflexivity |].
        cbn [List.length] in Hn.
        destruct (IH s2 ltac:(lia) (next_line d (next_line c ln))
                    (next_column d (next_column c col))) as [pre Hpre].
        destruct (read_string_from q s2 _ _). cbn [snd] in *.
        exists (c :: d :: pre). cbn [app]. do 2 f_equal. exact Hpre.
      + destruct (Ascii.eqb c q); [exists [c]; reflexivity |].
        destruct (IH s' ltac:(lia) (next_line c ln) (next_column c col)) as [pre Hpre].
        destruct (read_string_from q s' _ _). cbn [snd] in *.
        exists (c :: pre). cbn [app]. f_equal. exact Hpre. }
  apply (H (S (List.length s))). lia.
Qed.

Lemma read_string_tail q st v st' :
  read_string q st = (v, st') -> tail_of st' st.
Proof.
  unfold read_string. destruct (advance1 st) as [a st1] eqn:E1.
  destruct (read_string_from_tail q (rest st1) (line st1) (column st1)) as [pre Hpre].
  intros E. rewrite E in Hpre. cbn [snd] in Hpre.
  exists (a ++ pre). rewrite (advance1_tail _ _ _ E1), Hpre, app_assoc. reflexivity.
Qed.


End Progress.

Section Termination.
Context {RT : PyRuntime}.
Import Lexer.

Lemma returns_with_bind {A B : Type} (P : A -> Prop) (P' : B -> Prop) c k :
  returns_with P c -> (forall a, P a -> returns_with P' (k a)) ->
  returns_with P' (bind c k).
Proof. destruct c; cbn; auto. Qed.

Lemma returns_with_impl {A : Type} (P P' : A -> Prop) c :
  (forall a, P a -> P' a) -> returns_with P c -> returns_with P' c.
Proof. destruct c; cbn; auto. Qed.

Lemma clean_no_bracket st : clean st -> current_is "["%char st = false.
Proof.
  unfold clean, current_is, current_char, contains.
  destruct (rest st) as [| c r]; [reflexivity |]. cbn [existsb hd_error].
  intros E. apply orb_false_iff in E. destruct E as [E _].
  rewrite Ascii.eqb_sym. exact E.
Qed.

Lemma consumed_length st st' (a : str) :
  rest st = a ++ rest st' -> a <> [] -> List.length (rest st') < List.length (rest st).
Proof.
  intros H Ha. rewrite H, length_app. destruct a; [congruence | cbn; lia].
Qed.

#[local] Abbreviation reads_on st :=
  (returns_with (fun r : list Token * state => tail_of (snd r) st)).

Lemma read_default_returns f tokens st m :
  (forall st', List.length (rest st') < m -> clean st' -> reads_on st' (f st')) ->
  clean st -> List.length (rest st) <= m ->
  reads_on st (read_default f tokens st).
Proof.
  intros Hf Hclean Hlen. unfold read_default.
  destruct (skip_whitespace_on_line st) as [n st1] eqn:E1.
  pose proof (skip_whitespace_tail _ _ _ E1) as T1.
  destruct (current_is "?"%char st1 && peek_is "?"%char st1) eqn:Eq; [| exact T1].
  destruct (advance 2 st1) as [a st2] eqn:E2.
  destruct (skip_whitespace_on_line st2) as [n' st3] eqn:E3.
  pose proof (skip_whitespace_tail _ _ _ E3) as T3.
  assert (Hcur : exists c, current_char st1 = Some c).
  { apply andb_true_iff in Eq. destruct Eq as [Eq _]. unfold current_is in Eq.
    destruct (current_char st1); [eauto | discriminate]. }
  destruct Hcur as [c Hc].
  pose proof (advance_tail 2 _ _ _ E2) as T2.
  pose proof (consumed_length _ _ _ T2 (advance_first 1 _ _ _ _ Hc E2)) as L2.
  assert (T2' : tail_of st2 st1) by (exists a; exact T2).
  pose proof (tail_of_length _ _ T1). pose proof (tail_of_length _ _ T3).
  apply (returns_with_bind (fun r => tail_of (snd r) st3)).
  - apply Hf; [lia |].
    apply (tail_of_clean _ _ T3), (tail_of_clean _ _ T2'), (tail_of_clean _ _ T1), Hclean.
  - intros [more st4] H4. cbn [snd returns_with] in *.
    apply (tail_of_trans _ _ _ H4), (tail_of_trans _ _ _ T3), (tail_of_trans _ _ _ T2'), T1.
Qed.

Lemma read_value_token_returns fuel :
  forall st, List.length (rest st) < fuel -> clean st ->
             reads_on st (read_value_token fuel st).
Proof.
  induction fuel as [| fuel IH]; intros st Hlen Hclean; [lia |].
  cbn [read_value_token].
  assert (Hafter : forall tokens st1,
            tail_of st1 st -> reads_on st (read_default (read_value_token fuel) tokens st1)).
  { intros tokens st1 T1. pose proof (tail_of_length _ _ T1).
    apply (returns_with_impl (fun r => tail_of (snd r) st1)).
    - intros r Hr. apply (tail_of_trans _ _ _ Hr T1).
    - apply (read_default_returns _ _ _ fuel); [exact IH | | lia].
      apply (tail_of_clean _ _ T1 Hclean). }
  destruct (current_is dquote st || current_is squote st).
  { destruct (read_string _ st) as [v st1] eqn:E.
    apply Hafter. apply (read_string_tail _ _ _ _ E). }
  rewrite (clean_no_bracket st Hclean).
  destruct (current_is "$"%char st).
  { destruct (advance1 st) as [a st1] eqn:E1.
    assert (T1 : tail_of st1 st) by (exists a; apply (advance1_tail _ _ _ E1)).
    destruct (starts_with (lit "env") (rest st1)).
    { destruct (advance 4 st1) as [b st2] eqn:E2.
      destruct (read_while is_name_char st2) as [name st3] eqn:E3.
      apply Hafter. apply (tail_of_trans st3 st2); [| apply (tail_of_trans st2 st1)];
        [exists name; apply (read_while_tail _ _ _ _ E3)
        | exists b; apply (advance_tail _ _ _ _ E2) | exact T1]. }
    destruct (starts_with (lit "secret") (rest st1)); [| exact I].
    destruct (advance 7 st1) as [b st2] eqn:E2.
    destruct (read_while is_name_char st2) as [name st3] eqn:E3.
    apply Hafter. apply (tail_of_trans st3 st2); [| apply (tail_of_trans st2 st1)];
      [exists name; apply (read_while_tail _ _ _ _ E3)
      | exists b; apply (advance_tail _ _ _ _ E2) | exact T1]. }
  destruct (read_while _ st) as [v st1] eqn:E.
  assert (T1 : tail_of st1 st) by (exists v; apply (read_while_tail _ _ _ _ E)).
  destruct v as [| c v]; [exact T1 |]. apply Hafter, T1.
Qed.


Lemma blank_is_key_char c : isalnum c || Ascii.eqb c "_"%char = true -> is_key_char c = true.
Proof. unfold is_key_char. intros ->. reflexivity. Qed.

Lemma tokenize_loop_returns fuel :
  forall st tokens,
    List.length (rest st) < fuel -> clean st ->
    returns_with (fun _ : list Token => True) (tokenize_loop fuel st tokens).
Proof.
  induction fuel as [| fuel IH]; intros st tokens Hlen Hclean; [lia |].
  cbn [tokenize_loop].
  destruct (current_char st) as [char |] eqn:Hc; [| exact I].
  assert (Hnext : forall st' tokens',
            tail_of st' st -> List.length (rest st') < List.length (rest st) ->
            returns_with (fun _ : list Token => True) (tokenize_loop fuel st' tokens')).
  { intros st' tokens' T L. apply IH; [lia | apply (tail_of_clean _ _ T Hclean)]. }
  destruct (Ascii.eqb char newline).
  { destruct (advance1 st) as [a st1] eqn:E1.
    destruct (skip_whitespace_on_line st1) as [indent st2] eqn:E2.
    pose proof (advance1_tail _ _ _ E1) as T1.
    assert (L1 : List.length (rest st1) < List.length (rest st)).
    { apply (consumed_length _ _ _ T1). rewrite (advance1_first _ _ _ _ Hc E1). discriminate. }
    pose proof (skip_whitespace_tail _ _ _ E2) as T2.
    pose proof (tail_of_length _ _ T2).
    assert (T : tail_of st2 st)
      by (apply (tail_of_trans _ _ _ T2); exists a; exact T1).
    match goal with
    | |- returns_with _ (if ?b then _ else _) => destruct b
    end; apply Hnext; (exact T || lia). }
  destruct (is_blank char) eqn:Hb.
  { unfold skip_whitespace_on_line. destruct (read_while is_blank st) as [r st1] eqn:E.
    cbn [snd]. pose proof (read_while_tail _ _ _ _ E) as T.
    apply Hnext; [exists r; exact T |].
    apply (consumed_length _ _ _ T (read_while_first _ _ _ _ _ Hc Hb E)). }
  destruct (Ascii.eqb char "#"%char) eqn:Hh.
  { unfold read_until. destruct (read_while _ st) as [comment st1] eqn:E.
    pose proof (read_while_tail _ _ _ _ E) as T.
    apply Hnext; [exists comment; exact T |].
    apply (consumed_length _ _ _ T). apply (read_while_first _ _ _ _ _ Hc) in E; [exact E |].
    apply Ascii.eqb_eq in Hh. subst char. reflexivity. }
  destruct (Ascii.eqb char ">"%char && peek_is ">"%char st).
  { destruct (advance 2 st) as [a st1] eqn:E1.
    pose proof (advance_tail _ _ _ _ E1) as T1.
    pose proof (consumed_length _ _ _ T1 (advance_first 1 _ _ _ _ Hc E1)) as L1.
    assert (T1' : tail_of st1 st) by (exists a; exact T1).
    destruct (skip_whitespace_on_line st1) as [k st2] eqn:E2.
    pose proof (skip_whitespace_tail _ _ _ E2) as T2.
    pose proof (tail_of_length _ _ T2).
    destruct (starts_with (lit "@when") (rest st2)).
    - destruct (advance 5 st2) as [b st3] eqn:E3.
      destruct (skip_whitespace_on_line st3) as [k' st4] eqn:E4.
      unfold read_until. destruct (read_while _ st4) as [condition st5] eqn:E5.
      assert (T3 : tail_of st3 st2) by (exists b; apply (advance_tail _ _ _ _ E3)).
      pose proof (skip_whitespace_tail _ _ _ E4) as T4.
      assert (T5 : tail_of st5 st4) by (exists condition; apply (read_while_tail _ _ _ _ E5)).
      pose proof (tail_of_length _ _ T3). pose proof (tail_of_length _ _ T4).
      pose proof (tail_of_length _ _ T5).
      apply Hnext; [| lia].
      apply (tail_of_trans _ _ _ T5), (tail_of_trans _ _ _ T4), (tail_of_trans _ _ _ T3),
        (tail_of_trans _ _ _ T2), T1'.
    - unfold read_until. destruct (read_while _ st2) as [name st3] eqn:E3.
      assert (T3 : tail_of st3 st2) by (exists name; apply (read_while_tail _ _ _ _ E3)).
      pose proof (tail_of_length _ _ T3).
      apply Hnext; [| lia].
      apply (tail_of_trans _ _ _ T3), (tail_of_trans _ _ _ T2), T1'. }
  destruct (Ascii.eqb char "@"%char && starts_with (lit "@include") (rest st)).
  { destruct (advance 8 st) as [a st1] eqn:E1.
    pose proof (advance_tail _ _ _ _ E1) as T1.
    pose proof (consumed_length _ _ _ T1 (advance_first 7 _ _ _ _ Hc E1)) as L1.
    assert (T1' : tail_of st1 st) by (exists a; exact T1).
    destruct (skip_whitespace_on_line st1) as [k st2] eqn:E2.
    pose proof (skip_whitespace_tail _ _ _ E2) as T2.
    pose proof (tail_of_length _ _ T2).
    match goal with
    | |- returns_with _ (let (_, _) := ?x in _) =>
        assert (Tx : tail_of (snd x) st2); [| destruct x as [path st3]]
    end.
    { destruct (current_is dquote st2).
      - destruct (read_string dquote st2) as [p st'] eqn:E. cbn [snd].
        apply (read_string_tail _ _ _ _ E).
      - destruct (current_is squote st2).
        + destruct (read_string squote st2) as [p st'] eqn:E. cbn [snd].
          apply (read_string_tail _ _ _ _ E).
        + unfold read_until. destruct (read_while _ st2) as [p st'] eqn:E. cbn [snd].
          exists p. apply (read_while_tail _ _ _ _ E). }
    cbn [snd] in Tx. pose proof (tail_of_length _ _ Tx).
    apply Hnext; [| lia].
    apply (tail_of_trans _ _ _ Tx), (tail_of_trans _ _ _ T2), T1'. }
  destruct (isalnum char || Ascii.eqb char "_"%char) eqn:Hk; [| exact I].
  destruct (read_while is_key_char st) as [key st1] eqn:E1.
  pose proof (read_while_tail _ _ _ _ E1) as T1.
  pose proof (consumed_length _ _ _ T1
                (read_while_first _ _ _ _ _ Hc (blank_is_key_char _ Hk) E1)) as L1.
  assert (T1' : tail_of st1 st) by (exists key; exact T1).
  destruct (skip_whitespace_on_line st1) as [k st2] eqn:E2.
  pose proof (skip_whitespace_tail _ _ _ E2) as T2.
  pose proof (tail_of_length _ _ T2).
  match goal with
  | |- returns_with _ (let (_, _) := ?x in _) =>
      assert (Tx : tail_of (snd x) st2); [| destruct x as [tokens' st3]]
  end.
  { destruct (current_is ":"%char st2 && peek_is ":"%char st2); [| apply tail_of_refl].
    destruct (advance 2 st2) as [a sa] eqn:Ea.
    destruct (skip_whitespace_on_line sa) as [k' sb] eqn:Eb.
    destruct (read_while isalnum sb) as [type_name sc] eqn:Ec. cbn [snd].
    destruct (skip_whitespace_on_line sc) as [k2 sd] eqn:Ed. cbn [snd].
    apply (tail_of_trans _ _ _ (skip_whitespace_tail _ _ _ Ed)).
    apply (tail_of_trans _ sb); [exists type_name; apply (read_while_tail _ _ _ _ Ec) |].
    apply (tail_of_trans _ _ _ (skip_whitespace_tail _ _ _ Eb)).
    exists a. apply (advance_tail _ _ _ _ Ea). }
  cbn [snd] in Tx. pose proof (tail_of_length _ _ Tx).
  assert (T3 : tail_of st3 st)
    by (apply (tail_of_trans _ _ _ Tx), (tail_of_trans _ _ _ T2), T1').
  destruct (current_is "="%char st3); [| apply Hnext; [exact T3 | lia]].
  destruct (advance1 st3) as [a st4] eqn:E4.
  destruct (skip_whitespace_on_line st4) as [k' st5] eqn:E5.
  assert (T4 : tail_of st4 st3) by (exists a; apply (advance1_tail _ _ _ E4)).
  pose proof (skip_whitespace_tail _ _ _ E5) as T5.
  pose proof (tail_of_length _ _ T4). pose proof (tail_of_length _ _ T5).
  assert (T5' : tail_of st5 st)
    by (apply (tail_of_trans _ _ _ T5), (tail_of_trans _ _ _ T4), T3).
  apply (returns_with_bind (fun r : list Token * state => tail_of (snd r) st5)).
  - apply read_value_token_returns; [lia | apply (tail_of_clean _ _ T5' Hclean)].
  - intros [value_tokens st6] T6. cbn [snd] in T6. pose proof (tail_of_length _ _ T6).
    apply Hnext; [apply (tail_of_trans _ _ _ T6 T5') | lia].
Qed.

(** X17. On a text without an opening bracket [tokenize] always comes to
    an end, within as many rounds of its loop as the text has characters
    and one more: it returns the tokens or raises a [LexerError]. *)
Theorem tokenize_ends_without_brackets (fuel : nat) (text : str) :
  contains "["%char text = false -> List.length text < fuel ->
  (exists toks, tokenize fuel text = Done toks) \/
  (exists e, tokenize fuel text = Raise e /\ exn_class_of e = LexerError).
Proof.
  intros Hclean Hlen.
  pose proof (tokenize_loop_returns fuel (init text) [] Hlen Hclean) as Hr.
  pose proof (tokenize_loop_ok fuel (init text) [] (Forall_nil _)) as Hok.
  unfold tokenize. destruct (tokenize_loop fuel (init text) []) as [toks | e |].
  - left. eauto.
  - right. exists e. split; [reflexivity | exact Hok].
  - contradiction.
Qed.

End Termination.


(** ** The exceptions of a load *)

Section EvaluatorClasses.
Context {RT : PyRuntime}.
Import Parser Evaluator.

Variable env : environ.
Variable secret_provider : option (str -> option str).
Variable fs : FileSystem.

#[local] Abbreviation raises_in C :=
  (outcome_all (fun _ => True) (fun e => C (exn_class_of e))).

Lemma raises_in_bind {A B : Type} (C : exn_class -> Prop) (c : outcome A)
    (k : A -> outcome B) :
  raises_in C c -> (forall a, raises_in C (k a)) -> raises_in C (bind c k).
Proof. intros Hc Hk. apply (outcome_all_bind (fun _ => True)); auto. Qed.

Lemma raises_in_impl {A : Type} (C C' : exn_class -> Prop) (c : outcome A) :
  (forall x, C x -> C' x) -> raises_in C c -> raises_in C' c.
Proof. intros H. destruct c; cbn; auto. Qed.

Lemma foldM_raises_in {A S : Type} (C : exn_class -> Prop)
    (f : S -> A -> outcome S) (l : list A) :
  (forall s a, raises_in C (f s a)) -> forall s, raises_in C (foldM f l s).
Proof.
  intros Hf. induction l as [| a l IH]; intros s; cbn [foldM]; [exact I |].
  apply raises_in_bind; [apply Hf | exact IH].
Qed.

Lemma evaluate_item_class item :
  raises_in evaluation_class (evaluate_item env secret_provider item).
Proof.
  destruct item as [| | | | | | d]; try exact I. cbn [evaluate_item].
  destruct (dict_mem _ d).
  - destruct (dict_get _ d) as [[| | | | s | |] |]; cbn; try exact I; right; reflexivity.
  - destruct (dict_mem _ d); [| exact I].
    destruct (dict_get _ d) as [[| | | | s | |] |]; cbn; try exact I; right; reflexivity.
Qed.

Lemma evaluate_array_class arr :
  raises_in evaluation_class (evaluate_array env secret_provider arr).
Proof.
  induction arr as [| item arr IH]; cbn [evaluate_array]; [exact I |].
  apply raises_in_bind; [apply evaluate_item_class | intros v].
  apply raises_in_bind; [exact IH | intros vs; exact I].
Qed.

Lemma apply_hint_class hint ln v :
  raises_in evaluation_class (apply_hint hint ln v).
Proof.
  unfold apply_hint. destruct hint as [h |]; [| exact I].
  destruct (truthy (Some h) && negb (is_none v)); [| exact I].
  destruct (bind (Types.from_string h) _); cbn; try exact I. left. reflexivity.
Qed.

Lemma evaluate_value_class :
  forall node, raises_in evaluation_class (evaluate_value env secret_provider node).
Proof.
  fix IH 1. intros [v hint e s dflt ln]. cbn [evaluate_value].
  apply raises_in_bind; [| intros w; apply apply_hint_class].
  assert (Hd : forall found : option str,
            raises_in evaluation_class
              match found, dflt with
              | Some s0, _ => Done (VStr s0)
              | None, Some d => evaluate_value env secret_provider d
              | None, None => Done VNone
              end).
  { intros [s0 |]; [exact I |]. destruct dflt as [d |]; [apply IH | exact I]. }
  assert (Ha : forall arr,
            raises_in evaluation_class
              (items <- evaluate_array env secret_provider arr ;; Done (VList items))).
  { intros arr. apply raises_in_bind; [apply evaluate_array_class | intros; exact I]. }
  destruct e as [[| c n] |]; [| apply Hd |];
    (destruct s as [[| c' n'] |]; [| apply Hd |]);
    destruct v; try exact I; apply Ha.
Qed.

Lemma apply_assignments_class asgs :
  forall current,
    raises_in evaluation_class (apply_assignments env secret_provider asgs current).
Proof.
  induction asgs as [| a asgs IH]; intros current; cbn [apply_assignments]; [exact I |].
  apply raises_in_bind; [apply evaluate_value_class | intros v].
  destruct current; try (right; reflexivity). apply IH.
Qed.

Lemma descend_class parts asgs :
  forall current,
    raises_in evaluation_class (descend env secret_provider parts asgs current).
Proof.
  induction parts as [| part parts IH]; intros current; cbn [descend].
  - apply apply_assignments_class.
  - destruct current as [| | | | | | d]; try (right; reflexivity).
    generalize (ensured_get part d).
    destruct (dict_get part _) as [child |]; [intros _ | congruence].
    apply raises_in_bind; [apply IH | intros; exact I].
Qed.

Lemma process_section_class data section :
  raises_in evaluation_class (process_section env secret_provider data section).
Proof.
  unfold process_section. apply raises_in_bind; [apply descend_class |].
  intros [| | | | | |]; exact I.
Qed.

Lemma process_conditional_class data conditional :
  raises_in evaluation_class (process_conditional env secret_provider data conditional).
Proof.
  unfold process_conditional. destruct (evaluate_condition _ _); [| exact I].
  apply foldM_raises_in. apply process_section_class.
Qed.

Variable parse_text : str -> outcome AST.
Hypothesis parse_text_class :
  forall text, raises_in loading_class (parse_text text).

Lemma process_include_class evaluate_rec base_path files include :
  (forall b a f, raises_in loading_class (evaluate_rec b a f)) ->
  raises_in loading_class (process_include fs parse_text evaluate_rec base_path files include).
Proof.
  intros Hrec. unfold process_include.
  destruct (in_set _ files); [right; right; left; reflexivity |].
  apply raises_in_bind.
  - destruct (read_text fs _); cbn; try exact I; right; right; left; reflexivity.
  - intros text. apply raises_in_bind; [apply parse_text_class | intros ast; apply Hrec].
Qed.

Lemma evaluate_class fuel :
  forall base_path ast files,
    raises_in loading_class
      (evaluate env secret_provider fs parse_text fuel base_path ast files).
Proof.
  induction fuel as [| fuel IH]; intros base_path ast files; [exact I |].
  cbn [evaluate].
  apply raises_in_bind.
  - apply foldM_raises_in. intros acc include.
    apply raises_in_bind; [apply process_include_class, IH |].
    intros [d f]. exact I.
  - intros [data files'].
    apply raises_in_bind.
    + apply (raises_in_impl evaluation_class);
        [intros x Hx; right; right; right; exact Hx |].
      apply foldM_raises_in. apply process_section_class.
    + intros data'. apply raises_in_bind; [| intros; exact I].
      apply (raises_in_impl evaluation_class);
        [intros x Hx; right; right; right; exact Hx |].
      apply foldM_raises_in. apply process_conditional_class.
Qed.

End EvaluatorClasses.

Section LoadingFacts.
Context {RT : PyRuntime}.
Import Lexer Parser Evaluator.

Variable env : environ.
Variable fs : FileSystem.

Lemma parse_class fuel text :
  outcome_all (fun _ : AST => True) (fun e => loading_class (exn_class_of e))
    (parse fuel text).
Proof.
  unfold parse.
  pose proof (tokenize_loop_ok fuel (init text) [] (Forall_nil _)) as Ht.
  fold (tokenize fuel text) in Ht.
  destruct (tokenize fuel text) as [tokens | e' |]; cbn [bind outcome_all] in *;
    [| left; exact Ht | exact I].
  unfold parse_tokens.
  pose proof (parse_loop_ok fuel (significant tokens) None (mkAST [] [] [])
                (significant_closed tokens Ht)) as Hp.
  destruct (parse_loop _ _ _ _); cbn in *; try exact I. right. left. exact Hp.
Qed.

Lemma create_secret_provider_class read use_env file_path secrets :
  outcome_all (fun _ : Secrets.SecretProvider => True)
    (fun e => exn_class_of e = SecretError)
    (SecretStore.create_secret_provider read use_env file_path secrets).
Proof.
  unfold SecretStore.create_secret_provider, SecretStore.file_provider.
  destruct file_path as [path |].
  - destruct (read path); cbn [bind outcome_all]; try reflexivity.
    destruct use_env, secrets as [[| e m] |]; exact I.
  - cbn [bind]. destruct use_env, secrets as [[| e m] |]; exact I.
Qed.


End LoadingFacts.

(** ** The command [validate] *)

Section ValidateFacts.
Context {RT : PyRuntime}.
Import Lexer Parser Evaluator.

Variable env : environ.
Variable fs : FileSystem.

Lemma starts_with_app p b : starts_with p (p ++ b) = true.
Proof.
  induction p as [| c p IH]; cbn [app starts_with]; [reflexivity |].
  rewrite Ascii.eqb_refl. exact IH.
Qed.

Lemma has_substring_app p a b : has_substring p (a ++ p ++ b) = true.
Proof.
  induction a as [| c a IH]; cbn [app].
  - assert (H : forall s, starts_with p s = true -> has_substring p s = true)
      by (intros [| c s] H; cbn [has_substring]; rewrite H; reflexivity).
    apply H, starts_with_app.
  - cbn [has_substring]. rewrite IH. apply orb_true_r.
Qed.

(** X19. [cmd_validate] reports a file valid when its first include names
    a file that does not exist: the [IncludeError] of [load] holds the
    words [not found] and is dropped. *)
Theorem validate_accepts_missing_include (fuel : nat) (path text : str) (ast : AST)
    (include : IncludeNode) (more : list IncludeNode) :
  read_text fs path = ReadOk text ->
  parse (S fuel) text = Done ast ->
  includes ast = include :: more ->
  read_text fs (full_path_of fs (parent fs path) include) = ReadNotFound ->
  Cli.cmd_validate env fs (S fuel) path = Done (lit "[OK] " ++ path ++ lit " is valid").
Proof.
  intros Hread Hparse Hinc Hmiss. unfold Cli.cmd_validate, Serializer.load.
  rewrite Hread. cbn [bind].
  assert (Htok : exists tokens, tokenize (S fuel) text = Done tokens).
  { unfold parse in Hparse. destruct (tokenize (S fuel) text); try discriminate. eauto. }
  destruct Htok as [tokens ->]. cbn [bind truthy orb]. rewrite Hparse. cbn [bind].
  cbn [evaluate]. rewrite Hinc. cbn [foldM snd].
  unfold process_include. unfold full_path_of in Hmiss. cbn [in_set existsb].
  rewrite Hmiss. cbn [bind is_ppc_error include_error exn_class_of].
  unfold exn_str, format_message. cbn [include_error exn_class_of exn_message exn_line exn_column].
  unfold lower. rewrite !map_app.
  change (map lower_char (lit "Include file not found: "))
    with (lit "include file " ++ lit "not found" ++ lit ": ").
  rewrite <- !app_assoc. rewrite has_substring_app. reflexivity.
Qed.

End ValidateFacts.

(** ** Strings, written and read *)

Section StringFacts.
Context {RT : PyRuntime}.
Import Lexer.

(** X20. [_read_string] reads back every string from what [_format_value]
    writes for it, and stops behind the closing quote. *)
Theorem read_string_format_value (s tail : str) (ln col : nat) :
  exists ln' col',
    read_string dquote (mkState (Serializer.format_value (VStr s) ++ tail) ln col) =
    (s, mkState tail ln' col').
Proof.
  cbn [Serializer.format_value]. rewrite <- !app_assoc. cbn [app].
  apply read_string_escape.
Qed.

End StringFacts.

(** ** Keys that hold a point *)

Section DottedKeys.
Context {RT : PyRuntime}.
Import Serializer.

(** X21. [dumps] writes a nested map under the names of its keys joined by
    a point, so a key that holds a point is written as a nesting: the
    tree with the map [d] under the key [k1.k2] and the tree with [d]
    under [k2] under [k1] give the same text. *)
Theorem dumps_dotted_key (k1 k2 : str) (d : dict) :
  k1 <> [] ->
  dumps [(k1 ++ lit "." ++ k2, VDict d)] = dumps [(k1, VDict [(k2, VDict d)])].
Proof.
  intros Hk. unfold dumps, dump_section. f_equal.
  destruct k1 as [| c k1]; [contradiction |].
  cbn [dump_value dump_simple simple_items filter snd is_dict negb app new_prefix].
  rewrite !app_nil_r. reflexivity.
Qed.

End DottedKeys.

(** ** The parser comes to an end *)

Section ParserTermination.
Context {RT : PyRuntime}.
Import Lexer Parser.

(** A step of the parser returns or raises, and leaves fewer tokens than
    [toks] (no more, for [shorter_eq]). *)
#[local] Abbreviation shorter toks :=
  (returns_with (fun r => List.length (snd r) < List.length toks)).
#[local] Abbreviation shorter_eq toks :=
  (returns_with (fun r => List.length (snd r) <= List.length toks)).

Lemma skip_indent_length toks : List.length (skip_indent toks) <= List.length toks.
Proof.
  induction toks as [| t toks IH]; cbn [skip_indent]; [lia |].
  destruct (TokenType_eqb (tk_type t) INDENT); cbn [List.length]; lia.
Qed.

Lemma advance_length toks : List.length (advance toks) <= List.length toks.
Proof. destruct toks; cbn; lia. Qed.

Lemma advance_current toks t :
  current toks = Some t -> S (List.length (advance toks)) = List.length toks.
Proof. destruct toks; [discriminate | reflexivity]. Qed.

Lemma current_type_is_current ty toks :
  current_type_is ty toks = true -> exists t, current toks = Some t.
Proof. unfold current_type_is. destruct (current toks); [eauto | discriminate]. Qed.

Lemma expect_shorter ty toks : shorter toks (expect ty toks).
Proof.
  unfold expect. destruct (current toks) as [t |] eqn:E; [| exact I].
  destruct (TokenType_eqb (tk_type t) ty); [| exact I].
  cbn [returns_with snd]. pose proof (advance_current _ _ E). lia.
Qed.

Lemma parse_default_shorter f pv node toks :
  (forall t, 3 * List.length t + 2 <= f -> shorter t (pv t)) ->
  3 * List.length (advance toks) + 2 <= f ->
  shorter_eq toks (parse_default pv node toks).
Proof.
  intros Hpv Hlen. unfold parse_default.
  destruct (current_type_is DEFAULT_OP toks); [| cbn; lia].
  apply (returns_with_bind _ _ _ _ (Hpv _ Hlen)).
  intros [d toks1] H. cbn [snd returns_with] in *.
  pose proof (advance_length toks). lia.
Qed.

Lemma parser_shorter (fuel : nat) :
  (forall toks, 3 * List.length toks + 2 <= fuel -> shorter toks (parse_value fuel toks)) /\
  (forall toks, 3 * List.length toks + 1 <= fuel -> shorter toks (parse_array fuel toks)) /\
  (forall toks items, 3 * List.length toks + 3 <= fuel ->
                      shorter_eq toks (parse_array_loop fuel toks items)).
Proof.
  induction fuel as [| fuel [IHv [IHa IHl]]].
  - repeat split; intros; lia.
  - repeat split.
    + intros toks Hlen. cbn [parse_value].
      pose proof (skip_indent_length toks) as Hs.
      destruct (current (skip_indent toks)) as [token |] eqn:E; [| exact I].
      pose proof (advance_current _ _ E) as Ha.
      assert (Hd : forall node,
                shorter toks (parse_default (parse_value fuel) node
                                (advance (skip_indent toks)))).
      { intros node.
        apply (returns_with_impl (fun r => List.length (snd r) <=
                                            List.length (advance (skip_indent toks))));
          [intros r Hr; lia |].
        apply (parse_default_shorter fuel); [exact IHv |].
        pose proof (advance_length (advance (skip_indent toks))). lia. }
      destruct (tk_type token); try exact I; try apply Hd.
      * unfold number_value. destruct (contains _ _);
          [destruct (float_of_str _) | destruct (py_int _)];
          cbn [bind]; try exact I; apply Hd.
      * apply (returns_with_bind (fun r => List.length (snd r) <
                                          List.length (skip_indent toks))).
        -- apply IHa. lia.
        -- intros [items toks1] H. cbn [snd returns_with] in *. lia.
    + intros toks Hlen. cbn [parse_array].
      apply (returns_with_bind _ _ _ _ (expect_shorter LBRACKET toks)).
      intros [t toks0] H0. cbn [snd] in H0.
      apply (returns_with_bind (fun r => List.length (snd r) <= List.length toks0)).
      * apply IHl. lia.
      * intros [items toks1] H1. cbn [snd] in H1.
        apply (returns_with_bind _ _ _ _ (expect_shorter RBRACKET toks1)).
        intros [t2 toks2] H2. cbn [snd returns_with] in *. lia.
    + intros toks items Hlen. cbn [parse_array_loop].
      destruct (current toks) as [t |] eqn:E; [| cbn; lia].
      destruct (TokenType_eqb (tk_type t) RBRACKET); [cbn; lia |].
      pose proof (skip_indent_length toks) as Hs.
      destruct (current (skip_indent toks)) as [t1 |] eqn:E1; [| exact I].
      destruct (TokenType_eqb (tk_type t1) RBRACKET); [cbn; lia |].
      apply (returns_with_bind (fun r => List.length (snd r) <
                                          List.length (skip_indent toks))).
      * apply IHv. lia.
      * intros [value_node toks2] H2. cbn [snd] in H2.
        pose proof (skip_indent_length toks2) as Hs2.
        pose proof (advance_length (skip_indent toks2)) as Ha2.
        destruct (current_type_is COMMA (skip_indent toks2));
          (eapply returns_with_impl; [| apply IHl; lia]);
          intros r Hr; cbn beta in *; lia.
Qed.

Lemma parse_assignment_shorter fuel toks :
  3 * List.length toks < fuel -> shorter toks (parse_assignment fuel toks).
Proof.
  intros Hlen. unfold parse_assignment.
  pose proof (skip_indent_length toks) as Hs.
  apply (returns_with_bind _ _ _ _ (expect_shorter KEY (skip_indent toks))).
  intros [key_token toks1] H1. cbn [snd] in H1.
  match goal with
  | |- returns_with _ (let (_, _) := ?x in _) =>
      assert (Hx : List.length (snd x) <= List.length toks1);
      [| destruct x as [hint toks2]]
  end.
  { destruct (current toks1) as [t |]; [| cbn; lia].
    destruct (TokenType_eqb (tk_type t) TYPE_HINT); cbn [snd];
      [apply advance_length | lia]. }
  cbn [snd] in Hx.
  apply (returns_with_bind _ _ _ _ (expect_shorter EQUALS toks2)).
  intros [t3 toks3] H3. cbn [snd] in H3.
  apply (returns_with_bind (fun r => List.length (snd r) < List.length toks3)).
  - apply (proj1 (parser_shorter fuel)). lia.
  - intros [value_node toks4] H4. cbn [snd returns_with] in *. lia.
Qed.

Lemma parse_section_assignments_shorter fuel :
  forall toks acc,
    3 * List.length toks + 1 < fuel ->
    shorter_eq toks (parse_section_assignments fuel toks acc).
Proof.
  induction fuel as [| fuel IH]; intros toks acc Hlen; [lia |].
  cbn [parse_section_assignments].
  destruct (current_type_is KEY toks); [| cbn; lia].
  apply (returns_with_bind (fun r => List.length (snd r) < List.length toks)).
  - apply parse_assignment_shorter. lia.
  - intros [a toks1] H1. cbn [snd] in H1.
    pose proof (skip_indent_length toks1) as Hs.
    eapply returns_with_impl; [| apply IH; lia].
    intros r Hr. cbn beta in *. lia.
Qed.

Lemma parse_conditional_sections_shorter fuel :
  forall toks acc,
    3 * List.length toks + 2 < fuel ->
    shorter_eq toks (parse_conditional_sections fuel toks acc).
Proof.
  induction fuel as [| fuel IH]; intros toks acc Hlen; [lia |].
  cbn [parse_conditional_sections].
  destruct (current toks) as [t |] eqn:E; [| cbn; lia].
  destruct (TokenType_eqb (tk_type t) SECTION); [| cbn; lia].
  pose proof (advance_current _ _ E) as Ha.
  pose proof (skip_indent_length (advance toks)) as Hs.
  apply (returns_with_bind (fun r => List.length (snd r) <=
                                      List.length (skip_indent (advance toks)))).
  - apply parse_section_assignments_shorter. lia.
  - intros [asg toks1] H1. cbn [snd] in H1.
    eapply returns_with_impl; [| apply IH; lia].
    intros r Hr. cbn beta in *. lia.
Qed.

Lemma parse_loop_returns fuel :
  forall toks cur ast,
    3 * List.length toks + 3 < fuel ->
    returns_with (fun _ : AST => True) (parse_loop fuel toks cur ast).
Proof.
  induction fuel as [| fuel IH]; intros toks cur ast Hlen; [lia |].
  cbn [parse_loop].
  match goal with |- returns_with _ (if ?b then _ else _) => destruct b end;
    [exact I |].
  pose proof (skip_indent_length toks) as Hs.
  destruct (current (skip_indent toks)) as [token |] eqn:E; [| exact I].
  pose proof (advance_current _ _ E) as Ha.
  assert (Hadv : forall cur' ast',
            returns_with (fun _ : AST => True)
              (parse_loop fuel (advance (skip_indent toks)) cur' ast'))
    by (intros; apply IH; lia).
  destruct (tk_type token); try exact I; try apply Hadv.
  - pose proof (skip_indent_length (advance (skip_indent toks))) as Hs2.
    apply (returns_with_bind (fun r => List.length (snd r) <=
                 List.length (skip_indent (advance (skip_indent toks))))).
    + apply parse_conditional_sections_shorter. lia.
    + intros [secs toks1] H1. cbn [snd] in H1. apply IH. lia.
  - apply (returns_with_bind (fun r => List.length (snd r) <
                                        List.length (skip_indent toks))).
    + apply parse_assignment_shorter. lia.
    + intros [a toks1] H1. cbn [snd] in H1. destruct cur; apply IH; lia.
Qed.

Lemma significant_length tokens :
  List.length (significant tokens) <= List.length tokens.
Proof. unfold significant. apply filter_length_le. Qed.

(** X22. The parser comes to an end on every list of tokens, whatever
    the tokens are: it returns a document or raises. Three rounds for a
    token, and three more, are enough. *)
Theorem parse_tokens_ends (fuel : nat) (tokens : list Token) :
  3 * List.length tokens + 3 < fuel ->
  parse_tokens fuel tokens <> Diverge.
Proof.
  intros Hlen. unfold parse_tokens.
  pose proof (significant_length tokens) as Hs.
  pose proof (parse_loop_returns fuel (significant tokens) None (mkAST [] [] [])
                ltac:(lia)) as H.
  destruct (parse_loop _ _ _ _); [discriminate | discriminate | contradiction].
Qed.

(** X23. On a text without an opening bracket [parse] always comes to an
    end: it returns a document, or raises a [LexerError] or a
    [ParseError]. *)
Theorem parse_ends_without_brackets (text : str) :
  contains "["%char text = false ->
  exists n, forall fuel, n <= fuel ->
    (exists ast, parse fuel text = Done ast) \/
    (exists e, parse fuel text = Raise e /\
               (exn_class_of e = LexerError \/ exn_class_of e = ParseError)).
Proof.
  intros Hclean.
  pose proof (tokenize_loop_returns (S (List.length text)) (init text) []
                (Nat.lt_succ_diag_r _) Hclean) as Hr.
  pose proof (tokenize_loop_ok (S (List.length text)) (init text) [] (Forall_nil _))
    as Hok.
  fold (tokenize (S (List.length text)) text) in Hr, Hok.
  destruct (tokenize (S (List.length text)) text) as [toks | e |] eqn:E;
    cbn [returns_with outcome_all] in *; [| | contradiction].
  - exists (Nat.max (S (List.length text)) (3 * List.length toks + 4)).
    intros fuel Hfuel. unfold parse.
    destruct (@tokenize_fuel _ (S (List.length text)) fuel text ltac:(lia)) as [Hd | Hd];
      rewrite E in Hd; [discriminate |].
    rewrite <- Hd. cbn [bind]. unfold parse_tokens.
    pose proof (significant_length toks) as Hs.
    pose proof (parse_loop_returns fuel (significant toks) None (mkAST [] [] [])
                  ltac:(lia)) as Hp.
    pose proof (parse_loop_ok fuel (significant toks) None (mkAST [] [] [])
                  (significant_closed toks Hok)) as Hc.
    destruct (parse_loop _ _ _ _) as [ast | e |];
      cbn [returns_with outcome_all] in *; [left; eauto | | contradiction].
    right. exists e. split; [reflexivity | right; exact Hc].
  - exists (S (List.length text)). intros fuel Hfuel. unfold parse.
    destruct (@tokenize_fuel _ (S (List.length text)) fuel text Hfuel) as [Hd | Hd];
      rewrite E in Hd; [discriminate |].
    rewrite <- Hd. cbn [bind]. right. exists e. split; [reflexivity | left; exact Hok].
Qed.

End ParserTermination.

(** ** The fixed order of an evaluation *)

Section OrderFacts.
Context {RT : PyRuntime}.
Import Lexer Parser Evaluator Config.

Lemma closed_tokens_end a t r :
  closed_tokens (a ++ t :: r) -> tk_type t = EOF -> r = [].
Proof.
  intros [pre [e [E [He Hpre]]]] Ht. revert pre E Hpre.
  induction a as [| x a IH]; intros pre E Hpre.
  - destruct pre as [| p pre]; cbn [app] in E.
    + injection E as _ ->. reflexivity.
    + injection E as <- _. apply Forall_inv in Hpre. destruct Hpre as [Hp _].
      contradiction.
  - destruct pre as [| p pre]; cbn [app] in E.
    + injection E as _ E. destruct a; discriminate.
    + injection E as _ E. apply (IH pre E). apply (Forall_inv_tail Hpre).
Qed.

Lemma text_headers_significant ty toks :
  ty = SECTION \/ ty = SECTION_WHEN \/ ty = INCLUDE ->
  text_headers ty (significant toks) = text_headers ty toks.
Proof.
  intros Hty. unfold text_headers, of_type, significant. f_equal.
  induction toks as [| t toks IH]; [reflexivity |].
  cbn [filter]. destruct (tk_type t) eqn:Et; cbn [TokenType_eqb orb negb filter];
    rewrite ?Et, IH; try reflexivity;
    destruct Hty as [-> | [-> | ->]]; reflexivity.
Qed.

(** The tree of a document keeps the order of its text. *)
Lemma parse_text_order fuel text toks ast :
  tokenize fuel text = Done toks -> parse fuel text = Done ast -> text_order toks ast.
Proof.
  intros Ht Hp.
  pose proof (tokenize_loop_ok fuel (init text) [] (Forall_nil _)) as Hc.
  fold (tokenize fuel text) in Hc. rewrite Ht in Hc. cbn [outcome_all] in Hc.
  unfold parse in Hp. rewrite Ht in Hp. cbn [bind] in Hp. unfold parse_tokens in Hp.
  destruct (parse_loop_order _ _ _ _ _ Hp)
    as [consumed [rest [U [C [E [Hrest [HI [HW [Hint [HC HS]]]]]]]]]].
  cbn [includes conditionals sections map app] in HI, HW, HC.
  unfold conditional_sections at 2 in HC. cbn [conditionals flat_map map app] in HC.
  assert (Hh : forall ty, ty = SECTION \/ ty = SECTION_WHEN \/ ty = INCLUDE ->
                          text_headers ty consumed = text_headers ty toks).
  { intros ty Hty. rewrite <- (text_headers_significant ty toks Hty), E.
    rewrite text_headers_app.
    destruct Hrest as [-> | [t [r [-> Hte]]]]; [rewrite app_nil_r; reflexivity |].
    pose proof (significant_closed toks Hc) as Hsc. rewrite E in Hsc.
    rewrite (closed_tokens_end _ _ _ Hsc Hte).
    unfold text_headers at 3, of_type. cbn [filter]. rewrite Hte.
    destruct Hty as [-> | [-> | ->]]; cbn [TokenType_eqb map]; rewrite app_nil_r;
      reflexivity. }
  unfold text_order. rewrite HI, HW, HC, <- !Hh by auto.
  split; [reflexivity |]. split; [reflexivity |].
  destruct HS as [HS | [[ln HS] _]]; cbn [sections map app] in HS.
  - exists (sections ast). split; [left; reflexivity |]. rewrite HS. exact Hint.
  - destruct (sections ast) as [| root named] eqn:Es; [discriminate |].
    cbn [map] in HS. injection HS as Hroot _ HS.
    exists named. split.
    + right. exists root. split; [reflexivity | exact Hroot].
    + rewrite HS. exact Hint.
Qed.

Variable env : environ.
Variable secret_provider : option (str -> option str).
Variable fs : FileSystem.
Variable parse_text : str -> outcome AST.

#[local] Abbreviation evaluate_value := (evaluate_value env secret_provider).
#[local] Abbreviation process_section := (process_section env secret_provider).
#[local] Abbreviation process_conditional := (process_conditional env secret_provider).
#[local] Abbreviation process_include := (process_include fs parse_text).
#[local] Abbreviation evaluate := (evaluate env secret_provider fs parse_text).
#[local] Abbreviation merge_step rec base_path :=
  (fun (acc : dict * list str) include =>
     '(included_data, fl) <- process_include rec base_path (snd acc) include ;;
     Done (deep_merge (fst acc) included_data, fl)).

Lemma foldM_in_turn {A S : Type} (f : S -> A -> outcome S) (l : list A) :
  forall s s', foldM f l s = Done s' <-> in_turn (fun s a s1 => f s a = Done s1) l s s'.
Proof.
  induction l as [| a l IH]; intros s s'; cbn [foldM].
  - split; [intros [= <-]; constructor | intros H; inversion H; reflexivity].
  - split.
    + intros H. apply bind_Done_inv in H. destruct H as [s1 [H1 H]].
      eapply in_turn_next; [exact H1 | apply IH; exact H].
    + intros H. inversion H as [| a0 l0 s0 s1 s2 H1 Hl]; subst.
      rewrite H1. cbn [bind]. apply IH. exact Hl.
Qed.

Lemma in_turn_ext {A S : Type} (R R' : S -> A -> S -> Prop) (l : list A) :
  (forall s a s1, R s a s1 <-> R' s a s1) ->
  forall s s', in_turn R l s s' <-> in_turn R' l s s'.
Proof.
  intros HR. induction l as [| a l IH]; intros s s'; split; intros H;
    inversion H; subst; try constructor.
  - eapply in_turn_next; [apply HR | apply IH]; eassumption.
  - eapply in_turn_next; [apply HR | apply IH]; eassumption.
Qed.

Lemma sections_in_turn secs data data' :
  foldM process_section secs data = Done data' <->
  in_turn (section_applied env secret_provider) secs data data'.
Proof. apply foldM_in_turn. Qed.

Lemma conditional_in_turn data c data' :
  process_conditional data c = Done data' <->
  conditional_applied env secret_provider data c data'.
Proof.
  unfold Evaluator.process_conditional, conditional_applied.
  destruct (evaluate_condition env (condition c)).
  - apply sections_in_turn.
  - split; [intros [= <-]; reflexivity | intros ->; reflexivity].
Qed.

Lemma include_in_turn rec base_path acc include acc' :
  merge_step rec base_path acc include = Done acc' <->
  include_applied fs parse_text rec base_path acc include acc'.
Proof.
  destruct acc as [acc files], acc' as [merged files']. cbn [snd fst].
  unfold Evaluator.process_include, include_applied. cbn [snd fst].
  fold (full_path_of fs base_path include).
  split.
  - destruct (in_set _ files) eqn:Eset; [discriminate |].
    destruct (read_text fs _) as [text | |] eqn:Er; cbn [bind]; try discriminate.
    destruct (parse_text text) as [included_ast | |] eqn:Ep; cbn [bind];
      try discriminate.
    destruct (rec _ included_ast _) as [[tree files1] | |] eqn:Erec; cbn [bind];
      try discriminate.
    intros [= <- <-]. exists text, included_ast, tree.
    repeat split; assumption.
  - intros [text [included_ast [tree [Eset [Er [Ep [Erec ->]]]]]]].
    rewrite Eset, Er. cbn [bind]. rewrite Ep. cbn [bind]. rewrite Erec. reflexivity.
Qed.

Lemma conditionals_idle conds :
  Forall (fun c => evaluate_condition env (condition c) = false) conds ->
  forall data, foldM process_conditional conds data = Done data.
Proof.
  intros H. induction H as [| c conds Hc _ IH]; intros data; cbn [foldM];
    [reflexivity |].
  unfold Evaluator.process_conditional at 1. rewrite Hc. cbn [bind]. apply IH.
Qed.

(** [evaluate] returns what the three steps give, in their order. *)
Lemma evaluate_steps fuel base_path ast files tree files' :
  evaluate (S fuel) base_path ast files = Done (tree, files') <->
  fixed_order env secret_provider fs parse_text (evaluate fuel) base_path ast files
    tree files'.
Proof.
  rewrite evaluate_S. unfold fixed_order. split.
  - intros H.
    apply bind_Done_inv in H. destruct H as [[merged files1] [H1 H]]. cbv beta iota in H.
    apply bind_Done_inv in H. destruct H as [d2 [H2 H]]. cbv beta in H.
    apply bind_Done_inv in H. destruct H as [d3 [H3 H]]. cbv beta in H.
    injection H as <- <-.
    exists merged, d2. split; [| split].
    + apply foldM_in_turn in H1.
      apply (in_turn_ext _ _ _ (include_in_turn (evaluate fuel) base_path)). exact H1.
    + apply sections_in_turn. exact H2.
    + apply foldM_in_turn in H3. apply (in_turn_ext _ _ _ conditional_in_turn). exact H3.
  - intros [merged [d2 [H1 [H2 H3]]]].
    apply (in_turn_ext _ _ _ (include_in_turn (evaluate fuel) base_path)) in H1.
    apply foldM_in_turn in H1. rewrite H1. cbn [bind].
    apply sections_in_turn in H2. rewrite H2. cbn [bind].
    apply (in_turn_ext _ _ _ conditional_in_turn) in H3.
    apply foldM_in_turn in H3. rewrite H3. reflexivity.
Qed.

(** What stands in the tree: the last assignment of the last conditional
    whose predicate holds; where no predicate holds, the last assignment
    of the last section of the document, whatever the includes have set;
    and where there is no section either, what the includes have
    given. *)
Lemma evaluate_last_write fuel base_path ast files tree files' :
  evaluate (S fuel) base_path ast files = Done (tree, files') ->
  (forall cs c ss s asgs a v,
     conditionals ast = cs ++ [c] ->
     evaluate_condition env (condition c) = true ->
     cn_sections c = ss ++ [s] ->
     assignments s = asgs ++ [a] ->
     evaluate_value (an_value a) = Done v ->
     get_parts (section_parts (name s) ++ [key a]) (VDict tree) = Some v) /\
  (forall ss s asgs a v,
     Forall (fun c => evaluate_condition env (condition c) = false) (conditionals ast) ->
     sections ast = ss ++ [s] ->
     assignments s = asgs ++ [a] ->
     evaluate_value (an_value a) = Done v ->
     get_parts (section_parts (name s) ++ [key a]) (VDict tree) = Some v) /\
  (Forall (fun c => evaluate_condition env (condition c) = false) (conditionals ast) ->
   sections ast = [] ->
   in_turn (include_applied fs parse_text (evaluate fuel) base_path) (includes ast)
     ([], files) (tree, files')).
Proof.
  intros H. rewrite evaluate_S in H.
  apply bind_Done_inv in H. destruct H as [[d1 f1] [H1 H]]. cbv beta iota in H.
  apply bind_Done_inv in H. destruct H as [d2 [H2 H]]. cbv beta in H.
  apply bind_Done_inv in H. destruct H as [d3 [H3 H]]. cbv beta in H.
  injection H as <- <-.
  split; [| split].
  - intros cs c ss s asgs a v Hcs Hc Hss Ha Hv.
    rewrite Hcs, foldM_app in H3.
    apply bind_Done_inv in H3. destruct H3 as [d4 [_ H3]]. cbv beta in H3.
    cbn [foldM] in H3. apply bind_Done_inv in H3. destruct H3 as [d5 [H3 Hd]].
    cbv beta in Hd. injection Hd as <-.
    unfold Evaluator.process_conditional in H3. rewrite Hc, Hss, foldM_app in H3.
    apply bind_Done_inv in H3. destruct H3 as [d6 [_ H3]]. cbv beta in H3.
    cbn [foldM] in H3. apply bind_Done_inv in H3. destruct H3 as [d7 [H3 Hd]].
    cbv beta in Hd. injection Hd as <-.
    eapply process_section_last; eauto.
  - intros ss s asgs a v Hfalse Hss Ha Hv.
    rewrite (conditionals_idle _ Hfalse) in H3. injection H3 as <-.
    rewrite Hss, foldM_app in H2.
    apply bind_Done_inv in H2. destruct H2 as [d4 [_ H2]]. cbv beta in H2.
    cbn [foldM] in H2. apply bind_Done_inv in H2. destruct H2 as [d5 [H2 Hd]].
    cbv beta in Hd. injection Hd as <-.
    eapply process_section_last; eauto.
  - intros Hfalse Hsecs.
    rewrite (conditionals_idle _ Hfalse) in H3. injection H3 as <-.
    rewrite Hsecs in H2. cbn [foldM] in H2. injection H2 as <-.
    apply foldM_in_turn in H1.
    apply (in_turn_ext _ _ _ (include_in_turn (evaluate fuel) base_path)). exact H1.
Qed.


End OrderFacts.

(** * The statements at work on the examples *)

(** Closes an equation by evaluating its left-hand side. *)
Ltac vm_refl :=
  match goal with
  | |- _ = ?r => vm_cast_no_check (@eq_refl _ r)
  end.

(** [x :: foo = null]: the hint names no type and the load succeeds. *)
Lemma unknown_hint_null_passes :
  Serializer.loads empty_env (flat_fs []) 10 unknown_hint_document None None None =
  Done [(lit "x", VNone)].
Proof. vm_refl. Qed.

Lemma merge_laws_witness :
  wf_dict sample_tree = true /\
  Config.merge sample_tree sample_tree = sample_tree /\
  wf_dict sample_override = true /\
  dict_get (lit "db") (Config.merge sample_tree sample_override) =
    merged_entry sample_tree sample_override (lit "db").
Proof.
  destruct (@merge_laws example_runtime) as [_ [Hself Hget]].
  split; [reflexivity |].
  split; [apply Hself; reflexivity |].
  split; [reflexivity |].
  apply Hget. reflexivity.
Defined.

Lemma env_secret_empty_falls_through_witness :
  empty_secret_env (lit "SECRET_" ++ lit "TOKEN") = Some [] /\
  Secrets.get empty_secret_env (Secrets.EnvSecretProvider (lit "SECRET_")) (lit "TOKEN") =
    Some (lit "s3cr3t").
Proof.
  split; [reflexivity |].
  exact (proj1 (@env_secret_empty_falls_through empty_secret_env (lit "TOKEN") eq_refl)).
Defined.

Lemma env_default_port_witness :
  10 <= 12 /\
  empty_env (lit "PORT") = None /\
  Serializer.loads empty_env (flat_fs []) 12 port_document None None None =
    Done [(lit "port", VInt 8080)] /\
  env_with (lit "PORT") (lit "9090") (lit "PORT") = Some (lit "9090") /\
  Serializer.loads (env_with (lit "PORT") (lit "9090")) (flat_fs []) 12
    port_document None None None = Done [(lit "port", VInt 9090)].
Proof.
  assert (Hle : 10 <= 12) by lia.
  split; [exact Hle |].
  split; [reflexivity |].
  split.
  - exact (proj1 (@env_default_port example_runtime empty_env (flat_fs []) 12
                    None None None Hle) eq_refl).
  - split; [reflexivity |].
    exact (proj2 (@env_default_port example_runtime
                    (env_with (lit "PORT") (lit "9090")) (flat_fs []) 12
                    None None None Hle) eq_refl).
Defined.

Lemma unknown_hint_raises_after_resolution_witness :
  Parser.type_hint odd_hint_node = Some (lit "foo") /\
  Types.type_map_get (strip (lower (lit "foo"))) Types.type_map = None /\
  Evaluator.evaluate_value empty_env None odd_hint_node =
    Raise (Evaluator.evaluation_error (lit "Unknown type: foo") 3).
Proof.
  split; [reflexivity |].
  split; [reflexivity |].
  rewrite (@unknown_hint_raises_after_resolution example_runtime empty_env None
             odd_hint_node (lit "foo") eq_refl eq_refl).
  reflexivity.
Defined.

Lemma numeric_coercion_failures_witness :
  10 <= 12 /\
  Serializer.loads empty_env (flat_fs []) 12 age_document None None None =
    Raise (Evaluator.evaluation_error
             (lit "Cannot convert 'notanumber' to int (line 1)") 1) /\
  Types.validate_type (VStr (lit "42")) Types.INT None = Done (VInt 42) /\
  Types.is_bool (VStr (lit "42")) = false /\
  Types.validate_type (VStr (lit "4x")) Types.FLOAT (Some 2) =
    Raise (Types.type_error (lit "Cannot convert '4x' to float") (Some 2)).
Proof.
  assert (Hle : 10 <= 12) by lia.
  destruct (@numeric_coercion_failures example_runtime empty_env None (flat_fs []))
    as [Hint [_ [_ [Hstr [_ Hdocs]]]]].
  split; [exact Hle |].
  split; [exact (proj1 (Hdocs 12 None None None Hle)) |].
  assert (Hv : Types.validate_type (VStr (lit "42")) Types.INT None = Done (VInt 42))
    by reflexivity.
  split; [exact Hv |].
  split; [exact (proj1 (proj1 (Hint _ _ _) Hv)) |].
  exact (proj2 (Hstr (lit "4x") (Some 2)) eq_refl).
Defined.

(** Evaluating [age :: int = "notanumber"] raises an error of the class
    [EvaluationError], which is not the class of the type errors; its
    text names the line twice, once for the type error that it wraps. *)
Lemma coercion_failure_is_evaluation_error :
  exists e,
    Serializer.loads empty_env (flat_fs []) 12 age_document None None None = Raise e /\
    exn_class_of e = EvaluationError /\
    exn_class_of e <> TypeError /\
    exn_str e = lit "Cannot convert 'notanumber' to int (line 1) (line 1)".
Proof.
  exists (Evaluator.evaluation_error
            (lit "Cannot convert 'notanumber' to int (line 1)") 1).
  split; [vm_refl |]. split; [reflexivity |]. split; [discriminate | reflexivity].
Qed.


Lemma circular_include_raises_witness :
  Parser.parse 3 (lit "@include b.ppc") = Done (including (lit "b.ppc")) /\
  Parser.parse 3 (lit "@include a.ppc") = Done (including (lit "a.ppc")) /\
  Serializer.load empty_env (flat_fs cycle_files) 5 (lit "a.ppc") None None None =
    Raise (Evaluator.include_error (lit "Circular include detected: b.ppc") 1).
Proof.
  assert (Ha : Parser.parse 3 (lit "@include b.ppc") = Done (including (lit "b.ppc")))
    by (vm_refl).
  assert (Hb : Parser.parse 3 (lit "@include a.ppc") = Done (including (lit "a.ppc")))
    by (vm_refl).
  split; [exact Ha |]. split; [exact Hb |].
  refine (proj2 (@circular_include_raises example_runtime empty_env
                   (flat_fs cycle_files))
            3 5 (lit "a.ppc") (lit "@include b.ppc") (lit "@include a.ppc")
            (including (lit "b.ppc")) (including (lit "a.ppc"))
            (include_of (lit "b.ppc")) (include_of (lit "a.ppc")) [] [] None None
            eq_refl Ha eq_refl eq_refl Hb eq_refl eq_refl _ eq_refl _ _).
  - discriminate.
  - lia.
  - lia.
Defined.

(** File A includes C and then B, and B includes A: loading A raises the
    error of a circular include that names C, a file that includes
    nothing. Where the include that stands first in A names no file,
    loading A raises the error of the missing file. *)
Lemma circular_include_names_other_file :
  Serializer.load empty_env (flat_fs detour_files) 12 (lit "a.ppc") None None None =
    Raise (Evaluator.include_error (lit "Circular include detected: c.ppc") 1) /\
  Serializer.load empty_env (flat_fs [(lit "c.ppc", lit "x = 1")]) 12 (lit "c.ppc")
    None None None = Done [(lit "x", VInt 1)] /\
  Serializer.load empty_env
    (flat_fs [ (lit "a.ppc", lit "@include zz.ppc" ++ [newline] ++ lit "@include b.ppc");
               (lit "b.ppc", lit "@include a.ppc") ])
    12 (lit "a.ppc") None None None =
    Raise (Evaluator.include_error (lit "Include file not found: zz.ppc") 1).
Proof. split; [vm_refl |]. split; vm_refl. Qed.

(** A tree of one integer under a key of two words is written as a line
    that the parser rejects; a tree with an empty nested map is read back
    as the empty tree. *)
Lemma round_trip_breaks :
  Serializer.dumps spaced_key_tree = lit "  my key = 1" ++ [newline] /\
  Serializer.loads empty_env (flat_fs []) 10 (Serializer.dumps spaced_key_tree)
    None None None =
    Raise (Parser.parse_error (lit "Expected EQUALS, got KEY") (Some 1)) /\
  Serializer.loads empty_env (flat_fs []) 10 (Serializer.dumps empty_map_tree)
    None None None = Done [] /\
  ~ deep_equal (VDict empty_map_tree) (VDict []).
Proof.
  split; [vm_refl |]. split; [vm_refl |]. split; [vm_refl |].
  intros H. inversion H; discriminate.
Qed.

Lemma literal_tree_round_trip_witness :
  literal_tree (VDict round_tree) /\
  exists r,
    settles (fun fuel =>
               Serializer.loads empty_env (flat_fs []) fuel
                 (Serializer.dumps round_tree) None None None) r /\
    deep_equal (VDict round_tree) (VDict r).
Proof.
  assert (H : literal_tree (VDict round_tree)).
  { cbn [literal_tree round_tree map fst]. repeat split; try reflexivity;
      try discriminate; repeat constructor. }
  split; [exact H |].
  exact (@literal_tree_round_trip example_runtime empty_env (flat_fs []) None
           round_tree H).
Defined.

(** * The further statements at work on examples *)

Lemma validate_type_settles_witness :
  Types.validate_type (VStr (lit "42")) Types.INT None = Done (VInt 42) /\
  TypeTools.infer_type (VInt 42) = Types.INT /\
  Types.validate_type (VInt 42) Types.INT (Some 3) = Done (VInt 42).
Proof.
  assert (H : Types.validate_type (VStr (lit "42")) Types.INT None = Done (VInt 42))
    by reflexivity.
  destruct (@validate_type_settles example_runtime _ _ _ _ H) as [Ht Hv].
  split; [exact H |]. split; [apply Ht; discriminate | apply Hv].
Defined.

Lemma parse_value_format_value_witness :
  forallb (fun c => negb (Ascii.eqb c backslash || Ascii.eqb c dquote)) (lit "a b") = true /\
  TypeTools.parse_value (Serializer.format_value (VStr (lit "a b"))) = VStr (lit "a b").
Proof.
  split; [reflexivity |].
  exact (@parse_value_format_value example_runtime (VStr (lit "a b")) eq_refl).
Defined.

Lemma dict_provider_set_delete_witness :
  NoDup (map fst [(lit "a", lit "1"); (lit "b", lit "2")]) /\
  Secrets.get empty_env
    (Secrets.DictSecretProvider
       (SecretStore.set (lit "b") (lit "3") [(lit "a", lit "1"); (lit "b", lit "2")]))
    (lit "b") = Some (lit "3") /\
  Secrets.get empty_env
    (Secrets.DictSecretProvider
       (SecretStore.delete (lit "b") [(lit "a", lit "1"); (lit "b", lit "2")]))
    (lit "b") = None.
Proof.
  assert (H : NoDup (map fst [(lit "a", lit "1"); (lit "b", lit "2")])).
  { cbn [map fst]. constructor; [intros [E | []]; discriminate |].
    constructor; [intros [] | constructor]. }
  destruct (dict_provider_set_delete empty_env _ (lit "b") (lit "3") H)
    as [Hset [Hdel _]].
  split; [exact H |]. split; [exact Hset | exact Hdel].
Defined.

Lemma set_nested_get_nested_witness :
  ConfigPaths.set_nested [] (lit "a.b") (VInt 1) =
    Done [(lit "a", VDict [(lit "b", VInt 1)])] /\
  Config.get_nested [(lit "a", VDict [(lit "b", VInt 1)])] (lit "a.b") = Some (VInt 1).
Proof.
  assert (H : ConfigPaths.set_nested [] (lit "a.b") (VInt 1) =
              Done [(lit "a", VDict [(lit "b", VInt 1)])]) by reflexivity.
  split; [exact H |].
  exact (@set_nested_get_nested example_runtime _ _ _ _ H).
Defined.

Lemma merge_keys_witness :
  NoDup (keys sample_override) /\
  keys (Config.merge sample_tree sample_override) =
  keys sample_tree ++ filter (fun k => negb (dict_mem k sample_tree)) (keys sample_override).
Proof.
  assert (H : NoDup (keys sample_override)).
  { constructor; [intros [E | []]; discriminate |].
    constructor; [intros [] | constructor]. }
  split; [exact H |].
  exact (@merge_keys example_runtime sample_tree sample_override H).
Defined.

Lemma array_reference_ignores_default_witness :
  Parser.env_var port_reference = Some (lit "PORT") /\
  Evaluator.evaluate_array empty_env None [Parser.array_item port_reference] =
    Done [VNone] /\
  Evaluator.evaluate_value empty_env None port_reference = Done (VInt 8080).
Proof.
  split; [reflexivity |].
  destruct (proj2 (@array_reference_ignores_default example_runtime empty_env None
                     port_reference "P"%char (lit "ORT") eq_refl)
              _ eq_refl eq_refl eq_refl) as [Ha Hv].
  split; [exact Ha |]. rewrite Hv. reflexivity.
Defined.

Lemma section_through_scalar_witness :
  Evaluator.section_parts (lit "a.b") = [lit "a"; lit "b"] /\
  exists e,
    Evaluator.process_section empty_env None [(lit "a", VInt 1)]
      (Parser.mkSectionNode (lit "a.b") [] 1) = Raise e /\
    exn_class_of e = Builtin PyTypeError.
Proof.
  split; [reflexivity |].
  refine (@section_through_scalar example_runtime empty_env None [(lit "a", VInt 1)]
            (Parser.mkSectionNode (lit "a.b") [] 1) (lit "a") [lit "b"] (VInt 1)
            eq_refl eq_refl eq_refl (or_introl _)).
  discriminate.
Defined.

Lemma include_not_found_witness :
  Evaluator.read_text (flat_fs []) (lit "b.ppc") = Evaluator.ReadNotFound /\
  Evaluator.evaluate empty_env None (flat_fs []) (Parser.parse 10) 3 []
    (including (lit "b.ppc")) [] =
  Raise (Evaluator.include_error (lit "Include file not found: b.ppc") 1).
Proof.
  split; [reflexivity |].
  exact (@include_not_found example_runtime empty_env None (flat_fs []) (Parser.parse 10)
           2 [] (including (lit "b.ppc")) [] (include_of (lit "b.ppc")) []
           eq_refl eq_refl eq_refl).
Defined.

Lemma include_twice_is_circular_witness :
  Evaluator.evaluate empty_env None (flat_fs part_files) (Parser.parse 10) 3 []
    (including (lit "b.ppc")) [] =
    Done ([(lit "x", VInt 1)], [lit "b.ppc"]) /\
  Evaluator.evaluate empty_env None (flat_fs part_files) (Parser.parse 10) 3 []
    (Parser.mkAST [] [] [include_of (lit "b.ppc"); include_of (lit "b.ppc")]) [] =
  Raise (Evaluator.include_error (lit "Circular include detected: b.ppc") 1).
Proof.
  assert (H : Evaluator.evaluate empty_env None (flat_fs part_files) (Parser.parse 10) 3 []
                (including (lit "b.ppc")) [] =
              Done ([(lit "x", VInt 1)], [lit "b.ppc"])) by vm_refl.
  split; [exact H |].
  exact (@include_twice_is_circular example_runtime empty_env None (flat_fs part_files)
           (Parser.parse 10) 2 [] [] [] (include_of (lit "b.ppc"))
           (include_of (lit "b.ppc")) [] [] _ eq_refl H).
Defined.

Lemma tokenize_outcome_witness :
  Lexer.tokenize 10 (lit "x = 1") = Done assignment_tokens /\
  exists pre e,
    assignment_tokens = pre ++ [e] /\ Lexer.tk_type e = Lexer.EOF /\
    Forall (fun t => Lexer.tk_type t <> Lexer.EOF /\
                     (Lexer.tk_type t = Lexer.NUMBER ->
                      numeric (Lexer.tk_value t) = true)) pre.
Proof.
  assert (H : Lexer.tokenize 10 (lit "x = 1") = Done assignment_tokens) by vm_refl.
  split; [exact H |].
  exact (proj1 (@tokenize_outcome example_runtime 10 (lit "x = 1")) _ H).
Defined.

Lemma parse_raises_lexer_or_parse_error_witness :
  Parser.parse 10 (lit "my key = 1") =
    Raise (Parser.parse_error (lit "Expected EQUALS, got KEY") (Some 1)) /\
  (exn_class_of (Parser.parse_error (lit "Expected EQUALS, got KEY") (Some 1)) = LexerError \/
   exn_class_of (Parser.parse_error (lit "Expected EQUALS, got KEY") (Some 1)) = ParseError).
Proof.
  assert (H : Parser.parse 10 (lit "my key = 1") =
              Raise (Parser.parse_error (lit "Expected EQUALS, got KEY") (Some 1)))
    by vm_refl.
  split; [exact H |].
  exact (@parse_raises_lexer_or_parse_error example_runtime 10 _ _ H).
Defined.

Lemma conditional_takes_following_sections_witness :
  Parser.parse_conditional_sections 10 two_sections_tokens [] =
    Done (two_sections, [Lexer.mkToken Lexer.EOF [] 4 5]) /\
  exists consumed more,
    two_sections_tokens = consumed ++ [Lexer.mkToken Lexer.EOF [] 4 5] /\
    two_sections = [] ++ more /\
    map section_header more = text_headers Lexer.SECTION consumed /\
    text_headers Lexer.SECTION_WHEN consumed = [] /\
    text_headers Lexer.INCLUDE consumed = [] /\
    Parser.current_type_is Lexer.SECTION [Lexer.mkToken Lexer.EOF [] 4 5] = false.
Proof.
  assert (H : Parser.parse_conditional_sections 10 two_sections_tokens [] =
              Done (two_sections, [Lexer.mkToken Lexer.EOF [] 4 5])) by vm_refl.
  split; [exact H |].
  exact (@conditional_takes_following_sections example_runtime 10 _ _ _ _ H).
Defined.

Lemma format_written_text_witness :
  literal_tree (VDict round_tree) /\
  settles (fun fuel =>
             Cli.format_text empty_env (flat_fs []) fuel (Serializer.dumps round_tree))
          (Serializer.dumps round_tree).
Proof.
  assert (H : literal_tree (VDict round_tree)).
  { cbn [literal_tree round_tree map fst]. repeat split; try reflexivity;
      try discriminate; repeat constructor. }
  split; [exact H |].
  exact (@format_written_text example_runtime empty_env (flat_fs []) round_tree H).
Defined.

Lemma tokenize_ends_without_brackets_witness :
  contains "["%char (lit "x = ${PORT:-1}") = false /\
  List.length (lit "x = ${PORT:-1}") < 20 /\
  ((exists toks, Lexer.tokenize 20 (lit "x = ${PORT:-1}") = Done toks) \/
   (exists e, Lexer.tokenize 20 (lit "x = ${PORT:-1}") = Raise e /\
              exn_class_of e = LexerError)).
Proof.
  assert (Hc : contains "["%char (lit "x = ${PORT:-1}") = false) by reflexivity.
  assert (Hl : List.length (lit "x = ${PORT:-1}") < 20) by (cbn; lia).
  split; [exact Hc |]. split; [exact Hl |].
  exact (@tokenize_ends_without_brackets example_runtime 20 _ Hc Hl).
Defined.


Lemma validate_accepts_missing_include_witness :
  Evaluator.read_text (flat_fs one_include_files) (lit "a.ppc") =
    Evaluator.ReadOk (lit "@include b.ppc") /\
  Evaluator.read_text (flat_fs one_include_files) (lit "b.ppc") = Evaluator.ReadNotFound /\
  Cli.cmd_validate empty_env (flat_fs one_include_files) 3 (lit "a.ppc") =
    Done (lit "[OK] a.ppc is valid").
Proof.
  split; [reflexivity |]. split; [reflexivity |].
  refine (@validate_accepts_missing_include example_runtime empty_env
            (flat_fs one_include_files) 2 (lit "a.ppc") (lit "@include b.ppc")
            (including (lit "b.ppc")) (include_of (lit "b.ppc")) []
            eq_refl _ eq_refl eq_refl).
  vm_refl.
Defined.

Lemma dumps_dotted_key_witness :
  lit "db" <> [] /\
  Serializer.dumps [(lit "db.pool", VDict [(lit "size", VInt 3)])] =
  Serializer.dumps [(lit "db", VDict [(lit "pool", VDict [(lit "size", VInt 3)])])].
Proof.
  assert (H : lit "db" <> []) by discriminate.
  split; [exact H |].
  exact (@dumps_dotted_key example_runtime (lit "db") (lit "pool")
           [(lit "size", VInt 3)] H).
Defined.

Lemma parse_tokens_ends_witness :
  3 * List.length two_sections_tokens + 3 < 30 /\
  Parser.parse_tokens 30 two_sections_tokens <> Diverge.
Proof.
  assert (H : 3 * List.length two_sections_tokens + 3 < 30) by (cbn; lia).
  split; [exact H |].
  exact (@parse_tokens_ends example_runtime 30 two_sections_tokens H).
Defined.

Lemma parse_ends_without_brackets_witness :
  contains "["%char (lit "x = ${PORT:-1}") = false /\
  exists n, forall fuel, n <= fuel ->
    (exists ast, Parser.parse fuel (lit "x = ${PORT:-1}") = Done ast) \/
    (exists e, Parser.parse fuel (lit "x = ${PORT:-1}") = Raise e /\
               (exn_class_of e = LexerError \/ exn_class_of e = ParseError)).
Proof.
  assert (H : contains "["%char (lit "x = ${PORT:-1}") = false) by reflexivity.
  split; [exact H |].
  exact (@parse_ends_without_brackets example_runtime _ H).
Defined.
